(** * 2DHullAndTriangulation: QuickHull, hull peeling, cluster peeling,
      trisection triangulation and triangle cleanup

    Shallow embedding of [2DHull/2DHull.cpp] and
    [2DTriangulation/2DTriangulation.cpp].

    Modelling conventions.
    - A C++ [int] is a [Z].  The products and sums of the line score
      ([dist]) and of the squared distance ([pythagorean]) are computed as
      the machine computes them, in 32 bits with wrap-around: [int_add],
      [int_sub], [int_mul] and [int_abs] bring every result back into
      [-2^31, 2^31).  For coordinates of absolute value at most 16383
      ([in_range]) nothing wraps and the values are the exact ones
      (lemmas [dist_exact] and [pythagorean_exact]).  The other [int]
      expressions of the program (counters, sizes, window coordinates) are
      written in [Z].
    - [vector<T>] is [list T]; [push_back] appends at the end.
    - The process-wide [global] structure is a record that every operation
      receives and returns (explicit state passing).
    - Recursion and [while] loops that the source does not bound take a
      [fuel] argument and return [None] when it runs out.
    - [sqrt] followed by the conversion to [int] is [Z.sqrt], the integer
      truncation of the square root, when the argument is not negative.  A
      squared distance that has wrapped to a negative [int] gives a NaN,
      whose conversion to [int] is [INT_MIN] on the x86 processors that the
      program is built for.
    - The fields that [convex_hull] leaves uninitialised ([minPoint.y],
      [maxPoint.y]) hold an indeterminate value, supplied by a function
      [indet] of the scanned point list. *)

From Stdlib Require Import ZArith List Bool Lia Permutation Ascii.
Import ListNotations.
Open Scope Z_scope.

(** ** Data model shared by both programs *)

(** [struct point { int x, y; }], [struct edge { point p1, p2; }] and
    [struct tri { point p1, p2, p3; }].  The projections carry a prefix
    ([px] for [x], [e_p1] and [t_p1] for [p1]) because [edge] and [tri]
    share their field names in the source. *)
Record point : Type := mkPoint { px : Z; py : Z }.
Record edge : Type := mkEdge { e_p1 : point; e_p2 : point }.
Record tri : Type := mkTri { t_p1 : point; t_p2 : point; t_p3 : point }.

(** [p.x == q.x && p.y == q.y] *)
Definition same_point (p q : point) : bool :=
  (px p =? px q) && (py p =? py q).

(** *** The arithmetic of [int] *)

(** The value of a 32-bit [int] expression: the mathematical result brought
    back into [-2^31, 2^31) modulo 2^32. *)
Definition INT_MIN : Z := - 2 ^ 31.

Definition wrap (z : Z) : Z := (z + 2 ^ 31) mod 2 ^ 32 - 2 ^ 31.

Definition int_add (a b : Z) : Z := wrap (a + b).
Definition int_sub (a b : Z) : Z := wrap (a - b).
Definition int_mul (a b : Z) : Z := wrap (a * b).

(** [abs] of [<stdlib.h>] on an [int]. *)
Definition int_abs (a : Z) : Z := wrap (Z.abs a).

(** The signed score of [p3] against the line through [p1] and [p2]:
    [a*x + b*y + c] with [a = p1.y - p2.y], [b = p2.x - p1.x],
    [c = p1.x*p2.y - p1.y*p2.x], all of them [int].  It is written inline
    in [quick_hull] and [peel], and is the function [dist] of the
    triangulation program (which adds the three terms in the same
    order). *)
Definition dist (p1 p2 p3 : point) : Z :=
  let a := int_sub (py p1) (py p2) in
  let b := int_sub (px p2) (px p1) in
  let c := int_sub (int_mul (px p1) (py p2)) (int_mul (py p1) (px p2)) in
  int_add (int_add (int_mul a (px p3)) (int_mul b (py p3))) c.

(** The [int] expression under the [sqrt] of [pythagorean]. *)
Definition sq_dist (p1 p2 : point) : Z :=
  int_add (int_mul (int_sub (px p2) (px p1)) (int_sub (px p2) (px p1)))
          (int_mul (int_sub (py p2) (py p1)) (int_sub (py p2) (py p1))).

(** [int pythagorean(point p1, point p2)]: the square root of that [int],
    truncated by the conversion to [int]. *)
Definition pythagorean (p1 p2 : point) : Z :=
  let s := sq_dist p1 p2 in
  if s <? 0 then INT_MIN else Z.sqrt s.

Arguments wrap : simpl never.
Arguments dist : simpl never.
Arguments sq_dist : simpl never.
Arguments pythagorean : simpl never.

(** *** QuickHull (identical in both programs) *)

(** One iteration of the scan of [quick_hull]: the state is [(pMax, maxD)]. *)
Definition hull_scan_step (p1 p2 : point) (st : point * Z) (p : point)
  : point * Z :=
  let '(pMax, maxD) := st in
  if negb (same_point p p1 || same_point p p2) then
    let d := dist p1 p2 p in
    if d >? maxD then (p, d) else (pMax, maxD)
  else (pMax, maxD).

Definition hull_scan (points : list point) (p1 p2 : point) : point * Z :=
  fold_left (hull_scan_step p1 p2) points (mkPoint 0 0, 0).

(** [quick_hull(points, p1, p2)], threading [global.edges]. *)
Fixpoint quick_hull (fuel : nat) (points : list point) (p1 p2 : point)
  (edges : list edge) : option (list edge) :=
  match fuel with
  | O => None
  | S fuel' =>
      let '(pMax, maxD) := hull_scan points p1 p2 in
      if maxD =? 0 then Some (edges ++ [mkEdge p1 p2])
      else
        match quick_hull fuel' points p1 pMax edges with
        | None => None
        | Some edges1 => quick_hull fuel' points pMax p2 edges1
        end
  end.

(** The min/max scan of [convex_hull]: the state is [(minPoint, maxPoint)]. *)
Definition minmax_step (st : point * point) (p : point) : point * point :=
  let '(minPoint, maxPoint) := st in
  let minPoint' := if px p <? px minPoint then p else minPoint in
  let maxPoint' := if px p >? px maxPoint then p else maxPoint in
  (minPoint', maxPoint').

Definition minmax (w : Z) (indet : list point -> Z * Z) (points : list point)
  : point * point :=
  fold_left minmax_step points
    (mkPoint w (fst (indet points)), mkPoint (-1) (snd (indet points))).

(** The body of [convex_hull] on the threaded edge vector. *)
Definition hull_edges (fuel : nat) (w : Z) (indet : list point -> Z * Z)
  (points : list point) (edges : list edge) : option (list edge) :=
  if (length points <? 3)%nat then Some edges
  else
    let '(minPoint, maxPoint) := minmax w indet points in
    match quick_hull fuel points minPoint maxPoint edges with
    | None => None
    | Some edges1 => quick_hull fuel points maxPoint minPoint edges1
    end.

(** ** The hull program, [2DHull/2DHull.cpp] *)

Module Hull.

(** The fields of [glob] that the geometric core reads or writes
    ([coords], [mouseDraw] and [shuffled] belong to the point producers). *)
Record glob : Type := mkGlob {
  w : Z;
  h : Z;
  n : Z;
  points : list point;
  edges : list edge;
  clusters : Z;
  clustering : bool
}.

Definition set_edges (g : glob) (es : list edge) : glob :=
  mkGlob (w g) (h g) (n g) (points g) es (clusters g) (clustering g).

Definition set_points (g : glob) (ps : list point) : glob :=
  mkGlob (w g) (h g) (n g) ps (edges g) (clusters g) (clustering g).

Definition set_clustering (g : glob) (b : bool) : glob :=
  mkGlob (w g) (h g) (n g) (points g) (edges g) (clusters g) b.

(** [void convex_hull(vector<point> points)]: the new edges are pushed on
    [global.edges], which is not cleared. *)
Definition convex_hull (fuel : nat) (indet : list point -> Z * Z) (g : glob)
  (pts : list point) : option glob :=
  match hull_edges fuel (w g) indet pts (edges g) with
  | None => None
  | Some es => Some (set_edges g es)
  end.

(** The inner loop of [peel]: [pointExists] after scanning [global.edges]. *)
Definition pointExists (es : list edge) (p : point) : bool :=
  existsb (fun e => dist (e_p1 e) (e_p2 e) p =? 0) es.

(** The [while (points.size() > 2)] loop of [peel]; the result is the global
    state and the local [points] vector when the loop exits. *)
Fixpoint peel_loop (fuel : nat) (indet : list point -> Z * Z) (g : glob)
  (pts : list point) : option (glob * list point) :=
  match fuel with
  | O => None
  | S fuel' =>
      if (2 <? length pts)%nat then
        match convex_hull fuel' indet g pts with
        | None => None
        | Some g1 =>
            let newPoints :=
              filter (fun p => negb (pointExists (edges g1) p)) pts in
            peel_loop fuel' indet g1 newPoints
        end
      else Some (g, pts)
  end.

(** What [peel] prints: "Peel completed with <points> points and <edges>
    edges." *)
Record report : Type := mkReport { rep_points : nat; rep_edges : nat }.

(** [void peel(vector<point> points)]: the final global state, the local
    [points] left when the loop exits, and the printed counts. *)
Definition peel (fuel : nat) (indet : list point -> Z * Z) (g : glob)
  (pts : list point) : option (glob * list point * report) :=
  match peel_loop fuel indet g pts with
  | None => None
  | Some (g1, rest) =>
      let r := mkReport (length (points g1)) (length (edges g1)) in
      let g2 := if clustering g1 then g1 else set_points g1 [] in
      Some (g2, rest, r)
  end.

(** The comparison [clusterPoints.size() < global.n / global.clusters]
    converts the [int] quotient to [size_t].  ([clusters = 0] is a division
    by zero in the source; here the quotient is then 0.) *)
Definition to_size_t (z : Z) : Z := z mod 2 ^ 64.

Definition cluster_target (g : glob) : Z :=
  to_size_t (Z.quot (n g) (clusters g)).

(** The [for] loop inside the growth loop: one pass over [global.points] at
    radius [dist], leaving as soon as the cluster is full. *)
Fixpoint grow_pass (target dist : Z) (seed : point) (cluster pts : list point)
  : list point :=
  match pts with
  | [] => cluster
  | p :: rest =>
      if Z.of_nat (length cluster) >=? target then cluster
      else if pythagorean seed p =? dist
           then grow_pass target dist seed (cluster ++ [p]) rest
           else grow_pass target dist seed cluster rest
  end.

(** The growth loop [while (clusterPoints.size() < n / clusters)];
    [clusterPoints[0]] is the seed throughout. *)
Fixpoint grow (fuel : nat) (target dist : Z) (seed : point)
  (cluster pts : list point) : option (list point) :=
  match fuel with
  | O => None
  | S fuel' =>
      if Z.of_nat (length cluster) <? target then
        grow fuel' target (dist + 1) seed
          (grow_pass target dist seed cluster pts) pts
      else Some cluster
  end.

(** The removal loop of [cluster_peel]: [p1] stays when no cluster point
    has its coordinates. *)
Definition not_in_cluster (clusterPoints : list point) (p1 : point) : bool :=
  negb (existsb (fun p2 => same_point p1 p2) clusterPoints).

(** One iteration of the [for] loop of [cluster_peel].  [global.points[0]]
    on an empty vector has no defined behaviour: no result. *)
Definition cluster_iter (fuel : nat) (indet : list point -> Z * Z) (g : glob)
  : option (glob * report) :=
  match points g with
  | [] => None
  | seed :: _ =>
      match grow fuel (cluster_target g) 1 seed [seed] (points g) with
      | None => None
      | Some clusterPoints =>
          match peel fuel indet g clusterPoints with
          | None => None
          | Some (g1, _, r) =>
              Some (set_points g1
                      (filter (not_in_cluster clusterPoints) (points g1)), r)
          end
      end
  end.

Fixpoint cluster_loop (fuel : nat) (indet : list point -> Z * Z) (i : nat)
  (g : glob) (out : list report) : option (glob * list report) :=
  match i with
  | O => Some (g, out)
  | S i' =>
      match cluster_iter fuel indet g with
      | None => None
      | Some (g1, r) => cluster_loop fuel indet i' g1 (out ++ [r])
      end
  end.

(** [void cluster_peel()] *)
Definition cluster_peel (fuel : nat) (indet : list point -> Z * Z) (g : glob)
  : option (glob * list report) :=
  match cluster_loop fuel indet (Z.to_nat (clusters g))
          (set_clustering g true) [] with
  | None => None
  | Some (g1, out) => Some (set_clustering g1 false, out)
  end.

End Hull.

(** ** The triangulation program, [2DTriangulation/2DTriangulation.cpp] *)

Module Tri.

Record glob : Type := mkGlob {
  w : Z;
  h : Z;
  n : Z;
  points : list point;
  edges : list edge;
  tris : list tri
}.

Definition set_edges (g : glob) (es : list edge) : glob :=
  mkGlob (w g) (h g) (n g) (points g) es (tris g).

Definition set_points (g : glob) (ps : list point) : glob :=
  mkGlob (w g) (h g) (n g) ps (edges g) (tris g).

Definition set_tris (g : glob) (ts : list tri) : glob :=
  mkGlob (w g) (h g) (n g) (points g) (edges g) ts.

(** [void quick_hull(point p1, point p2)] scans [global.points]. *)
Definition quick_hull (fuel : nat) (g : glob) (p1 p2 : point) : option glob :=
  match quick_hull fuel (points g) p1 p2 (edges g) with
  | None => None
  | Some es => Some (set_edges g es)
  end.

(** [void convex_hull()] *)
Definition convex_hull (fuel : nat) (indet : list point -> Z * Z) (g : glob)
  : option glob :=
  match hull_edges fuel (w g) indet (points g) (edges g) with
  | None => None
  | Some es => Some (set_edges g es)
  end.

(** [bool on_edge(point p)]: endpoint identity against [global.edges]. *)
Definition on_edge (g : glob) (p : point) : bool :=
  existsb (fun e => same_point p (e_p1 e) || same_point p (e_p2 e)) (edges g).

(** [bool point_in_triangle(point p, tri t)] *)
Definition point_in_triangle (p : point) (t : tri) : bool :=
  let d1 := dist (t_p1 t) (t_p2 t) p in
  let d2 := dist (t_p2 t) (t_p3 t) p in
  if ((d1 >? 0) && (d2 <? 0)) || ((d1 <? 0) && (d2 >? 0)) then false
  else
    let d3 := dist (t_p3 t) (t_p1 t) p in
    if ((d1 >? 0) && (d3 <? 0)) || ((d1 <? 0) && (d3 >? 0)) then false
    else true.

(** The extents computed at the start of [trisect]:
    [(xMin, xMax, yMin, yMax)], seeded with [global.w], [-1], [global.h],
    [-1]. *)
Definition extents (g : glob) (t : tri) : Z * Z * Z * Z :=
  let xMax := Z.max (px (t_p3 t)) (Z.max (px (t_p2 t)) (Z.max (px (t_p1 t)) (-1))) in
  let yMax := Z.max (py (t_p3 t)) (Z.max (py (t_p2 t)) (Z.max (py (t_p1 t)) (-1))) in
  let xMin := Z.min (px (t_p3 t)) (Z.min (px (t_p2 t)) (Z.min (px (t_p1 t)) (w g))) in
  let yMin := Z.min (py (t_p3 t)) (Z.min (py (t_p2 t)) (Z.min (py (t_p1 t)) (h g))) in
  (xMin, xMax, yMin, yMax).

(** The three nested tests of the scan of [trisect]: [p] is none of the
    vertices of [t], lies within the extents, and passes
    [point_in_triangle]. *)
Definition is_vertex (p : point) (t : tri) : bool :=
  same_point p (t_p1 t) || same_point p (t_p2 t) || same_point p (t_p3 t).

Definition in_extents (g : glob) (t : tri) (p : point) : bool :=
  let '(xMin, xMax, yMin, yMax) := extents g t in
  (px p >=? xMin) && (px p <=? xMax) && (py p >=? yMin) && (py p <=? yMax).

Definition splits (g : glob) (t : tri) (p : point) : bool :=
  negb (is_vertex p t) && in_extents g t p && point_in_triangle p t.

(** The body of the scan of [trisect]; [rec] stands for the recursive
    calls.  The loop state is [(pFound, global)]; there is no [break]. *)
Definition trisect_body (rec : glob -> tri -> option glob) (t : tri)
  (st : option (bool * glob)) (p : point) : option (bool * glob) :=
  match st with
  | None => None
  | Some (pFound, g0) =>
      if negb (is_vertex p t) then
        if in_extents g0 t p then
          if point_in_triangle p t then
            match rec g0 (mkTri (t_p1 t) (t_p2 t) p) with
            | None => None
            | Some g1 =>
                match rec g1 (mkTri (t_p2 t) (t_p3 t) p) with
                | None => None
                | Some g2 =>
                    match rec g2 (mkTri (t_p3 t) (t_p1 t) p) with
                    | None => None
                    | Some g3 => Some (true, g3)
                    end
                end
            end
          else Some (pFound, g0)
        else Some (pFound, g0)
      else Some (pFound, g0)
  end.

(** [void trisect(tri t)] *)
Fixpoint trisect (fuel : nat) (g : glob) (t : tri) : option glob :=
  match fuel with
  | O => None
  | S fuel' =>
      match fold_left (trisect_body (trisect fuel') t) (points g)
              (Some (false, g)) with
      | None => None
      | Some (pFound, g') =>
          if negb pFound then Some (set_tris g' (tris g' ++ [t]))
          else Some g'
      end
  end.

(** [bool same_sign(int a, int b)] *)
Definition same_sign (a b : Z) : bool :=
  if (a >=? 0) && (b >=? 0) then true
  else if (a <=? 0) && (b <=? 0) then true
  else false.

(** The flags of [check_shared_edge]. *)
Record shares : Type := mkShares {
  pointCount : Z;
  t1p1Share : bool; t1p2Share : bool; t1p3Share : bool;
  t2p1Share : bool; t2p2Share : bool; t2p3Share : bool
}.

(** "determine which point t1.pi shares with t2": the second comparison of
    each test reads [q.x == t2.pj.y], as the source does. *)
Definition mark_t2 (q : point) (t2 : tri) (s : shares) : shares :=
  if (px q =? px (t_p1 t2)) && (px q =? py (t_p1 t2)) then
    mkShares (pointCount s) (t1p1Share s) (t1p2Share s) (t1p3Share s)
             true (t2p2Share s) (t2p3Share s)
  else if (px q =? px (t_p2 t2)) && (px q =? py (t_p2 t2)) then
    mkShares (pointCount s) (t1p1Share s) (t1p2Share s) (t1p3Share s)
             (t2p1Share s) true (t2p3Share s)
  else
    mkShares (pointCount s) (t1p1Share s) (t1p2Share s) (t1p3Share s)
             (t2p1Share s) (t2p2Share s) true.

Definition shared_flags (t1 t2 : tri) : shares :=
  let s0 := mkShares 0 false false false false false false in
  let s1 :=
    if is_vertex (t_p1 t1) t2 then
      mark_t2 (t_p1 t1) t2
        (mkShares (pointCount s0 + 1) true (t1p2Share s0) (t1p3Share s0)
                  (t2p1Share s0) (t2p2Share s0) (t2p3Share s0))
    else s0 in
  let s2 :=
    if is_vertex (t_p2 t1) t2 then
      mark_t2 (t_p2 t1) t2
        (mkShares (pointCount s1 + 1) (t1p1Share s1) true (t1p3Share s1)
                  (t2p1Share s1) (t2p2Share s1) (t2p3Share s1))
    else s1 in
  if (pointCount s2 =? 1) && is_vertex (t_p3 t1) t2 then
    mark_t2 (t_p3 t1) t2
      (mkShares (pointCount s2 + 1) (t1p1Share s2) (t1p2Share s2) true
                (t2p1Share s2) (t2p2Share s2) (t2p3Share s2))
  else s2.

(** The block repeated in the nine branches of [check_shared_edge]: [s1],
    [s2] are the vertices of [t1] held to be shared, [a] the third vertex of
    [t1], [b] the vertex of [t2] held to be unshared, [d1] the length of the
    shared edge.  The result is the returned [bool] and the two triangles
    behind the references. *)
Definition try_flip (t1 t2 : tri) (s1 s2 a b : point) (d1 : Z)
  : bool * tri * tri :=
  if same_sign (dist a b s1) (dist a b s2) then (false, t1, t2)
  else
    let d2 := pythagorean a b in
    if int_abs d2 <? int_abs d1 then (true, mkTri s1 a b, mkTri s2 a b)
    else (false, t1, t2).

(** [bool check_shared_edge(tri& t1, tri& t2)] *)
Definition check_shared_edge (t1 t2 : tri) : bool * tri * tri :=
  let s := shared_flags t1 t2 in
  if pointCount s =? 2 then
    if t1p1Share s && t1p2Share s then
      let d1 := pythagorean (t_p1 t1) (t_p2 t1) in
      if t2p1Share s && t2p2Share s then
        try_flip t1 t2 (t_p1 t1) (t_p2 t1) (t_p3 t1) (t_p3 t2) d1
      else if t2p1Share s && t2p3Share s then
        try_flip t1 t2 (t_p1 t1) (t_p2 t1) (t_p3 t1) (t_p2 t2) d1
      else
        try_flip t1 t2 (t_p1 t1) (t_p2 t1) (t_p3 t1) (t_p1 t2) d1
    else if t1p1Share s && t1p3Share s then
      let d1 := pythagorean (t_p1 t1) (t_p3 t1) in
      if t2p1Share s && t2p2Share s then
        try_flip t1 t2 (t_p1 t1) (t_p3 t1) (t_p2 t1) (t_p3 t2) d1
      else if t2p1Share s && t2p3Share s then
        try_flip t1 t2 (t_p1 t1) (t_p3 t1) (t_p2 t1) (t_p2 t2) d1
      else
        try_flip t1 t2 (t_p1 t1) (t_p3 t1) (t_p2 t1) (t_p1 t2) d1
    else
      let d1 := pythagorean (t_p2 t1) (t_p3 t1) in
      if t2p1Share s && t2p2Share s then
        try_flip t1 t2 (t_p2 t1) (t_p3 t1) (t_p1 t1) (t_p3 t2) d1
      else if t2p1Share s && t2p3Share s then
        try_flip t1 t2 (t_p2 t1) (t_p3 t1) (t_p1 t1) (t_p2 t2) d1
      else
        try_flip t1 t2 (t_p2 t1) (t_p3 t1) (t_p1 t1) (t_p1 t2) d1
  else (false, t1, t2).

(** The inner loop of [tri_cleanup]: [t1] is the copy made by the outer
    range-[for], [t2] a fresh copy of each element; the state is
    [(t1, trisCleaned)]. *)
Definition cleanup_inner (ts : list tri) (t1 : tri) (trisCleaned : Z)
  : tri * Z :=
  fold_left
    (fun (st : tri * Z) (t2 : tri) =>
       let '(t1c, cnt) := st in
       let '(flipped, t1', _) := check_shared_edge t1c t2 in
       if flipped then (t1', cnt + 1) else (t1', cnt))
    ts (t1, trisCleaned).

(** [void tri_cleanup()]: both loops iterate over copies of the elements of
    [global.tris]; the result is the global state and the printed
    [trisCleaned]. *)
Definition tri_cleanup (g : glob) : glob * Z :=
  (g, fold_left (fun cnt t1 => snd (cleanup_inner (tris g) t1 cnt))
        (tris g) 0).

Definition INT_MAX : Z := 2 ^ 31 - 1.

(** The seed search of [triangulation]: the state is [(pMid, minD)]. *)
Definition mid_step (g : glob) (st : point * Z) (p : point) : point * Z :=
  let '(pMid, minD) := st in
  if negb (on_edge g p) then
    let d := pythagorean p (mkPoint (Z.quot (w g) 2) (Z.quot (h g) 2)) in
    if d <? minD then (p, d) else (pMid, minD)
  else (pMid, minD).

(** [pMid] is declared without a value; it is assigned before every use, so
    the initial value below is never observed. *)
Definition find_mid (g : glob) : point * Z :=
  fold_left (mid_step g) (points g) (mkPoint 0 0, INT_MAX).

(** The loop "for all edges, create a triangle to the calculated middle
    point and call trisect on it". *)
Fixpoint trisect_edges (fuel : nat) (g : glob) (pMid : point) (es : list edge)
  : option glob :=
  match es with
  | [] => Some g
  | e :: rest =>
      match trisect fuel g (mkTri (e_p1 e) (e_p2 e) pMid) with
      | None => None
      | Some g1 => trisect_edges fuel g1 pMid rest
      end
  end.

(** What [triangulation] prints. *)
Record summary : Type := mkSummary {
  sum_cleaned : Z; sum_points : nat; sum_tris : nat
}.

(** [void triangulation()].  [global.edges[0]] on an empty vector has no
    defined behaviour: no result. *)
Definition triangulation (fuel : nat) (indet : list point -> Z * Z) (g : glob)
  : option (glob * option summary) :=
  if (length (points g) <? 3)%nat then Some (g, None)
  else
    match convex_hull fuel indet (set_tris g []) with
    | None => None
    | Some g1 =>
        let '(pMid0, minD) := find_mid g1 in
        match (if minD =? INT_MAX
               then match edges g1 with
                    | [] => None
                    | e :: _ => Some (e_p1 e)
                    end
               else Some pMid0) with
        | None => None
        | Some pMid =>
            match trisect_edges fuel g1 pMid (edges g1) with
            | None => None
            | Some g2 =>
                let g3 := set_edges (set_points g2 []) [] in
                let '(g4, cleaned) := tri_cleanup g3 in
                Some (g4, Some (mkSummary cleaned (length (points g4))
                                          (length (tris g4))))
            end
        end
    end.

End Tri.

(** ** The point producers and the event handlers *)

(** The values that [i] takes in [for (int i = lo; i < hi; i++)]. *)
Definition int_range (lo hi : Z) : list Z :=
  map (fun k => lo + Z.of_nat k) (seq 0 (Z.to_nat (hi - lo))).

(** The loops [for (int i = ...; i < global.n; i++)
    global.points.push_back(point{ global.coords[i].x, global.coords[i].y })]
    over the indices [idx].  [coords[i]] outside the vector has no defined
    behaviour: no result. *)
Fixpoint push_coords (coords : list point) (idx : list Z) (points : list point)
  : option (list point) :=
  match idx with
  | [] => Some points
  | i :: rest =>
      if i <? 0 then None
      else
        match nth_error coords (Z.to_nat i) with
        | None => None
        | Some c => push_coords coords rest (points ++ [mkPoint (px c) (py c)])
        end
  end.

(** Two nested [for] loops with a [push_back] inside: for every [x] of [xs]
    in turn and every [y] of [ys] in turn, push [f x y]. *)
Definition push_grid (f : Z -> Z -> point) (xs ys : list Z)
  (points : list point) : list point :=
  fold_left (fun acc x => fold_left (fun acc y => acc ++ [f x y]) ys acc)
    xs points.

(** The two constants of [freeglut] that [mouse] compares with. *)
Definition GLUT_LEFT_BUTTON : Z := 0.
Definition GLUT_DOWN : Z := 0.

(** What a handler leaves behind: [exit(0)] ends the process. *)
Inductive outcome (G : Type) : Type :=
| Exited : outcome G
| Running : G -> outcome G.

Arguments Exited {G}.
Arguments Running {G} _.

(** [random_shuffle] applies a permutation that the program does not
    control: the handlers that call it take that permutation as the
    parameter [shuffle]. *)

(** *** The handlers of the hull program *)

Module HullApp.

(** The whole of [glob]: the fields of [Hull.glob] and the three fields that
    only the handlers use. *)
Record glob : Type := mkGlob {
  core : Hull.glob;
  coords : list point;
  mouseDraw : bool;
  shuffled : bool
}.

Definition set_core (g : glob) (c : Hull.glob) : glob :=
  mkGlob c (coords g) (mouseDraw g) (shuffled g).

(** [void random()] *)
Definition random (shuffle : list point -> list point) (g : glob)
  : option glob :=
  let coords1 := shuffle (coords g) in
  match push_coords coords1 (int_range 0 (Hull.n (core g))) [] with
  | None => None
  | Some pts =>
      Some (mkGlob (Hull.set_points (Hull.set_edges (core g) []) pts)
                   coords1 (mouseDraw g) true)
  end.

(** [void lattice()]: 100 points in a 10 by 10 lattice. *)
Definition lattice (g : glob) : glob :=
  set_core g
    (Hull.set_points (Hull.set_edges (core g) [])
       (push_grid (fun i j => mkPoint (100 + i * 10) (100 + j * 10))
          (int_range 0 10) (int_range 0 10) [])).

(** [void draw_mouse_point(int x, int y)] *)
Definition draw_mouse_point (x y : Z) (g : glob) : glob :=
  let y1 := Hull.h (core g) - 10 - y in
  if existsb (fun p => (px p =? x) && (py p =? y1)) (Hull.points (core g))
  then g
  else
    set_core g
      (Hull.set_edges
         (Hull.set_points (core g) (Hull.points (core g) ++ [mkPoint x y1]))
         []).

(** [void mouse(int bin, int state, int x, int y)] *)
Definition mouse (bin state x y : Z) (g : glob) : glob :=
  if mouseDraw g && (bin =? GLUT_LEFT_BUTTON) && (state =? GLUT_DOWN)
  then draw_mouse_point x y g
  else g.

(** [void increment_n()]: the new state and, when the call is refused, the
    number in the message "No more than <n> points allowed at current
    screen size!".  The comparison [global.n == global.coords.size()]
    converts [n] to [size_t]. *)
Definition increment_n (shuffle : list point -> list point) (g : glob)
  : option (glob * option Z) :=
  let c := core g in
  if Hull.to_size_t (Hull.n c) =? Z.of_nat (length (coords g)) then
    Some (g, Some (Hull.n c))
  else
    let coords1 := if negb (shuffled g) then shuffle (coords g) else coords g in
    let n1 := if negb (shuffled g) then Hull.n c - 100 else Hull.n c in
    let n2 := n1 + 100 in
    match push_coords coords1
            (int_range (Z.of_nat (length (Hull.points c))) n2)
            (Hull.points c) with
    | None => None
    | Some pts =>
        Some (mkGlob (Hull.mkGlob (Hull.w c) (Hull.h c) n2 pts []
                        (Hull.clusters c) (Hull.clustering c))
                     coords1 (mouseDraw g) true,
              None)
    end.

(** [void increment_clusters()]: the new state and, when the call is
    refused, the number in the message "No more than <n / 2> clusters
    allowed at current screen size!". *)
Definition increment_clusters (g : glob) : glob * option Z :=
  let c := core g in
  if Hull.to_size_t (Hull.n c) =? Z.of_nat (length (Hull.points c)) / 2 then
    (g, Some (Z.quot (Hull.n c) 2))
  else
    (set_core g
       (Hull.mkGlob (Hull.w c) (Hull.h c) (Hull.n c) (Hull.points c)
          (Hull.edges c) (Hull.clusters c + 5) (Hull.clustering c)),
     None).

(** [void set_mouse_draw()] *)
Definition set_mouse_draw (g : glob) : glob :=
  let m := negb (mouseDraw g) in
  mkGlob (if m then Hull.set_points (core g) [] else core g)
         (coords g) m (shuffled g).

(** [void initializeVector()] *)
Definition initializeVector (g : glob) : glob :=
  mkGlob (core g)
    (push_grid (fun x y => mkPoint x y)
       (int_range 1 (Hull.w (core g) - 9)) (int_range 1 (Hull.h (core g) - 9))
       (coords g))
    (mouseDraw g) (shuffled g).

(** The state in which [main] enters the event loop: [global] is
    zero-initialised, then [w], [h], [n] and [clusters] are set and
    [initializeVector] is called. *)
Definition main_state : glob :=
  initializeVector
    (mkGlob (Hull.mkGlob 1000 800 100 [] [] 5 false) [] false false).

(** [void keyboard(unsigned char key, int x, int y)]; the lines that the
    operations print are left out here. *)
Definition keyboard (fuel : nat) (indet : list point -> Z * Z)
  (shuffle : list point -> list point) (key : ascii) (x y : Z) (g : glob)
  : option (outcome glob) :=
  let pressed k1 k2 := Ascii.eqb key k1 || Ascii.eqb key k2 in
  if Ascii.eqb key "027" || pressed "q"%char "Q"%char then Some Exited
  else if pressed "r"%char "R"%char then
    option_map Running (random shuffle g)
  else if pressed "m"%char "M"%char then Some (Running (set_mouse_draw g))
  else if pressed "c"%char "C"%char then
    option_map (fun c => Running (set_core g c))
      (Hull.convex_hull fuel indet (core g) (Hull.points (core g)))
  else if pressed "p"%char "P"%char then
    option_map (fun r => Running (set_core g (fst (fst r))))
      (Hull.peel fuel indet (core g) (Hull.points (core g)))
  else if pressed "l"%char "L"%char then Some (Running (lattice g))
  else if pressed "a"%char "A"%char then
    option_map (fun r => Running (fst r)) (increment_n shuffle g)
  else if pressed "u"%char "U"%char then
    option_map (fun r => Running (set_core g (fst r)))
      (Hull.cluster_peel fuel indet (core g))
  else if pressed "y"%char "Y"%char then
    Some (Running (fst (increment_clusters g)))
  else Some (Running g).

(** The entries of the menu, in the order of the [enum]. *)
Inductive menu : Type :=
| MENU_QUIT | MENU_RANDOM | MENU_CONVEX | MENU_PEEL | MENU_INCREMENT
| MENU_MOUSE | MENU_CLUSTER | MENU_CLUSTER_INCREMENT.

(** [void menuFunc(int value)] *)
Definition menuFunc (fuel : nat) (indet : list point -> Z * Z)
  (shuffle : list point -> list point) (value : menu) (g : glob)
  : option (outcome glob) :=
  match value with
  | MENU_QUIT => Some Exited
  | MENU_RANDOM => option_map Running (random shuffle g)
  | MENU_CONVEX =>
      option_map (fun c => Running (set_core g c))
        (Hull.convex_hull fuel indet (core g) (Hull.points (core g)))
  | MENU_PEEL =>
      option_map (fun r => Running (set_core g (fst (fst r))))
        (Hull.peel fuel indet (core g) (Hull.points (core g)))
  | MENU_INCREMENT =>
      option_map (fun r => Running (fst r)) (increment_n shuffle g)
  | MENU_MOUSE => Some (Running (set_mouse_draw g))
  | MENU_CLUSTER =>
      option_map (fun r => Running (set_core g (fst r)))
        (Hull.cluster_peel fuel indet (core g))
  | MENU_CLUSTER_INCREMENT => Some (Running (fst (increment_clusters g)))
  end.

End HullApp.

(** *** The handlers of the triangulation program *)

Module TriApp.

Record glob : Type := mkGlob {
  core : Tri.glob;
  coords : list point;
  mouseDraw : bool;
  shuffled : bool
}.

Definition set_core (g : glob) (c : Tri.glob) : glob :=
  mkGlob c (coords g) (mouseDraw g) (shuffled g).

(** The three vectors after [points], [edges] and [tris] were cleared and
    [pts] was pushed on [points]. *)
Definition fresh_points (c : Tri.glob) (pts : list point) : Tri.glob :=
  Tri.mkGlob (Tri.w c) (Tri.h c) (Tri.n c) pts [] [].

(** [void random()] *)
Definition random (shuffle : list point -> list point) (g : glob)
  : option glob :=
  let coords1 := shuffle (coords g) in
  match push_coords coords1 (int_range 0 (Tri.n (core g))) [] with
  | None => None
  | Some pts => Some (mkGlob (fresh_points (core g) pts) coords1
                             (mouseDraw g) true)
  end.

(** [void lattice()]: an [n] by [n] lattice with a spacing of 5. *)
Definition lattice (g : glob) : glob :=
  set_core g
    (fresh_points (core g)
       (push_grid (fun i j => mkPoint (i * 5) (j * 5))
          (int_range 0 (Tri.n (core g))) (int_range 0 (Tri.n (core g))) [])).

(** [void draw_mouse_point(int x, int y)] *)
Definition draw_mouse_point (x y : Z) (g : glob) : glob :=
  let y1 := Tri.h (core g) - 10 - y in
  if existsb (fun p => (px p =? x) && (py p =? y1)) (Tri.points (core g))
  then g
  else
    set_core g
      (fresh_points (core g) (Tri.points (core g) ++ [mkPoint x y1])).

(** [void mouse(int bin, int state, int x, int y)] *)
Definition mouse (bin state x y : Z) (g : glob) : glob :=
  if mouseDraw g && (bin =? GLUT_LEFT_BUTTON) && (state =? GLUT_DOWN)
  then draw_mouse_point x y g
  else g.

(** [void increment_n()], in steps of 10. *)
Definition increment_n (shuffle : list point -> list point) (g : glob)
  : option (glob * option Z) :=
  let c := core g in
  if Hull.to_size_t (Tri.n c) =? Z.of_nat (length (coords g)) then
    Some (g, Some (Tri.n c))
  else
    let coords1 := if negb (shuffled g) then shuffle (coords g) else coords g in
    let n1 := if negb (shuffled g) then Tri.n c - 10 else Tri.n c in
    let n2 := n1 + 10 in
    match push_coords coords1
            (int_range (Z.of_nat (length (Tri.points c))) n2)
            (Tri.points c) with
    | None => None
    | Some pts =>
        Some (mkGlob (Tri.mkGlob (Tri.w c) (Tri.h c) n2 pts [] [])
                     coords1 (mouseDraw g) true,
              None)
    end.

(** [void set_mouse_draw()] *)
Definition set_mouse_draw (g : glob) : glob :=
  let m := negb (mouseDraw g) in
  mkGlob (if m then Tri.set_points (core g) [] else core g)
         (coords g) m (shuffled g).

(** [void initializeVector()] *)
Definition initializeVector (g : glob) : glob :=
  mkGlob (core g)
    (push_grid (fun x y => mkPoint x y)
       (int_range 1 (Tri.w (core g) - 9)) (int_range 1 (Tri.h (core g) - 9))
       (coords g))
    (mouseDraw g) (shuffled g).

(** The state in which [main] enters the event loop. *)
Definition main_state : glob :=
  initializeVector (mkGlob (Tri.mkGlob 1000 800 10 [] [] []) [] false false).

(** [void keyboard(unsigned char key, int x, int y)]; the lines that the
    operations print are left out here. *)
Definition keyboard (fuel : nat) (indet : list point -> Z * Z)
  (shuffle : list point -> list point) (key : ascii) (x y : Z) (g : glob)
  : option (outcome glob) :=
  let pressed k1 k2 := Ascii.eqb key k1 || Ascii.eqb key k2 in
  if Ascii.eqb key "027" || pressed "q"%char "Q"%char then Some Exited
  else if pressed "r"%char "R"%char then
    option_map Running (random shuffle g)
  else if pressed "m"%char "M"%char then Some (Running (set_mouse_draw g))
  else if pressed "t"%char "T"%char then
    option_map (fun r => Running (set_core g (fst r)))
      (Tri.triangulation fuel indet (core g))
  else if pressed "l"%char "L"%char then Some (Running (lattice g))
  else if pressed "a"%char "A"%char then
    option_map (fun r => Running (fst r)) (increment_n shuffle g)
  else if pressed "c"%char "C"%char then
    Some (Running (set_core g (fst (Tri.tri_cleanup (core g)))))
  else Some (Running g).

(** The entries of the menu, in the order of the [enum]. *)
Inductive menu : Type :=
| MENU_QUIT | MENU_RANDOM | MENU_TRIANGULATION | MENU_LATTICE
| MENU_INCREMENT | MENU_MOUSE.

(** [void menuFunc(int value)] *)
Definition menuFunc (fuel : nat) (indet : list point -> Z * Z)
  (shuffle : list point -> list point) (value : menu) (g : glob)
  : option (outcome glob) :=
  match value with
  | MENU_QUIT => Some Exited
  | MENU_RANDOM => option_map Running (random shuffle g)
  | MENU_LATTICE => Some (Running (lattice g))
  | MENU_TRIANGULATION =>
      option_map (fun r => Running (set_core g (fst r)))
        (Tri.triangulation fuel indet (core g))
  | MENU_INCREMENT =>
      option_map (fun r => Running (fst r)) (increment_n shuffle g)
  | MENU_MOUSE => Some (Running (set_mouse_draw g))
  end.

End TriApp.

(** ** Vocabulary of the statements *)

(** The exact values, in [Z], of the two expressions that the program
    computes in [int]: the signed score of [p3] against the line through
    [p1] and [p2] (twice the signed area of the triangle), and the squared
    distance from [p1] to [p2]. *)
Definition score (p1 p2 p3 : point) : Z :=
  (py p1 - py p2) * px p3 + (px p2 - px p1) * py p3
  + (px p1 * py p2 - py p1 * px p2).

Definition sq_len (p1 p2 : point) : Z :=
  (px p2 - px p1) * (px p2 - px p1) + (py p2 - py p1) * (py p2 - py p1).

(** The coordinates for which no product or sum of [dist] and
    [pythagorean] leaves the range of [int]: absolute values of at most
    16383. *)
Definition COORD_MAX : Z := 16383.

Definition in_range (p : point) : Prop :=
  - COORD_MAX <= px p <= COORD_MAX /\ - COORD_MAX <= py p <= COORD_MAX.

Definition all_in_range (pts : list point) : Prop :=
  forall p, In p pts -> in_range p.

(** The points and the two ends of a call [quick_hull(points, p1, p2)] are
    in range. *)
Definition ranged (pts : list point) (p1 p2 : point) : Prop :=
  all_in_range pts /\ in_range p1 /\ in_range p2.

(** [minPoint] and [maxPoint], with which [convex_hull] starts, are in
    range on every part of [pts]: so they are when the points are in range
    and inside the window (they are then points of the list), or when the
    points, the window width and the indeterminate values are in range. *)
Definition safe_ends (w : Z) (indet : list point -> Z * Z)
  (pts : list point) : Prop :=
  forall l, l <> [] -> incl l pts ->
            in_range (fst (minmax w indet l)) /\
            in_range (snd (minmax w indet l)).

(** The three vertices of a triangle. *)
Definition vertices_of (t : tri) : list point := [t_p1 t; t_p2 t; t_p3 t].

(** [t1'], [t2'] are the two triangles [(s1, a, b)] and [(s2, a, b)] on the
    new diagonal [a-b], where [s1], [s2], [a] are the three vertices of [t1]
    and [b] is a vertex of [t2]. *)
Definition flip_of (t1 t2 t1' t2' : tri) (s1 s2 a b : point) : Prop :=
  t1' = mkTri s1 a b /\ t2' = mkTri s2 a b /\
  ((s1 = t_p1 t1 /\ s2 = t_p2 t1 /\ a = t_p3 t1) \/
   (s1 = t_p1 t1 /\ s2 = t_p3 t1 /\ a = t_p2 t1) \/
   (s1 = t_p2 t1 /\ s2 = t_p3 t1 /\ a = t_p1 t1)) /\
  In b (vertices_of t2).

(** The three recursive calls that [trisect] makes for a point [p] of [t]. *)
Definition subdivide_at (fuel : nat) (t : tri) (g : Tri.glob) (p : point)
  : option Tri.glob :=
  match Tri.trisect fuel g (mkTri (t_p1 t) (t_p2 t) p) with
  | None => None
  | Some g1 =>
      match Tri.trisect fuel g1 (mkTri (t_p2 t) (t_p3 t) p) with
      | None => None
      | Some g2 => Tri.trisect fuel g2 (mkTri (t_p3 t) (t_p1 t) p)
      end
  end.

(** The subdivisions at each point of [cands], one after the other. *)
Definition subdivide_all (fuel : nat) (t : tri) (g : Tri.glob)
  (cands : list point) : option Tri.glob :=
  fold_left
    (fun st p => match st with
                 | None => None
                 | Some g0 => subdivide_at fuel t g0 p
                 end)
    cands (Some g).

(** The trisection as the specification words it: only the first point
    found that passes the tests subdivides [t], and the scan stops there. *)
Fixpoint trisect_first (fuel : nat) (g : Tri.glob) (t : tri)
  : option Tri.glob :=
  match fuel with
  | O => None
  | S fuel' =>
      match find (Tri.splits g t) (Tri.points g) with
      | None => Some (Tri.set_tris g (Tri.tris g ++ [t]))
      | Some p =>
          match trisect_first fuel' g (mkTri (t_p1 t) (t_p2 t) p) with
          | None => None
          | Some g1 =>
              match trisect_first fuel' g1 (mkTri (t_p2 t) (t_p3 t) p) with
              | None => None
              | Some g2 => trisect_first fuel' g2 (mkTri (t_p3 t) (t_p1 t) p)
              end
          end
      end
  end.

(** The three scores of the half-plane test agree in sign, zeros allowed. *)
Definition same_side3 (d1 d2 d3 : Z) : Prop :=
  (0 <= d1 /\ 0 <= d2 /\ 0 <= d3) \/ (d1 <= 0 /\ d2 <= 0 /\ d3 <= 0).

Definition inside_triangle (p : point) (t : tri) : Prop :=
  same_side3 (score (t_p1 t) (t_p2 t) p) (score (t_p2 t) (t_p3 t) p)
             (score (t_p3 t) (t_p1 t) p).

(** [g'] differs from [g] in the triangle vector at most. *)
Definition same_frame (g g' : Tri.glob) : Prop :=
  Tri.w g' = Tri.w g /\ Tri.h g' = Tri.h g /\
  Tri.points g' = Tri.points g /\ Tri.edges g' = Tri.edges g.

(** The number of points of [pts] whose truncated distance to [seed] is at
    least [dist]: those that the growth loop can still reach. *)
Definition reachable (dist : Z) (seed : point) (pts : list point) : nat :=
  length (filter (fun p => dist <=? pythagorean seed p) pts).

(** [r] lies strictly on the side of the line [p1 -> p2] that [quick_hull]
    searches (positive score). *)
Definition left_of (p1 p2 r : point) : bool := 0 <? score p1 p2 r.

Definition left_count (pts : list point) (p1 p2 : point) : nat :=
  length (filter (left_of p1 p2) pts).

(** The value at [b - a] of the linear form with coefficients [nx], [ny]. *)
Definition dot (nx ny : Z) (a b : point) : Z :=
  nx * (px b - px a) + ny * (py b - py a).

(** The situation of every call [quick_hull(points, p1, p2)] that
    [convex_hull] gives rise to: either no point has a positive score, or
    [p1] minimises a linear form over the points and [p2] maximises another
    one, both strictly increasing from [p1] to [p2]. *)
Definition supports (pts : list point) (p1 p2 : point) : Prop :=
  (forall r, In r pts -> score p1 p2 r <= 0) \/
  (exists n1x n1y n2x n2y,
     (forall r, In r pts -> 0 <= dot n1x n1y p1 r) /\
     0 < dot n1x n1y p1 p2 /\
     (forall r, In r pts -> 0 <= dot n2x n2y r p2) /\
     0 < dot n2x n2y p1 p2).

(** The recursion tree of [quick_hull(points, p1, p2)] and the edges it
    pushes, in order. *)
Inductive hull_chain (pts : list point) : point -> point -> list edge -> Prop :=
| chain_edge (p1 p2 : point) :
    snd (hull_scan pts p1 p2) = 0 ->
    hull_chain pts p1 p2 [mkEdge p1 p2]
| chain_split (p1 p2 : point) (c1 c2 : list edge) :
    snd (hull_scan pts p1 p2) <> 0 ->
    hull_chain pts p1 (fst (hull_scan pts p1 p2)) c1 ->
    hull_chain pts (fst (hull_scan pts p1 p2)) p2 c2 ->
    hull_chain pts p1 p2 (c1 ++ c2).

(** The edges of [c] lead from [p] to [q], each starting where the previous
    one ends. *)
Fixpoint linked (p : point) (c : list edge) (q : point) : Prop :=
  match c with
  | [] => p = q
  | e :: c' => e_p1 e = p /\ linked (e_p2 e) c' q
  end.

(** A closed cyclic sequence of edges. *)
Definition closed_chain (es : list edge) : Prop :=
  es <> [] /\ exists p, linked p es p.

(** The vertex set of a sequence of edges. *)
Definition edge_points (es : list edge) : list point :=
  flat_map (fun e => [e_p1 e; e_p2 e]) es.

(** [v] is a vertex of the convex hull of [pts]: some linear form takes its
    maximum over [pts] at [v] only. *)
Definition extreme (pts : list point) (v : point) : Prop :=
  exists nx ny, forall r, In r pts -> r <> v -> dot nx ny v r < 0.

Definition no_three_collinear (pts : list point) : Prop :=
  forall a b c, In a pts -> In b pts -> In c pts ->
                a <> b -> a <> c -> b <> c -> score a b c <> 0.

(** [p] lies strictly inside the polygon of the edges [es] (which
    [quick_hull] produces clockwise): strictly on the inner side of every
    edge. *)
Definition strictly_inside (es : list edge) (p : point) : Prop :=
  forall e, In e es -> score (e_p1 e) (e_p2 e) p < 0.

(** The layers of a peel: for each turn of the loop of [peel], the points
    it was run on and the hull of those points alone (the edges that
    [convex_hull] pushes for them).  [es] is the content of [global.edges],
    against which the points are classified. *)
Fixpoint peel_layers (fuel : nat) (indet : list point -> Z * Z) (w : Z)
  (es : list edge) (pts : list point)
  : option (list (list point * list edge)) :=
  match fuel with
  | O => None
  | S fuel' =>
      if (2 <? length pts)%nat then
        match hull_edges fuel' w indet pts [], hull_edges fuel' w indet pts es with
        | Some layer, Some es1 =>
            match peel_layers fuel' indet w es1
                    (filter (fun p => negb (Hull.pointExists es1 p)) pts) with
            | None => None
            | Some ls => Some ((pts, layer) :: ls)
            end
        | _, _ => None
        end
      else Some []
  end.

(** [s] lies strictly inside the convex hull of [pts]: no linear form takes
    its maximum over [pts] at [s]. *)
Definition strictly_interior (pts : list point) (s : point) : Prop :=
  forall nx ny, nx <> 0 \/ ny <> 0 -> exists r, In r pts /\ 0 < dot nx ny s r.

(** The shoelace formula on integer coordinates, without the factor 1/2:
    twice the area of a triangle, and of the polygon with the vertices [vs]
    in boundary order. *)
Definition cross2 (a b : point) : Z := px a * py b - py a * px b.

Definition tri_area2 (t : tri) : Z :=
  Z.abs (cross2 (t_p1 t) (t_p2 t) + cross2 (t_p2 t) (t_p3 t)
         + cross2 (t_p3 t) (t_p1 t)).

Definition sum_list (l : list Z) : Z := fold_right Z.add 0 l.

Definition cycle_edges (vs : list point) : list edge :=
  match vs with
  | [] => []
  | v :: rest => map (fun ab => mkEdge (fst ab) (snd ab)) (combine vs (rest ++ [v]))
  end.

Definition polygon_area2 (vs : list point) : Z :=
  Z.abs (sum_list (map (fun e => cross2 (e_p1 e) (e_p2 e)) (cycle_edges vs))).

(** [vs] goes round the boundary of the convex hull of [pts], clockwise or
    counterclockwise: all points are on one side of every edge. *)
Definition convex_polygon (pts vs : list point) : Prop :=
  (forall e, In e (cycle_edges vs) ->
             forall r, In r pts -> score (e_p1 e) (e_p2 e) r <= 0) \/
  (forall e, In e (cycle_edges vs) ->
             forall r, In r pts -> 0 <= score (e_p1 e) (e_p2 e) r).

(** The points are window coordinates, in a window of at most 16384 by
    16384 (so that every point and the centre are [in_range]). *)
Definition in_window (g : Tri.glob) : Prop :=
  Tri.w g <= COORD_MAX + 1 /\ Tri.h g <= COORD_MAX + 1 /\
  forall r, In r (Tri.points g) ->
            0 <= px r < Tri.w g /\ 0 <= py r < Tri.h g.

(** The points of [pts] at the truncated distance [d] from [seed], in the
    order of [pts]. *)
Definition ring_at (seed : point) (pts : list point) (d : Z) : list point :=
  filter (fun p => pythagorean seed p =? d) pts.

(** The points of [pts] at the truncated distances [d0], [d0 + 1], ...,
    [d0 + k - 1] from [seed]: nearest first, and in the order of [pts]
    among those at the same truncated distance. *)
Fixpoint rings (seed : point) (pts : list point) (d0 : Z) (k : nat)
  : list point :=
  match k with
  | O => []
  | S k' => ring_at seed pts d0 ++ rings seed pts (d0 + 1) k'
  end.

(** [t'] is a triangle that [trisect], called on [t], may store: its
    vertices are vertices of [t] or points of [global.points], and no point
    of [global.points] passes the three tests of the scan against it. *)
Definition leaf_of (g : Tri.glob) (t t' : tri) : Prop :=
  (forall v, In v (vertices_of t') ->
             In v (vertices_of t) \/ In v (Tri.points g)) /\
  (forall p, In p (Tri.points g) -> Tri.splits g t' p = false).

(** [r] lies on the segment from [a] to [b]: on the line, and within the
    box of the two ends. *)
Definition on_segment (a b r : point) : Prop :=
  score a b r = 0 /\
  Z.min (px a) (px b) <= px r <= Z.max (px a) (px b) /\
  Z.min (py a) (py b) <= py r <= Z.max (py a) (py b).

(** The number of vertices of [t1] that are vertices of [t2]. *)
Definition common_vertices (t1 t2 : tri) : nat :=
  length (filter (fun v => Tri.is_vertex v t2) (vertices_of t1)).

(** The centre of the window, as [triangulation] computes it. *)
Definition centre (g : Tri.glob) : point :=
  mkPoint (Z.quot (Tri.w g) 2) (Z.quot (Tri.h g) 2).

(** What [random] leaves, as a relation between the parts of the state
    before and after: [n] points, copied from the front of the shuffled
    coordinate vector. *)
Definition random_outcome (n : Z) (coords : list point)
  (points' coords' : list point) : Prop :=
  Permutation coords coords' /\
  points' = firstn (Z.to_nat n) coords' /\
  Z.of_nat (length points') = Z.max 0 n /\
  incl points' coords /\
  (NoDup coords -> NoDup points').

(** What the handlers that add random points rely on: [n] is between 0
    and the size of the coordinate vector, and both are multiples of the
    step by which [increment_n] raises [n]. *)
Definition n_invariant (step n : Z) (coords : list point) : Prop :=
  0 <= n <= Z.of_nat (length coords) /\
  (step | n) /\ (step | Z.of_nat (length coords)) /\
  Z.of_nat (length coords) < 2 ^ 64.

(** What [increment_n] leaves when it is not refused: the points that
    were there followed by the slice of the coordinate vector from the old
    number of points up to the new [n]. *)
Definition increment_outcome (n' : Z) (points coords' points' : list point)
  : Prop :=
  points' = points
            ++ firstn (Z.to_nat (n' - Z.of_nat (length points)))
                 (skipn (length points) coords').

(** What a click leaves in [global.points]: the point of the click, with
    the y-coordinate turned over, is there; nothing was removed; the points
    are still pairwise distinct. *)
Definition click_outcome (h x y : Z) (points points' : list point) : Prop :=
  In (mkPoint x (h - 10 - y)) points' /\
  incl points points' /\
  (length points' <= length points + 1)%nat /\
  (NoDup points -> NoDup points').

(** What no handler of the hull program undoes: the window size, the
    coordinates of the grid (which are only permuted), the growth of [n]
    and of the number of clusters, the shuffled mark, and the clustering
    flag being off between two events. *)
Definition hull_handler_keeps (g g' : HullApp.glob) : Prop :=
  Hull.w (HullApp.core g') = Hull.w (HullApp.core g) /\
  Hull.h (HullApp.core g') = Hull.h (HullApp.core g) /\
  Hull.n (HullApp.core g) <= Hull.n (HullApp.core g') /\
  Hull.clusters (HullApp.core g) <= Hull.clusters (HullApp.core g') /\
  Permutation (HullApp.coords g) (HullApp.coords g') /\
  (HullApp.shuffled g = true -> HullApp.shuffled g' = true) /\
  (Hull.clustering (HullApp.core g) = false ->
   Hull.clustering (HullApp.core g') = false).

(** The same for the triangulation program. *)
Definition tri_handler_keeps (g g' : TriApp.glob) : Prop :=
  Tri.w (TriApp.core g') = Tri.w (TriApp.core g) /\
  Tri.h (TriApp.core g') = Tri.h (TriApp.core g) /\
  Tri.n (TriApp.core g) <= Tri.n (TriApp.core g') /\
  Permutation (TriApp.coords g) (TriApp.coords g') /\
  (TriApp.shuffled g = true -> TriApp.shuffled g' = true).

(** The key that does what a menu entry does. *)
Definition hull_menu_key (value : HullApp.menu) : ascii :=
  match value with
  | HullApp.MENU_QUIT => "q"
  | HullApp.MENU_RANDOM => "r"
  | HullApp.MENU_CONVEX => "c"
  | HullApp.MENU_PEEL => "p"
  | HullApp.MENU_INCREMENT => "a"
  | HullApp.MENU_MOUSE => "m"
  | HullApp.MENU_CLUSTER => "u"
  | HullApp.MENU_CLUSTER_INCREMENT => "y"
  end.

Definition tri_menu_key (value : TriApp.menu) : ascii :=
  match value with
  | TriApp.MENU_QUIT => "q"
  | TriApp.MENU_RANDOM => "r"
  | TriApp.MENU_TRIANGULATION => "t"
  | TriApp.MENU_LATTICE => "l"
  | TriApp.MENU_INCREMENT => "a"
  | TriApp.MENU_MOUSE => "m"
  end.

(** [q] lies strictly inside the triangle [t]: its three scores are all
    positive or all negative. *)
Definition strictly_in (t : tri) (q : point) : bool :=
  let d1 := score (t_p1 t) (t_p2 t) q in
  let d2 := score (t_p2 t) (t_p3 t) q in
  let d3 := score (t_p3 t) (t_p1 t) q in
  ((0 <? d1) && (0 <? d2) && (0 <? d3))
  || ((d1 <? 0) && (d2 <? 0) && (d3 <? 0)).

(** The number of points of [global.points] strictly inside [t]. *)
Definition inner_count (g : Tri.glob) (t : tri) : nat :=
  length (filter (strictly_in t) (Tri.points g)).

(** A triangle between input points with no input point strictly inside
    it. *)
Definition empty_triangle (pts : list point) (t : tri) : Prop :=
  (forall v, In v (vertices_of t) -> In v pts) /\
  (forall q, In q pts -> strictly_in t q = false).

(** ** Concrete inputs *)

(** The indeterminate values play no part in the examples. *)
Definition indet0 : list point -> Z * Z := fun _ => (0, 0).

(** The two triangles [(P, Q, A)] and [(B, P, Q)] on the diagonal [P-Q]. *)
Definition flipP : point := mkPoint 0 5.
Definition flipQ : point := mkPoint 20 6.
Definition flipA : point := mkPoint 10 8.
Definition flipB : point := mkPoint 10 2.
Definition flip_t1 : tri := mkTri flipP flipQ flipA.
Definition flip_t2 : tri := mkTri flipB flipP flipQ.

(** Five points in general position: four hull vertices around the seed
    [(494, 400)]. *)
Definition cleanup_input : Tri.glob :=
  Tri.mkGlob 1000 800 10
    [mkPoint 492 399; mkPoint 500 399; mkPoint 509 401; mkPoint 498 407;
     mkPoint 494 400] [] [].

Definition cleanup_tris : list tri :=
  [mkTri (mkPoint 492 399) (mkPoint 498 407) (mkPoint 494 400);
   mkTri (mkPoint 498 407) (mkPoint 509 401) (mkPoint 494 400);
   mkTri (mkPoint 509 401) (mkPoint 500 399) (mkPoint 494 400);
   mkTri (mkPoint 500 399) (mkPoint 492 399) (mkPoint 494 400)].

(** A triangle with two points inside it. *)
Definition two_inside : Tri.glob :=
  Tri.mkGlob 1000 800 10
    [mkPoint 0 0; mkPoint 10 0; mkPoint 0 10; mkPoint 2 2; mkPoint 3 4] [] [].

Definition two_inside_t : tri :=
  mkTri (mkPoint 0 0) (mkPoint 10 0) (mkPoint 0 10).

(** Six points: the hull [(498,395) (501,402) (505,404) (501,398)], the seed
    [(501,400)] and the inner point [(504,403)]. *)
Definition outside_input : Tri.glob :=
  Tri.mkGlob 1000 800 10
    [mkPoint 501 402; mkPoint 501 398; mkPoint 498 395; mkPoint 505 404;
     mkPoint 504 403; mkPoint 501 400] [] [].

Definition outside_t : tri :=
  mkTri (mkPoint 501 398) (mkPoint 501 400) (mkPoint 504 403).

Definition outside_p : point := mkPoint 501 402.

(** Three points drawn with the mouse, with the default [n = 100] and
    [clusters = 5]. *)
Definition three_drawn : Hull.glob :=
  Hull.mkGlob 1000 800 100 [mkPoint 100 100; mkPoint 103 104; mkPoint 106 108]
    [] 5 false.

(** A square around a triangle: two layers. *)
Definition seven_points : list point :=
  [mkPoint 0 0; mkPoint 10 0; mkPoint 10 10; mkPoint 0 10;
   mkPoint 3 2; mkPoint 7 4; mkPoint 4 7].

Definition seven_fresh : Hull.glob :=
  Hull.mkGlob 1000 800 100 seven_points [] 5 false.

(** The same points in a state that differs in everything but the width
    and the (empty) edge vector. *)
Definition seven_other : Hull.glob :=
  Hull.mkGlob 1000 600 30 [mkPoint 1 1] [] 3 true.

(** Two clusters: the triangle of the first has an edge on the line
    [x = 20], which passes through the inner point [(20,3)] of the
    second. *)
Definition cluster_one : list point :=
  [mkPoint 20 0; mkPoint 20 10; mkPoint 30 5].

Definition cluster_two : list point :=
  [mkPoint 15 0; mkPoint 25 0; mkPoint 20 8; mkPoint 20 3].

Definition clustering_state : Hull.glob :=
  Hull.mkGlob 1000 800 100 (cluster_one ++ cluster_two) [] 2 true.

(** Five points with pairwise different x and pairwise different y, not all
    on a line; [(5,10)], [(15,11)] and [(25,12)] lie on a line parallel to
    the line through [(0,0)] and [(30,3)]. *)
Definition tie_points : list point :=
  [mkPoint 0 0; mkPoint 30 3; mkPoint 15 11; mkPoint 5 10; mkPoint 25 12].

(** A triangle to the left of the window. *)
Definition left_points : list point :=
  [mkPoint (-30) 0; mkPoint (-10) 0; mkPoint (-20) 10].

(** A square and its centre. *)
Definition square_centre : Tri.glob :=
  Tri.mkGlob 1000 800 10
    [mkPoint 0 0; mkPoint 4 0; mkPoint 4 4; mkPoint 0 4; mkPoint 2 2] [] [].

Definition square_vertices : list point :=
  [mkPoint 0 0; mkPoint 0 4; mkPoint 4 4; mkPoint 4 0].

(** A triangle and a point inside it, to the left of the window. *)
Definition left_triangle : Tri.glob :=
  Tri.mkGlob 1000 800 10
    [mkPoint (-30) 0; mkPoint (-10) 0; mkPoint (-20) 10; mkPoint (-20) 3] [] [].

Definition left_vertices : list point :=
  [mkPoint (-30) 0; mkPoint (-20) 10; mkPoint (-10) 0].

(** The corners of a square of side 60000 with a point next to its centre,
    and with its centre, in a window of 2^30 by 2^30: the score
    [60000 * 60000] does not fit an [int]. *)
Definition wide_square : list point :=
  [mkPoint 0 0; mkPoint 60000 0; mkPoint 60000 60000; mkPoint 0 60000;
   mkPoint 30000 30001].

Definition wide_fresh : Hull.glob :=
  Hull.mkGlob (2 ^ 30) (2 ^ 30) 100 wide_square [] 5 false.

Definition wide_centre : Tri.glob :=
  Tri.mkGlob (2 ^ 30) (2 ^ 30) 10
    [mkPoint 0 0; mkPoint 60000 0; mkPoint 60000 60000; mkPoint 0 60000;
     mkPoint 30000 30000] [] [].

Definition wide_vertices : list point :=
  [mkPoint 0 0; mkPoint 0 60000; mkPoint 60000 60000; mkPoint 60000 0].

(** Four points, three of them on the line [y = 0]. *)
Definition collinear_bottom : list point :=
  [mkPoint 0 0; mkPoint 2 0; mkPoint 4 0; mkPoint 2 3].

(** The corners of a square, with more clusters asked for than there are
    points, and with two clusters of two. *)
Definition four_points_five_clusters : Hull.glob :=
  Hull.mkGlob 1000 800 4
    [mkPoint 10 10; mkPoint 20 10; mkPoint 20 20; mkPoint 10 20] [] 5 false.

Definition square_two_clusters : Hull.glob :=
  Hull.mkGlob 1000 800 4
    [mkPoint 10 10; mkPoint 20 10; mkPoint 20 20; mkPoint 10 20] [] 2 false.

(** The window and the [n] that [main] sets in the triangulation
    program. *)
Definition default_triangulation : TriApp.glob :=
  TriApp.mkGlob (Tri.mkGlob 1000 800 10 [] [] []) [] false false.

(** Five points at the truncated distances 0, 5, 1, 2 and 10 from
    [(0,0)]. *)
Definition near_points : list point :=
  [mkPoint 0 0; mkPoint 3 4; mkPoint 1 0; mkPoint 0 2; mkPoint 6 8].

(** Two points on the left side of a triangle. *)
Definition side_points : Tri.glob :=
  Tri.mkGlob 1000 800 10
    [mkPoint 0 0; mkPoint 0 15; mkPoint 9 9; mkPoint 0 5; mkPoint 0 10] [] [].

(** A small grid of coordinates and states over it. *)
Definition small_grid : list point :=
  [mkPoint 1 1; mkPoint 1 2; mkPoint 2 1; mkPoint 2 2; mkPoint 3 1; mkPoint 3 2].

Definition small_hull_app : HullApp.glob :=
  HullApp.mkGlob (Hull.mkGlob 13 12 4 [] [] 5 false) small_grid false false.

Definition small_tri_app : TriApp.glob :=
  TriApp.mkGlob (Tri.mkGlob 13 12 4 [] [] []) small_grid false false.

(** Twenty coordinates and [n = 10]. *)
Definition twenty_coords : list point :=
  map (fun i => mkPoint i 1) (int_range 1 21).

Definition ten_of_twenty : TriApp.glob :=
  TriApp.mkGlob (Tri.mkGlob 30 11 10 [] [] []) twenty_coords false false.

(** Six points, no three of them on a line: a triangle around a
    triangle. *)
Definition six_points : Tri.glob :=
  Tri.mkGlob 1000 800 10
    [mkPoint 0 0; mkPoint 40 3; mkPoint 17 40; mkPoint 15 10; mkPoint 24 12;
     mkPoint 18 21] [] [].

(** * Properties *)

(** ** The range of the arithmetic *)

(** [wrap] is the identity on the range of [int], and a sum or product of
    wrapped values wraps to the same [int] as the exact one: [dist] and
    [sq_dist] are the exact score and the exact squared distance brought
    into the range of [int] once. *)
Ltac int_bounds :=
  change (2 ^ 31) with 2147483648 in *;
  change (2 ^ 32) with 4294967296 in *.

Lemma wrap_small (z : Z) : - 2 ^ 31 <= z < 2 ^ 31 -> wrap z = z.
Proof.
  intros H. unfold wrap. int_bounds. rewrite Z.mod_small; lia.
Qed.

Lemma wrap_range (z : Z) : - 2 ^ 31 <= wrap z < 2 ^ 31.
Proof.
  unfold wrap. int_bounds.
  pose proof (Z.mod_pos_bound (z + 2147483648) 4294967296 eq_refl) as H.
  lia.
Qed.

Lemma wrap_shift (z k : Z) : wrap (z + k * 2 ^ 32) = wrap z.
Proof.
  unfold wrap. f_equal.
  replace (z + k * 2 ^ 32 + 2 ^ 31) with (z + 2 ^ 31 + k * 2 ^ 32) by ring.
  apply Z.mod_add. discriminate.
Qed.

Lemma wrap_decomp (z : Z) : exists k, wrap z = z + k * 2 ^ 32.
Proof.
  exists (- ((z + 2 ^ 31) / 2 ^ 32)). unfold wrap.
  rewrite Z.mod_eq by discriminate.
  set (q := (z + 2 ^ 31) / 2 ^ 32). int_bounds. lia.
Qed.

Lemma dist_wrap (p1 p2 p3 : point) : dist p1 p2 p3 = wrap (score p1 p2 p3).
Proof.
  unfold dist, score, int_add, int_sub, int_mul.
  destruct (wrap_decomp (py p1 - py p2)) as [k1 ->].
  destruct (wrap_decomp (px p2 - px p1)) as [k2 ->].
  destruct (wrap_decomp ((py p1 - py p2 + k1 * 2 ^ 32) * px p3)) as [k3 ->].
  destruct (wrap_decomp ((px p2 - px p1 + k2 * 2 ^ 32) * py p3)) as [k4 ->].
  destruct (wrap_decomp (px p1 * py p2)) as [k5 ->].
  destruct (wrap_decomp (py p1 * px p2)) as [k6 ->].
  destruct (wrap_decomp (px p1 * py p2 + k5 * 2 ^ 32
                         - (py p1 * px p2 + k6 * 2 ^ 32))) as [k7 ->].
  destruct (wrap_decomp ((py p1 - py p2 + k1 * 2 ^ 32) * px p3 + k3 * 2 ^ 32
                         + ((px p2 - px p1 + k2 * 2 ^ 32) * py p3
                            + k4 * 2 ^ 32))) as [k8 ->].
  etransitivity;
    [|apply (wrap_shift _ (k1 * px p3 + k3 + k2 * py p3 + k4 + k8
                           + k5 - k6 + k7))].
  f_equal. ring.
Qed.

Lemma sq_dist_wrap (p1 p2 : point) : sq_dist p1 p2 = wrap (sq_len p1 p2).
Proof.
  unfold sq_dist, sq_len, int_add, int_sub, int_mul.
  destruct (wrap_decomp (px p2 - px p1)) as [k1 ->].
  destruct (wrap_decomp (py p2 - py p1)) as [k2 ->].
  destruct (wrap_decomp ((px p2 - px p1 + k1 * 2 ^ 32)
                         * (px p2 - px p1 + k1 * 2 ^ 32))) as [k3 ->].
  destruct (wrap_decomp ((py p2 - py p1 + k2 * 2 ^ 32)
                         * (py p2 - py p1 + k2 * 2 ^ 32))) as [k4 ->].
  etransitivity;
    [|apply (wrap_shift _ (2 * k1 * (px p2 - px p1) + k1 * k1 * 2 ^ 32 + k3
                           + 2 * k2 * (py p2 - py p1) + k2 * k2 * 2 ^ 32
                           + k4))].
  f_equal. ring.
Qed.

Lemma score_bound (p1 p2 p3 : point) :
  in_range p1 -> in_range p2 -> in_range p3 ->
  - 2 ^ 31 < score p1 p2 p3 < 2 ^ 31.
Proof.
  unfold in_range, COORD_MAX, score.
  destruct p1 as [x1 y1], p2 as [x2 y2], p3 as [x3 y3]. cbn [px py].
  intros H1 H2 H3. int_bounds.
  assert (A1 : Z.abs ((y1 - y2) * x3) <= 32766 * 16383)
    by (rewrite Z.abs_mul; apply Z.mul_le_mono_nonneg; lia).
  assert (A2 : Z.abs ((x2 - x1) * y3) <= 32766 * 16383)
    by (rewrite Z.abs_mul; apply Z.mul_le_mono_nonneg; lia).
  assert (A3 : Z.abs (x1 * y2) <= 16383 * 16383)
    by (rewrite Z.abs_mul; apply Z.mul_le_mono_nonneg; lia).
  assert (A4 : Z.abs (y1 * x2) <= 16383 * 16383)
    by (rewrite Z.abs_mul; apply Z.mul_le_mono_nonneg; lia).
  set (a1 := (y1 - y2) * x3) in *. set (a2 := (x2 - x1) * y3) in *.
  set (a3 := x1 * y2) in *. set (a4 := y1 * x2) in *. lia.
Qed.

Lemma sq_len_bound (p1 p2 : point) :
  in_range p1 -> in_range p2 -> 0 <= sq_len p1 p2 < 2 ^ 31.
Proof.
  unfold in_range, COORD_MAX, sq_len.
  destruct p1 as [x1 y1], p2 as [x2 y2]. cbn [px py].
  intros H1 H2. int_bounds.
  assert (A1 : 0 <= (x2 - x1) * (x2 - x1) <= 32766 * 32766).
  { split; [apply Z.square_nonneg|]. rewrite <- Z.abs_square.
    apply Z.mul_le_mono_nonneg; lia. }
  assert (A2 : 0 <= (y2 - y1) * (y2 - y1) <= 32766 * 32766).
  { split; [apply Z.square_nonneg|]. rewrite <- Z.abs_square.
    apply Z.mul_le_mono_nonneg; lia. }
  set (a1 := (x2 - x1) * (x2 - x1)) in *.
  set (a2 := (y2 - y1) * (y2 - y1)) in *. lia.
Qed.

Lemma dist_exact (p1 p2 p3 : point) :
  in_range p1 -> in_range p2 -> in_range p3 ->
  dist p1 p2 p3 = score p1 p2 p3.
Proof.
  intros H1 H2 H3. rewrite dist_wrap. apply wrap_small.
  pose proof (score_bound p1 p2 p3 H1 H2 H3). lia.
Qed.

Lemma sq_dist_exact (p1 p2 : point) :
  in_range p1 -> in_range p2 -> sq_dist p1 p2 = sq_len p1 p2.
Proof.
  intros H1 H2. rewrite sq_dist_wrap. apply wrap_small.
  pose proof (sq_len_bound p1 p2 H1 H2). int_bounds. lia.
Qed.

Lemma pythagorean_exact (p1 p2 : point) :
  in_range p1 -> in_range p2 -> pythagorean p1 p2 = Z.sqrt (sq_len p1 p2).
Proof.
  intros H1 H2. unfold pythagorean. rewrite (sq_dist_exact p1 p2 H1 H2).
  pose proof (sq_len_bound p1 p2 H1 H2) as B.
  destruct (Z.ltb_spec (sq_len p1 p2) 0); [lia | reflexivity].
Qed.

(** The points of a list given by its elements are in range. *)
Ltac range_of_list :=
  let p := fresh "p" in
  let H := fresh "H" in
  intros p H; simpl in H;
  repeat (destruct H as [<- | H]; [vm_compute; intuition discriminate|]);
  destruct H.

Lemma dist_start (p q : point) : dist p q p = 0.
Proof.
  rewrite dist_wrap.
  replace (score p q p) with 0 by (unfold score; ring). reflexivity.
Qed.

Lemma dist_end (p q : point) : dist p q q = 0.
Proof.
  rewrite dist_wrap.
  replace (score p q q) with 0 by (unfold score; ring). reflexivity.
Qed.

Lemma sq_dist_sym (p q : point) : sq_dist p q = sq_dist q p.
Proof. rewrite !sq_dist_wrap. f_equal. unfold sq_len. ring. Qed.

(** ** Truncated distances and the flip test *)

Lemma sq_len_nonneg (p q : point) : 0 <= sq_len p q.
Proof.
  unfold sq_len.
  pose proof (Z.square_nonneg (px q - px p)).
  pose proof (Z.square_nonneg (py q - py p)).
  lia.
Qed.

Lemma pythagorean_nonneg (p q : point) :
  in_range p -> in_range q -> 0 <= pythagorean p q.
Proof.
  intros Hp Hq. rewrite (pythagorean_exact p q Hp Hq). apply Z.sqrt_nonneg.
Qed.

Lemma pythagorean_below (p q : point) : pythagorean p q <= 46340.
Proof.
  unfold pythagorean, INT_MIN. rewrite sq_dist_wrap.
  pose proof (wrap_range (sq_len p q)) as R. int_bounds.
  destruct (Z.ltb_spec (wrap (sq_len p q)) 0); [lia|].
  change 46340 with (Z.sqrt 2147483647).
  apply Z.sqrt_le_mono. lia.
Qed.

Lemma pythagorean_spec (p q : point) :
  in_range p -> in_range q ->
  pythagorean p q * pythagorean p q <= sq_len p q
  < (pythagorean p q + 1) * (pythagorean p q + 1).
Proof.
  intros Hp Hq. rewrite (pythagorean_exact p q Hp Hq).
  pose proof (Z.sqrt_spec (sq_len p q) (sq_len_nonneg p q)) as H.
  unfold Z.succ in H. exact H.
Qed.

(** [abs] changes nothing on a truncated distance that did not wrap. *)
Lemma int_abs_pythagorean (p q : point) :
  in_range p -> in_range q -> int_abs (pythagorean p q) = pythagorean p q.
Proof.
  intros Hp Hq. unfold int_abs.
  pose proof (pythagorean_nonneg p q Hp Hq).
  pose proof (pythagorean_below p q).
  rewrite Z.abs_eq by assumption. apply wrap_small. int_bounds. lia.
Qed.

Lemma try_flip_true (t1 t2 t1' t2' : tri) (s1 s2 a b : point) (d1 : Z) :
  Tri.try_flip t1 t2 s1 s2 a b d1 = (true, t1', t2') ->
  t1' = mkTri s1 a b /\ t2' = mkTri s2 a b /\
  Tri.same_sign (dist a b s1) (dist a b s2) = false /\
  int_abs (pythagorean a b) < int_abs d1.
Proof.
  unfold Tri.try_flip.
  destruct (Tri.same_sign (dist a b s1) (dist a b s2)); [discriminate|].
  destruct (int_abs (pythagorean a b) <? int_abs d1) eqn:E; [|discriminate].
  intros H. inversion H; subst. apply Z.ltb_lt in E. auto.
Qed.

(** Every successful call of [check_shared_edge] is a flip in the sense of
    [flip_of], taken on the strict comparison of the two lengths as the
    program computes them and on the strict side test. *)
Lemma check_shared_edge_true (t1 t2 t1' t2' : tri) :
  Tri.check_shared_edge t1 t2 = (true, t1', t2') ->
  exists s1 s2 a b,
    flip_of t1 t2 t1' t2' s1 s2 a b /\
    Tri.same_sign (dist a b s1) (dist a b s2) = false /\
    int_abs (pythagorean a b) < int_abs (pythagorean s1 s2).
Proof.
  unfold Tri.check_shared_edge.
  destruct (Tri.pointCount (Tri.shared_flags t1 t2) =? 2); [|discriminate].
  destruct (Tri.t1p1Share _ && Tri.t1p2Share _);
    [|destruct (Tri.t1p1Share _ && Tri.t1p3Share _)];
    (destruct (Tri.t2p1Share _ && Tri.t2p2Share _);
     [|destruct (Tri.t2p1Share _ && Tri.t2p3Share _)]);
    intros H; apply try_flip_true in H;
    destruct H as (H1 & H2 & H3 & H4);
    match type of H1 with
    | _ = mkTri ?s1 ?a ?b =>
        match type of H2 with
        | _ = mkTri ?s2 _ _ => exists s1, s2, a, b
        end
    end;
    (split; [|split; assumption]);
    unfold flip_of, vertices_of; simpl; tauto.
Qed.

(** The same for triangles between points in range, where the lengths are
    the truncated distances and the scores the exact ones. *)
Lemma check_shared_edge_exact (t1 t2 t1' t2' : tri) :
  all_in_range (vertices_of t1) -> all_in_range (vertices_of t2) ->
  Tri.check_shared_edge t1 t2 = (true, t1', t2') ->
  exists s1 s2 a b,
    flip_of t1 t2 t1' t2' s1 s2 a b /\
    Tri.same_sign (score a b s1) (score a b s2) = false /\
    Z.sqrt (sq_len a b) < Z.sqrt (sq_len s1 s2).
Proof.
  intros R1 R2 H.
  destruct (check_shared_edge_true _ _ _ _ H) as (s1 & s2 & a & b & F & S & L).
  exists s1, s2, a, b. split; [exact F|].
  destruct F as (_ & _ & V1 & V2).
  assert (Rs1 : in_range s1 /\ in_range s2 /\ in_range a).
  { unfold all_in_range, vertices_of in R1. simpl in R1.
    destruct V1 as [(-> & -> & ->) | [(-> & -> & ->) | (-> & -> & ->)]];
      repeat split; apply R1; tauto. }
  destruct Rs1 as (Rs1 & Rs2 & Ra).
  pose proof (R2 b V2) as Rb.
  rewrite !dist_exact in S by assumption.
  rewrite !int_abs_pythagorean, !pythagorean_exact in L by assumption.
  split; assumption.
Qed.

(** A pass of the growth loop only adds points at which [pythagorean]
    gives the current radius. *)
Lemma grow_pass_members (target dist : Z) (seed : point) (pts : list point) :
  forall cluster q,
    In q (Hull.grow_pass target dist seed cluster pts) ->
    In q cluster \/ (In q pts /\ pythagorean seed q = dist).
Proof.
  induction pts as [|p rest IH]; intros cluster q Hq; simpl in Hq.
  - now left.
  - destruct (Z.of_nat (length cluster) >=? target); [now left|].
    destruct (pythagorean seed p =? dist) eqn:E.
    + apply Z.eqb_eq in E. apply IH in Hq.
      destruct Hq as [Hq | [Hq1 Hq2]].
      * apply in_app_or in Hq. destruct Hq as [Hq | [Hq | []]].
        -- now left.
        -- subst q. right. split; [now left | assumption].
      * right. split; [now right | assumption].
    + apply IH in Hq. destruct Hq as [Hq | [Hq1 Hq2]].
      * now left.
      * right. split; [now right | assumption].
Qed.

(** C10. For points in range (coordinates of absolute value at most
    16383, as all window coordinates are), every distance between two
    points is [pythagorean], the integer truncation of the square root of
    the exact squared distance: a pass of the cluster growth loop admits a
    point only when [pythagorean] equals the radius, and
    [check_shared_edge] flips only when the truncated length of the new
    diagonal [a-b] is strictly below the truncated length of the shared
    diagonal [s1-s2]; diagonals for which [pythagorean] gives the same
    value never flip. *)
Theorem truncated_distance_decides :
  (forall p q,
     in_range p -> in_range q ->
     0 <= pythagorean p q /\
     pythagorean p q * pythagorean p q <= sq_len p q
       < (pythagorean p q + 1) * (pythagorean p q + 1)) /\
  (forall target dist seed cluster pts q,
     In q (Hull.grow_pass target dist seed cluster pts) ->
     In q cluster \/ (In q pts /\ pythagorean seed q = dist)) /\
  (forall t1 t2 t1' t2',
     all_in_range (vertices_of t1) -> all_in_range (vertices_of t2) ->
     Tri.check_shared_edge t1 t2 = (true, t1', t2') ->
     exists s1 s2 a b,
       flip_of t1 t2 t1' t2' s1 s2 a b /\
       pythagorean a b < pythagorean s1 s2 /\
       pythagorean a b = Z.sqrt (sq_len a b) /\
       pythagorean s1 s2 = Z.sqrt (sq_len s1 s2)) /\
  (forall t1 t2 s1 s2 a b,
     pythagorean a b = pythagorean s1 s2 ->
     fst (fst (Tri.try_flip t1 t2 s1 s2 a b (pythagorean s1 s2))) = false).
Proof.
  split; [|split; [|split]].
  - intros p q Hp Hq. split.
    + now apply pythagorean_nonneg.
    + now apply pythagorean_spec.
  - intros. eapply grow_pass_members; eassumption.
  - intros t1 t2 t1' t2' R1 R2 H.
    destruct (check_shared_edge_true _ _ _ _ H)
      as (s1 & s2 & a & b & F & _ & L).
    exists s1, s2, a, b. split; [exact F|].
    destruct F as (_ & _ & V1 & V2).
    assert (Rs : in_range s1 /\ in_range s2 /\ in_range a).
    { unfold all_in_range, vertices_of in R1. simpl in R1.
      destruct V1 as [(-> & -> & ->) | [(-> & -> & ->) | (-> & -> & ->)]];
        repeat split; apply R1; tauto. }
    destruct Rs as (Rs1 & Rs2 & Ra).
    pose proof (R2 b V2) as Rb.
    rewrite !int_abs_pythagorean in L by assumption.
    split; [exact L|].
    split; now apply pythagorean_exact.
  - intros t1 t2 s1 s2 a b E. unfold Tri.try_flip.
    destruct (Tri.same_sign _ _); [reflexivity|].
    rewrite E, Z.ltb_irrefl. reflexivity.
Qed.

Lemma truncated_distance_decides_witness :
  exists s1 s2 a b,
    flip_of flip_t1 flip_t2 (mkTri flipP flipA flipB) (mkTri flipQ flipA flipB)
            s1 s2 a b /\
    pythagorean a b < pythagorean s1 s2 /\
    pythagorean a b = Z.sqrt (sq_len a b) /\
    pythagorean s1 s2 = Z.sqrt (sq_len s1 s2).
Proof.
  apply (proj1 (proj2 (proj2 truncated_distance_decides))).
  - intros p Hp. simpl in Hp.
    destruct Hp as [<- | [<- | [<- | []]]]; vm_compute; intuition discriminate.
  - intros p Hp. simpl in Hp.
    destruct Hp as [<- | [<- | [<- | []]]]; vm_compute; intuition discriminate.
  - vm_compute. reflexivity.
Defined.

(** The exact lengths differ (the new diagonal has squared length 100, the
    shared one 101) but both truncate to 10: no flip. *)
Example equal_truncation_no_flip :
  let P := mkPoint 1 10 in let Q := mkPoint 11 11 in
  let A := mkPoint 6 15 in let B := mkPoint 6 5 in
  sq_len A B < sq_len P Q /\
  Tri.same_sign (dist A B P) (dist A B Q) = false /\
  Tri.check_shared_edge (mkTri P Q A) (mkTri B P Q)
  = (false, mkTri P Q A, mkTri B P Q).
Proof. vm_compute. repeat split; reflexivity. Qed.

(** C10 (beyond the range). The squared distance is computed in [int]:
    for two points 65536 apart it wraps to 0 and [pythagorean] gives 0;
    for two points 50000 apart it wraps to a negative number and
    [pythagorean] gives [INT_MIN].  [check_shared_edge] then flips the
    shared edge of length 2 of two triangles to a new diagonal of length
    65536. *)
Theorem distance_wraps :
  pythagorean (mkPoint 0 0) (mkPoint 65536 0) = 0 /\
  Z.sqrt (sq_len (mkPoint 0 0) (mkPoint 65536 0)) = 65536 /\
  pythagorean (mkPoint 0 0) (mkPoint 50000 0) = INT_MIN /\
  (let s1 := mkPoint 30000 1 in let s2 := mkPoint 30000 (-1) in
   let a := mkPoint 0 0 in let b := mkPoint 65536 0 in
   Tri.check_shared_edge (mkTri s1 s2 a) (mkTri b s1 s2)
   = (true, mkTri s1 a b, mkTri s2 a b) /\
   Z.sqrt (sq_len s1 s2) = 2 /\ Z.sqrt (sq_len a b) = 65536) /\
  ~ (forall p q,
       pythagorean p q * pythagorean p q <= sq_len p q
       < (pythagorean p q + 1) * (pythagorean p q + 1)).
Proof.
  split; [vm_compute; reflexivity|].
  split; [vm_compute; reflexivity|].
  split; [vm_compute; reflexivity|].
  split; [vm_compute; repeat split; reflexivity|].
  intros H. specialize (H (mkPoint 0 0) (mkPoint 65536 0)).
  vm_compute in H. destruct H as [_ H]. discriminate H.
Qed.

(** ** The scan of [trisect] *)

Lemma same_frame_refl (g : Tri.glob) : same_frame g g.
Proof. unfold same_frame. auto. Qed.

Lemma same_frame_trans (g1 g2 g3 : Tri.glob) :
  same_frame g1 g2 -> same_frame g2 g3 -> same_frame g1 g3.
Proof. unfold same_frame. intuition congruence. Qed.

Lemma in_extents_frame (g g0 : Tri.glob) (t : tri) (p : point) :
  same_frame g g0 -> Tri.in_extents g0 t p = Tri.in_extents g t p.
Proof.
  intros (Hw & Hh & _). unfold Tri.in_extents, Tri.extents.
  rewrite Hw, Hh. reflexivity.
Qed.

Section ScanBody.

Variable rec : Tri.glob -> tri -> option Tri.glob.
Hypothesis rec_frame : forall g t g', rec g t = Some g' -> same_frame g g'.
Variable t : tri.

Lemma scan_none (l : list point) :
  fold_left (Tri.trisect_body rec t) l None = None.
Proof. induction l; simpl; auto. Qed.

Lemma body_frame (b b' : bool) (g0 g' : Tri.glob) (p : point) :
  Tri.trisect_body rec t (Some (b, g0)) p = Some (b', g') ->
  same_frame g0 g'.
Proof.
  unfold Tri.trisect_body.
  destruct (negb (Tri.is_vertex p t));
    [destruct (Tri.in_extents g0 t p);
     [destruct (Tri.point_in_triangle p t)|]|];
    try (intros H; inversion H; subst; apply same_frame_refl).
  destruct (rec g0 _) as [g1|] eqn:E1; [|discriminate].
  destruct (rec g1 _) as [g2|] eqn:E2; [|discriminate].
  destruct (rec g2 _) as [g3|] eqn:E3; [|discriminate].
  intros H; inversion H; subst.
  apply rec_frame in E1, E2, E3.
  exact (same_frame_trans _ _ _ E1 (same_frame_trans _ _ _ E2 E3)).
Qed.

Lemma scan_frame (l : list point) :
  forall b g0 b' g',
    fold_left (Tri.trisect_body rec t) l (Some (b, g0)) = Some (b', g') ->
    same_frame g0 g'.
Proof.
  induction l as [|p l IH]; intros b g0 b' g' H; cbn [fold_left] in H.
  - inversion H; subst. apply same_frame_refl.
  - destruct (Tri.trisect_body rec t (Some (b, g0)) p) as [[b1 g1]|] eqn:E.
    + eapply same_frame_trans; [eapply body_frame; eassumption|].
      eapply IH; eassumption.
    + rewrite scan_none in H. discriminate.
Qed.

End ScanBody.

(** [trisect] only writes [global.tris]. *)
Lemma trisect_frame (fuel : nat) :
  forall g t g', Tri.trisect fuel g t = Some g' -> same_frame g g'.
Proof.
  induction fuel as [|fuel IH]; intros g t g' H; simpl in H; [discriminate|].
  destruct (fold_left _ _ _) as [[b g1]|] eqn:E; [|discriminate].
  apply scan_frame in E; [|exact IH].
  destruct (negb b); inversion H; subst; [|assumption].
  unfold same_frame in *. simpl. assumption.
Qed.

Lemma subdivide_at_frame (fuel : nat) (t : tri) (g g' : Tri.glob) (p : point) :
  subdivide_at fuel t g p = Some g' -> same_frame g g'.
Proof.
  unfold subdivide_at.
  destruct (Tri.trisect fuel g _) as [g1|] eqn:E1; [|discriminate].
  destruct (Tri.trisect fuel g1 _) as [g2|] eqn:E2; [|discriminate].
  intros E3.
  apply trisect_frame in E1, E2, E3.
  exact (same_frame_trans _ _ _ E1 (same_frame_trans _ _ _ E2 E3)).
Qed.

Lemma subdivide_all_none (fuel : nat) (t : tri) (l : list point) :
  fold_left
    (fun st p => match st with
                 | None => None
                 | Some g0 => subdivide_at fuel t g0 p
                 end) l None = None.
Proof. induction l; simpl; auto. Qed.

(** The loop of [trisect] is the sequence of the subdivisions at the points
    that pass the three tests, and [pFound] records whether there is one. *)
Lemma scan_as_filter (fuel : nat) (t : tri) (g : Tri.glob) (l : list point) :
  forall b g0,
    same_frame g g0 ->
    fold_left (Tri.trisect_body (Tri.trisect fuel) t) l (Some (b, g0)) =
    match subdivide_all fuel t g0 (filter (Tri.splits g t) l) with
    | None => None
    | Some g' => Some (b || existsb (Tri.splits g t) l, g')
    end.
Proof.
  induction l as [|p l IH]; intros b g0 F.
  - simpl. rewrite orb_false_r. reflexivity.
  - assert (Hs : Tri.splits g t p =
                 negb (Tri.is_vertex p t) && Tri.in_extents g0 t p
                 && Tri.point_in_triangle p t).
    { unfold Tri.splits. rewrite (in_extents_frame g g0 t p F). reflexivity. }
    cbn [fold_left filter existsb Tri.trisect_body]. rewrite Hs. clear Hs.
    destruct (negb (Tri.is_vertex p t)); cbn [andb];
      [destruct (Tri.in_extents g0 t p); cbn [andb];
       [destruct (Tri.point_in_triangle p t); cbn [andb]|]|];
      try (rewrite IH by assumption; reflexivity).
    unfold subdivide_all. cbn [fold_left]. unfold subdivide_at at 2.
    destruct (Tri.trisect fuel g0 _) as [g1|] eqn:E1;
      [|rewrite scan_none, subdivide_all_none; reflexivity].
    destruct (Tri.trisect fuel g1 _) as [g2|] eqn:E2;
      [|rewrite scan_none, subdivide_all_none; reflexivity].
    destruct (Tri.trisect fuel g2 _) as [g3|] eqn:E3;
      [|rewrite scan_none, subdivide_all_none; reflexivity].
    apply trisect_frame in E1, E2, E3.
    rewrite IH
      by exact (same_frame_trans _ _ _ F
                  (same_frame_trans _ _ _ E1 (same_frame_trans _ _ _ E2 E3))).
    fold (subdivide_all fuel t g3 (filter (Tri.splits g t) l)).
    rewrite orb_true_r. reflexivity.
Qed.

Lemma filter_nil_existsb {A : Type} (f : A -> bool) (l : list A) :
  filter f l = [] -> existsb f l = false.
Proof.
  induction l as [|a l IH]; simpl; [reflexivity|].
  destruct (f a); [discriminate | exact IH].
Qed.

Lemma filter_cons_existsb {A : Type} (f : A -> bool) (l : list A) a r :
  filter f l = a :: r -> existsb f l = true.
Proof.
  induction l as [|x l IH]; simpl; [discriminate|].
  destruct (f x); [reflexivity | exact IH].
Qed.

(** C3 (as the code has it). One level of [trisect]: every point of
    [global.points], in order, that is no vertex of [t], lies in the extents
    and passes [point_in_triangle] subdivides [t] into the three triangles
    that join it to the pairs of vertices of [t]; the scan goes on after
    each of them.  With no such point, [t] is appended as a leaf. *)
Theorem trisect_every_candidate (fuel : nat) (g : Tri.glob) (t : tri) :
  Tri.trisect (S fuel) g t =
  match filter (Tri.splits g t) (Tri.points g) with
  | [] => Some (Tri.set_tris g (Tri.tris g ++ [t]))
  | p :: rest => subdivide_all fuel t g (p :: rest)
  end.
Proof.
  simpl Tri.trisect.
  rewrite (scan_as_filter fuel t g (Tri.points g) false g (same_frame_refl g)).
  destruct (filter (Tri.splits g t) (Tri.points g)) as [|p rest] eqn:E.
  - rewrite (filter_nil_existsb _ _ E). reflexivity.
  - rewrite (filter_cons_existsb _ _ _ _ E).
    destruct (subdivide_all fuel t g (p :: rest)); reflexivity.
Qed.

(** C3 (as the specification has it) fails: with the two points [(2,2)] and
    [(3,4)] inside the triangle, the code subdivides at both and leaves ten
    triangles, where stopping at the first one leaves five. *)
Lemma trisect_not_first_only :
  Tri.trisect 10 two_inside two_inside_t
  <> trisect_first 10 two_inside two_inside_t.
Proof. vm_compute. discriminate. Qed.

(** C2 (what the code does on a flip). On the five points of
    [cleanup_input], [triangulation] leaves four triangles and
    [tri_cleanup] counts one flip, of the third and second triangle on the
    diagonal [(509,401)-(494,400)]; but the loops of [tri_cleanup] work on
    copies, so the triangle vector still holds the four old triangles and
    neither of the two new ones. *)
Theorem tri_cleanup_keeps_old_triangles :
  let t1 := mkTri (mkPoint 509 401) (mkPoint 500 399) (mkPoint 494 400) in
  let t2 := mkTri (mkPoint 498 407) (mkPoint 509 401) (mkPoint 494 400) in
  let t1' := mkTri (mkPoint 509 401) (mkPoint 500 399) (mkPoint 498 407) in
  let t2' := mkTri (mkPoint 494 400) (mkPoint 500 399) (mkPoint 498 407) in
  exists g',
    Tri.triangulation 10 indet0 cleanup_input
    = Some (g', Some (Tri.mkSummary 1 0 4)) /\
    Tri.tris g' = cleanup_tris /\
    Tri.tri_cleanup g' = (g', 1) /\
    In t1 (Tri.tris g') /\ In t2 (Tri.tris g') /\
    Tri.check_shared_edge t1 t2 = (true, t1', t2') /\
    ~ In t1' (Tri.tris g') /\ ~ In t2' (Tri.tris g').
Proof.
  intros t1 t2 t1' t2'.
  exists (Tri.mkGlob 1000 800 10 [] [] cleanup_tris).
  repeat split; try (vm_compute; reflexivity).
  - vm_compute. tauto.
  - vm_compute. tauto.
  - vm_compute. intros H. repeat (destruct H as [H | H]; [discriminate|]). exact H.
  - vm_compute. intros H. repeat (destruct H as [H | H]; [discriminate|]). exact H.
Qed.

(** [tri_cleanup] never writes the global state. *)
Lemma tri_cleanup_state (g : Tri.glob) : fst (Tri.tri_cleanup g) = g.
Proof. reflexivity. Qed.

(** C4 (what the code does outside the triangle). In the run of
    [triangulation] on [outside_input], the hull vertex [(501,402)] lies on
    the line of the first edge of the triangle
    [(501,398) (501,400) (504,403)], beyond that edge: its first score is 0
    and the other two have opposite signs, so it is outside the triangle.
    [point_in_triangle] compares the first score with the second and with
    the third only, the point passes, and the triangle is subdivided at it:
    the degenerate triangle [(501,398) (501,400) (501,402)] is in the
    output. *)
Theorem outside_point_subdivides :
  exists g1 g',
    Tri.convex_hull 12 indet0 outside_input = Some g1 /\
    Tri.is_vertex outside_p outside_t = false /\
    Tri.in_extents g1 outside_t outside_p = true /\
    dist (t_p1 outside_t) (t_p2 outside_t) outside_p = 0 /\
    dist (t_p2 outside_t) (t_p3 outside_t) outside_p = 6 /\
    dist (t_p3 outside_t) (t_p1 outside_t) outside_p = -12 /\
    ~ inside_triangle outside_p outside_t /\
    Tri.splits g1 outside_t outside_p = true /\
    Tri.triangulation 12 indet0 outside_input
    = Some (g', Some (Tri.mkSummary 0 0 12)) /\
    In (mkTri (t_p1 outside_t) (t_p2 outside_t) outside_p) (Tri.tris g').
Proof.
  destruct (Tri.convex_hull 12 indet0 outside_input) as [g1|] eqn:E1;
    [|vm_compute in E1; discriminate].
  destruct (Tri.triangulation 12 indet0 outside_input) as [[g' s]|] eqn:E2;
    [|vm_compute in E2; discriminate].
  exists g1, g'.
  vm_compute in E1. inversion E1; subst g1. clear E1.
  vm_compute in E2. inversion E2; subst g' s. clear E2.
  repeat split; try (vm_compute; reflexivity).
  - unfold inside_triangle, same_side3. vm_compute.
    intros [(_ & _ & H) | (_ & H & _)]; apply H; reflexivity.
  - vm_compute. tauto.
Qed.

(** The three scores of a point in range against a triangle in range are
    the exact ones. *)
Lemma triangle_scores_exact (p : point) (t : tri) :
  in_range p -> all_in_range (vertices_of t) ->
  dist (t_p1 t) (t_p2 t) p = score (t_p1 t) (t_p2 t) p /\
  dist (t_p2 t) (t_p3 t) p = score (t_p2 t) (t_p3 t) p /\
  dist (t_p3 t) (t_p1 t) p = score (t_p3 t) (t_p1 t) p.
Proof.
  intros Rp Rt.
  assert (R1 : in_range (t_p1 t)) by (apply Rt; simpl; auto).
  assert (R2 : in_range (t_p2 t)) by (apply Rt; simpl; auto).
  assert (R3 : in_range (t_p3 t)) by (apply Rt; simpl; auto).
  repeat split; now apply dist_exact.
Qed.

Lemma score_zero_dist (a b c : point) : score a b c = 0 -> dist a b c = 0.
Proof. intros E. rewrite dist_wrap, E. reflexivity. Qed.

(** What [point_in_triangle] tests: off the line of the first edge it is the
    three-edge test (in range); on that line it accepts every point. *)
Lemma point_in_triangle_off_first_line (p : point) (t : tri) :
  in_range p -> all_in_range (vertices_of t) ->
  score (t_p1 t) (t_p2 t) p <> 0 ->
  (Tri.point_in_triangle p t = true <-> inside_triangle p t).
Proof.
  intros Rp Rt N.
  destruct (triangle_scores_exact p t Rp Rt) as (E1 & E2 & E3).
  unfold Tri.point_in_triangle, inside_triangle, same_side3.
  rewrite E1, E2, E3.
  destruct (Z.gtb_spec (score (t_p1 t) (t_p2 t) p) 0);
    destruct (Z.ltb_spec (score (t_p1 t) (t_p2 t) p) 0);
    destruct (Z.gtb_spec (score (t_p2 t) (t_p3 t) p) 0);
    destruct (Z.ltb_spec (score (t_p2 t) (t_p3 t) p) 0);
    destruct (Z.gtb_spec (score (t_p3 t) (t_p1 t) p) 0);
    destruct (Z.ltb_spec (score (t_p3 t) (t_p1 t) p) 0);
    simpl; split; intros Hyp; try discriminate; try reflexivity; try lia.
Qed.

Lemma point_in_triangle_on_first_line (p : point) (t : tri) :
  dist (t_p1 t) (t_p2 t) p = 0 -> Tri.point_in_triangle p t = true.
Proof.
  intros Z0. unfold Tri.point_in_triangle. rewrite Z0. reflexivity.
Qed.

(** ** The growth loop of [cluster_peel] *)

Lemma grow_pass_length (target dist : Z) (seed : point) (pts : list point) :
  forall cluster,
    (length (Hull.grow_pass target dist seed cluster pts)
     <= length cluster
        + length (filter (fun p => Z.eqb (pythagorean seed p) dist) pts))%nat.
Proof.
  induction pts as [|p rest IH]; intros cluster; simpl.
  - lia.
  - destruct (Z.of_nat (length cluster) >=? target); [lia|].
    destruct (pythagorean seed p =? dist); simpl.
    + specialize (IH (cluster ++ [p])). rewrite length_app in IH. simpl in IH. lia.
    + apply IH.
Qed.

Lemma reachable_step (dist : Z) (seed : point) (pts : list point) :
  reachable dist seed pts
  = (length (filter (fun p => Z.eqb (pythagorean seed p) dist) pts)
     + reachable (Z.add dist 1) seed pts)%nat.
Proof.
  unfold reachable. induction pts as [|p rest IH]; simpl; [reflexivity|].
  destruct (pythagorean seed p =? dist) eqn:E1;
    destruct (dist <=? pythagorean seed p) eqn:E2;
    destruct (dist + 1 <=? pythagorean seed p) eqn:E3;
    simpl; rewrite IH; try lia;
    rewrite ?Z.eqb_eq, ?Z.eqb_neq, ?Z.leb_le, ?Z.leb_gt in *; lia.
Qed.

(** The growth loop has no test for an exhausted working set: when the
    cluster and the points still reachable are fewer than the target, it
    never exits. *)
Lemma grow_starved (target : Z) (seed : point) (pts : list point) (fuel : nat) :
  forall dist cluster,
    Z.of_nat (length cluster) + Z.of_nat (reachable dist seed pts) < target ->
    Hull.grow fuel target dist seed cluster pts = None.
Proof.
  induction fuel as [|fuel IH]; intros dist cluster H; simpl; [reflexivity|].
  destruct (Z.of_nat (length cluster) <? target) eqn:E.
  - apply IH.
    pose proof (grow_pass_length target dist seed pts cluster).
    rewrite (reachable_step dist) in H. lia.
  - apply Z.ltb_ge in E. lia.
Qed.


(** ** QuickHull: the scan *)

Lemma same_point_eq (p q : point) : same_point p q = true -> p = q.
Proof.
  unfold same_point. destruct p as [x1 y1], q as [x2 y2]. simpl.
  rewrite andb_true_iff, !Z.eqb_eq. intros [-> ->]. reflexivity.
Qed.

Lemma same_point_refl (p : point) : same_point p p = true.
Proof. unfold same_point. rewrite !Z.eqb_refl. reflexivity. Qed.

Lemma same_point_neq (p q : point) : p <> q -> same_point p q = false.
Proof.
  intros H. destruct (same_point p q) eqn:E; [|reflexivity].
  apply same_point_eq in E. contradiction.
Qed.

Lemma score_start (p q : point) : score p q p = 0.
Proof. unfold score. destruct p, q. simpl. ring. Qed.

Lemma score_end (p q : point) : score p q q = 0.
Proof. unfold score. destruct p, q. simpl. ring. Qed.

Lemma score_swap (p q r : point) : score q p r = - score p q r.
Proof. unfold score. destruct p, q, r. simpl. ring. Qed.

(** The invariant of the scan: [maxD] is 0 or the score of [pMax], a point
    seen so far, and no point seen so far has a greater score. *)
Lemma hull_scan_inv (p1 p2 : point) (l : list point) :
  forall (seen : list point) (pMax : point) (maxD : Z),
    0 <= maxD ->
    (maxD = 0 \/ (In pMax seen /\ dist p1 p2 pMax = maxD)) ->
    (forall r, In r seen -> dist p1 p2 r <= maxD) ->
    let st := fold_left (hull_scan_step p1 p2) l (pMax, maxD) in
    0 <= snd st /\
    (snd st = 0 \/ (In (fst st) (seen ++ l) /\ dist p1 p2 (fst st) = snd st)) /\
    (forall r, In r (seen ++ l) -> dist p1 p2 r <= snd st).
Proof.
  induction l as [|p l IH]; intros seen pMax maxD H0 H1 H2; simpl.
  - rewrite app_nil_r. auto.
  - assert (E : seen ++ p :: l = (seen ++ [p]) ++ l)
      by (rewrite <- app_assoc; reflexivity).
    rewrite E.
    destruct (negb (same_point p p1 || same_point p p2)) eqn:V.
    + destruct (dist p1 p2 p >? maxD) eqn:G.
      * apply Z.gtb_lt in G. apply IH.
        -- lia.
        -- right. split; [apply in_or_app; right; now left | reflexivity].
        -- intros r Hr. apply in_app_or in Hr.
           destruct Hr as [Hr | [Hr | []]].
           ++ specialize (H2 r Hr). lia.
           ++ subst r. lia.
      * assert (G' : dist p1 p2 p <= maxD).
        { destruct (Z.gtb_spec (dist p1 p2 p) maxD); [discriminate | lia]. }
        apply IH.
        -- assumption.
        -- destruct H1 as [H1 | [H1 H1']]; [now left|].
           right. split; [apply in_or_app; now left | assumption].
        -- intros r Hr. apply in_app_or in Hr.
           destruct Hr as [Hr | [Hr | []]]; [auto | subst r; assumption].
    + apply negb_false_iff, orb_true_iff in V.
      assert (Z0 : dist p1 p2 p = 0).
      { destruct V as [V | V]; apply same_point_eq in V; subst p;
          [apply dist_start | apply dist_end]. }
      apply IH.
      * assumption.
      * destruct H1 as [H1 | [H1 H1']]; [now left|].
        right. split; [apply in_or_app; now left | assumption].
      * intros r Hr. apply in_app_or in Hr.
        destruct Hr as [Hr | [Hr | []]]; [auto | subst r; lia].
Qed.

(** What the scan of [quick_hull] returns. *)
Lemma hull_scan_spec (pts : list point) (p1 p2 : point) :
  0 <= snd (hull_scan pts p1 p2) /\
  (snd (hull_scan pts p1 p2) = 0 \/
   (In (fst (hull_scan pts p1 p2)) pts /\
    dist p1 p2 (fst (hull_scan pts p1 p2)) = snd (hull_scan pts p1 p2))) /\
  (forall r, In r pts -> dist p1 p2 r <= snd (hull_scan pts p1 p2)).
Proof.
  unfold hull_scan.
  apply (hull_scan_inv p1 p2 pts [] (mkPoint 0 0) 0);
    [lia | now left | intros r []].
Qed.

Lemma hull_scan_leaf (pts : list point) (p1 p2 : point) :
  in_range p1 -> in_range p2 -> all_in_range pts ->
  snd (hull_scan pts p1 p2) = 0 -> forall r, In r pts -> score p1 p2 r <= 0.
Proof.
  intros R1 R2 Rp H r Hr. destruct (hull_scan_spec pts p1 p2) as (_ & _ & H2).
  specialize (H2 r Hr). rewrite dist_exact in H2 by auto. lia.
Qed.

Lemma hull_scan_node (pts : list point) (p1 p2 : point) :
  in_range p1 -> in_range p2 -> all_in_range pts ->
  snd (hull_scan pts p1 p2) <> 0 ->
  In (fst (hull_scan pts p1 p2)) pts /\
  0 < score p1 p2 (fst (hull_scan pts p1 p2)) /\
  (forall r, In r pts ->
             score p1 p2 r <= score p1 p2 (fst (hull_scan pts p1 p2))).
Proof.
  intros R1 R2 Rp H.
  destruct (hull_scan_spec pts p1 p2) as (H0 & [H1 | [H1 H1']] & H2);
    [contradiction|].
  rewrite dist_exact in H1' by auto.
  repeat split; [assumption | lia |].
  intros r Hr. specialize (H2 r Hr). rewrite dist_exact in H2 by auto. lia.
Qed.

(** The point that the scan returns is a point of the list when the score
    is not 0, whatever the arithmetic. *)
Lemma hull_scan_in (pts : list point) (p1 p2 : point) :
  snd (hull_scan pts p1 p2) <> 0 -> In (fst (hull_scan pts p1 p2)) pts.
Proof.
  intros H.
  destruct (hull_scan_spec pts p1 p2) as (_ & [H1 | [H1 _]] & _);
    [contradiction | assumption].
Qed.

Lemma ranged_split (pts : list point) (p q : point) :
  ranged pts p q -> snd (hull_scan pts p q) <> 0 ->
  ranged pts p (fst (hull_scan pts p q)) /\
  ranged pts (fst (hull_scan pts p q)) q.
Proof.
  intros (Rp & R1 & R2) N. pose proof (Rp _ (hull_scan_in pts p q N)) as Rm.
  unfold ranged. auto.
Qed.

(** The point that the scan returns with a score other than 0 is neither
    of the two ends, whatever the arithmetic. *)
Lemma hull_scan_proper (pts : list point) (p1 p2 : point) :
  snd (hull_scan pts p1 p2) <> 0 ->
  fst (hull_scan pts p1 p2) <> p1 /\ fst (hull_scan pts p1 p2) <> p2.
Proof.
  intros H.
  destruct (hull_scan_spec pts p1 p2) as (_ & [H1 | [_ H1]] & _);
    [contradiction|].
  split; intros E; rewrite E in H1;
    [rewrite dist_start in H1 | rewrite dist_end in H1]; congruence.
Qed.

(** ** QuickHull: the geometry of one split *)

(** Decomposition of [r - p] on [q - p] and [m - p], under a linear form. *)
Lemma split_identity_first (nx ny : Z) (p q m r : point) :
  score p q m * dot nx ny p r
  = - score p m r * dot nx ny p q + score p q r * dot nx ny p m.
Proof. unfold score, dot. destruct p, q, m, r. simpl. ring. Qed.

(** Decomposition of [q - r] on [q - p] and [q - m], under a linear form. *)
Lemma split_identity_second (nx ny : Z) (p q m r : point) :
  score p q m * dot nx ny r q
  = - score m q r * dot nx ny p q + score p q r * dot nx ny m q.
Proof. unfold score, dot. destruct p, q, m, r. simpl. ring. Qed.

Lemma dot_normal_max (p q m r : point) :
  dot (- (py q - py p)) (px q - px p) r m = score p q m - score p q r.
Proof. unfold score, dot. destruct p, q, m, r. simpl. ring. Qed.

Lemma dot_normal_min (p q m r : point) :
  dot (py q - py p) (- (px q - px p)) m r = score p q m - score p q r.
Proof. unfold score, dot. destruct p, q, m, r. simpl. ring. Qed.

Section Split.

Variable pts : list point.
Variables p q m : point.
Hypothesis m_in : In m pts.
Hypothesis m_left : 0 < score p q m.

(** Points with a positive score against [p -> m] already had one against
    [p -> q]. *)
Lemma left_first_sub (nx ny : Z) (r : point) :
  0 <= dot nx ny p r -> 0 < dot nx ny p q -> 0 <= dot nx ny p m ->
  0 < score p m r -> 0 < score p q r.
Proof.
  intros Hr Hq Hm L.
  pose proof (split_identity_first nx ny p q m r) as I.
  destruct (Z.lt_ge_cases 0 (score p q r)) as [|C]; [assumption|exfalso].
  pose proof (Z.mul_nonneg_nonneg _ _ (Z.lt_le_incl _ _ m_left) Hr).
  pose proof (Z.mul_pos_pos _ _ L Hq).
  pose proof (Z.mul_nonpos_nonneg _ _ C Hm).
  lia.
Qed.

(** Points with a positive score against [m -> q] already had one against
    [p -> q]. *)
Lemma left_second_sub (nx ny : Z) (r : point) :
  0 <= dot nx ny r q -> 0 < dot nx ny p q -> 0 <= dot nx ny m q ->
  0 < score m q r -> 0 < score p q r.
Proof.
  intros Hr Hq Hm L.
  pose proof (split_identity_second nx ny p q m r) as I.
  destruct (Z.lt_ge_cases 0 (score p q r)) as [|C]; [assumption|exfalso].
  pose proof (Z.mul_nonneg_nonneg _ _ (Z.lt_le_incl _ _ m_left) Hr).
  pose proof (Z.mul_pos_pos _ _ L Hq).
  pose proof (Z.mul_nonpos_nonneg _ _ C Hm).
  lia.
Qed.

Lemma flat_first (nx ny : Z) (r : point) :
  0 <= dot nx ny p r -> 0 < dot nx ny p q -> dot nx ny p m = 0 ->
  score p m r <= 0.
Proof.
  intros Hr Hq Hm.
  pose proof (split_identity_first nx ny p q m r) as I.
  rewrite Hm, Z.mul_0_r, Z.add_0_r in I.
  destruct (Z.le_gt_cases (score p m r) 0) as [|C]; [assumption|exfalso].
  pose proof (Z.mul_nonneg_nonneg _ _ (Z.lt_le_incl _ _ m_left) Hr).
  pose proof (Z.mul_pos_pos _ _ C Hq).
  lia.
Qed.

Lemma flat_second (nx ny : Z) (r : point) :
  0 <= dot nx ny r q -> 0 < dot nx ny p q -> dot nx ny m q = 0 ->
  score m q r <= 0.
Proof.
  intros Hr Hq Hm.
  pose proof (split_identity_second nx ny p q m r) as I.
  rewrite Hm, Z.mul_0_r, Z.add_0_r in I.
  destruct (Z.le_gt_cases (score m q r) 0) as [|C]; [assumption|exfalso].
  pose proof (Z.mul_nonneg_nonneg _ _ (Z.lt_le_incl _ _ m_left) Hr).
  pose proof (Z.mul_pos_pos _ _ C Hq).
  lia.
Qed.

Hypothesis m_max : forall r, In r pts -> score p q r <= score p q m.
Hypothesis sup : supports pts p q.

Lemma supports_forms :
  exists n1x n1y n2x n2y,
    (forall r, In r pts -> 0 <= dot n1x n1y p r) /\
    0 < dot n1x n1y p q /\
    (forall r, In r pts -> 0 <= dot n2x n2y r q) /\
    0 < dot n2x n2y p q.
Proof.
  destruct sup as [F | F]; [|exact F].
  specialize (F m m_in). lia.
Qed.

Lemma supports_first : supports pts p m.
Proof.
  destruct supports_forms as (n1x & n1y & n2x & n2y & H1 & H1q & H2 & H2q).
  destruct (Z.eq_dec (dot n1x n1y p m) 0) as [Z0 | NZ].
  - left. intros r Hr. apply (flat_first n1x n1y r); auto.
  - right. exists n1x, n1y, (- (py q - py p)), (px q - px p).
    repeat split.
    + assumption.
    + specialize (H1 m m_in). lia.
    + intros r Hr. rewrite dot_normal_max. specialize (m_max r Hr). lia.
    + rewrite dot_normal_max, score_start. lia.
Qed.

Lemma supports_second : supports pts m q.
Proof.
  destruct supports_forms as (n1x & n1y & n2x & n2y & H1 & H1q & H2 & H2q).
  destruct (Z.eq_dec (dot n2x n2y m q) 0) as [Z0 | NZ].
  - left. intros r Hr. apply (flat_second n2x n2y r); auto.
  - right. exists (py q - py p), (- (px q - px p)), n2x, n2y.
    repeat split.
    + intros r Hr. rewrite dot_normal_min. specialize (m_max r Hr). lia.
    + rewrite dot_normal_min, score_end. lia.
    + assumption.
    + specialize (H2 m m_in). lia.
Qed.

Lemma left_first_in (r : point) :
  In r pts -> left_of p m r = true -> left_of p q r = true.
Proof.
  unfold left_of. rewrite !Z.ltb_lt. intros Hr L.
  destruct supports_forms as (n1x & n1y & _ & _ & H1 & H1q & _).
  apply (left_first_sub n1x n1y r); auto.
Qed.

Lemma left_second_in (r : point) :
  In r pts -> left_of m q r = true -> left_of p q r = true.
Proof.
  unfold left_of. rewrite !Z.ltb_lt. intros Hr L.
  destruct supports_forms as (_ & _ & n2x & n2y & _ & _ & H2 & H2q).
  apply (left_second_sub n2x n2y r); auto.
Qed.

End Split.

(** ** QuickHull: termination *)

Lemma filter_length_mono {A : Type} (f g : A -> bool) (l : list A) :
  (forall x, In x l -> f x = true -> g x = true) ->
  (length (filter f l) <= length (filter g l))%nat.
Proof.
  induction l as [|a l IH]; intros H; simpl; [lia|].
  assert (IH' : (length (filter f l) <= length (filter g l))%nat)
    by (apply IH; intros x Hx; apply H; now right).
  destruct (f a) eqn:Fa.
  - rewrite (H a (or_introl eq_refl) Fa). simpl. lia.
  - destruct (g a); simpl; lia.
Qed.

Lemma filter_length_lt {A : Type} (f g : A -> bool) (l : list A) (a : A) :
  (forall x, In x l -> f x = true -> g x = true) ->
  In a l -> f a = false -> g a = true ->
  (length (filter f l) < length (filter g l))%nat.
Proof.
  induction l as [|b l IH]; intros H Ha Fa Ga; [destruct Ha|].
  simpl. destruct Ha as [-> | Ha].
  - rewrite Fa, Ga. simpl.
    assert ((length (filter f l) <= length (filter g l))%nat)
      by (apply filter_length_mono; intros x Hx; apply H; now right).
    lia.
  - assert (IH' : (length (filter f l) < length (filter g l))%nat)
      by (apply IH; auto; intros x Hx; apply H; now right).
    destruct (f b) eqn:Fb.
    + rewrite (H b (or_introl eq_refl) Fb). simpl. lia.
    + destruct (g b); simpl; lia.
Qed.

(** Both recursive calls have strictly fewer candidates. *)
Lemma left_count_split (pts : list point) (p q : point) :
  ranged pts p q ->
  supports pts p q ->
  snd (hull_scan pts p q) <> 0 ->
  (left_count pts p (fst (hull_scan pts p q)) < left_count pts p q)%nat /\
  (left_count pts (fst (hull_scan pts p q)) q < left_count pts p q)%nat.
Proof.
  intros (Rp & R1 & R2) S N.
  destruct (hull_scan_node pts p q R1 R2 Rp N) as (Hin & Hpos & Hmax).
  set (m := fst (hull_scan pts p q)) in *.
  unfold left_count. split.
  - apply (filter_length_lt _ _ _ m); auto.
    + intros r Hr. apply (left_first_in pts p q m Hin Hpos S r Hr).
    + unfold left_of. rewrite score_end. reflexivity.
    + unfold left_of. apply Z.ltb_lt. assumption.
  - apply (filter_length_lt _ _ _ m); auto.
    + intros r Hr. apply (left_second_in pts p q m Hin Hpos S r Hr).
    + unfold left_of. rewrite score_start. reflexivity.
    + unfold left_of. apply Z.ltb_lt. assumption.
Qed.

Lemma left_count_le (pts : list point) (p q : point) :
  (left_count pts p q <= length pts)%nat.
Proof. unfold left_count. apply List.filter_length_le. Qed.

Lemma quick_hull_unfold (fuel : nat) (pts : list point) (p q : point)
  (es : list edge) :
  quick_hull (S fuel) pts p q es =
  if snd (hull_scan pts p q) =? 0 then Some (es ++ [mkEdge p q])
  else
    match quick_hull fuel pts p (fst (hull_scan pts p q)) es with
    | None => None
    | Some es1 => quick_hull fuel pts (fst (hull_scan pts p q)) q es1
    end.
Proof. simpl. destruct (hull_scan pts p q). reflexivity. Qed.

(** Every call in the situation [supports] returns, within a recursion
    depth of one more than the number of its candidates, and pushes the
    edges of its recursion tree. *)
Lemma quick_hull_total (n : nat) :
  forall pts p q,
    ranged pts p q ->
    supports pts p q ->
    (left_count pts p q <= n)%nat ->
    exists c,
      hull_chain pts p q c /\
      forall fuel es,
        (n < fuel)%nat -> quick_hull fuel pts p q es = Some (es ++ c).
Proof.
  induction n as [|n IH]; intros pts p q R S L;
    (destruct (Z.eq_dec (snd (hull_scan pts p q)) 0) as [E | N];
     [exists [mkEdge p q]; split; [now constructor|];
      intros [|fuel] es Lf; [lia|];
      rewrite quick_hull_unfold, E; reflexivity|]);
    destruct (left_count_split pts p q R S N) as [L1 L2]; [lia|].
  destruct (ranged_split pts p q R N) as [Ra Rb].
  destruct R as (Rp & R1 & R2).
  destruct (hull_scan_node pts p q R1 R2 Rp N) as (Hin & Hpos & Hmax).
  destruct (IH pts p (fst (hull_scan pts p q))) as (c1 & C1 & Q1);
    [assumption | eapply supports_first; eassumption | lia |].
  destruct (IH pts (fst (hull_scan pts p q)) q) as (c2 & C2 & Q2);
    [assumption | eapply supports_second; eassumption | lia |].
  exists (c1 ++ c2). split; [now constructor|].
  intros [|fuel] es Lf; [lia|]. rewrite quick_hull_unfold.
  destruct (Z.eqb_spec (snd (hull_scan pts p q)) 0); [contradiction|].
  rewrite Q1, Q2 by lia. rewrite app_assoc. reflexivity.
Qed.

(** Whatever the fuel, a result of [quick_hull] is the edges of a recursion
    tree, pushed behind the edges already there. *)
Lemma quick_hull_chain (fuel : nat) :
  forall pts p q es es',
    quick_hull fuel pts p q es = Some es' ->
    exists c, es' = es ++ c /\ hull_chain pts p q c.
Proof.
  induction fuel as [|fuel IH]; intros pts p q es es' H; [discriminate|].
  rewrite quick_hull_unfold in H.
  destruct (Z.eqb_spec (snd (hull_scan pts p q)) 0) as [E | N].
  - inversion H; subst. exists [mkEdge p q]. split; [reflexivity|now constructor].
  - destruct (quick_hull fuel pts p _ es) as [es1|] eqn:Q1; [|discriminate].
    apply IH in Q1. destruct Q1 as (c1 & -> & C1).
    apply IH in H. destruct H as (c2 & -> & C2).
    exists (c1 ++ c2). split; [now rewrite app_assoc | now constructor].
Qed.

(** ** QuickHull: the two calls of [convex_hull] *)

Lemma minmax_inv (l : list point) :
  forall (A0 B0 : point),
    let st := fold_left minmax_step l (A0, B0) in
    px (fst st) <= px A0 /\ px B0 <= px (snd st) /\
    (forall r, In r l -> px (fst st) <= px r <= px (snd st)) /\
    (fst st = A0 \/ In (fst st) l) /\
    (snd st = B0 \/ In (snd st) l) /\
    ((exists r, In r l /\ px r < px A0) -> In (fst st) l) /\
    ((exists r, In r l /\ px B0 < px r) -> In (snd st) l).
Proof.
  induction l as [|p l IH]; intros A0 B0; simpl.
  - repeat split; try lia; try tauto; intros (r & [] & _).
  - set (A1 := if px p <? px A0 then p else A0).
    set (B1 := if px p >? px B0 then p else B0).
    specialize (IH A1 B1). simpl in IH.
    destruct IH as (I1 & I2 & I3 & I4 & I5 & I6 & I7).
    assert (HA : px A1 <= px A0 /\ px A1 <= px p).
    { unfold A1. destruct (Z.ltb_spec (px p) (px A0)); lia. }
    assert (HB : px B0 <= px B1 /\ px p <= px B1).
    { unfold B1. destruct (Z.gtb_spec (px p) (px B0)); lia. }
    repeat split; try lia.
    + destruct H as [<- | H]; [lia | apply I3 in H; lia].
    + destruct H as [<- | H]; [lia | apply I3 in H; lia].
    + destruct I4 as [I4 | I4]; [|right; now right].
      rewrite I4. unfold A1.
      destruct (px p <? px A0); [right; now left | now left].
    + destruct I5 as [I5 | I5]; [|right; now right].
      rewrite I5. unfold B1.
      destruct (px p >? px B0); [right; now left | now left].
    + intros (r & [E | Hr] & Lr).
      * subst r. destruct I4 as [I4 | I4]; [|now right].
        rewrite I4. unfold A1.
        destruct (Z.ltb_spec (px p) (px A0)); [now left | lia].
      * destruct I4 as [I4 | I4]; [|now right].
        revert I4 I6. unfold A1.
        destruct (Z.ltb_spec (px p) (px A0)); intros I4 I6.
        -- left. now rewrite I4.
        -- right. apply I6. exists r. split; assumption.
    + intros (r & [E | Hr] & Lr).
      * subst r. destruct I5 as [I5 | I5]; [|now right].
        rewrite I5. unfold B1.
        destruct (Z.gtb_spec (px p) (px B0)); [now left | lia].
      * destruct I5 as [I5 | I5]; [|now right].
        revert I5 I7. unfold B1.
        destruct (Z.gtb_spec (px p) (px B0)); intros I5 I7.
        -- left. now rewrite I5.
        -- right. apply I7. exists r. split; assumption.
Qed.

(** [minPoint] is leftmost and [maxPoint] rightmost, sentinels included. *)
Lemma minmax_bounds (w : Z) (indet : list point -> Z * Z) (pts : list point) :
  forall r, In r pts ->
            px (fst (minmax w indet pts)) <= px r <= px (snd (minmax w indet pts)).
Proof.
  unfold minmax.
  destruct (minmax_inv pts (mkPoint w (fst (indet pts)))
                       (mkPoint (-1) (snd (indet pts)))) as (_ & _ & H & _).
  exact H.
Qed.

Lemma score_vertical (p q r : point) :
  px q = px p -> px r = px p -> score p q r = 0.
Proof. unfold score. destruct p, q, r. simpl. intros -> ->. ring. Qed.

Lemma supports_between (pts : list point) (p q : point) :
  (forall r, In r pts -> px p <= px r <= px q) ->
  supports pts p q /\ supports pts q p.
Proof.
  intros H. destruct pts as [|r0 pts'] eqn:E.
  - split; left; intros r [].
  - rewrite <- E in *.
    assert (Hpq : px p <= px q).
    { specialize (H r0). rewrite E in H. specialize (H (or_introl eq_refl)). lia. }
    destruct (Z.eq_dec (px p) (px q)) as [Eq | Ne].
    + split; left; intros r Hr; specialize (H r Hr).
      * rewrite score_vertical; lia.
      * rewrite score_vertical; lia.
    + split; right.
      * exists 1, 0, 1, 0. unfold dot.
        repeat split; try lia; intros r Hr; specialize (H r Hr); lia.
      * exists (-1), 0, (-1), 0. unfold dot.
        repeat split; try lia; intros r Hr; specialize (H r Hr); lia.
Qed.

(** The body of [convex_hull] returns on every input, and what it pushes is
    the edges of two recursion trees: from [minPoint] to [maxPoint] and
    back. *)
Lemma hull_edges_total (w : Z) (indet : list point -> Z * Z)
  (pts : list point) :
  ranged pts (fst (minmax w indet pts)) (snd (minmax w indet pts)) ->
  (3 <= length pts)%nat ->
  exists c1 c2,
    hull_chain pts (fst (minmax w indet pts)) (snd (minmax w indet pts)) c1 /\
    hull_chain pts (snd (minmax w indet pts)) (fst (minmax w indet pts)) c2 /\
    forall fuel es,
      (length pts < fuel)%nat ->
      hull_edges fuel w indet pts es = Some (es ++ c1 ++ c2).
Proof.
  intros R L3.
  destruct (supports_between pts _ _ (minmax_bounds w indet pts)) as [S1 S2].
  set (A := fst (minmax w indet pts)) in *.
  set (B := snd (minmax w indet pts)) in *.
  assert (R' : ranged pts B A) by (unfold ranged in *; tauto).
  destruct (quick_hull_total (length pts) pts A B R S1 (left_count_le pts A B))
    as (c1 & C1 & Q1).
  destruct (quick_hull_total (length pts) pts B A R' S2 (left_count_le pts B A))
    as (c2 & C2 & Q2).
  exists c1, c2. repeat split; try assumption.
  intros fuel es Lf. unfold hull_edges.
  destruct (Nat.ltb_spec (length pts) 3); [lia|].
  rewrite (surjective_pairing (minmax w indet pts)). fold A B.
  rewrite Q1, Q2 by assumption. rewrite app_assoc. reflexivity.
Qed.

(** ** QuickHull: what the pushed edges are *)

(** No point has a positive score against an edge that was pushed. *)
Lemma chain_edges_clear (pts : list point) (p q : point) (c : list edge) :
  hull_chain pts p q c ->
  ranged pts p q ->
  forall e, In e c -> forall r, In r pts -> score (e_p1 e) (e_p2 e) r <= 0.
Proof.
  induction 1 as [p q E | p q c1 c2 N _ IH1 _ IH2]; intros R e He r Hr.
  - destruct He as [<- | []]. simpl. destruct R as (Rp & R1 & R2).
    now apply (hull_scan_leaf pts).
  - destruct (ranged_split pts p q R N) as [Ra Rb].
    apply in_app_or in He. destruct He; auto.
Qed.

Lemma linked_app (c1 c2 : list edge) :
  forall p m q, linked p c1 m -> linked m c2 q -> linked p (c1 ++ c2) q.
Proof.
  induction c1 as [|e c1 IH]; intros p m q L1 L2; simpl in *.
  - now subst.
  - destruct L1 as [E L1]. split; [assumption|]. eapply IH; eassumption.
Qed.

(** The edges pushed by a call lead from [p1] to [p2]. *)
Lemma chain_linked (pts : list point) (p q : point) (c : list edge) :
  hull_chain pts p q c -> linked p c q /\ c <> [].
Proof.
  induction 1 as [p q E | p q c1 c2 N _ [L1 N1] _ [L2 N2]].
  - simpl. split; [auto | discriminate].
  - split; [eapply linked_app; eassumption|].
    destruct c1; [contradiction | discriminate].
Qed.

(** C9. For points in range (coordinates of absolute value at most 16383,
    [minPoint] and [maxPoint] included), the recursion of [quick_hull]
    started by [convex_hull] returns on every point list, within a
    recursion depth of one more than the number of points and with no other
    bound; every edge it pushes is a base case, where no point has a
    positive score.  This holds for both programs, whose [convex_hull] have
    this same body. *)
Theorem quick_hull_terminates (w : Z) (indet : list point -> Z * Z)
  (pts : list point) (es : list edge)
  (Hrange : ranged pts (fst (minmax w indet pts)) (snd (minmax w indet pts))) :
  exists c,
    (forall fuel, (length pts < fuel)%nat ->
                  hull_edges fuel w indet pts es = Some (es ++ c)) /\
    (forall e, In e c ->
               forall r, In r pts -> score (e_p1 e) (e_p2 e) r <= 0) /\
    (forall (g : Hull.glob) fuel,
        Hull.w g = w -> Hull.edges g = es -> (length pts < fuel)%nat ->
        Hull.convex_hull fuel indet g pts = Some (Hull.set_edges g (es ++ c))) /\
    (forall (g : Tri.glob) fuel,
        Tri.w g = w -> Tri.points g = pts -> Tri.edges g = es ->
        (length pts < fuel)%nat ->
        Tri.convex_hull fuel indet g = Some (Tri.set_edges g (es ++ c))).
Proof.
  destruct (Nat.ltb_spec (length pts) 3) as [Small | Big].
  - exists []. rewrite app_nil_r.
    assert (H : forall fuel, hull_edges fuel w indet pts es = Some es).
    { intros fuel. unfold hull_edges.
      destruct (Nat.ltb_spec (length pts) 3); [reflexivity | lia]. }
    repeat split.
    + intros; apply H.
    + intros e [].
    + intros g fuel <- <- _. unfold Hull.convex_hull. now rewrite H.
    + intros g fuel <- <- <- _. unfold Tri.convex_hull. now rewrite H.
  - destruct (hull_edges_total w indet pts Hrange Big)
      as (c1 & c2 & C1 & C2 & Q).
    assert (Hback : ranged pts (snd (minmax w indet pts))
                      (fst (minmax w indet pts)))
      by (unfold ranged in *; tauto).
    exists (c1 ++ c2). repeat split.
    + intros fuel Lf. now apply Q.
    + intros e He r Hr. apply in_app_or in He.
      destruct He as [He | He];
        [apply (chain_edges_clear _ _ _ _ C1 Hrange e He r Hr)
        |apply (chain_edges_clear _ _ _ _ C2 Hback e He r Hr)].
    + intros g fuel <- <- Lf. unfold Hull.convex_hull. now rewrite Q.
    + intros g fuel <- <- <- Lf. unfold Tri.convex_hull. now rewrite Q.
Qed.

Lemma quick_hull_terminates_witness :
  exists c,
    (forall fuel, (5 < fuel)%nat ->
       hull_edges fuel 1000 indet0
         [mkPoint 0 0; mkPoint 4 0; mkPoint 4 4; mkPoint 0 4; mkPoint 2 2] []
       = Some ([] ++ c)) /\
    (forall e, In e c ->
       forall r,
         In r [mkPoint 0 0; mkPoint 4 0; mkPoint 4 4; mkPoint 0 4; mkPoint 2 2] ->
         score (e_p1 e) (e_p2 e) r <= 0).
Proof.
  destruct (quick_hull_terminates 1000 indet0
              [mkPoint 0 0; mkPoint 4 0; mkPoint 4 4; mkPoint 0 4; mkPoint 2 2]
              []) as (c & H1 & H2 & _).
  - split; [|split; vm_compute; intuition discriminate].
    intros p Hp. simpl in Hp.
    repeat (destruct Hp as [<- | Hp]; [vm_compute; intuition discriminate|]).
    destruct Hp.
  - exists c. split; [exact H1 | exact H2].
Defined.

(** *** Beyond the range *)

(** A family of calls [quick_hull(points, p, x)] each of which finds a
    point of positive score and recurses first on another call of the
    family: none of them returns. *)
Lemma quick_hull_cycle (pts : list point) (p : point) (xs : list point) :
  (forall x, In x xs ->
             snd (hull_scan pts p x) <> 0 /\ In (fst (hull_scan pts p x)) xs) ->
  forall fuel x es, In x xs -> quick_hull fuel pts p x es = None.
Proof.
  intros H. induction fuel as [|fuel IH]; intros x es Hx; [reflexivity|].
  destruct (H x Hx) as [N Hm].
  rewrite quick_hull_unfold.
  destruct (Z.eqb_spec (snd (hull_scan pts p x)) 0); [contradiction|].
  now rewrite (IH _ es Hm).
Qed.

(** Four corners of a square of side 60000 and a point next to its
    centre: no three of them are on a line and all lie in a window of
    width 2^30, but the score of [(60000,60000)] against the bottom side,
    3600000000, wraps to a negative [int]. *)
Lemma wide_square_hull_never_returns (pts : list point) (w : Z)
  (indet : list point -> Z * Z) :
  pts = [mkPoint 0 0; mkPoint 60000 0; mkPoint 60000 60000; mkPoint 0 60000;
         mkPoint 30000 30001] ->
  w = 2 ^ 30 ->
  forall fuel es, hull_edges fuel w indet pts es = None.
Proof.
  intros -> -> fuel es. unfold hull_edges.
  change (length _ <? 3)%nat with false. cbv iota.
  assert (M : minmax (2 ^ 30) indet
                [mkPoint 0 0; mkPoint 60000 0; mkPoint 60000 60000;
                 mkPoint 0 60000; mkPoint 30000 30001]
              = (mkPoint 0 0, mkPoint 60000 0)) by reflexivity.
  rewrite M.
  rewrite (quick_hull_cycle _ (mkPoint 0 0)
             [mkPoint 60000 0; mkPoint 30000 30001; mkPoint 0 60000]);
    [reflexivity | | now left].
  intros x Hx. simpl in Hx.
  destruct Hx as [<- | [<- | [<- | []]]]; vm_compute;
    (split; [discriminate | tauto]).
Qed.

(** The same with the centre itself as fifth point. *)
Lemma wide_centre_hull_never_returns (pts : list point) (w : Z)
  (indet : list point -> Z * Z) :
  pts = [mkPoint 0 0; mkPoint 60000 0; mkPoint 60000 60000; mkPoint 0 60000;
         mkPoint 30000 30000] ->
  w = 2 ^ 30 ->
  forall fuel es, hull_edges fuel w indet pts es = None.
Proof.
  intros -> -> fuel es. unfold hull_edges.
  change (length _ <? 3)%nat with false. cbv iota.
  assert (M : minmax (2 ^ 30) indet
                [mkPoint 0 0; mkPoint 60000 0; mkPoint 60000 60000;
                 mkPoint 0 60000; mkPoint 30000 30000]
              = (mkPoint 0 0, mkPoint 60000 0)) by reflexivity.
  rewrite M.
  rewrite (quick_hull_cycle _ (mkPoint 0 0)
             [mkPoint 60000 0; mkPoint 30000 30000; mkPoint 0 60000]);
    [reflexivity | | now left].
  intros x Hx. simpl in Hx.
  destruct Hx as [<- | [<- | [<- | []]]]; vm_compute;
    (split; [discriminate | tauto]).
Qed.

(** [peel] and [triangulation] start with [convex_hull]. *)
Lemma wide_peel_never_returns (g : Hull.glob) (pts : list point)
  (indet : list point -> Z * Z) :
  pts = wide_square ->
  Hull.w g = 2 ^ 30 ->
  forall fuel, Hull.peel fuel indet g pts = None.
Proof.
  intros Ep Ew fuel. unfold Hull.peel.
  destruct fuel as [|fuel]; [reflexivity|].
  cbn [Hull.peel_loop]. unfold Hull.convex_hull.
  rewrite (wide_square_hull_never_returns pts (Hull.w g) indet Ep Ew).
  rewrite Ep. reflexivity.
Qed.

Lemma wide_triangulation_never_returns (indet : list point -> Z * Z) :
  forall fuel, Tri.triangulation fuel indet wide_centre = None.
Proof.
  intros fuel. unfold Tri.triangulation.
  change (length (Tri.points wide_centre) <? 3)%nat with false. cbv iota.
  unfold Tri.convex_hull.
  rewrite (wide_centre_hull_never_returns _ _ indet eq_refl eq_refl).
  reflexivity.
Qed.

(** C9 (beyond the range) fails: on the wide square [quick_hull] calls
    itself on [(0,0)-(60000,0)], [(0,0)-(30000,30001)], [(0,0)-(0,60000)]
    and on the first again, and [convex_hull] never returns. *)
Theorem quick_hull_wraps_forever :
  let pts := [mkPoint 0 0; mkPoint 60000 0; mkPoint 60000 60000;
              mkPoint 0 60000; mkPoint 30000 30001] in
  (forall p, In p pts -> 0 <= px p < 2 ^ 30 /\ 0 <= py p < 2 ^ 30) /\
  (forall fuel es, hull_edges fuel (2 ^ 30) indet0 pts es = None) /\
  (forall fuel es,
     quick_hull fuel pts (mkPoint 0 0) (mkPoint 60000 0) es = None).
Proof.
  cbv zeta. split; [|split].
  - intros p Hp. simpl in Hp.
    repeat (destruct Hp as [<- | Hp]; [vm_compute; intuition discriminate|]).
    destruct Hp.
  - intros fuel es. now apply wide_square_hull_never_returns.
  - intros fuel es.
    apply (quick_hull_cycle _ (mkPoint 0 0)
             [mkPoint 60000 0; mkPoint 30000 30001; mkPoint 0 60000]);
      [|now left].
    intros x Hx. simpl in Hx.
    destruct Hx as [<- | [<- | [<- | []]]]; vm_compute;
      (split; [discriminate | tauto]).
Qed.

(** ** Peeling *)

Lemma filter_drops {A : Type} (f : A -> bool) (l : list A) (a : A) :
  In a l -> f a = false -> (length (filter f l) < length l)%nat.
Proof.
  intros Ha Fa.
  assert (E : length l = length (filter (fun _ => true) l)).
  { clear. induction l; simpl; congruence. }
  rewrite E. apply (filter_length_lt _ _ _ a); auto.
Qed.

Lemma linked_first (p q : point) (c : list edge) :
  linked p c q -> c <> [] -> exists e, In e c /\ e_p1 e = p.
Proof.
  destruct c as [|e c]; [contradiction|].
  intros [E _] _. exists e. split; [now left | assumption].
Qed.

(** With a window of width at least 0 one of [minPoint], [maxPoint] is a
    point of the list. *)
Lemma minmax_real (w : Z) (indet : list point -> Z * Z) (pts : list point) :
  0 <= w -> pts <> [] ->
  In (fst (minmax w indet pts)) pts \/ In (snd (minmax w indet pts)) pts.
Proof.
  intros Hw Hne. unfold minmax.
  destruct (minmax_inv pts (mkPoint w (fst (indet pts)))
                       (mkPoint (-1) (snd (indet pts))))
    as (_ & _ & _ & _ & _ & HA & HB).
  destruct pts as [|r0 pts']; [contradiction|].
  destruct (Z.lt_ge_cases (px r0) w).
  - left. apply HA. exists r0. split; [now left | assumption].
  - right. apply HB. exists r0. split; [now left | simpl; lia].
Qed.

(** [minPoint] and [maxPoint] are points of the list or the sentinels. *)
Lemma minmax_cases (w : Z) (indet : list point -> Z * Z) (pts : list point) :
  (fst (minmax w indet pts) = mkPoint w (fst (indet pts)) \/
   In (fst (minmax w indet pts)) pts) /\
  (snd (minmax w indet pts) = mkPoint (-1) (snd (indet pts)) \/
   In (snd (minmax w indet pts)) pts).
Proof.
  unfold minmax.
  destruct (minmax_inv pts (mkPoint w (fst (indet pts)))
                       (mkPoint (-1) (snd (indet pts))))
    as (_ & _ & _ & HA & HB & _).
  split; assumption.
Qed.

Lemma minmax_members (w : Z) (indet : list point -> Z * Z) (pts : list point) :
  pts <> [] -> (forall p, In p pts -> 0 <= px p < w) ->
  In (fst (minmax w indet pts)) pts /\ In (snd (minmax w indet pts)) pts.
Proof.
  intros Hne Hwin. unfold minmax.
  destruct (minmax_inv pts (mkPoint w (fst (indet pts)))
                       (mkPoint (-1) (snd (indet pts))))
    as (_ & _ & _ & _ & _ & HA & HB).
  destruct pts as [|r0 pts']; [contradiction|].
  pose proof (Hwin r0 (or_introl eq_refl)) as H0.
  split; [apply HA | apply HB]; exists r0; (split; [now left | simpl; lia]).
Qed.

Lemma all_in_range_incl (l pts : list point) :
  incl l pts -> all_in_range pts -> all_in_range l.
Proof. intros I R p Hp. apply R, I, Hp. Qed.

Lemma safe_ends_incl (w : Z) (indet : list point -> Z * Z)
  (l pts : list point) :
  incl l pts -> safe_ends w indet pts -> safe_ends w indet l.
Proof.
  intros I S l' N I'. apply S; [assumption|].
  intros p Hp. apply I, I', Hp.
Qed.

(** Points in range inside the window have safe ends, whatever the
    indeterminate values. *)
Lemma safe_ends_window (w : Z) (indet : list point -> Z * Z)
  (pts : list point) :
  all_in_range pts -> (forall p, In p pts -> 0 <= px p < w) ->
  safe_ends w indet pts.
Proof.
  intros R Hwin l N I.
  destruct (minmax_members w indet l N) as [HA HB].
  - intros p Hp. apply Hwin, I, Hp.
  - split; apply R, I; assumption.
Qed.

(** So have points in range when the window width and the indeterminate
    values are in range. *)
Lemma safe_ends_small (w : Z) (indet : list point -> Z * Z)
  (pts : list point) :
  all_in_range pts ->
  (forall l, in_range (mkPoint w (fst (indet l))) /\
             in_range (mkPoint (-1) (snd (indet l)))) ->
  safe_ends w indet pts.
Proof.
  intros R S l N I.
  destruct (minmax_cases w indet l) as [[-> | HA] [-> | HB]];
    split; try apply S; apply R, I; assumption.
Qed.

Lemma safe_ends_ranged (w : Z) (indet : list point -> Z * Z)
  (pts : list point) :
  all_in_range pts -> safe_ends w indet pts -> pts <> [] ->
  ranged pts (fst (minmax w indet pts)) (snd (minmax w indet pts)).
Proof.
  intros R S N. destruct (S pts N (incl_refl pts)) as [HA HB].
  unfold ranged. auto.
Qed.

Lemma pointExists_app (es1 es2 : list edge) (p : point) :
  Hull.pointExists (es1 ++ es2) p
  = Hull.pointExists es1 p || Hull.pointExists es2 p.
Proof. unfold Hull.pointExists. apply existsb_app. Qed.

Lemma pointExists_start (c : list edge) (p q : point) :
  linked p c q -> c <> [] -> Hull.pointExists c p = true.
Proof.
  intros L N. destruct (linked_first p q c L N) as (e & He & E).
  unfold Hull.pointExists. apply existsb_exists. exists e.
  split; [assumption|]. rewrite E, dist_start. reflexivity.
Qed.

(** Each turn of the loop of [peel] removes a point. *)
Lemma hull_removes_point (w : Z) (indet : list point -> Z * Z)
  (pts : list point) (es c1 c2 : list edge) :
  0 <= w -> pts <> [] ->
  hull_chain pts (fst (minmax w indet pts)) (snd (minmax w indet pts)) c1 ->
  hull_chain pts (snd (minmax w indet pts)) (fst (minmax w indet pts)) c2 ->
  (length (filter (fun p => negb (Hull.pointExists (es ++ c1 ++ c2) p)) pts)
   < length pts)%nat.
Proof.
  intros Hw Hne C1 C2.
  apply chain_linked in C1, C2. destruct C1 as [L1 N1], C2 as [L2 N2].
  destruct (minmax_real w indet pts Hw Hne) as [HA | HB].
  - apply (filter_drops _ _ _ HA).
    rewrite !pointExists_app, (pointExists_start c1 _ _ L1 N1).
    rewrite orb_true_r. reflexivity.
  - apply (filter_drops _ _ _ HB).
    rewrite !pointExists_app, (pointExists_start c2 _ _ L2 N2).
    rewrite !orb_true_r. reflexivity.
Qed.

(** The loop of [peel] returns when the window width is at least 0; it
    leaves fewer than three points, keeps every field of the global state
    but the edges, and pushes the hull of each layer in turn. *)
Lemma peel_loop_total (k : nat) :
  forall indet g pts,
    0 <= Hull.w g -> all_in_range pts -> safe_ends (Hull.w g) indet pts ->
    (length pts <= k)%nat ->
    exists g' rest layers,
      (forall fuel, (k + 2 <= fuel)%nat ->
         Hull.peel_loop fuel indet g pts = Some (g', rest) /\
         peel_layers fuel indet (Hull.w g) (Hull.edges g) pts = Some layers) /\
      (length rest < 3)%nat /\
      g' = Hull.set_edges g (Hull.edges g ++ concat (map snd layers)).
Proof.
  induction k as [|k IH]; intros indet g pts Hw Hr Hs Lk.
  - exists g, pts, []. simpl. rewrite app_nil_r. repeat split; try lia.
    + destruct fuel as [|fuel]; [lia|]. simpl.
      destruct (Nat.ltb_spec 2 (length pts)); [lia | reflexivity].
    + destruct fuel as [|fuel]; [lia|]. simpl.
      destruct (Nat.ltb_spec 2 (length pts)); [lia | reflexivity].
    + destruct g; reflexivity.
  - destruct (Nat.ltb_spec 2 (length pts)) as [Big | Small].
    + assert (Hne : pts <> []) by (destruct pts; [simpl in Big; lia | discriminate]).
      destruct (hull_edges_total (Hull.w g) indet pts
                  (safe_ends_ranged _ _ _ Hr Hs Hne) Big)
        as (c1 & c2 & C1 & C2 & Q).
      pose proof (hull_removes_point (Hull.w g) indet pts (Hull.edges g)
                    c1 c2 Hw Hne C1 C2) as Shrink.
      set (es1 := Hull.edges g ++ c1 ++ c2) in *.
      set (newPoints := filter (fun p => negb (Hull.pointExists es1 p)) pts) in *.
      assert (Inc : incl newPoints pts)
        by (intros p Hp; apply filter_In in Hp; tauto).
      destruct (IH indet (Hull.set_edges g es1) newPoints Hw
                  (all_in_range_incl _ _ Inc Hr)
                  (safe_ends_incl _ _ _ _ Inc Hs))
        as (g' & rest & layers & Run & Lrest & Eg); [lia|].
      exists g', rest, ((pts, c1 ++ c2) :: layers).
      repeat split; try assumption.
      * destruct fuel as [|fuel]; [lia|]. simpl.
        destruct (Nat.ltb_spec 2 (length pts)); [|lia].
        unfold Hull.convex_hull. rewrite Q by lia. fold es1.
        change (Hull.edges (Hull.set_edges g es1)) with es1.
        fold newPoints. apply Run. lia.
      * destruct fuel as [|fuel]; [lia|]. simpl.
        destruct (Nat.ltb_spec 2 (length pts)); [|lia].
        rewrite !Q by lia. simpl. fold es1. fold newPoints.
        destruct (Run fuel) as [_ R]; [lia|]. simpl in R. rewrite R.
        reflexivity.
      * rewrite Eg. simpl. unfold es1. unfold Hull.set_edges. simpl.
        rewrite <- !app_assoc. reflexivity.
    + exists g, pts, []. simpl. rewrite app_nil_r. repeat split; try lia.
      * destruct fuel as [|fuel]; [lia|]. simpl.
        destruct (Nat.ltb_spec 2 (length pts)); [lia | reflexivity].
      * destruct fuel as [|fuel]; [lia|]. simpl.
        destruct (Nat.ltb_spec 2 (length pts)); [lia | reflexivity].
      * destruct g; reflexivity.
Qed.

Lemma peel_total (indet : list point -> Z * Z) (g : Hull.glob)
  (pts : list point) :
  0 <= Hull.w g -> all_in_range pts -> safe_ends (Hull.w g) indet pts ->
  exists g' rest layers,
    (forall fuel, (length pts + 2 <= fuel)%nat ->
       Hull.peel fuel indet g pts
       = Some (g', rest,
               Hull.mkReport (length (Hull.points g))
                 (length (Hull.edges g) + length (concat (map snd layers)))) /\
       peel_layers fuel indet (Hull.w g) (Hull.edges g) pts = Some layers) /\
    (length rest < 3)%nat /\
    Hull.edges g' = Hull.edges g ++ concat (map snd layers).
Proof.
  intros Hw Hr Hs.
  destruct (peel_loop_total (length pts) indet g pts Hw Hr Hs (le_n _))
    as (g1 & rest & layers & Run & Lrest & Eg).
  exists (if Hull.clustering g1 then g1 else Hull.set_points g1 []), rest, layers.
  repeat split; try assumption.
  - unfold Hull.peel. destruct (Run fuel H) as [-> _].
    rewrite Eg. simpl. rewrite length_app. reflexivity.
  - apply (Run fuel H).
  - rewrite Eg. destruct (Hull.clustering _); reflexivity.
Qed.

(** C6 (as the code has it). For points in range, with a window width of
    at least 0 and with [minPoint] and [maxPoint] in range on every layer
    ([safe_ends]), [peel] returns once fewer than three points remain; the
    point count it prints is the size of [global.points], which the loop
    never touches (the whole input when [peel] is run on it), and the edge
    count is the size of [global.edges]: the edges that were there before
    the call and the hulls of all the layers, not those of the last hull. *)
Theorem peel_reports_totals (indet : list point -> Z * Z) (g : Hull.glob)
  (pts : list point) (Hw : 0 <= Hull.w g)
  (Hrange : all_in_range pts) (Hends : safe_ends (Hull.w g) indet pts) :
  exists g' rest layers,
    (forall fuel, (length pts + 2 <= fuel)%nat ->
       Hull.peel fuel indet g pts
       = Some (g', rest,
               Hull.mkReport (length (Hull.points g))
                 (length (Hull.edges g) + length (concat (map snd layers)))) /\
       peel_layers fuel indet (Hull.w g) (Hull.edges g) pts = Some layers) /\
    (length rest < 3)%nat /\
    Hull.edges g' = Hull.edges g ++ concat (map snd layers).
Proof. exact (peel_total indet g pts Hw Hrange Hends). Qed.

Lemma seven_points_in_range : all_in_range seven_points.
Proof.
  intros p Hp. unfold seven_points in Hp. simpl in Hp.
  repeat (destruct Hp as [<- | Hp]; [vm_compute; intuition discriminate|]).
  destruct Hp.
Qed.

Lemma seven_points_in_window : forall p, In p seven_points -> 0 <= px p < 1000.
Proof.
  intros p Hp. unfold seven_points in Hp. simpl in Hp.
  repeat (destruct Hp as [<- | Hp]; [simpl; lia|]). destruct Hp.
Qed.

Lemma peel_reports_totals_witness :
  0 <= Hull.w seven_fresh /\
  exists g' rest layers,
    (forall fuel, (length seven_points + 2 <= fuel)%nat ->
       Hull.peel fuel indet0 seven_fresh seven_points
       = Some (g', rest,
               Hull.mkReport (length (Hull.points seven_fresh))
                 (length (Hull.edges seven_fresh)
                  + length (concat (map snd layers)))) /\
       peel_layers fuel indet0 (Hull.w seven_fresh) (Hull.edges seven_fresh)
         seven_points = Some layers) /\
    (length rest < 3)%nat /\
    Hull.edges g' = Hull.edges seven_fresh ++ concat (map snd layers).
Proof.
  assert (Hw : 0 <= Hull.w seven_fresh) by (simpl; lia).
  split; [exact Hw|].
  exact (peel_reports_totals indet0 seven_fresh seven_points Hw
           seven_points_in_range
           (safe_ends_window _ _ _ seven_points_in_range
              seven_points_in_window)).
Defined.

(** C6 (as the specification has it) fails: on a square around a triangle
    the last hull computed is the triangle, three edges over three points,
    and [peel] prints seven points and seven edges.  And on the wide
    square, in a window of width 2^30, the scores wrap and [peel] never
    returns. *)
Lemma peel_report_not_last_hull :
  (exists g' rest r layers last_pts last_hull,
     Hull.peel 20 indet0 seven_fresh seven_points = Some (g', rest, r) /\
     peel_layers 20 indet0 (Hull.w seven_fresh) (Hull.edges seven_fresh)
       seven_points = Some layers /\
     last layers ([], []) = (last_pts, last_hull) /\
     length last_pts = 3%nat /\ length last_hull = 3%nat /\
     Hull.rep_points r <> length last_pts /\
     Hull.rep_edges r <> length last_hull /\
     Hull.rep_points r = length seven_points /\
     Hull.rep_edges r = 7%nat) /\
  0 <= Hull.w wide_fresh /\
  (forall p, In p wide_square -> 0 <= px p < Hull.w wide_fresh) /\
  (forall fuel, Hull.peel fuel indet0 wide_fresh wide_square = None).
Proof.
  split;
    [|split; [vm_compute; discriminate|];
      split; [|now apply wide_peel_never_returns];
      intros p Hp; unfold wide_square in Hp; simpl in Hp;
      repeat (destruct Hp as [<- | Hp]; [vm_compute; intuition discriminate|]);
      destruct Hp].
  destruct (Hull.peel 20 indet0 seven_fresh seven_points)
    as [[[g' rest] r]|] eqn:E1; [|vm_compute in E1; discriminate].
  destruct (peel_layers 20 indet0 (Hull.w seven_fresh)
              (Hull.edges seven_fresh) seven_points)
    as [layers|] eqn:E2; [|vm_compute in E2; discriminate].
  vm_compute in E1. inversion E1; subst g' rest r. clear E1.
  vm_compute in E2. inversion E2; subst layers. clear E2.
  do 6 eexists.
  split; [reflexivity|]. split; [reflexivity|]. split; [reflexivity|].
  vm_compute. repeat split; try reflexivity; discriminate.
Qed.

(** ** What [peel] reads *)

(** The loop of [peel] reads the window width and the edge vector of the
    global state, and nothing else of it. *)
Lemma peel_loop_reads (fuel : nat) :
  forall indet g1 g2 pts,
    Hull.w g1 = Hull.w g2 -> Hull.edges g1 = Hull.edges g2 ->
    match Hull.peel_loop fuel indet g1 pts, Hull.peel_loop fuel indet g2 pts with
    | Some (a, r1), Some (b, r2) =>
        r1 = r2 /\ Hull.edges a = Hull.edges b /\
        a = Hull.set_edges g1 (Hull.edges a) /\
        b = Hull.set_edges g2 (Hull.edges b)
    | None, None => True
    | _, _ => False
    end.
Proof.
  induction fuel as [|fuel IH]; intros indet g1 g2 pts Hw He; simpl; [exact I|].
  destruct (2 <? length pts)%nat.
  - unfold Hull.convex_hull. rewrite Hw, He.
    destruct (hull_edges fuel (Hull.w g2) indet pts (Hull.edges g2))
      as [es1|]; [|exact I].
    specialize (IH indet (Hull.set_edges g1 es1) (Hull.set_edges g2 es1)
                   (filter (fun p => negb (Hull.pointExists es1 p)) pts) Hw eq_refl).
    simpl in IH |- *.
    destruct (Hull.peel_loop fuel indet (Hull.set_edges g1 es1) _) as [[a r1]|];
      destruct (Hull.peel_loop fuel indet (Hull.set_edges g2 es1) _) as [[b r2]|];
      exact IH.
  - repeat split; try assumption; destruct g1, g2; reflexivity.
Qed.

(** For points inside the window the sentinels never survive the scan, and
    the indeterminate values play no part. *)
Lemma minmax_indet_irrelevant (w : Z) (indet1 indet2 : list point -> Z * Z)
  (pts : list point) :
  pts <> [] -> (forall p, In p pts -> 0 <= px p < w) ->
  minmax w indet1 pts = minmax w indet2 pts.
Proof.
  intros Hne Hwin. destruct pts as [|p rest]; [contradiction|].
  pose proof (Hwin p (or_introl eq_refl)) as Hp.
  unfold minmax. cbn [fold_left minmax_step px].
  destruct (Z.ltb_spec (px p) w); [|lia].
  destruct (Z.gtb_spec (px p) (-1)); [|lia].
  reflexivity.
Qed.

Lemma hull_edges_indet_irrelevant (fuel : nat) (w : Z)
  (indet1 indet2 : list point -> Z * Z) (pts : list point) (es : list edge) :
  (forall p, In p pts -> 0 <= px p < w) ->
  hull_edges fuel w indet1 pts es = hull_edges fuel w indet2 pts es.
Proof.
  intros Hwin. unfold hull_edges.
  destruct (Nat.ltb_spec (length pts) 3) as [|L3]; [reflexivity|].
  rewrite (minmax_indet_irrelevant w indet1 indet2 pts); [reflexivity| |exact Hwin].
  destruct pts; [simpl in L3; lia | discriminate].
Qed.

Lemma peel_loop_indet_irrelevant (fuel : nat)
  (indet1 indet2 : list point -> Z * Z) :
  forall g pts,
    (forall p, In p pts -> 0 <= px p < Hull.w g) ->
    Hull.peel_loop fuel indet1 g pts = Hull.peel_loop fuel indet2 g pts.
Proof.
  induction fuel as [|fuel IH]; intros g pts Hwin; simpl; [reflexivity|].
  destruct (2 <? length pts)%nat; [|reflexivity].
  unfold Hull.convex_hull.
  rewrite (hull_edges_indet_irrelevant fuel (Hull.w g) indet1 indet2 pts
             (Hull.edges g) Hwin).
  destruct (hull_edges fuel (Hull.w g) indet2 pts (Hull.edges g)) as [es1|];
    [|reflexivity].
  apply IH. intros p Hp. apply filter_In in Hp. apply Hwin. tauto.
Qed.

(** C7 (as the code has it). For points inside the window, [peel] is a
    function of the supplied points together with the window width and
    the content of [global.edges] at the call: two calls on equal point
    lists from states that agree on these two leave the same points, push
    the same edges and print the same edge count; the point count printed
    is the size of [global.points] of each state. *)
Theorem peel_reads_edges_and_width (fuel : nat)
  (indet1 indet2 : list point -> Z * Z)
  (g1 g2 : Hull.glob) (pts : list point)
  (Hw : Hull.w g1 = Hull.w g2) (He : Hull.edges g1 = Hull.edges g2)
  (Hwin : forall p, In p pts -> 0 <= px p < Hull.w g1) :
  match Hull.peel fuel indet1 g1 pts, Hull.peel fuel indet2 g2 pts with
  | Some (a, r1, rep1), Some (b, r2, rep2) =>
      r1 = r2 /\ Hull.edges a = Hull.edges b /\
      Hull.rep_edges rep1 = Hull.rep_edges rep2 /\
      Hull.rep_points rep1 = length (Hull.points g1) /\
      Hull.rep_points rep2 = length (Hull.points g2)
  | None, None => True
  | _, _ => False
  end.
Proof.
  unfold Hull.peel.
  rewrite (peel_loop_indet_irrelevant fuel indet1 indet2 g1 pts Hwin).
  pose proof (peel_loop_reads fuel indet2 g1 g2 pts Hw He) as R.
  destruct (Hull.peel_loop fuel indet2 g1 pts) as [[a r1]|];
    destruct (Hull.peel_loop fuel indet2 g2 pts) as [[b r2]|]; try exact R.
  destruct R as (-> & E & Ea & Eb). simpl.
  repeat split.
  - destruct (Hull.clustering a), (Hull.clustering b); simpl; assumption.
  - now rewrite E.
  - rewrite Ea. reflexivity.
  - rewrite Eb. reflexivity.
Qed.

Lemma peel_reads_edges_and_width_witness :
  match Hull.peel 20 indet0 seven_fresh seven_points,
        Hull.peel 20 (fun _ => (5, 7)) seven_other seven_points with
  | Some (a, r1, rep1), Some (b, r2, rep2) =>
      r1 = r2 /\ Hull.edges a = Hull.edges b /\
      Hull.rep_edges rep1 = Hull.rep_edges rep2 /\
      Hull.rep_points rep1 = length (Hull.points seven_fresh) /\
      Hull.rep_points rep2 = length (Hull.points seven_other)
  | None, None => True
  | _, _ => False
  end.
Proof.
  apply (peel_reads_edges_and_width 20 indet0 (fun _ => (5, 7)) seven_fresh
           seven_other seven_points); try reflexivity.
  intros p Hp. unfold seven_points in Hp. simpl in Hp.
  repeat (destruct Hp as [<- | Hp]; [simpl; lia|]). destruct Hp.
Defined.

(** C7 (as the specification has it) fails.  After a convex hull of the
    same points, whose edges stay in [global.edges], [peel] prints eleven
    edges instead of seven; inside [cluster_peel], the edges left by the
    peel of the first cluster make the peel of the second one drop the
    point [(20,3)], which a peel of the same points from a state without
    edges leaves over; and for points to the left of the window the edges
    depend on the indeterminate y of the surviving sentinel. *)
Lemma peel_reads_stale_edges :
  (exists g_hull a r1 rep1 b r2 rep2,
     Hull.convex_hull 20 indet0 seven_fresh seven_points = Some g_hull /\
     Hull.peel 20 indet0 seven_fresh seven_points = Some (a, r1, rep1) /\
     Hull.peel 20 indet0 g_hull seven_points = Some (b, r2, rep2) /\
     Hull.rep_edges rep1 = 7%nat /\ Hull.rep_edges rep2 = 11%nat /\
     Hull.edges a <> Hull.edges b) /\
  (exists g_one r0 rep0 a r1 rep1 b r2 rep2,
     Hull.peel 20 indet0 clustering_state cluster_one = Some (g_one, r0, rep0) /\
     Hull.peel 20 indet0 clustering_state cluster_two = Some (a, r1, rep1) /\
     Hull.peel 20 indet0 g_one cluster_two = Some (b, r2, rep2) /\
     r1 = [mkPoint 20 3] /\ r2 = [] /\ rep1 <> rep2) /\
  (exists a r1 rep1 b r2 rep2,
     Hull.peel 20 indet0 seven_fresh left_points = Some (a, r1, rep1) /\
     Hull.peel 20 (fun _ => (0, 7)) seven_fresh left_points
     = Some (b, r2, rep2) /\
     Hull.edges a <> Hull.edges b).
Proof.
  split; [|split].
  - destruct (Hull.convex_hull 20 indet0 seven_fresh seven_points)
      as [g_hull|] eqn:E0; [|vm_compute in E0; discriminate].
    vm_compute in E0. inversion E0; subst g_hull. clear E0.
    do 7 eexists.
    split; [reflexivity|].
    split; [vm_compute; reflexivity|].
    split; [vm_compute; reflexivity|].
    vm_compute. repeat split; discriminate.
  - destruct (Hull.peel 20 indet0 clustering_state cluster_one)
      as [[[g_one r0] rep0]|] eqn:E0; [|vm_compute in E0; discriminate].
    vm_compute in E0. inversion E0; subst g_one r0 rep0. clear E0.
    do 9 eexists.
    split; [reflexivity|].
    split; [vm_compute; reflexivity|].
    split; [vm_compute; reflexivity|].
    repeat split; discriminate.
  - do 6 eexists.
    split; [vm_compute; reflexivity|].
    split; [vm_compute; reflexivity|].
    vm_compute. discriminate.
Qed.

(** ** QuickHull: the polygon *)

Lemma edge_points_app (c1 c2 : list edge) :
  edge_points (c1 ++ c2) = edge_points c1 ++ edge_points c2.
Proof. unfold edge_points. apply flat_map_app. Qed.

Lemma edge_points_in (c : list edge) (v : point) :
  In v (edge_points c) <-> exists e, In e c /\ (e_p1 e = v \/ e_p2 e = v).
Proof.
  unfold edge_points. rewrite in_flat_map. split.
  - intros (e & He & [E | [E | []]]); exists e; auto.
  - intros (e & He & [E | E]); exists e; simpl; auto.
Qed.

Lemma linked_last (c : list edge) :
  forall p q, linked p c q -> c <> [] -> exists e, In e c /\ e_p2 e = q.
Proof.
  induction c as [|e c IH]; intros p q L N; [contradiction|].
  destruct L as [E L]. destruct c as [|e' c'].
  - simpl in L. exists e. split; [now left | assumption].
  - destruct (IH _ _ L) as (e0 & He0 & E0); [discriminate|].
    exists e0. split; [now right | assumption].
Qed.

(** In a sequence of linked edges every start is the end of the previous
    edge, and every end the start of the next one. *)
Lemma linked_neighbours (c : list edge) :
  forall p q e,
    linked p c q -> In e c ->
    (e_p1 e = p \/ exists e', In e' c /\ e_p2 e' = e_p1 e) /\
    (e_p2 e = q \/ exists e', In e' c /\ e_p1 e' = e_p2 e).
Proof.
  induction c as [|e0 c IH]; intros p q e L He; [destruct He|].
  destruct L as [E L]. destruct He as [<- | He].
  - split; [now left|].
    destruct c as [|e1 c'].
    + simpl in L. now left.
    + right. exists e1. destruct L as [E1 _]. split; [right; now left | assumption].
  - destruct (IH _ _ e L He) as [[H1 | (e' & He' & H1)] [H2 | (e'' & He'' & H2)]].
    + split; [right; exists e0; split; [now left | congruence] | now left].
    + split; [right; exists e0; split; [now left | congruence]|].
      right. exists e''. split; [now right | assumption].
    + split; [right; exists e'; split; [now right | assumption] | now left].
    + split; [right; exists e'; split; [now right | assumption]|].
      right. exists e''. split; [now right | assumption].
Qed.

(** In a closed sequence every vertex ends one edge and starts another. *)
Lemma closed_in_out (es : list edge) (p v : point) :
  linked p es p -> In v (edge_points es) ->
  exists e1 e2, In e1 es /\ In e2 es /\ e_p2 e1 = v /\ e_p1 e2 = v.
Proof.
  intros L Hv. apply edge_points_in in Hv.
  destruct Hv as (e & He & Ev).
  assert (N : es <> []) by (destruct es; [destruct He | discriminate]).
  destruct (linked_last es p p L N) as (el & Hel & El).
  destruct (linked_first p p es L N) as (ef & Hef & Ef).
  destruct (linked_neighbours es p p e L He) as [H1 H2].
  destruct Ev as [Ev | Ev].
  - destruct H1 as [H1 | (e' & He' & H1)].
    + exists el, e. repeat split; auto; congruence.
    + exists e', e. repeat split; auto; congruence.
  - destruct H2 as [H2 | (e' & He' & H2)].
    + exists e, ef. repeat split; auto; congruence.
    + exists e, e'. repeat split; auto; congruence.
Qed.

(** The vertices of the pushed edges are the two ends and points of the
    list. *)
Lemma chain_points_in (pts : list point) (p q : point) (c : list edge) :
  hull_chain pts p q c ->
  forall v, In v (edge_points c) -> v = p \/ v = q \/ In v pts.
Proof.
  induction 1 as [p q E | p q c1 c2 N _ IH1 _ IH2]; intros v Hv.
  - simpl in Hv. destruct Hv as [<- | [<- | []]]; auto.
  - pose proof (hull_scan_in pts p q N) as Hin.
    rewrite edge_points_app in Hv. apply in_app_or in Hv.
    destruct Hv as [Hv | Hv].
    + destruct (IH1 v Hv) as [-> | [-> | H]]; auto.
    + destruct (IH2 v Hv) as [-> | [-> | H]]; auto.
Qed.

Lemma score_pos_neq_start (p q v : point) : 0 < score p q v -> v <> p.
Proof. intros H ->. rewrite score_start in H. lia. Qed.

Lemma score_pos_neq_end (p q v : point) : 0 < score p q v -> v <> q.
Proof. intros H ->. rewrite score_end in H. lia. Qed.

(** No pushed edge is a single point, unless the call is on one. *)
Lemma chain_nondegenerate (pts : list point) (p q : point) (c : list edge) :
  hull_chain pts p q c -> p <> q ->
  forall e, In e c -> e_p1 e <> e_p2 e.
Proof.
  induction 1 as [p q E | p q c1 c2 N _ IH1 _ IH2]; intros Npq e He.
  - destruct He as [<- | []]. assumption.
  - destruct (hull_scan_proper pts p q N) as [N1 N2].
    apply in_app_or in He. destruct He as [He | He].
    + apply IH1; [|assumption]. congruence.
    + apply IH2; assumption.
Qed.

(** A point in the triangle [p m q] is a combination of its corners. *)
Lemma triangle_identity (nx ny : Z) (p q m v : point) :
  - score m q v * dot nx ny v p - score p m v * dot nx ny v q
  + score p q v * dot nx ny v m = 0.
Proof. unfold score, dot. destruct p, q, m, v. simpl. ring. Qed.

(** Every vertex of the hull with a positive score against [p1 -> p2] is
    among the vertices that the call pushes. *)
Lemma chain_complete (pts : list point) (p q : point) (c : list edge) :
  hull_chain pts p q c -> all_in_range pts -> In p pts -> In q pts ->
  forall v, In v pts -> extreme pts v -> 0 < score p q v ->
            In v (edge_points c).
Proof.
  induction 1 as [p q E | p q c1 c2 N C1 IH1 C2 IH2]; intros Rp Hp Hq v Hv Ex L.
  - pose proof (hull_scan_leaf pts p q (Rp p Hp) (Rp q Hq) Rp E v Hv). lia.
  - destruct (hull_scan_node pts p q (Rp p Hp) (Rp q Hq) Rp N)
      as (Hin & Hpos & Hmax).
    set (m := fst (hull_scan pts p q)) in *.
    rewrite edge_points_app. apply in_or_app.
    destruct (Z.lt_ge_cases 0 (score p m v)) as [L1 | G1]; [left; now apply IH1|].
    destruct (Z.lt_ge_cases 0 (score m q v)) as [L2 | G2]; [right; now apply IH2|].
    assert (Em : v = m).
    { destruct Ex as (nx & ny & Ex).
      destruct (same_point v m) eqn:S; [now apply same_point_eq|exfalso].
      assert (Nm : m <> v) by (intros ->; rewrite same_point_refl in S; discriminate).
      assert (Np : p <> v)
        by (intros E; symmetry in E; revert E; apply (score_pos_neq_start _ _ _ L)).
      assert (Nq : q <> v)
        by (intros E; symmetry in E; revert E; apply (score_pos_neq_end _ _ _ L)).
      pose proof (Ex p Hp Np) as Fp.
      pose proof (Ex q Hq Nq) as Fq.
      pose proof (Ex m Hin Nm) as Fm.
      pose proof (triangle_identity nx ny p q m v) as I.
      pose proof (Z.mul_nonneg_nonpos (- score m q v) (dot nx ny v p)).
      pose proof (Z.mul_nonneg_nonpos (- score p m v) (dot nx ny v q)).
      pose proof (Z.mul_pos_neg (score p q v) (dot nx ny v m) L Fm).
      lia. }
    right. subst v.
    destruct (chain_linked _ _ _ _ C2) as [Lk Ne].
    destruct (linked_first _ _ _ Lk Ne) as (e & He & E).
    apply edge_points_in. exists e. auto.
Qed.

Lemma point_eq_dec (p q : point) : {p = q} + {p <> q}.
Proof. decide equality; apply Z.eq_dec. Qed.

Lemma minmax_in_window (w : Z) (indet : list point -> Z * Z)
  (pts : list point) :
  pts <> [] -> (forall r, In r pts -> 0 <= px r < w) ->
  In (fst (minmax w indet pts)) pts /\ In (snd (minmax w indet pts)) pts.
Proof.
  intros Hne Hwin. unfold minmax.
  destruct (minmax_inv pts (mkPoint w (fst (indet pts)))
                       (mkPoint (-1) (snd (indet pts))))
    as (_ & _ & _ & _ & _ & HA & HB).
  destruct pts as [|r0 pts']; [contradiction|].
  pose proof (Hwin r0 (or_introl eq_refl)).
  split; [apply HA | apply HB]; exists r0; (split; [now left | simpl; lia]).
Qed.

Lemma third_point (pts : list point) (a b : point) :
  NoDup pts -> (3 <= length pts)%nat ->
  exists r, In r pts /\ r <> a /\ r <> b.
Proof.
  intros ND L3.
  destruct pts as [|x [|y [|z rest]]]; simpl in L3; try lia.
  inversion ND as [|? ? Nx ND1]; subst.
  inversion ND1 as [|? ? Ny ND2]; subst.
  simpl in Nx, Ny.
  assert (Hxy : x <> y) by (intros E; apply Nx; auto).
  assert (Hxz : x <> z) by (intros E; apply Nx; auto).
  assert (Hyz : y <> z) by (intros E; apply Ny; auto).
  destruct (point_eq_dec x a), (point_eq_dec x b),
    (point_eq_dec y a), (point_eq_dec y b);
    first
      [ exists x; split; [now left | split; congruence]
      | exists y; split; [right; now left | split; congruence]
      | exists z; split; [right; right; now left | split; congruence] ].
Qed.

Lemma corner_identity (a v b r : point) :
  dot (- (py b - py a)) (px b - px a) v r = score a v r + score v b r.
Proof. unfold score, dot. destruct a, v, b, r. simpl. ring. Qed.

Section Polygon.

Variable pts : list point.
Variable es : list edge.
Variable p0 : point.
Hypothesis closed : linked p0 es p0.
Hypothesis clear_edges :
  forall e, In e es -> forall r, In r pts -> score (e_p1 e) (e_p2 e) r <= 0.
Hypothesis proper_edges : forall e, In e es -> e_p1 e <> e_p2 e.
Hypothesis vertices_in : forall v, In v (edge_points es) -> In v pts.
Hypothesis general : no_three_collinear pts.
Hypothesis three : forall a b, exists r, In r pts /\ r <> a /\ r <> b.

Lemma edge_ends_in (e : edge) :
  In e es -> In (e_p1 e) pts /\ In (e_p2 e) pts.
Proof.
  intros He. split; apply vertices_in, edge_points_in; exists e; auto.
Qed.

(** Off its two ends, every point is strictly on the inner side of an
    edge. *)
Lemma edge_strict (e : edge) (r : point) :
  In e es -> In r pts -> r <> e_p1 e -> r <> e_p2 e ->
  score (e_p1 e) (e_p2 e) r < 0.
Proof.
  intros He Hr N1 N2.
  destruct (edge_ends_in e He) as [H1 H2].
  pose proof (clear_edges e He r Hr).
  pose proof (general (e_p1 e) (e_p2 e) r H1 H2 Hr (proper_edges e He)).
  assert (score (e_p1 e) (e_p2 e) r <> 0) by (apply H0; congruence).
  lia.
Qed.

(** Every vertex of the polygon is a vertex of the convex hull. *)
Lemma vertex_extreme (v : point) : In v (edge_points es) -> extreme pts v.
Proof.
  intros Hv.
  destruct (closed_in_out es p0 v closed Hv) as (e1 & e2 & H1 & H2 & E1 & E2).
  set (a := e_p1 e1). set (b := e_p2 e2).
  exists (- (py b - py a)), (px b - px a).
  intros r Hr Nr. rewrite corner_identity.
  pose proof (clear_edges e1 H1 r Hr) as C1.
  pose proof (clear_edges e2 H2 r Hr) as C2.
  rewrite E1 in C1. rewrite E2 in C2. fold a in C1. fold b in C2.
  assert (Nab : a <> b).
  { intros Eab. destruct (three a v) as (r' & Hr' & Na' & Nv').
    pose proof (clear_edges e1 H1 r' Hr') as D1.
    pose proof (clear_edges e2 H2 r' Hr') as D2.
    rewrite E1 in D1. rewrite E2 in D2. fold a in D1. fold b in D2.
    rewrite <- Eab, score_swap in D2.
    pose proof (edge_strict e1 r' H1 Hr' Na') as S. rewrite E1 in S.
    fold a in S. specialize (S Nv'). lia. }
  destruct (point_eq_dec r a) as [Ea | Na].
  - subst r. rewrite score_start.
    pose proof (edge_strict e2 a H2 Hr) as S. rewrite E2 in S. fold b in S.
    pose proof (proper_edges e1 H1) as P1. rewrite E1 in P1. fold a in P1.
    specialize (S P1 Nab). lia.
  - pose proof (edge_strict e1 r H1 Hr Na) as S. rewrite E1 in S.
    fold a in S. specialize (S Nr). lia.
Qed.

End Polygon.

Lemma minmax_distinct (w : Z) (indet : list point -> Z * Z) (pts : list point) :
  (3 <= length pts)%nat -> NoDup pts -> no_three_collinear pts ->
  In (fst (minmax w indet pts)) pts ->
  fst (minmax w indet pts) <> snd (minmax w indet pts).
Proof.
  intros L3 ND Gen HA E.
  pose proof (minmax_bounds w indet pts) as Hb. rewrite <- E in Hb.
  set (A := fst (minmax w indet pts)) in *.
  destruct (third_point pts A A ND L3) as (r1 & H1 & N1 & _).
  destruct (third_point pts A r1 ND L3) as (r2 & H2 & N2 & N12).
  apply (Gen A r1 r2 HA H1 H2); try congruence.
  apply score_vertical.
  - specialize (Hb r1 H1). lia.
  - specialize (Hb r2 H2). lia.
Qed.

(** C1 (under the conditions the code needs). For at least three points
    in range (coordinates of absolute value at most 16383), without
    duplicates, no three of them on a line, with x-coordinates in the
    window ([0 <= x < w]), [convex_hull] started on an empty edge vector
    returns a closed sequence of linked edges whose vertices are exactly the
    vertices of the convex hull of the points, and every other point lies
    strictly on the inner side of every edge. *)
Theorem build_hull_general_position (w : Z) (indet : list point -> Z * Z)
  (pts : list point)
  (H3 : (3 <= length pts)%nat) (Hnd : NoDup pts)
  (Hgen : no_three_collinear pts)
  (Hwin : forall r, In r pts -> 0 <= px r < w)
  (Hrange : all_in_range pts) :
  exists es,
    (forall fuel, (length pts < fuel)%nat ->
                  hull_edges fuel w indet pts [] = Some es) /\
    closed_chain es /\
    (forall v, In v (edge_points es) <-> In v pts /\ extreme pts v) /\
    (forall p, In p pts -> ~ extreme pts p -> strictly_inside es p).
Proof.
  assert (Hne : pts <> []) by (destruct pts; [simpl in H3; lia | discriminate]).
  destruct (minmax_in_window w indet pts Hne Hwin) as [HA HB].
  assert (RAB : ranged pts (fst (minmax w indet pts))
                  (snd (minmax w indet pts)))
    by (unfold ranged; auto).
  assert (RBA : ranged pts (snd (minmax w indet pts))
                  (fst (minmax w indet pts)))
    by (unfold ranged; auto).
  destruct (hull_edges_total w indet pts RAB H3) as (c1 & c2 & C1 & C2 & Q).
  pose proof (minmax_distinct w indet pts H3 Hnd Hgen HA) as NAB.
  set (A := fst (minmax w indet pts)) in *.
  set (B := snd (minmax w indet pts)) in *.
  destruct (chain_linked _ _ _ _ C1) as [L1 N1].
  destruct (chain_linked _ _ _ _ C2) as [L2 N2].
  assert (closed : linked A (c1 ++ c2) A) by (eapply linked_app; eassumption).
  assert (clear_edges : forall e, In e (c1 ++ c2) ->
            forall r, In r pts -> score (e_p1 e) (e_p2 e) r <= 0).
  { intros e He r Hr. apply in_app_or in He. destruct He as [He | He].
    - apply (chain_edges_clear _ _ _ _ C1 RAB e He r Hr).
    - apply (chain_edges_clear _ _ _ _ C2 RBA e He r Hr). }
  assert (proper_edges : forall e, In e (c1 ++ c2) -> e_p1 e <> e_p2 e).
  { intros e He. apply in_app_or in He. destruct He as [He | He].
    - apply (chain_nondegenerate _ _ _ _ C1 NAB e He).
    - apply (chain_nondegenerate _ _ _ _ C2 (not_eq_sym NAB) e He). }
  assert (vertices_in : forall v, In v (edge_points (c1 ++ c2)) -> In v pts).
  { intros v Hv. rewrite edge_points_app in Hv. apply in_app_or in Hv.
    destruct Hv as [Hv | Hv].
    - destruct (chain_points_in _ _ _ _ C1 v Hv) as [-> | [-> | H]]; auto.
    - destruct (chain_points_in _ _ _ _ C2 v Hv) as [-> | [-> | H]]; auto. }
  assert (three : forall a b, exists r, In r pts /\ r <> a /\ r <> b)
    by (intros a b; apply third_point; assumption).
  exists (c1 ++ c2). split; [|split; [|split]].
  - intros fuel Lf. rewrite (Q fuel [] Lf). reflexivity.
  - split; [destruct c1; [contradiction | discriminate]|].
    exists A. exact closed.
  - intros v. split.
    + intros Hv. split; [now apply vertices_in|].
      now apply (vertex_extreme pts (c1 ++ c2) A).
    + intros [Hv Ex]. rewrite edge_points_app. apply in_or_app.
      destruct (point_eq_dec v A) as [-> | NA].
      { left. destruct (linked_first _ _ _ L1 N1) as (e & He & E).
        apply edge_points_in. exists e. auto. }
      destruct (point_eq_dec v B) as [-> | NB].
      { right. destruct (linked_first _ _ _ L2 N2) as (e & He & E).
        apply edge_points_in. exists e. auto. }
      pose proof (Hgen A B v HA HB Hv NAB (not_eq_sym NA) (not_eq_sym NB)) as D.
      destruct (Z.lt_ge_cases 0 (score A B v)) as [Pos | Neg].
      * left. apply (chain_complete _ _ _ _ C1 Hrange HA HB v Hv Ex Pos).
      * right. apply (chain_complete _ _ _ _ C2 Hrange HB HA v Hv Ex).
        rewrite score_swap. lia.
  - intros p Hp Nex e He.
    assert (Np : ~ In p (edge_points (c1 ++ c2))).
    { intros Hp'. apply Nex. now apply (vertex_extreme pts (c1 ++ c2) A). }
    apply (edge_strict pts (c1 ++ c2)); auto.
    + intros E. apply Np, edge_points_in. exists e. auto.
    + intros E. apply Np, edge_points_in. exists e. auto.
Qed.

Lemma build_hull_general_position_witness :
  let pts := [mkPoint 0 0; mkPoint 4 0; mkPoint 1 3] in
  exists es,
    (forall fuel, (length pts < fuel)%nat ->
                  hull_edges fuel 1000 indet0 pts [] = Some es) /\
    closed_chain es /\
    (forall v, In v (edge_points es) <-> In v pts /\ extreme pts v) /\
    (forall p, In p pts -> ~ extreme pts p -> strictly_inside es p).
Proof.
  intros pts.
  apply (build_hull_general_position 1000 indet0 pts).
  - simpl. lia.
  - repeat constructor; simpl; intuition discriminate.
  - intros a b c Ha Hb Hc.
    simpl in Ha, Hb, Hc.
    destruct Ha as [<- | [<- | [<- | []]]];
      destruct Hb as [<- | [<- | [<- | []]]];
      destruct Hc as [<- | [<- | [<- | []]]];
      intros N1 N2 N3; try congruence; vm_compute; discriminate.
  - intros r Hr. simpl in Hr.
    destruct Hr as [<- | [<- | [<- | []]]]; simpl; lia.
  - intros r Hr. simpl in Hr.
    destruct Hr as [<- | [<- | [<- | []]]]; vm_compute; intuition discriminate.
Defined.

(** C1 (as the specification has it) fails.  The five points of
    [tie_points] are distinct, differ pairwise in x and in y, are not all on
    a line and lie in the window; three of them are equally far from the
    line of the first call and the first one found, [(15,11)], lies between
    the other two: it becomes a vertex of the returned polygon and is no
    vertex of the convex hull.  For points to the left of the window the
    sentinel [(-1, _)] of [maxPoint] survives the scan and is a vertex of
    the result, whatever its indeterminate y in range.  And on the corners
    of a square of side 60000 with a point next to its centre (distinct, no
    three on a line, in a window of width 2^30) the scores wrap and
    [convex_hull] never returns. *)
Lemma build_hull_not_the_hull :
  ((3 <= length tie_points)%nat /\ NoDup tie_points /\
   NoDup (map px tie_points) /\ NoDup (map py tie_points) /\
   score (mkPoint 0 0) (mkPoint 30 3) (mkPoint 15 11) <> 0 /\
   (forall r, In r tie_points -> 0 <= px r < 1000) /\
   exists es,
     hull_edges 10 1000 indet0 tie_points [] = Some es /\
     In (mkPoint 15 11) (edge_points es) /\
     ~ extreme tie_points (mkPoint 15 11)) /\
  (forall indet,
     in_range (mkPoint (-1) (snd (indet left_points))) ->
     exists es v,
       hull_edges 10 1000 indet left_points [] = Some es /\
       In v (edge_points es) /\ ~ In v left_points) /\
  (let pts := [mkPoint 0 0; mkPoint 60000 0; mkPoint 60000 60000;
               mkPoint 0 60000; mkPoint 30000 30001] in
   NoDup pts /\ no_three_collinear pts /\
   (forall r, In r pts -> 0 <= px r < 2 ^ 30) /\
   forall fuel, hull_edges fuel (2 ^ 30) indet0 pts [] = None).
Proof.
  split; [|split].
  - split; [simpl; lia|].
    split; [repeat constructor; simpl; intuition discriminate|].
    split; [repeat constructor; simpl; intuition discriminate|].
    split; [repeat constructor; simpl; intuition discriminate|].
    split; [vm_compute; discriminate|].
    split.
    { intros r Hr. simpl in Hr.
      repeat (destruct Hr as [<- | Hr]; [simpl; lia|]). destruct Hr. }
    destruct (hull_edges 10 1000 indet0 tie_points []) as [es|] eqn:E;
      [|vm_compute in E; discriminate].
    vm_compute in E. inversion E; subst es. clear E.
    eexists. split; [reflexivity|]. split.
    + simpl. tauto.
    + intros (nx & ny & Ex).
      pose proof (Ex (mkPoint 5 10)) as E1.
      pose proof (Ex (mkPoint 25 12)) as E2.
      unfold dot in E1, E2. simpl in E1, E2.
      assert (nx * (5 - 15) + ny * (10 - 11) < 0)
        by (apply E1; [tauto | discriminate]).
      assert (nx * (25 - 15) + ny * (12 - 11) < 0)
        by (apply E2; [tauto | discriminate]).
      lia.
  - intros indet Hind.
    assert (M : minmax 1000 indet left_points
                = (mkPoint (-30) 0, mkPoint (-1) (snd (indet left_points))))
      by reflexivity.
    destruct (hull_edges_total 1000 indet left_points) as (c1 & c2 & C1 & C2 & Q);
      [|simpl; lia|].
    { rewrite M. cbn [fst snd]. split; [|split; [|exact Hind]].
      - intros p Hp. simpl in Hp.
        destruct Hp as [<- | [<- | [<- | []]]];
          vm_compute; intuition discriminate.
      - vm_compute; intuition discriminate. }
    exists (c1 ++ c2), (mkPoint (-1) (snd (indet left_points))).
    split; [rewrite (Q 10%nat []); [reflexivity | simpl; lia]|].
    split.
    + destruct (chain_linked _ _ _ _ C1) as [L1 N1].
      destruct (linked_last _ _ _ L1 N1) as (e & He & E).
      rewrite edge_points_app. apply in_or_app. left.
      apply edge_points_in. exists e. split; [assumption|]. right.
      rewrite E. reflexivity.
    + simpl. intros [H | [H | [H | []]]]; discriminate.
  - cbv zeta. split; [|split; [|split]].
    + repeat constructor; simpl; intuition discriminate.
    + intros a b c Ha Hb Hc. simpl in Ha, Hb, Hc.
      repeat (destruct Ha as [<- | Ha]; [|]); try contradiction;
        repeat (destruct Hb as [<- | Hb]; [|]); try contradiction;
        repeat (destruct Hc as [<- | Hc]; [|]); try contradiction;
        intros N1 N2 N3; try congruence; vm_compute; discriminate.
    + intros r Hr. simpl in Hr.
      repeat (destruct Hr as [<- | Hr]; [vm_compute; intuition discriminate|]).
      destruct Hr.
    + intros fuel. now apply wide_square_hull_never_returns.
Qed.

(** ** QuickHull: the vertices are pushed once *)

Lemma split_sum (p q m x : point) :
  score p m x + score m q x = score p q x - score p q m.
Proof. unfold score. destruct p, q, m, x. simpl. ring. Qed.

(** Where the starts of the pushed edges lie: at [p1] or, for a point that
    some call chose as [pMax], among the candidates of the call; and no
    start is repeated. *)
Lemma chain_sources (pts : list point) (p q : point) (c : list edge) :
  hull_chain pts p q c -> supports pts p q -> ranged pts p q ->
  NoDup (map e_p1 c) /\
  (forall e, In e c ->
             e_p1 e = p \/ (In (e_p1 e) pts /\ 0 < score p q (e_p1 e))).
Proof.
  induction 1 as [p q E | p q c1 c2 N C1 IH1 C2 IH2]; intros S R.
  - split.
    + simpl. constructor; [intros [] | constructor].
    + intros e [<- | []]. now left.
  - destruct (ranged_split pts p q R N) as [Ra Rb].
    destruct R as (Rp & R1 & R2).
    destruct (hull_scan_node pts p q R1 R2 Rp N) as (Hin & Hpos & Hmax).
    set (m := fst (hull_scan pts p q)) in *.
    pose proof (supports_first pts p q m Hin Hpos Hmax S) as S1.
    pose proof (supports_second pts p q m Hin Hpos Hmax S) as S2.
    destruct (IH1 S1 Ra) as [ND1 W1]. destruct (IH2 S2 Rb) as [ND2 W2].
    assert (In1 : forall e, In e c1 ->
                e_p1 e = p \/ (In (e_p1 e) pts /\ 0 < score p q (e_p1 e))).
    { intros e He. destruct (W1 e He) as [E | [Hi L]]; [now left | right].
      split; [assumption|].
      pose proof (left_first_in pts p q m Hin Hpos S (e_p1 e) Hi) as F.
      unfold left_of in F. rewrite !Z.ltb_lt in F. auto. }
    assert (In2 : forall e, In e c2 ->
                In (e_p1 e) pts /\ 0 < score p q (e_p1 e)).
    { intros e He. destruct (W2 e He) as [E | [Hi L]].
      - rewrite E. split; assumption.
      - split; [assumption|].
        pose proof (left_second_in pts p q m Hin Hpos S (e_p1 e) Hi) as F.
        unfold left_of in F. rewrite !Z.ltb_lt in F. auto. }
    split.
    + rewrite map_app. apply NoDup_app; try assumption.
      intros x H1 H2.
      apply in_map_iff in H1. destruct H1 as (e1 & <- & He1).
      apply in_map_iff in H2. destruct H2 as (e2 & E12 & He2).
      destruct (In2 e2 He2) as [Hi2 L2]. rewrite E12 in Hi2, L2.
      destruct (W1 e1 He1) as [E1 | [Hi1 L1]].
      * rewrite E1, score_start in L2. lia.
      * destruct (W2 e2 He2) as [E2 | [_ L2']]; rewrite E12 in *.
        -- rewrite E2, score_end in L1. lia.
        -- pose proof (split_sum p q m (e_p1 e1)).
           pose proof (Hmax (e_p1 e1) Hi1). lia.
    + intros e He. apply in_app_or in He. destruct He as [He | He]; auto.
Qed.

(** A point strictly inside the hull is never chosen as [pMax]. *)
Lemma interior_not_source (pts : list point) (p q : point) (c : list edge)
  (s : point) :
  hull_chain pts p q c -> ranged pts p q -> strictly_interior pts s ->
  s <> p ->
  ~ In s (map e_p1 c).
Proof.
  induction 1 as [p q E | p q c1 c2 N C1 IH1 C2 IH2]; intros R Hint Np Hs.
  - simpl in Hs. destruct Hs as [E' | []]. congruence.
  - destruct (ranged_split pts p q R N) as [Ra Rb].
    destruct R as (Rp & R1 & R2).
    destruct (hull_scan_node pts p q R1 R2 Rp N) as (Hin & Hpos & Hmax).
    set (m := fst (hull_scan pts p q)) in *.
    rewrite map_app in Hs. apply in_app_or in Hs. destruct Hs as [Hs | Hs].
    + apply (IH1 Ra Hint Np Hs).
    + apply (IH2 Rb Hint); [|assumption].
      intros ->.
      destruct (Hint (- (py q - py p)) (px q - px p)) as (r & Hr & Pr).
      { destruct (Z.eq_dec (px q - px p) 0) as [Ex | Nx]; [|now right].
        destruct (Z.eq_dec (py q - py p) 0) as [Ey | Ny]; [|left; lia].
        exfalso. assert (score p q m = 0); [|lia].
        unfold score. destruct p, q, m. simpl in *.
        replace px1 with px0 by lia. replace py1 with py0 by lia. ring. }
      pose proof (dot_normal_max p q r m) as I.
      pose proof (Hmax r Hr).
      assert (dot (- (py q - py p)) (px q - px p) m r
              = - dot (- (py q - py p)) (px q - px p) r m)
        by (unfold dot; ring).
      lia.
Qed.

(** ** Points in convex position *)

Lemma parallel_identity (gx gy hx hy : Z) (a b c : point) :
  dot gx gy a b * dot hx hy a c - dot gx gy a c * dot hx hy a b
  = (gx * hy - gy * hx) * score a b c.
Proof. unfold score, dot. destruct a, b, c. simpl. ring. Qed.

Lemma dot_shift (nx ny : Z) (a b c : point) :
  dot nx ny b c = dot nx ny a c - dot nx ny a b.
Proof. unfold dot. ring. Qed.

(** Three vertices of the convex hull are never on a line. *)
Lemma extreme_not_collinear (pts : list point) (a b c : point) :
  In a pts -> In b pts -> In c pts ->
  extreme pts a -> extreme pts b -> extreme pts c ->
  a <> b -> a <> c -> b <> c -> score a b c <> 0.
Proof.
  intros Ha Hb Hc (ax & ay & Fa) (bx & by_ & Fb) (cx & cy & Fc) Nab Nac Nbc D.
  pose proof (Fa b Hb (not_eq_sym Nab)) as Au.
  pose proof (Fa c Hc (not_eq_sym Nac)) as Av.
  pose proof (Fb a Ha Nab) as Ba.
  pose proof (Fb c Hc (not_eq_sym Nbc)) as Bc.
  pose proof (Fc a Ha Nac) as Ca.
  pose proof (Fc b Hb Nbc) as Cb.
  rewrite (dot_shift bx by_ a b a) in Ba.
  rewrite (dot_shift bx by_ a b c) in Bc.
  rewrite (dot_shift cx cy a c a) in Ca.
  rewrite (dot_shift cx cy a c b) in Cb.
  assert (Zaa : forall nx ny, dot nx ny a a = 0) by (intros; unfold dot; ring).
  rewrite Zaa in Ba, Ca.
  pose proof (parallel_identity ax ay bx by_ a b c) as I1.
  pose proof (parallel_identity ax ay cx cy a b c) as I2.
  pose proof (parallel_identity bx by_ cx cy a b c) as I3.
  rewrite D, Z.mul_0_r in I1, I2, I3.
  set (au := dot ax ay a b) in *. set (av := dot ax ay a c) in *.
  set (bu := dot bx by_ a b) in *. set (bv := dot bx by_ a c) in *.
  set (cu := dot cx cy a b) in *. set (cv := dot cx cy a c) in *.
  assert (Pbv : 0 < bv).
  { destruct (Z.lt_ge_cases 0 bv) as [|G]; [assumption|exfalso].
    assert (0 <= au * bv) by nia. assert (av * bu < 0) by nia. lia. }
  assert (Pcu : 0 < cu).
  { destruct (Z.lt_ge_cases 0 cu) as [|G]; [assumption|exfalso].
    assert (au * cv < 0) by nia. assert (0 <= av * cu) by nia. lia. }
  assert (bv * cv < bu * cv) by nia.
  assert (bv * cu < bv * cv) by nia.
  lia.
Qed.

Lemma score_swap_last (a b c : point) : score a c b = - score a b c.
Proof. unfold score. destruct a, b, c. simpl. ring. Qed.

(** From a vertex of the hull, only one other vertex has all points on the
    inner side of the edge to it. *)
Lemma hull_edge_unique (pts : list point) (a b b' : point) :
  In a pts -> In b pts -> In b' pts ->
  extreme pts a -> extreme pts b -> extreme pts b' ->
  a <> b -> a <> b' ->
  (forall r, In r pts -> score a b r <= 0) ->
  (forall r, In r pts -> score a b' r <= 0) ->
  b = b'.
Proof.
  intros Ha Hb Hb' Ea Eb Eb' Nab Nab' C C'.
  destruct (point_eq_dec b b') as [|N]; [assumption|exfalso].
  apply (extreme_not_collinear pts a b b'); auto.
  pose proof (C b' Hb'). pose proof (C' b Hb) as D.
  rewrite score_swap_last in D. lia.
Qed.

Lemma between_identity (nx ny : Z) (a b v : point) :
  (px b - px v) * dot nx ny v a + (px v - px a) * dot nx ny v b
  = - ny * score a b v.
Proof. unfold score, dot. destruct a, b, v. simpl. ring. Qed.

(** A point of the segment between two others is no vertex of the hull. *)
Lemma between_not_extreme (pts : list point) (a b v : point) :
  In a pts -> In b pts -> extreme pts v -> v <> a -> v <> b ->
  px a <= px v <= px b -> px a < px b -> score a b v <> 0.
Proof.
  intros Ha Hb (nx & ny & F) Na Nb Hx Hab D.
  pose proof (F a Ha (not_eq_sym Na)) as Fa.
  pose proof (F b Hb (not_eq_sym Nb)) as Fb.
  pose proof (between_identity nx ny a b v) as I.
  rewrite D, Z.mul_0_r in I.
  assert ((px b - px v) * dot nx ny v a <= 0) by nia.
  assert ((px v - px a) * dot nx ny v b <= 0) by nia.
  destruct (Z.eq_dec (px v) (px a)) as [E | NE].
  - assert ((px b - px v) * dot nx ny v a < 0) by nia. lia.
  - assert ((px v - px a) * dot nx ny v b < 0) by nia. lia.
Qed.

Lemma three_members (pts : list point) (a b c : point) :
  In a pts -> In b pts -> In c pts -> a <> b -> a <> c -> b <> c ->
  (3 <= length pts)%nat.
Proof.
  intros Ha Hb Hc Nab Nac Nbc.
  change 3%nat with (length [a; b; c]).
  apply NoDup_incl_length.
  - repeat constructor; simpl; intuition congruence.
  - intros x [<- | [<- | [<- | []]]]; assumption.
Qed.

Section ConvexPosition.

Variable w : Z.
Variable indet : list point -> Z * Z.
Variable pts : list point.
Variable s : point.
Hypothesis seed_in : In s pts.
Hypothesis others_extreme : forall p, In p pts -> p <> s -> extreme pts p.
Hypothesis seed_inside : strictly_interior pts s.
Hypothesis x_in_window : forall r, In r pts -> 0 <= px r < w.
Hypothesis pts_in_range : all_in_range pts.

Lemma seed_between :
  exists r1 r2, In r1 pts /\ In r2 pts /\ px r1 < px s < px r2.
Proof.
  destruct (seed_inside (-1) 0) as (r1 & H1 & P1); [left; lia|].
  destruct (seed_inside 1 0) as (r2 & H2 & P2); [left; lia|].
  exists r1, r2. unfold dot in P1, P2. repeat split; try assumption; lia.
Qed.

Lemma convex_three : (3 <= length pts)%nat.
Proof.
  destruct seed_between as (r1 & r2 & H1 & H2 & L).
  apply (three_members pts r1 s r2 H1 seed_in H2); intros E; rewrite E in L; lia.
Qed.

Lemma seed_not_end :
  px (fst (minmax w indet pts)) < px s < px (snd (minmax w indet pts)).
Proof.
  destruct seed_between as (r1 & r2 & H1 & H2 & L).
  pose proof (minmax_bounds w indet pts r1 H1).
  pose proof (minmax_bounds w indet pts r2 H2).
  lia.
Qed.

(** The hull of points in convex position around one inner point: a closed
    sequence of edges that starts once at every point but the inner one. *)
Lemma convex_position_hull :
  exists es p0,
    (forall fuel es0, (length pts < fuel)%nat ->
                      hull_edges fuel w indet pts es0 = Some (es0 ++ es)) /\
    linked p0 es p0 /\ es <> [] /\
    NoDup (map e_p1 es) /\
    (forall v, In v (map e_p1 es) <-> In v pts /\ v <> s) /\
    (forall e, In e es ->
               forall r, In r pts -> score (e_p1 e) (e_p2 e) r <= 0) /\
    (forall e, In e es -> e_p1 e <> e_p2 e) /\
    (forall e, In e es -> In (e_p2 e) (map e_p1 es)).
Proof.
  assert (Hne : pts <> []) by (intros E; rewrite E in seed_in; destruct seed_in).
  destruct (minmax_in_window w indet pts Hne x_in_window) as [HA HB].
  assert (RAB : ranged pts (fst (minmax w indet pts))
                  (snd (minmax w indet pts)))
    by (unfold ranged; auto).
  assert (RBA : ranged pts (snd (minmax w indet pts))
                  (fst (minmax w indet pts)))
    by (unfold ranged; auto).
  destruct (hull_edges_total w indet pts RAB convex_three)
    as (c1 & c2 & C1 & C2 & Q).
  pose proof seed_not_end as Hs.
  destruct (supports_between pts _ _ (minmax_bounds w indet pts)) as [S1 S2].
  pose proof (minmax_bounds w indet pts) as Hb.
  set (A := fst (minmax w indet pts)) in *.
  set (B := snd (minmax w indet pts)) in *.
  assert (NAB : A <> B) by (intros E; rewrite E in Hs; lia).
  assert (NsA : s <> A) by (intros E; rewrite E in Hs; lia).
  assert (NsB : s <> B) by (intros E; rewrite E in Hs; lia).
  destruct (chain_linked _ _ _ _ C1) as [L1 N1].
  destruct (chain_linked _ _ _ _ C2) as [L2 N2].
  destruct (chain_sources _ _ _ _ C1 S1 RAB) as [ND1 W1].
  destruct (chain_sources _ _ _ _ C2 S2 RBA) as [ND2 W2].
  assert (closed : linked A (c1 ++ c2) A) by (eapply linked_app; eassumption).
  assert (sources_in : forall v, In v (map e_p1 (c1 ++ c2)) ->
                                 In v pts /\ v <> s).
  { intros v Hv. split.
    - rewrite map_app in Hv. apply in_app_or in Hv.
      destruct Hv as [Hv | Hv]; apply in_map_iff in Hv;
        destruct Hv as (e & <- & He).
      + destruct (W1 e He) as [-> | [H _]]; assumption.
      + destruct (W2 e He) as [-> | [H _]]; assumption.
    - intros ->. rewrite map_app in Hv. apply in_app_or in Hv.
      destruct Hv as [Hv | Hv].
      + apply (interior_not_source _ _ _ _ s C1 RAB seed_inside NsA Hv).
      + apply (interior_not_source _ _ _ _ s C2 RBA seed_inside NsB Hv). }
  assert (ends_sources : forall v, In v (edge_points (c1 ++ c2)) ->
                                   In v (map e_p1 (c1 ++ c2))).
  { intros v Hv.
    destruct (closed_in_out _ _ _ closed Hv) as (_ & e2 & _ & H2 & _ & E2).
    apply in_map_iff. exists e2. split; assumption. }
  exists (c1 ++ c2), A. repeat split.
  - intros fuel es0 Lf. apply Q. assumption.
  - assumption.
  - destruct c1; [contradiction | discriminate].
  - rewrite map_app. apply NoDup_app; try assumption.
    intros x H1 H2.
    apply in_map_iff in H1. destruct H1 as (e1 & <- & He1).
    apply in_map_iff in H2. destruct H2 as (e2 & E12 & He2).
    destruct (W1 e1 He1) as [E1 | [_ P1]];
      destruct (W2 e2 He2) as [E2 | [_ P2]]; rewrite E12 in *.
    + congruence.
    + rewrite E1, score_end in P2. lia.
    + rewrite E2, score_end in P1. lia.
    + rewrite score_swap in P2. lia.
  - apply sources_in. assumption.
  - apply sources_in. assumption.
  - intros [Hv Nv]. apply ends_sources.
    rewrite edge_points_app. apply in_or_app.
    destruct (point_eq_dec v A) as [-> | NA].
    { left. destruct (linked_first _ _ _ L1 N1) as (e & He & E).
      apply edge_points_in. exists e. auto. }
    destruct (point_eq_dec v B) as [-> | NB].
    { right. destruct (linked_first _ _ _ L2 N2) as (e & He & E).
      apply edge_points_in. exists e. auto. }
    pose proof (others_extreme v Hv Nv) as Ex.
    assert (D : score A B v <> 0).
    { apply (between_not_extreme pts A B v HA HB Ex NA NB (Hb v Hv)). lia. }
    destruct (Z.lt_ge_cases 0 (score A B v)) as [Pos | Neg].
    + left. apply (chain_complete _ _ _ _ C1 pts_in_range HA HB v Hv Ex Pos).
    + right. apply (chain_complete _ _ _ _ C2 pts_in_range HB HA v Hv Ex).
      rewrite score_swap. lia.
  - intros e He r Hr. apply in_app_or in He. destruct He as [He | He].
    + apply (chain_edges_clear _ _ _ _ C1 RAB _ He r Hr).
    + apply (chain_edges_clear _ _ _ _ C2 RBA _ He r Hr).
  - intros e He. apply in_app_or in He. destruct He as [He | He].
    + apply (chain_nondegenerate _ _ _ _ C1 NAB _ He).
    + apply (chain_nondegenerate _ _ _ _ C2 (not_eq_sym NAB) _ He).
  - intros e He. apply ends_sources, edge_points_in. exists e. auto.
Qed.

End ConvexPosition.

(** ** Triangles on the hull edges *)

Lemma trisect_leaf (fuel : nat) (g : Tri.glob) (t : tri) :
  filter (Tri.splits g t) (Tri.points g) = [] ->
  Tri.trisect (S fuel) g t = Some (Tri.set_tris g (Tri.tris g ++ [t])).
Proof.
  intros E. simpl Tri.trisect.
  rewrite (scan_as_filter fuel t g (Tri.points g) false g (same_frame_refl g)).
  rewrite E, (filter_nil_existsb _ _ E). reflexivity.
Qed.

Lemma filter_all_false {A : Type} (f : A -> bool) (l : list A) :
  (forall x, In x l -> f x = false) -> filter f l = [].
Proof.
  induction l as [|a l IH]; intros H; simpl; [reflexivity|].
  rewrite (H a (or_introl eq_refl)). apply IH. intros x Hx. apply H. now right.
Qed.

Lemma point_in_triangle_false (q : point) (t : tri) :
  in_range q -> all_in_range (vertices_of t) ->
  score (t_p1 t) (t_p2 t) q < 0 ->
  0 < score (t_p2 t) (t_p3 t) q \/ 0 < score (t_p3 t) (t_p1 t) q ->
  Tri.point_in_triangle q t = false.
Proof.
  intros Rq Rt D1 D23.
  destruct (triangle_scores_exact q t Rq Rt) as (E1 & E2 & E3).
  unfold Tri.point_in_triangle. rewrite E1, E2, E3.
  destruct (Z.gtb_spec (score (t_p1 t) (t_p2 t) q) 0); [lia|].
  destruct (Z.ltb_spec (score (t_p1 t) (t_p2 t) q) 0); [|lia].
  simpl.
  destruct (Z.gtb_spec (score (t_p2 t) (t_p3 t) q) 0); [reflexivity|].
  destruct (Z.gtb_spec (score (t_p3 t) (t_p1 t) q) 0); [reflexivity|].
  lia.
Qed.

(** No vertex of the hull lies in the triangle of two others and an inner
    point. *)
Lemma hull_triangle_empty (pts : list point) (a b s q : point) :
  all_in_range pts ->
  In a pts -> In b pts -> In s pts -> In q pts ->
  extreme pts a -> extreme pts b -> extreme pts q ->
  a <> b -> q <> a -> q <> b -> q <> s ->
  (forall r, In r pts -> score a b r <= 0) ->
  Tri.point_in_triangle q (mkTri a b s) = false.
Proof.
  intros Rp Ha Hb Hs Hq Ea Eb Eq Nab Nqa Nqb Nqs C.
  pose proof (C q Hq) as D1.
  pose proof (extreme_not_collinear pts a b q Ha Hb Hq Ea Eb Eq Nab
                (not_eq_sym Nqa) (not_eq_sym Nqb)) as D0.
  apply point_in_triangle_false; simpl;
    [now apply Rp
    |intros v Hv; simpl in Hv; destruct Hv as [<- | [<- | [<- | []]]];
     now apply Rp
    |lia|].
  destruct (Z.lt_ge_cases 0 (score b s q)) as [|G2]; [now left|].
  destruct (Z.lt_ge_cases 0 (score s a q)) as [|G3]; [now right|exfalso].
  destruct Eq as (nx & ny & F).
  pose proof (F a Ha (not_eq_sym Nqa)) as Fa.
  pose proof (F b Hb (not_eq_sym Nqb)) as Fb.
  pose proof (F s Hs (not_eq_sym Nqs)) as Fs.
  pose proof (triangle_identity nx ny a b s q) as I.
  rewrite (score_swap b s q) in I. rewrite (score_swap s a q) in I.
  assert (0 <= score b s q * dot nx ny q a) by nia.
  assert (0 <= score s a q * dot nx ny q b) by nia.
  assert (0 < score a b q * dot nx ny q s) by nia.
  lia.
Qed.

Lemma trisect_edges_leaves (fuel : nat) (pMid : point) (es : list edge) :
  forall g,
    (forall e q, In e es -> In q (Tri.points g) ->
                 Tri.is_vertex q (mkTri (e_p1 e) (e_p2 e) pMid) = true \/
                 Tri.point_in_triangle q (mkTri (e_p1 e) (e_p2 e) pMid) = false) ->
    Tri.trisect_edges (S fuel) g pMid es
    = Some (Tri.set_tris g
              (Tri.tris g
               ++ map (fun e => mkTri (e_p1 e) (e_p2 e) pMid) es)).
Proof.
  induction es as [|e es IH]; intros g H.
  - simpl. rewrite app_nil_r. destruct g; reflexivity.
  - cbn [Tri.trisect_edges]. rewrite trisect_leaf.
    + rewrite IH.
      * simpl. unfold Tri.set_tris. simpl. rewrite <- app_assoc. reflexivity.
      * intros e' q He' Hq. apply H; [now right | exact Hq].
    + apply filter_all_false. intros q Hq. unfold Tri.splits.
      destruct (H e q (or_introl eq_refl) Hq) as [V | P].
      * rewrite V. reflexivity.
      * rewrite P. apply andb_false_r.
Qed.

(** ** The seed of the triangulation *)

Lemma find_mid_fold (g : Tri.glob) (s : point) (l : list point) :
  Tri.on_edge g s = false ->
  (forall p, In p l -> p <> s -> Tri.on_edge g p = true) ->
  forall st,
    fold_left (Tri.mid_step g) l st =
    if existsb (same_point s) l
    then if pythagorean s (mkPoint (Z.quot (Tri.w g) 2) (Z.quot (Tri.h g) 2))
            <? snd st
         then (s, pythagorean s (mkPoint (Z.quot (Tri.w g) 2) (Z.quot (Tri.h g) 2)))
         else st
    else st.
Proof.
  intros Hs. induction l as [|p l IH]; intros Hl st; [reflexivity|].
  cbn [fold_left existsb].
  set (d := pythagorean s (mkPoint (Z.quot (Tri.w g) 2) (Z.quot (Tri.h g) 2))).
  assert (IH' := IH (fun q Hq => Hl q (or_intror Hq))). clear IH.
  fold d in IH'. rewrite IH'.
  destruct (same_point s p) eqn:E.
  - apply same_point_eq in E. subst p.
    unfold Tri.mid_step. destruct st as [pm md].
    rewrite Hs. cbn [negb snd orb]. fold d.
    destruct (Z.ltb_spec d md); cbn [snd].
    + rewrite Z.ltb_irrefl. destruct (existsb (same_point s) l); reflexivity.
    + destruct (Z.ltb_spec d md); [lia|].
      destruct (existsb (same_point s) l); reflexivity.
  - assert (Np : p <> s)
      by (intros ->; rewrite same_point_refl in E; discriminate).
    unfold Tri.mid_step. destruct st as [pm md].
    rewrite (Hl p (or_introl eq_refl) Np). reflexivity.
Qed.

(** ** Areas *)

Lemma score_cross2 (a b s : point) :
  score a b s = cross2 a b + cross2 b s + cross2 s a.
Proof. unfold score, cross2. destruct a, b, s. simpl. ring. Qed.

Lemma tri_area2_score (a b s : point) :
  tri_area2 (mkTri a b s) = Z.abs (score a b s).
Proof. unfold tri_area2. simpl. now rewrite score_cross2. Qed.

Lemma cross2_swap (a b : point) : cross2 b a = - cross2 a b.
Proof. unfold cross2. ring. Qed.

(** Along linked edges the scores of [s] add up to the shoelace sum, up to
    the terms of the two ends. *)
Lemma linked_scores (s : point) (c : list edge) :
  forall p q,
    linked p c q ->
    sum_list (map (fun e => score (e_p1 e) (e_p2 e) s) c)
    = sum_list (map (fun e => cross2 (e_p1 e) (e_p2 e)) c)
      + cross2 q s - cross2 p s.
Proof.
  induction c as [|e c IH]; intros p q L; simpl in *.
  - subst. ring.
  - destruct L as [E L]. rewrite (IH _ _ L), score_cross2, E.
    rewrite (cross2_swap p s). ring.
Qed.

Lemma sum_list_perm (l1 l2 : list Z) :
  Permutation l1 l2 -> sum_list l1 = sum_list l2.
Proof. induction 1; simpl; lia. Qed.

Lemma sum_list_nonpos (f : edge -> Z) (c : list edge) :
  (forall e, In e c -> f e <= 0) ->
  sum_list (map (fun e => Z.abs (f e)) c) = - sum_list (map f c).
Proof.
  induction c as [|e c IH]; intros H; simpl; [reflexivity|].
  rewrite IH by (intros e' He'; apply H; now right).
  pose proof (H e (or_introl eq_refl)). lia.
Qed.

Lemma edge_eta (e1 e2 : edge) :
  e_p1 e1 = e_p1 e2 -> e_p2 e1 = e_p2 e2 -> e1 = e2.
Proof. destruct e1, e2. simpl. intros -> ->. reflexivity. Qed.

(** Two lists of edges with the same starts, each once, and the same end
    for the same start, hold the same edges. *)
Lemma edges_determined (l1 l2 : list edge) :
  NoDup (map e_p1 l1) -> NoDup (map e_p1 l2) ->
  (forall v, In v (map e_p1 l1) <-> In v (map e_p1 l2)) ->
  (forall e1 e2, In e1 l1 -> In e2 l2 -> e_p1 e1 = e_p1 e2 ->
                 e_p2 e1 = e_p2 e2) ->
  Permutation l1 l2.
Proof.
  intros N1 N2 S T.
  apply NoDup_Permutation.
  - eapply NoDup_map_inv; eassumption.
  - eapply NoDup_map_inv; eassumption.
  - intros e. split; intros He.
    + assert (Hs : In (e_p1 e) (map e_p1 l2)) by (apply S, in_map, He).
      apply in_map_iff in Hs. destruct Hs as (e2 & E & He2).
      rewrite (edge_eta e e2); [assumption | congruence |].
      apply T; auto.
    + assert (Hs : In (e_p1 e) (map e_p1 l1)) by (apply S, in_map, He).
      apply in_map_iff in Hs. destruct Hs as (e1 & E & He1).
      rewrite (edge_eta e e1); [assumption | congruence |].
      symmetry. apply T; auto.
Qed.

(** *** The edges of a polygon given by its vertices *)

Lemma combine_map_fst {A B : Type} (l : list A) (l' : list B) :
  length l = length l' -> map fst (combine l l') = l.
Proof.
  revert l'. induction l as [|a l IH]; intros [|b l'] H; simpl in *;
    try discriminate; [reflexivity|].
  f_equal. apply IH. lia.
Qed.

Lemma combine_map_snd {A B : Type} (l : list A) (l' : list B) :
  length l = length l' -> map snd (combine l l') = l'.
Proof.
  revert l'. induction l as [|a l IH]; intros [|b l'] H; simpl in *;
    try discriminate; [reflexivity|].
  f_equal. apply IH. lia.
Qed.

Lemma cycle_starts (vs : list point) : map e_p1 (cycle_edges vs) = vs.
Proof.
  destruct vs as [|v rest]; [reflexivity|].
  unfold cycle_edges. rewrite map_map. simpl e_p1.
  change (fun x : point * point => fst x) with (@fst point point).
  apply combine_map_fst. simpl. rewrite length_app. simpl. lia.
Qed.

Lemma cycle_ends (vs : list point) :
  map e_p2 (cycle_edges vs) = tl vs ++ firstn 1 vs.
Proof.
  destruct vs as [|v rest]; [reflexivity|].
  unfold cycle_edges. rewrite map_map. simpl e_p2.
  change (fun x : point * point => snd x) with (@snd point point).
  apply combine_map_snd. simpl. rewrite length_app. simpl. lia.
Qed.

Lemma cycle_ends_perm (vs : list point) :
  Permutation (map e_p2 (cycle_edges vs)) vs.
Proof.
  rewrite cycle_ends. destruct vs as [|v rest]; [constructor|].
  simpl. apply Permutation_sym, Permutation_cons_append.
Qed.

Lemma consecutive_distinct (l : list point) :
  forall x y,
    NoDup (x :: l) -> ~ In y l -> (l = [] -> x <> y) ->
    forall ab, In ab (combine (x :: l) (l ++ [y])) -> fst ab <> snd ab.
Proof.
  induction l as [|z l IH]; intros x y ND Ny Hxy ab Hab.
  - simpl in Hab. destruct Hab as [<- | []]. simpl. now apply Hxy.
  - simpl in Hab. destruct Hab as [<- | Hab].
    + simpl. inversion ND; subst. intros ->. apply H1. now left.
    + apply (IH z y); try assumption.
      * now inversion ND.
      * intros Hy. apply Ny. now right.
      * intros _ ->. apply Ny. now left.
Qed.

Lemma cycle_proper (vs : list point) :
  NoDup vs -> (2 <= length vs)%nat ->
  forall e, In e (cycle_edges vs) -> e_p1 e <> e_p2 e.
Proof.
  intros ND L e He. destruct vs as [|v rest]; [destruct He|].
  unfold cycle_edges in He. apply in_map_iff in He.
  destruct He as (ab & <- & Hab). simpl.
  apply (consecutive_distinct rest v v); try assumption.
  - now inversion ND.
  - intros ->. simpl in L. lia.
Qed.

(** ** Triangulation of points in convex position around one inner point *)

Lemma window_distance (g : Tri.glob) (s : point) :
  pythagorean s (mkPoint (Z.quot (Tri.w g) 2) (Z.quot (Tri.h g) 2))
  < Tri.INT_MAX.
Proof.
  pose proof (pythagorean_below s
                (mkPoint (Z.quot (Tri.w g) 2) (Z.quot (Tri.h g) 2))) as H.
  assert (P31 : Tri.INT_MAX = 2147483647) by reflexivity.
  rewrite P31. lia.
Qed.

(** In a window of at most 16384 by 16384 the points are in range. *)
Lemma window_in_range (g : Tri.glob) :
  in_window g -> all_in_range (Tri.points g).
Proof.
  intros (Hw & Hh & Hin) p Hp. destruct (Hin p Hp) as [Hx Hy].
  unfold in_range, COORD_MAX in *. lia.
Qed.

Lemma existsb_same_point (s : point) (l : list point) :
  In s l -> existsb (same_point s) l = true.
Proof.
  intros H. apply existsb_exists. exists s.
  split; [assumption | apply same_point_refl].
Qed.

Section Fan.

Variable indet : list point -> Z * Z.
Variable g : Tri.glob.
Variable s : point.
Hypothesis window : in_window g.
Hypothesis no_edges : Tri.edges g = [].
Hypothesis seed_in : In s (Tri.points g).
Hypothesis others_extreme :
  forall p, In p (Tri.points g) -> p <> s -> extreme (Tri.points g) p.
Hypothesis seed_inside : strictly_interior (Tri.points g) s.

Lemma window_x : forall r, In r (Tri.points g) -> 0 <= px r < Tri.w g.
Proof. intros r Hr. destruct window as (_ & _ & H). now apply H. Qed.

(** [triangulation] joins every hull edge to the inner point, and leaves
    these triangles as they are. *)
Lemma triangulation_fan :
  exists es p0,
    linked p0 es p0 /\
    NoDup (map e_p1 es) /\
    (forall v, In v (map e_p1 es) <-> In v (Tri.points g) /\ v <> s) /\
    (forall e, In e es ->
               forall r, In r (Tri.points g) ->
                         score (e_p1 e) (e_p2 e) r <= 0) /\
    (forall e, In e es -> e_p1 e <> e_p2 e) /\
    (forall e, In e es -> In (e_p2 e) (map e_p1 es)) /\
    exists cleaned,
      forall fuel,
        (length (Tri.points g) < fuel)%nat ->
        Tri.triangulation fuel indet g
        = Some (Tri.mkGlob (Tri.w g) (Tri.h g) (Tri.n g) [] []
                  (map (fun e => mkTri (e_p1 e) (e_p2 e) s) es),
                Some (Tri.mkSummary cleaned 0 (length es))).
Proof.
  destruct (convex_position_hull (Tri.w g) indet (Tri.points g) s seed_in
              others_extreme seed_inside window_x (window_in_range g window))
    as (es & p0 & Q & L & Ne & ND & Src & Clear & Proper & Ends).
  exists es, p0. repeat split; try assumption; try (apply Src; assumption).
  set (ts := map (fun e => mkTri (e_p1 e) (e_p2 e) s) es).
  set (gf := Tri.mkGlob (Tri.w g) (Tri.h g) (Tri.n g) [] [] ts).
  exists (snd (Tri.tri_cleanup gf)).
  intros fuel Lf.
  pose proof (convex_three (Tri.points g) s seed_in seed_inside) as L3.
  unfold Tri.triangulation.
  destruct (Nat.ltb_spec (length (Tri.points g)) 3); [lia|].
  unfold Tri.convex_hull.
  change (Tri.w (Tri.set_tris g [])) with (Tri.w g).
  change (Tri.points (Tri.set_tris g [])) with (Tri.points g).
  change (Tri.edges (Tri.set_tris g [])) with (Tri.edges g).
  rewrite no_edges, (Q fuel [] Lf). cbn [app].
  set (g1 := Tri.set_edges (Tri.set_tris g []) es).
  assert (On_s : Tri.on_edge g1 s = false).
  { unfold Tri.on_edge. simpl Tri.edges.
    apply not_true_is_false. intros Hex. apply existsb_exists in Hex.
    destruct Hex as (e & He & Hex). apply orb_true_iff in Hex.
    destruct Hex as [Hex | Hex]; apply same_point_eq in Hex.
    - assert (Hin : In s (map e_p1 es)) by (rewrite Hex; now apply in_map).
      apply Src in Hin. tauto.
    - pose proof (Ends e He) as Hin. rewrite <- Hex in Hin.
      apply Src in Hin. tauto. }
  assert (On_p : forall p, In p (Tri.points g1) -> p <> s ->
                           Tri.on_edge g1 p = true).
  { intros p Hp Np. unfold Tri.on_edge. simpl Tri.edges.
    assert (Hs : In p (map e_p1 es)) by (apply Src; split; assumption).
    apply in_map_iff in Hs. destruct Hs as (e & E & He).
    apply existsb_exists. exists e. split; [assumption|].
    rewrite E, same_point_refl. reflexivity. }
  unfold Tri.find_mid.
  rewrite (find_mid_fold g1 s (Tri.points g1) On_s On_p).
  change (Tri.points g1) with (Tri.points g).
  change (Tri.w g1) with (Tri.w g). change (Tri.h g1) with (Tri.h g).
  rewrite (existsb_same_point s _ seed_in). cbn [snd].
  pose proof (window_distance g s) as Dm.
  destruct (Z.ltb_spec
              (pythagorean s (mkPoint (Z.quot (Tri.w g) 2) (Z.quot (Tri.h g) 2)))
              Tri.INT_MAX) as [_ | G]; [|lia].
  destruct (Z.eqb_spec
              (pythagorean s (mkPoint (Z.quot (Tri.w g) 2) (Z.quot (Tri.h g) 2)))
              Tri.INT_MAX) as [E | _]; [lia|].
  change (Tri.edges g1) with es.
  destruct fuel as [|fuel]; [lia|].
  rewrite trisect_edges_leaves.
  - unfold Tri.tri_cleanup. cbn [Tri.tris Tri.points Tri.set_tris
                                   Tri.set_edges Tri.set_points g1 app snd].
    rewrite length_map. reflexivity.
  - intros e q He Hq. change (Tri.points g1) with (Tri.points g) in Hq.
    assert (Ha : In (e_p1 e) (map e_p1 es)) by now apply in_map.
    pose proof (Ends e He) as Hb.
    apply Src in Ha, Hb. destruct Ha as [Ha Nas], Hb as [Hb Nbs].
    destruct (point_eq_dec q (e_p1 e)) as [-> | Nqa].
    { left. unfold Tri.is_vertex. simpl. now rewrite same_point_refl. }
    destruct (point_eq_dec q (e_p2 e)) as [-> | Nqb].
    { left. unfold Tri.is_vertex. simpl.
      rewrite same_point_refl, orb_true_r. reflexivity. }
    destruct (point_eq_dec q s) as [-> | Nqs].
    { left. unfold Tri.is_vertex. simpl.
      rewrite same_point_refl, !orb_true_r. reflexivity. }
    right. apply (hull_triangle_empty (Tri.points g)); auto.
    apply window_in_range, window.
Qed.

End Fan.

Lemma sum_list_flip (c : list edge) :
  sum_list (map (fun e => cross2 (e_p1 e) (e_p2 e))
              (map (fun e => mkEdge (e_p2 e) (e_p1 e)) c))
  = - sum_list (map (fun e => cross2 (e_p1 e) (e_p2 e)) c).
Proof.
  induction c as [|e c IH]; simpl; [reflexivity|].
  rewrite IH, (cross2_swap (e_p1 e) (e_p2 e)). ring.
Qed.

Section HullPolygon.

Variable pts : list point.
Variable s : point.
Variable vs : list point.
Variable es : list edge.
Hypothesis vs_hull : forall v, In v vs <-> In v pts /\ v <> s.
Hypothesis vs_nodup : NoDup vs.
Hypothesis vs_two : (2 <= length vs)%nat.
Hypothesis vs_extreme : forall v, In v vs -> extreme pts v.
Hypothesis es_nodup : NoDup (map e_p1 es).
Hypothesis es_starts : forall v, In v (map e_p1 es) <-> In v pts /\ v <> s.
Hypothesis es_clear :
  forall e, In e es -> forall r, In r pts -> score (e_p1 e) (e_p2 e) r <= 0.
Hypothesis es_proper : forall e, In e es -> e_p1 e <> e_p2 e.
Hypothesis es_ends : forall e, In e es -> In (e_p2 e) (map e_p1 es).

Lemma start_facts (e : edge) :
  In e es ->
  In (e_p1 e) pts /\ In (e_p2 e) pts /\
  extreme pts (e_p1 e) /\ extreme pts (e_p2 e).
Proof.
  intros He.
  assert (H1 : In (e_p1 e) (map e_p1 es)) by now apply in_map.
  pose proof (es_ends e He) as H2.
  apply es_starts in H1, H2.
  repeat split; try tauto; apply vs_extreme, vs_hull; assumption.
Qed.

(** The edges that [convex_hull] pushes are the edges of the polygon, when
    its vertices are listed clockwise. *)
Lemma hull_edges_clockwise :
  (forall e, In e (cycle_edges vs) ->
             forall r, In r pts -> score (e_p1 e) (e_p2 e) r <= 0) ->
  Permutation es (cycle_edges vs).
Proof.
  intros Cw. apply edges_determined.
  - assumption.
  - now rewrite cycle_starts.
  - intros v. rewrite cycle_starts, es_starts, vs_hull. tauto.
  - intros e1 e2 H1 H2 E.
    destruct (start_facts e1 H1) as (Ha & Hb & Ea & Eb).
    assert (Hb' : In (e_p2 e2) vs).
    { apply (Permutation_in _ (cycle_ends_perm vs)). now apply in_map. }
    apply (hull_edge_unique pts (e_p1 e1)); auto.
    + now apply vs_hull.
    + rewrite E. apply (cycle_proper vs); assumption.
    + rewrite E. now apply Cw.
Qed.

(** Listed counterclockwise, the edges of the polygon are those edges
    reversed. *)
Lemma hull_edges_counterclockwise :
  (forall e, In e (cycle_edges vs) ->
             forall r, In r pts -> 0 <= score (e_p1 e) (e_p2 e) r) ->
  Permutation es (map (fun e => mkEdge (e_p2 e) (e_p1 e)) (cycle_edges vs)).
Proof.
  intros Ccw. apply edges_determined.
  - assumption.
  - rewrite map_map. simpl.
    apply (Permutation_NoDup (Permutation_sym (cycle_ends_perm vs))).
    assumption.
  - intros v. rewrite map_map. simpl. rewrite es_starts, <- vs_hull.
    split; intros H.
    + apply (Permutation_in _ (Permutation_sym (cycle_ends_perm vs))), H.
    + apply (Permutation_in _ (cycle_ends_perm vs)), H.
  - intros e1 e2 H1 H2 E.
    apply in_map_iff in H2. destruct H2 as (e' & <- & He'). simpl in *.
    destruct (start_facts e1 H1) as (Ha & Hb & Ea & Eb).
    assert (Hb' : In (e_p1 e') vs).
    { rewrite <- (cycle_starts vs). now apply in_map. }
    apply (hull_edge_unique pts (e_p1 e1)); auto.
    + now apply vs_hull.
    + rewrite E. apply not_eq_sym, (cycle_proper vs); assumption.
    + intros r Hr. rewrite E, score_swap.
      pose proof (Ccw e' He' r Hr). lia.
Qed.

Lemma hull_shoelace :
  convex_polygon pts vs ->
  Z.abs (sum_list (map (fun e => cross2 (e_p1 e) (e_p2 e)) es))
  = polygon_area2 vs.
Proof.
  unfold polygon_area2. intros [Cw | Ccw].
  - rewrite (sum_list_perm _ _
               (Permutation_map _ (hull_edges_clockwise Cw))).
    reflexivity.
  - rewrite (sum_list_perm _ _
               (Permutation_map _ (hull_edges_counterclockwise Ccw))).
    rewrite sum_list_flip. apply Z.abs_opp.
Qed.

End HullPolygon.

Lemma sum_abs_nonneg (f : edge -> Z) (c : list edge) :
  0 <= sum_list (map (fun e => Z.abs (f e)) c).
Proof.
  induction c as [|e c IH]; simpl; [lia|].
  pose proof (Z.abs_nonneg (f e)). lia.
Qed.



(** The square of side 60000 and its centre are a convex polygon and a
    point strictly inside it, in a window of 2^30 by 2^30. *)
Lemma wide_centre_convex :
  let pts := Tri.points wide_centre in
  let s := mkPoint 30000 30000 in
  (Tri.w wide_centre <= 2 ^ 30 /\ Tri.h wide_centre <= 2 ^ 30 /\
   forall r, In r pts ->
             0 <= px r < Tri.w wide_centre /\ 0 <= py r < Tri.h wide_centre) /\
  Tri.edges wide_centre = [] /\ NoDup pts /\
  Permutation (s :: wide_vertices) pts /\
  (forall v, In v wide_vertices -> extreme pts v) /\
  strictly_interior pts s /\
  convex_polygon pts wide_vertices.
Proof.
  intros pts s.
  split.
  { split; [vm_compute; discriminate|]. split; [vm_compute; discriminate|].
    intros r Hr. simpl in Hr.
    repeat (destruct Hr as [<- | Hr]; [vm_compute; intuition discriminate|]).
    destruct Hr. }
  split; [reflexivity|].
  split; [repeat constructor; simpl; intuition discriminate|].
  split.
  { apply NoDup_Permutation.
    - repeat constructor; simpl; intuition discriminate.
    - repeat constructor; simpl; intuition discriminate.
    - intros x. simpl. tauto. }
  split.
  { intros v Hv. simpl in Hv.
    destruct Hv as [<- | [<- | [<- | [<- | []]]]].
    + exists (-1), (-1). intros r Hr Nr. simpl in Hr.
      repeat (destruct Hr as [<- | Hr]; [try congruence; vm_compute; reflexivity|]).
      destruct Hr.
    + exists (-1), 1. intros r Hr Nr. simpl in Hr.
      repeat (destruct Hr as [<- | Hr]; [try congruence; vm_compute; reflexivity|]).
      destruct Hr.
    + exists 1, 1. intros r Hr Nr. simpl in Hr.
      repeat (destruct Hr as [<- | Hr]; [try congruence; vm_compute; reflexivity|]).
      destruct Hr.
    + exists 1, (-1). intros r Hr Nr. simpl in Hr.
      repeat (destruct Hr as [<- | Hr]; [try congruence; vm_compute; reflexivity|]).
      destruct Hr. }
  split.
  { intros nx ny Hn. unfold dot.
    destruct (Z_lt_le_dec nx 0), (Z_lt_le_dec ny 0).
    + exists (mkPoint 0 0). simpl. split; [tauto | lia].
    + exists (mkPoint 0 60000). simpl. split; [tauto | lia].
    + exists (mkPoint 60000 0). simpl. split; [tauto | lia].
    + exists (mkPoint 60000 60000). simpl. split; [tauto | lia]. }
  left. intros e He r Hr. simpl in He, Hr.
  repeat (destruct He as [<- | He];
          [repeat (destruct Hr as [<- | Hr]; [vm_compute; discriminate|]);
           destruct Hr|]).
  destruct He.
Qed.


(** * Further properties of the code *)

(** ** Distances, signs and the point tests *)

Lemma pythagorean_self (p : point) : pythagorean p p = 0.
Proof.
  unfold pythagorean. rewrite sq_dist_wrap.
  replace (sq_len p p) with 0 by (unfold sq_len; ring). reflexivity.
Qed.

Lemma pythagorean_zero (p q : point) :
  in_range p -> in_range q -> (pythagorean p q = 0 <-> p = q).
Proof.
  intros Rp Rq.
  pose proof (pythagorean_spec p q Rp Rq) as Sp.
  split.
  - intros H. rewrite H in Sp.
    pose proof (sq_len_nonneg p q) as N.
    assert (E : sq_len p q = 0) by lia. clear H N Sp.
    unfold sq_len in E.
    pose proof (Z.square_nonneg (px q - px p)) as Hx.
    pose proof (Z.square_nonneg (py q - py p)) as Hy.
    assert (Ex : (px q - px p) * (px q - px p) = 0) by lia.
    assert (Ey : (py q - py p) * (py q - py p) = 0) by lia.
    apply Z.mul_eq_0 in Ex, Ey.
    destruct p as [x1 y1], q as [x2 y2]. simpl in *.
    f_equal; lia.
  - intros E. subst q. apply pythagorean_self.
Qed.

(** X1. [pythagorean] does not depend on the order of its two points and
    is 0 on a point and itself.  For two points in range (coordinates of
    absolute value at most 16383) it is 0 only when they have the same
    coordinates: two different points are at a truncated distance of at
    least 1. *)
Theorem pythagorean_symmetric_zero (p q : point) :
  pythagorean p q = pythagorean q p /\
  pythagorean p p = 0 /\
  (in_range p -> in_range q ->
   (pythagorean p q = 0 <-> p = q) /\
   (p <> q -> 1 <= pythagorean p q)).
Proof.
  split; [unfold pythagorean; now rewrite (sq_dist_sym p q)|].
  split; [apply pythagorean_self|].
  intros Rp Rq. split; [now apply pythagorean_zero|].
  intros N. pose proof (pythagorean_nonneg p q Rp Rq) as P.
  destruct (Z.eq_dec (pythagorean p q) 0) as [E | E]; [|lia].
  apply pythagorean_zero in E; [contradiction | assumption | assumption].
Qed.

Lemma same_sign_product (a b : Z) :
  Tri.same_sign a b = true <-> 0 <= a * b.
Proof.
  unfold Tri.same_sign.
  destruct (Z.geb_spec a 0); destruct (Z.geb_spec b 0);
    destruct (Z.leb_spec a 0); destruct (Z.leb_spec b 0);
    simpl; split; intros Hyp; try reflexivity; try discriminate; try nia.
Qed.

(** X2. [same_sign] is the test [0 <= a * b]: 0 has the sign of every
    number.  So, on triangles between points in range, [check_shared_edge]
    flips only when the two ends [s1], [s2] of the shared edge lie strictly
    on opposite sides of the line through the two other vertices [a], [b]
    (the product of the two scores is negative), and the truncated length
    of [a-b] is below that of [s1-s2]; an end that lies on the line [a-b]
    prevents the flip. *)
Theorem flip_needs_opposite_sides :
  (forall a b : Z, Tri.same_sign a b = true <-> 0 <= a * b) /\
  (forall t1 t2 t1' t2',
     all_in_range (vertices_of t1) -> all_in_range (vertices_of t2) ->
     Tri.check_shared_edge t1 t2 = (true, t1', t2') ->
     exists s1 s2 a b,
       flip_of t1 t2 t1' t2' s1 s2 a b /\
       score a b s1 * score a b s2 < 0 /\
       Z.sqrt (sq_len a b) < Z.sqrt (sq_len s1 s2)).
Proof.
  split; [apply same_sign_product|].
  intros t1 t2 t1' t2' R1 R2 H.
  destruct (check_shared_edge_exact _ _ _ _ R1 R2 H)
    as (s1 & s2 & a & b & F & S & L).
  exists s1, s2, a, b. split; [exact F|]. split; [|exact L].
  destruct (Z.lt_ge_cases (score a b s1 * score a b s2) 0) as [Neg | Pos];
    [exact Neg|].
  apply same_sign_product in Pos. congruence.
Qed.

Lemma sign_tests (d1 d2 d3 : Z) :
  (if ((d1 >? 0) && (d2 <? 0)) || ((d1 <? 0) && (d2 >? 0)) then false
   else if ((d1 >? 0) && (d3 <? 0)) || ((d1 <? 0) && (d3 >? 0)) then false
        else true) = true
  <-> 0 <= d1 * d2 /\ 0 <= d1 * d3.
Proof.
  destruct (Z.gtb_spec d1 0); destruct (Z.ltb_spec d1 0);
    destruct (Z.gtb_spec d2 0); destruct (Z.ltb_spec d2 0);
    destruct (Z.gtb_spec d3 0); destruct (Z.ltb_spec d3 0);
    simpl; split; intros Hyp; try reflexivity; try discriminate;
    try lia; try nia.
Qed.

Lemma point_in_triangle_signs (p : point) (t : tri) :
  in_range p -> all_in_range (vertices_of t) ->
  (Tri.point_in_triangle p t = true <->
   0 <= score (t_p1 t) (t_p2 t) p * score (t_p2 t) (t_p3 t) p /\
   0 <= score (t_p1 t) (t_p2 t) p * score (t_p3 t) (t_p1 t) p).
Proof.
  intros Rp Rt.
  destruct (triangle_scores_exact p t Rp Rt) as (E1 & E2 & E3).
  unfold Tri.point_in_triangle. rewrite E1, E2, E3. apply sign_tests.
Qed.

(** X3. What [point_in_triangle] tests: the score that the program
    computes for the point against the first edge is not strictly opposite
    to its score against the second edge, nor to its score against the
    third.  The second and the third score are never compared with each
    other.  For a point and a triangle in range, every point inside the
    triangle or on its boundary passes, whatever the orientation of the
    triangle. *)
Theorem point_in_triangle_products (p : point) (t : tri) :
  let d1 := dist (t_p1 t) (t_p2 t) p in
  let d2 := dist (t_p2 t) (t_p3 t) p in
  let d3 := dist (t_p3 t) (t_p1 t) p in
  (Tri.point_in_triangle p t = true <-> 0 <= d1 * d2 /\ 0 <= d1 * d3) /\
  (in_range p -> all_in_range (vertices_of t) ->
   inside_triangle p t -> Tri.point_in_triangle p t = true).
Proof.
  intros d1 d2 d3.
  assert (I : Tri.point_in_triangle p t = true
              <-> 0 <= d1 * d2 /\ 0 <= d1 * d3).
  { unfold Tri.point_in_triangle. fold d1 d2 d3. apply sign_tests. }
  split; [exact I|].
  intros Rp Rt.
  destruct (triangle_scores_exact p t Rp Rt) as (E1 & E2 & E3).
  unfold inside_triangle, same_side3. rewrite <- E1, <- E2, <- E3.
  fold d1 d2 d3.
  intros H. apply I. nia.
Qed.

(** Beyond the range the scores wrap: the point [(100,59000)] lies inside
    the triangle [(0,0) (60000,0) (0,60000)], its score against the first
    side, 3540000000, wraps to a negative number, and [point_in_triangle]
    returns false. *)
Example point_in_triangle_wrapped_score :
  let t := mkTri (mkPoint 0 0) (mkPoint 60000 0) (mkPoint 0 60000) in
  let p := mkPoint 100 59000 in
  inside_triangle p t /\
  dist (t_p1 t) (t_p2 t) p < 0 /\
  Tri.point_in_triangle p t = false.
Proof.
  cbv zeta. split; [|split; vm_compute; reflexivity].
  left. vm_compute. repeat split; discriminate.
Qed.

(** [on_edge] is true exactly for the ends of the edges of
    [global.edges]. *)
Lemma on_edge_endpoints (g : Tri.glob) (p : point) :
  Tri.on_edge g p = true <-> In p (edge_points (Tri.edges g)).
Proof.
  unfold Tri.on_edge, edge_points. rewrite existsb_exists, in_flat_map.
  split; intros (e & He & H); exists e; (split; [exact He|]).
  - apply orb_true_iff in H. destruct H as [H | H];
      apply same_point_eq in H; subst p; simpl; auto.
  - destruct H as [<- | [<- | []]]; rewrite same_point_refl;
      [reflexivity | apply orb_true_r].
Qed.

(** ** The hull of points that are not in general position *)

(** X4. With at least three points in range (coordinates of absolute
    value at most 16383) whose x-coordinates lie in the window, and
    whatever their position (three or more on a line, duplicates),
    [convex_hull] started on an empty edge vector pushes a closed sequence
    of linked edges between input points, no input point lies strictly
    outside any of these edges, and, unless all points have the same
    x-coordinate, every vertex of the convex hull of the points is the end
    of an edge. *)
Theorem hull_with_collinear_points (w : Z) (indet : list point -> Z * Z)
  (pts : list point)
  (H3 : (3 <= length pts)%nat)
  (Hwin : forall r, In r pts -> 0 <= px r < w)
  (Hrange : all_in_range pts) :
  exists es,
    (forall fuel, (length pts < fuel)%nat ->
                  hull_edges fuel w indet pts [] = Some es) /\
    closed_chain es /\
    (forall v, In v (edge_points es) -> In v pts) /\
    (forall e, In e es ->
               forall r, In r pts -> score (e_p1 e) (e_p2 e) r <= 0) /\
    ((exists a b, In a pts /\ In b pts /\ px a <> px b) ->
     forall v, In v pts -> extreme pts v -> In v (edge_points es)).
Proof.
  assert (Hne : pts <> []) by (destruct pts; [simpl in H3; lia | discriminate]).
  destruct (minmax_in_window w indet pts Hne Hwin) as [HA HB].
  assert (RAB : ranged pts (fst (minmax w indet pts))
                  (snd (minmax w indet pts)))
    by (unfold ranged; auto).
  assert (RBA : ranged pts (snd (minmax w indet pts))
                  (fst (minmax w indet pts)))
    by (unfold ranged; auto).
  destruct (hull_edges_total w indet pts RAB H3) as (c1 & c2 & C1 & C2 & Q).
  pose proof (minmax_bounds w indet pts) as Bd.
  set (A := fst (minmax w indet pts)) in *.
  set (B := snd (minmax w indet pts)) in *.
  destruct (chain_linked _ _ _ _ C1) as [L1 N1].
  destruct (chain_linked _ _ _ _ C2) as [L2 N2].
  exists (c1 ++ c2). split; [|split; [|split; [|split]]].
  - intros fuel Lf. rewrite (Q fuel [] Lf). reflexivity.
  - split; [destruct c1; [contradiction | discriminate]|].
    exists A. eapply linked_app; eassumption.
  - intros v Hv. rewrite edge_points_app in Hv. apply in_app_or in Hv.
    destruct Hv as [Hv | Hv].
    + destruct (chain_points_in _ _ _ _ C1 v Hv) as [-> | [-> | Hin]]; auto.
    + destruct (chain_points_in _ _ _ _ C2 v Hv) as [-> | [-> | Hin]]; auto.
  - intros e He r Hr. apply in_app_or in He. destruct He as [He | He].
    + apply (chain_edges_clear _ _ _ _ C1 RAB e He r Hr).
    + apply (chain_edges_clear _ _ _ _ C2 RBA e He r Hr).
  - intros (a & b & Ha & Hb & Nab) v Hv Ex.
    assert (Lt : px A < px B).
    { pose proof (Bd a Ha). pose proof (Bd b Hb). lia. }
    rewrite edge_points_app. apply in_or_app.
    destruct (point_eq_dec v A) as [-> | NA].
    { left. destruct (linked_first _ _ _ L1 N1) as (e & He & E).
      apply edge_points_in. exists e. auto. }
    destruct (point_eq_dec v B) as [-> | NB].
    { right. destruct (linked_first _ _ _ L2 N2) as (e & He & E).
      apply edge_points_in. exists e. auto. }
    pose proof (between_not_extreme pts A B v HA HB Ex NA NB (Bd v Hv) Lt) as D.
    destruct (Z.lt_ge_cases 0 (score A B v)) as [Pos | Neg].
    + left. apply (chain_complete _ _ _ _ C1 Hrange HA HB v Hv Ex Pos).
    + right. apply (chain_complete _ _ _ _ C2 Hrange HB HA v Hv Ex).
      rewrite score_swap. lia.
Qed.

Lemma hull_with_collinear_points_witness :
  exists es,
    (forall fuel, (length collinear_bottom < fuel)%nat ->
                  hull_edges fuel 1000 indet0 collinear_bottom [] = Some es) /\
    closed_chain es /\
    (forall v, In v (edge_points es) -> In v collinear_bottom) /\
    (forall e, In e es ->
               forall r, In r collinear_bottom ->
                         score (e_p1 e) (e_p2 e) r <= 0) /\
    ((exists a b, In a collinear_bottom /\ In b collinear_bottom /\
                  px a <> px b) ->
     forall v, In v collinear_bottom -> extreme collinear_bottom v ->
               In v (edge_points es)).
Proof.
  apply (hull_with_collinear_points 1000 indet0 collinear_bottom).
  - simpl. lia.
  - intros r Hr. simpl in Hr.
    repeat (destruct Hr as [<- | Hr]; [simpl; lia|]). contradiction.
  - range_of_list.
Defined.

(** ** What a peel leaves behind *)

Lemma hull_edges_prefix (fuel : nat) (w : Z) (indet : list point -> Z * Z)
  (pts : list point) (es es' : list edge) :
  hull_edges fuel w indet pts es = Some es' -> exists c, es' = es ++ c.
Proof.
  unfold hull_edges. destruct (length pts <? 3)%nat.
  - intros H. inversion H. exists []. now rewrite app_nil_r.
  - destruct (minmax w indet pts) as [A B].
    destruct (quick_hull fuel pts A B es) as [es1|] eqn:Q1; [|discriminate].
    intros Q2. apply quick_hull_chain in Q1, Q2.
    destruct Q1 as (c1 & -> & _), Q2 as (c2 & -> & _).
    exists (c1 ++ c2). now rewrite app_assoc.
Qed.

(** The loop of [peel], whatever the fuel and the window: it writes the
    edge vector only, behind what is there; the points it leaves are at
    most two points of its input; every other input point is on the line
    of an edge; and no point it leaves is, once the loop has run. *)
Lemma peel_loop_accounts (fuel : nat) :
  forall indet g pts g' rest,
    Hull.peel_loop fuel indet g pts = Some (g', rest) ->
    g' = Hull.set_edges g (Hull.edges g') /\
    (exists new, Hull.edges g' = Hull.edges g ++ new) /\
    (length rest <= 2)%nat /\
    (forall p, In p rest -> In p pts) /\
    (forall p, In p pts ->
               In p rest \/ Hull.pointExists (Hull.edges g') p = true) /\
    ((3 <= length pts)%nat ->
     forall p, In p rest -> Hull.pointExists (Hull.edges g') p = false).
Proof.
  induction fuel as [|fuel IH]; intros indet g pts g' rest H;
    [discriminate|].
  cbn [Hull.peel_loop] in H.
  destruct (Nat.ltb_spec 2 (length pts)) as [Big | Small].
  - unfold Hull.convex_hull in H.
    destruct (hull_edges fuel (Hull.w g) indet pts (Hull.edges g))
      as [es1|] eqn:E; [|discriminate].
    destruct (hull_edges_prefix _ _ _ _ _ _ E) as (c & Ec).
    set (g1 := Hull.set_edges g es1) in *.
    set (newPoints := filter (fun p => negb (Hull.pointExists (Hull.edges g1) p))
                        pts) in *.
    pose proof (IH _ _ _ _ _ H) as (F1 & (new & F2) & F3 & F4 & F5 & F6).
    change (Hull.edges g1) with es1 in *.
    assert (Mono : forall p, Hull.pointExists es1 p = true ->
                             Hull.pointExists (Hull.edges g') p = true).
    { intros p Hp. rewrite F2, pointExists_app, Hp. reflexivity. }
    split; [rewrite F1; reflexivity|]. split.
    { exists (c ++ new). rewrite F2, Ec, app_assoc. reflexivity. }
    split; [exact F3|]. split.
    { intros p Hp. apply F4 in Hp. unfold newPoints in Hp.
      apply filter_In in Hp. tauto. }
    split.
    { intros p Hp.
      destruct (Hull.pointExists es1 p) eqn:Ex.
      - right. now apply Mono.
      - apply F5. unfold newPoints. apply filter_In. rewrite Ex. auto. }
    intros _ p Hp.
    destruct (Nat.ltb_spec 2 (length newPoints)) as [Big' | Small'].
    + apply F6; [lia | exact Hp].
    + destruct fuel as [|fuel']; [discriminate|].
      cbn [Hull.peel_loop] in H.
      destruct (Nat.ltb_spec 2 (length newPoints)); [lia|].
      inversion H; subst g' rest. change (Hull.edges g1) with es1.
      unfold newPoints in Hp. apply filter_In in Hp.
      destruct Hp as [_ Hp]. now apply negb_true_iff in Hp.
  - inversion H; subst g' rest.
    split; [destruct g; reflexivity|]. split.
    { exists []. now rewrite app_nil_r. }
    split; [lia|]. split; [auto|]. split; [auto|]. intros; lia.
Qed.

(** X5. For points in range (coordinates of absolute value at most
    16383), with a window width of at least 0 and with [minPoint] and
    [maxPoint] in range on every layer ([safe_ends]: so it is for points
    inside the window), [peel] returns and accounts for every point of its
    input: at most two points are left over, each of them an input point,
    and every other input point has the score 0 against some edge of
    [global.edges] (the test [pointExists] of the loop); when the loop has
    run (three points or more), no leftover point has.  [peel] only adds
    edges behind those that are there, clears [global.points] unless a
    clustering is under way, and keeps the rest of the state. *)
Theorem peel_accounts_for_every_point (indet : list point -> Z * Z)
  (g : Hull.glob) (pts : list point) (Hw : 0 <= Hull.w g)
  (Hrange : all_in_range pts) (Hends : safe_ends (Hull.w g) indet pts) :
  exists g' rest r,
    (forall fuel, (length pts + 2 <= fuel)%nat ->
                  Hull.peel fuel indet g pts = Some (g', rest, r)) /\
    (length rest <= 2)%nat /\
    (forall p, In p rest -> In p pts) /\
    (forall p, In p pts ->
               In p rest \/ Hull.pointExists (Hull.edges g') p = true) /\
    ((3 <= length pts)%nat ->
     forall p, In p rest -> Hull.pointExists (Hull.edges g') p = false) /\
    (exists new, Hull.edges g' = Hull.edges g ++ new) /\
    Hull.points g' = (if Hull.clustering g then Hull.points g else []) /\
    Hull.w g' = Hull.w g /\ Hull.h g' = Hull.h g /\ Hull.n g' = Hull.n g /\
    Hull.clusters g' = Hull.clusters g /\
    Hull.clustering g' = Hull.clustering g.
Proof.
  destruct (peel_total indet g pts Hw Hrange Hends)
    as (g' & rest & layers & Run & _ & _).
  exists g', rest,
    (Hull.mkReport (length (Hull.points g))
       (length (Hull.edges g) + length (concat (map snd layers)))).
  split; [intros fuel Lf; apply (Run fuel Lf)|].
  destruct (Run (length pts + 2)%nat (le_n _)) as [P _].
  unfold Hull.peel in P.
  destruct (Hull.peel_loop _ indet g pts) as [[g1 rest1]|] eqn:L;
    [|discriminate].
  inversion P; subst rest1. clear P.
  destruct (peel_loop_accounts _ _ _ _ _ _ L)
    as (F1 & F2 & F3 & F4 & F5 & F6).
  assert (Ee : Hull.edges (if Hull.clustering g1 then g1
                           else Hull.set_points g1 []) = Hull.edges g1)
    by (destruct (Hull.clustering g1); reflexivity).
  assert (Ec : Hull.clustering g1 = Hull.clustering g) by (rewrite F1; reflexivity).
  rewrite Ee. repeat split; try assumption.
  - rewrite Ec. destruct (Hull.clustering g); [rewrite F1|]; reflexivity.
  - destruct (Hull.clustering g1); rewrite F1; reflexivity.
  - destruct (Hull.clustering g1); rewrite F1; reflexivity.
  - destruct (Hull.clustering g1); rewrite F1; reflexivity.
  - destruct (Hull.clustering g1); rewrite F1; reflexivity.
  - destruct (Hull.clustering g1); rewrite F1; reflexivity.
Qed.

Lemma peel_accounts_for_every_point_witness :
  exists g' rest r,
    (forall fuel, (length seven_points + 2 <= fuel)%nat ->
                  Hull.peel fuel indet0 seven_fresh seven_points
                  = Some (g', rest, r)) /\
    (length rest <= 2)%nat /\
    (forall p, In p rest -> In p seven_points) /\
    (forall p, In p seven_points ->
               In p rest \/ Hull.pointExists (Hull.edges g') p = true) /\
    ((3 <= length seven_points)%nat ->
     forall p, In p rest -> Hull.pointExists (Hull.edges g') p = false) /\
    (exists new, Hull.edges g' = Hull.edges seven_fresh ++ new) /\
    Hull.points g'
    = (if Hull.clustering seven_fresh then Hull.points seven_fresh else []) /\
    Hull.w g' = Hull.w seven_fresh /\ Hull.h g' = Hull.h seven_fresh /\
    Hull.n g' = Hull.n seven_fresh /\
    Hull.clusters g' = Hull.clusters seven_fresh /\
    Hull.clustering g' = Hull.clustering seven_fresh.
Proof.
  apply (peel_accounts_for_every_point indet0 seven_fresh seven_points).
  - simpl. lia.
  - exact seven_points_in_range.
  - exact (safe_ends_window _ _ _ seven_points_in_range
             seven_points_in_window).
Defined.

(** ** The clusters of [cluster_peel] *)

(** One pass of the growth loop appends the points at the current radius,
    in order, until the cluster is full. *)
Lemma grow_pass_firstn (target d : Z) (seed : point) (pts : list point) :
  forall cluster,
    Hull.grow_pass target d seed cluster pts
    = cluster ++ firstn (Z.to_nat (target - Z.of_nat (length cluster)))
                   (ring_at seed pts d).
Proof.
  unfold ring_at.
  induction pts as [|p rest IH]; intros cluster; cbn [Hull.grow_pass filter].
  - now rewrite firstn_nil, app_nil_r.
  - destruct (Z.geb_spec (Z.of_nat (length cluster)) target) as [Full | Room].
    + replace (Z.to_nat (target - Z.of_nat (length cluster))) with 0%nat by lia.
      now rewrite app_nil_r.
    + destruct (pythagorean seed p =? d).
      * rewrite IH, length_app, <- app_assoc. cbn [length app].
        replace (Z.to_nat (target - Z.of_nat (length cluster)))
          with (S (Z.to_nat (target - Z.of_nat (length cluster + 1)))) by lia.
        reflexivity.
      * apply IH.
Qed.

Lemma grow_spec (target : Z) (seed : point) (pts : list point) (k : nat) :
  forall fuel d0 cluster,
    (k < fuel)%nat ->
    target <= Z.of_nat (length cluster)
              + Z.of_nat (length (rings seed pts d0 k)) ->
    Hull.grow fuel target d0 seed cluster pts
    = Some (cluster ++ firstn (Z.to_nat (target - Z.of_nat (length cluster)))
                         (rings seed pts d0 k)).
Proof.
  induction k as [|k IH]; intros fuel d0 cluster Lf Enough;
    (destruct fuel as [|fuel]; [lia|]); cbn [Hull.grow rings] in *.
  - destruct (Z.ltb_spec (Z.of_nat (length cluster)) target) as [Lt | Ge];
      [simpl in Enough; lia|].
    now rewrite firstn_nil, app_nil_r.
  - destruct (Z.ltb_spec (Z.of_nat (length cluster)) target) as [Lt | Ge].
    + rewrite grow_pass_firstn.
      set (m := Z.to_nat (target - Z.of_nat (length cluster))) in *.
      set (r := ring_at seed pts d0) in *.
      rewrite length_app in Enough.
      assert (Lc : length (cluster ++ firstn m r)
                   = (length cluster + Nat.min m (length r))%nat)
        by (rewrite length_app, length_firstn; reflexivity).
      rewrite IH; [|lia|rewrite Lc; subst m; lia].
      rewrite <- app_assoc, firstn_app. do 4 f_equal.
      rewrite Lc. subst m. lia.
    + replace (Z.to_nat (target - Z.of_nat (length cluster))) with 0%nat by lia.
      now rewrite app_nil_r.
Qed.

Lemma rings_In (seed : point) (pts : list point) (k : nat) :
  forall d0 p,
    In p (rings seed pts d0 k)
    <-> In p pts /\ d0 <= pythagorean seed p < d0 + Z.of_nat k.
Proof.
  induction k as [|k IH]; intros d0 p; cbn [rings].
  - split; [intros [] | lia].
  - rewrite in_app_iff, IH. unfold ring_at. rewrite filter_In, Z.eqb_eq.
    split.
    + intros [[H1 H2] | [H1 H2]]; (split; [assumption | lia]).
    + intros [H1 H2].
      destruct (Z.eq_dec (pythagorean seed p) d0); [left | right];
        (split; [assumption | lia]).
Qed.



(** Beyond the range the squared distance wraps: the point [(65536,3)] is
    taken at the radius 3, before the point [(3,4)]. *)
Example cluster_growth_wrapped_distance :
  let seed := mkPoint 0 0 in
  let pts := [mkPoint 0 0; mkPoint 65536 3; mkPoint 3 4] in
  Hull.grow 6 2 1 seed [seed] pts = Some [seed; mkPoint 65536 3] /\
  pythagorean seed (mkPoint 65536 3) = 3 /\
  Z.sqrt (sq_len seed (mkPoint 65536 3)) = 65536.
Proof. vm_compute. repeat split; reflexivity. Qed.

Lemma grow_keeps (fuel : nat) (target : Z) (seed : point) (pts : list point) :
  forall d cluster result,
    Hull.grow fuel target d seed cluster pts = Some result ->
    exists more, result = cluster ++ more.
Proof.
  induction fuel as [|fuel IH]; intros d cluster result H; [discriminate|].
  cbn [Hull.grow] in H.
  destruct (Z.of_nat (length cluster) <? target).
  - apply IH in H. destruct H as (more & ->).
    rewrite grow_pass_firstn, <- app_assoc. eexists. reflexivity.
  - inversion H. exists []. now rewrite app_nil_r.
Qed.

(** [peel] touches the edge vector and, unless a clustering is under way,
    clears the point vector. *)
Lemma peel_frame (fuel : nat) (indet : list point -> Z * Z) (g g' : Hull.glob)
  (pts rest : list point) (r : Hull.report) :
  Hull.peel fuel indet g pts = Some (g', rest, r) ->
  g' = Hull.mkGlob (Hull.w g) (Hull.h g) (Hull.n g)
         (if Hull.clustering g then Hull.points g else [])
         (Hull.edges g') (Hull.clusters g) (Hull.clustering g) /\
  exists new, Hull.edges g' = Hull.edges g ++ new.
Proof.
  unfold Hull.peel.
  destruct (Hull.peel_loop fuel indet g pts) as [[g1 rest1]|] eqn:L;
    [|discriminate].
  destruct (peel_loop_accounts _ _ _ _ _ _ L) as (F1 & F2 & _).
  intros H. inversion H; subst. clear H.
  destruct g1 as [w1 h1 n1 ps1 es1 cl1 c1].
  unfold Hull.set_edges in F1. cbn [Hull.edges] in *.
  inversion F1; subst w1 h1 n1 ps1 cl1 c1. clear F1.
  cbn [Hull.clustering].
  destruct (Hull.clustering g); (split; [reflexivity | exact F2]).
Qed.

(** Every turn of the loop of [cluster_peel] removes the seed from
    [global.points]. *)
Lemma cluster_iter_shrinks (fuel : nat) (indet : list point -> Z * Z)
  (g g' : Hull.glob) (r : Hull.report) :
  Hull.cluster_iter fuel indet g = Some (g', r) ->
  (length (Hull.points g') < length (Hull.points g))%nat.
Proof.
  unfold Hull.cluster_iter.
  destruct (Hull.points g) as [|seed rest] eqn:P; [discriminate|].
  destruct (Hull.grow _ _ _ _ _ _) as [cl|] eqn:G; [|discriminate].
  destruct (Hull.peel fuel indet g cl) as [[[g1 rest1] r1]|] eqn:Pe;
    [|discriminate].
  intros H. inversion H; subst g' r. clear H. cbn [Hull.points Hull.set_points].
  apply peel_frame in Pe. destruct Pe as [-> _]. cbn [Hull.points].
  destruct (Hull.clustering g); [|simpl; lia].
  rewrite P. apply (filter_drops _ _ seed); [now left|].
  destruct (grow_keeps _ _ _ _ _ _ _ G) as (more & ->).
  unfold Hull.not_in_cluster. simpl. rewrite same_point_refl. reflexivity.
Qed.

Lemma cluster_loop_needs_points (fuel : nat) (indet : list point -> Z * Z) :
  forall i g out,
    (length (Hull.points g) < i)%nat ->
    Hull.cluster_loop fuel indet i g out = None.
Proof.
  induction i as [|i IH]; intros g out L; [lia|].
  cbn [Hull.cluster_loop].
  destruct (Hull.cluster_iter fuel indet g) as [[g1 r]|] eqn:E; [|reflexivity].
  apply cluster_iter_shrinks in E. apply IH. lia.
Qed.

(** X7. Every turn of the loop of [cluster_peel] starts by reading
    [global.points[0]] and ends with at least that point removed from
    [global.points].  With more clusters than points, a turn therefore
    reads [global.points[0]] on an empty vector (or fails earlier):
    [cluster_peel] has no result, whatever the fuel. *)
Theorem cluster_peel_needs_points (indet : list point -> Z * Z)
  (g : Hull.glob)
  (Few : Z.of_nat (length (Hull.points g)) < Hull.clusters g) :
  forall fuel, Hull.cluster_peel fuel indet g = None.
Proof.
  intros fuel. unfold Hull.cluster_peel.
  rewrite cluster_loop_needs_points; [reflexivity|].
  cbn [Hull.points Hull.set_clustering]. lia.
Qed.

Lemma cluster_peel_needs_points_witness :
  Hull.cluster_peel 50 indet0 four_points_five_clusters = None.
Proof.
  apply (cluster_peel_needs_points indet0 four_points_five_clusters).
  vm_compute. reflexivity.
Defined.

Lemma rings_NoDup (seed : point) (pts : list point) (k : nat) :
  NoDup pts -> forall d0, NoDup (rings seed pts d0 k).
Proof.
  intros Hnd. induction k as [|k IH]; intros d0; cbn [rings].
  - constructor.
  - apply NoDup_app; [now apply NoDup_filter | apply IH |].
    intros p H1 H2. unfold ring_at in H1. apply filter_In in H1.
    destruct H1 as [_ H1]. apply Z.eqb_eq in H1.
    apply rings_In in H2. lia.
Qed.

Lemma rings_length (seed : point) (pts : list point) (k : nat) :
  forall d0,
    (length (rings seed pts d0 k) + reachable (d0 + Z.of_nat k) seed pts
     = reachable d0 seed pts)%nat.
Proof.
  induction k as [|k IH]; intros d0; cbn [rings].
  - cbn [length]. rewrite Z.add_0_r. reflexivity.
  - rewrite length_app, (reachable_step d0).
    specialize (IH (d0 + 1)).
    replace (d0 + 1 + Z.of_nat k) with (d0 + Z.of_nat (S k)) in IH by lia.
    unfold ring_at. lia.
Qed.

Lemma reachable_far (seed : point) (pts : list point) :
  exists k, reachable (1 + Z.of_nat k) seed pts = 0%nat.
Proof.
  unfold reachable. induction pts as [|p pts (k & IH)].
  - exists 0%nat. reflexivity.
  - exists (Nat.max k (Z.to_nat (pythagorean seed p))).
    cbn [filter].
    destruct (Z.leb_spec (1 + Z.of_nat (Nat.max k (Z.to_nat (pythagorean seed p))))
                (pythagorean seed p)); [lia|].
    apply length_zero_iff_nil. apply length_zero_iff_nil in IH.
    apply filter_all_false. intros q Hq.
    assert (F : (1 + Z.of_nat k <=? pythagorean seed q) = false).
    { destruct (1 + Z.of_nat k <=? pythagorean seed q) eqn:E; [|reflexivity].
      assert (Hin : In q (filter (fun p0 => 1 + Z.of_nat k <=? pythagorean seed p0) pts))
        by (apply filter_In; auto).
      rewrite IH in Hin. destruct Hin. }
    apply Z.leb_gt in F. apply Z.leb_gt. lia.
Qed.

Lemma all_equal_NoDup (a : point) (l : list point) :
  NoDup l -> (forall x, In x l -> x = a) -> (length l <= 1)%nat.
Proof.
  intros Hnd Hall. destruct l as [|x [|y l]]; simpl; try lia.
  exfalso. inversion Hnd as [|? ? Hx _]; subst. apply Hx. left.
  rewrite (Hall x), (Hall y); simpl; auto.
Qed.

(** Among distinct points, all but the seed are reached by the growth
    loop. *)
Lemma rings_all (seed : point) (pts : list point) :
  in_range seed -> all_in_range pts -> NoDup pts ->
  exists k, (length pts <= 1 + length (rings seed pts 1 k))%nat.
Proof.
  intros Rs Rp Hnd. destruct (reachable_far seed pts) as (k & Far). exists k.
  pose proof (rings_length seed pts k 1) as L. rewrite Far in L.
  pose proof (reachable_step 0 seed pts) as S0.
  change (Z.add 0 1) with 1 in S0.
  assert (R0 : reachable 0 seed pts = length pts).
  { unfold reachable.
    rewrite (filter_ext_in _ (fun _ => true)); [now rewrite filter_true|].
    intros p Hp. apply Z.leb_le, pythagorean_nonneg; auto. }
  assert (Z1 : (length (filter (fun p => Z.eqb (pythagorean seed p) 0) pts) <= 1)%nat).
  { apply (all_equal_NoDup seed); [now apply NoDup_filter|].
    intros x Hx. apply filter_In in Hx. destruct Hx as [Hin Hx].
    apply Z.eqb_eq, pythagorean_zero in Hx; auto. }
  lia.
Qed.

Lemma firstn_In {A : Type} (n : nat) (l : list A) (x : A) :
  In x (firstn n l) -> In x l.
Proof.
  revert l. induction n as [|n IH]; intros [|a l]; simpl; try tauto.
  intros [H | H]; [now left | right; now apply IH].
Qed.

Lemma firstn_NoDup {A : Type} (n : nat) (l : list A) :
  NoDup l -> NoDup (firstn n l).
Proof.
  revert l. induction n as [|n IH]; intros [|a l] H; simpl; try constructor.
  - inversion H; subst. intros Hin. apply firstn_In in Hin. contradiction.
  - inversion H; subst. now apply IH.
Qed.

(** The removal loop of [cluster_peel] on distinct points: exactly the
    points of the cluster go. *)
Lemma removal_length (cl pts : list point) :
  NoDup pts -> NoDup cl -> incl cl pts ->
  (length (filter (Hull.not_in_cluster cl) pts) + length cl = length pts)%nat.
Proof.
  intros Np Nc Inc.
  pose proof (filter_length (fun p => existsb (fun p2 => same_point p p2) cl) pts)
    as L.
  assert (E : filter (Hull.not_in_cluster cl) pts
              = filter (fun x => negb (existsb (fun p2 => same_point x p2) cl))
                  pts) by reflexivity.
  rewrite E. clear E.
  assert (P : Permutation (filter (fun p => existsb (fun p2 => same_point p p2) cl) pts) cl).
  { apply NoDup_Permutation; [now apply NoDup_filter | assumption |].
    intros x. rewrite filter_In, existsb_exists. split.
    - intros (_ & y & Hy & E). apply same_point_eq in E. now subst.
    - intros Hx. split; [now apply Inc|]. exists x. split; [assumption|].
      apply same_point_refl. }
  apply Permutation_length in P. lia.
Qed.

(** One turn of the loop of [cluster_peel] on distinct points, enough of
    them for a cluster. *)
Lemma cluster_iter_runs (indet : list point -> Z * Z) (g : Hull.glob) :
  Hull.clustering g = true -> 0 <= Hull.w g -> NoDup (Hull.points g) ->
  all_in_range (Hull.points g) -> safe_ends (Hull.w g) indet (Hull.points g) ->
  (Z.to_nat (Z.max 1 (Hull.cluster_target g)) <= length (Hull.points g))%nat ->
  exists fuel0 g' r,
    (forall fuel, (fuel0 <= fuel)%nat ->
                  Hull.cluster_iter fuel indet g = Some (g', r)) /\
    Hull.w g' = Hull.w g /\ Hull.h g' = Hull.h g /\ Hull.n g' = Hull.n g /\
    Hull.clusters g' = Hull.clusters g /\ Hull.clustering g' = true /\
    NoDup (Hull.points g') /\ incl (Hull.points g') (Hull.points g) /\
    (length (Hull.points g') + Z.to_nat (Z.max 1 (Hull.cluster_target g))
     = length (Hull.points g))%nat /\
    exists new, Hull.edges g' = Hull.edges g ++ new.
Proof.
  intros Hc Hw Hnd Hr Hs Hm.
  set (T := Hull.cluster_target g) in *.
  destruct (Hull.points g) as [|seed rest] eqn:P; [simpl in Hm; lia|].
  rewrite <- P in *.
  assert (Rseed : in_range seed) by (apply Hr; rewrite P; now left).
  destruct (rings_all seed (Hull.points g) Rseed Hr Hnd) as (k & Hk).
  set (cl := seed :: firstn (Z.to_nat (T - 1)) (rings seed (Hull.points g) 1 k)).
  assert (G : forall fuel, (k < fuel)%nat ->
            Hull.grow fuel T 1 seed [seed] (Hull.points g) = Some cl).
  { intros fuel Lf.
    rewrite (grow_spec T seed (Hull.points g) k fuel 1 [seed] Lf);
      [reflexivity | simpl length; lia]. }
  assert (Lcl : length cl = Z.to_nat (Z.max 1 T)).
  { unfold cl. cbn [length]. rewrite length_firstn. lia. }
  assert (Ncl : NoDup cl).
  { unfold cl. constructor.
    - intros Hin. apply firstn_In, rings_In in Hin.
      destruct Hin as [_ Hin].
      assert (E : pythagorean seed seed = 0) by apply pythagorean_self.
      lia.
    - apply firstn_NoDup, rings_NoDup, Hnd. }
  assert (Icl : incl cl (Hull.points g)).
  { intros x [<- | Hx].
    - rewrite P. now left.
    - apply firstn_In, rings_In in Hx. tauto. }
  destruct (peel_loop_total (length cl) indet g cl Hw
              (all_in_range_incl _ _ Icl Hr) (safe_ends_incl _ _ _ _ Icl Hs)
              (le_n _))
    as (g1 & rest1 & layers & Run & _ & Eg).
  exists (Nat.max (k + 1) (length cl + 2)).
  exists (Hull.set_points g1 (filter (Hull.not_in_cluster cl) (Hull.points g1))).
  exists (Hull.mkReport (length (Hull.points g1)) (length (Hull.edges g1))).
  assert (Ep : Hull.points g1 = Hull.points g) by (rewrite Eg; reflexivity).
  assert (Ec : Hull.clustering g1 = true) by (rewrite Eg; exact Hc).
  split.
  { intros fuel Lf. unfold Hull.cluster_iter. rewrite P. rewrite <- P.
    fold T. rewrite G by lia. unfold Hull.peel.
    destruct (Run fuel) as [-> _]; [lia|]. rewrite Ec. reflexivity. }
  cbn [Hull.w Hull.h Hull.n Hull.clusters Hull.clustering Hull.points
       Hull.edges Hull.set_points].
  rewrite Ep.
  repeat split; try (rewrite Eg; reflexivity); try assumption.
  - now apply NoDup_filter.
  - intros x Hx. apply filter_In in Hx. tauto.
  - rewrite <- Lcl. now apply removal_length.
  - rewrite Eg. cbn [Hull.edges Hull.set_edges]. eexists. reflexivity.
Qed.

Lemma cluster_loop_runs (indet : list point -> Z * Z) :
  forall i g out,
    Hull.clustering g = true -> 0 <= Hull.w g -> NoDup (Hull.points g) ->
    all_in_range (Hull.points g) ->
    safe_ends (Hull.w g) indet (Hull.points g) ->
    (i * Z.to_nat (Z.max 1 (Hull.cluster_target g))
     <= length (Hull.points g))%nat ->
    exists fuel0 g' out',
      (forall fuel, (fuel0 <= fuel)%nat ->
                    Hull.cluster_loop fuel indet i g out = Some (g', out')) /\
      Hull.w g' = Hull.w g /\ Hull.h g' = Hull.h g /\ Hull.n g' = Hull.n g /\
      Hull.clusters g' = Hull.clusters g /\ Hull.clustering g' = true /\
      NoDup (Hull.points g') /\ incl (Hull.points g') (Hull.points g) /\
      (length (Hull.points g')
       + i * Z.to_nat (Z.max 1 (Hull.cluster_target g))
       = length (Hull.points g))%nat /\
      length out' = (length out + i)%nat /\
      exists new, Hull.edges g' = Hull.edges g ++ new.
Proof.
  induction i as [|i IH]; intros g out Hc Hw Hnd Hr Hs Hm.
  - exists 0%nat, g, out. repeat split; try assumption; try lia.
    + apply incl_refl.
    + exists []. now rewrite app_nil_r.
  - destruct (cluster_iter_runs indet g Hc Hw Hnd Hr Hs)
      as (f1 & g1 & r & Run1 & A1 & A2 & A3 & A4 & A5 & A6 & A7 & A8 & (new1 & A9));
      [lia|].
    assert (ET : Hull.cluster_target g1 = Hull.cluster_target g)
      by (unfold Hull.cluster_target; now rewrite A3, A4).
    destruct (IH g1 (out ++ [r]) A5)
      as (f2 & g2 & out2 & Run2 & B1 & B2 & B3 & B4 & B5 & B6 & B7 & B8 & B9 & (new2 & B10));
      [lia | assumption | exact (all_in_range_incl _ _ A7 Hr)
      | rewrite A1; exact (safe_ends_incl _ _ _ _ A7 Hs) | rewrite ET; lia |].
    exists (Nat.max f1 f2), g2, out2.
    split.
    { intros fuel Lf. cbn [Hull.cluster_loop].
      rewrite Run1 by lia. apply Run2. lia. }
    rewrite ET in B8. rewrite length_app in B9. simpl in B9.
    repeat split; try congruence; try lia.
    + eapply incl_tran; eassumption.
    + exists (new1 ++ new2). rewrite B10, A9, app_assoc. reflexivity.
Qed.

(** X8. [cluster_peel] returns when the window width is at least 0, the
    points of [global.points] are in range (coordinates of absolute value
    at most 16383) and pairwise distinct, with [minPoint] and [maxPoint]
    in range on every part of them ([safe_ends]: so it is for points
    inside the window), and there are enough of them for all the clusters
    (the number of clusters times the cluster size [n / clusters], at
    least 1).  Each cluster takes its points out of [global.points]; what
    is left are the remaining input points; one line is printed per
    cluster; edges are only added; the clustering flag is false at the
    end. *)
Theorem cluster_peel_terminates (indet : list point -> Z * Z) (g : Hull.glob)
  (Hw : 0 <= Hull.w g) (Hnd : NoDup (Hull.points g))
  (Hrange : all_in_range (Hull.points g))
  (Hends : safe_ends (Hull.w g) indet (Hull.points g))
  (Enough : (Z.to_nat (Hull.clusters g)
             * Z.to_nat (Z.max 1 (Hull.cluster_target g))
             <= length (Hull.points g))%nat) :
  exists fuel0 g' out,
    (forall fuel, (fuel0 <= fuel)%nat ->
                  Hull.cluster_peel fuel indet g = Some (g', out)) /\
    Hull.clustering g' = false /\
    length out = Z.to_nat (Hull.clusters g) /\
    (length (Hull.points g')
     + Z.to_nat (Hull.clusters g) * Z.to_nat (Z.max 1 (Hull.cluster_target g))
     = length (Hull.points g))%nat /\
    NoDup (Hull.points g') /\ incl (Hull.points g') (Hull.points g) /\
    (exists new, Hull.edges g' = Hull.edges g ++ new) /\
    Hull.w g' = Hull.w g /\ Hull.h g' = Hull.h g /\ Hull.n g' = Hull.n g /\
    Hull.clusters g' = Hull.clusters g.
Proof.
  destruct (cluster_loop_runs indet (Z.to_nat (Hull.clusters g))
              (Hull.set_clustering g true) [] eq_refl Hw Hnd Hrange Hends
              Enough)
    as (f & g1 & out & Run & A1 & A2 & A3 & A4 & A5 & A6 & A7 & A8 & A9 & A10).
  exists f, (Hull.set_clustering g1 false), out.
  split.
  { intros fuel Lf. unfold Hull.cluster_peel. now rewrite Run. }
  cbn [Hull.w Hull.h Hull.n Hull.clusters Hull.clustering Hull.points
       Hull.edges Hull.set_clustering] in *.
  change (Hull.cluster_target (Hull.set_clustering g true))
    with (Hull.cluster_target g) in A8.
  repeat split; assumption.
Qed.

Lemma cluster_peel_terminates_witness :
  exists fuel0 g' out,
    (forall fuel, (fuel0 <= fuel)%nat ->
       Hull.cluster_peel fuel indet0 square_two_clusters = Some (g', out)) /\
    Hull.clustering g' = false /\
    length out = Z.to_nat (Hull.clusters square_two_clusters) /\
    (length (Hull.points g')
     + Z.to_nat (Hull.clusters square_two_clusters)
       * Z.to_nat (Z.max 1 (Hull.cluster_target square_two_clusters))
     = length (Hull.points square_two_clusters))%nat /\
    NoDup (Hull.points g') /\
    incl (Hull.points g') (Hull.points square_two_clusters) /\
    (exists new, Hull.edges g' = Hull.edges square_two_clusters ++ new) /\
    Hull.w g' = Hull.w square_two_clusters /\
    Hull.h g' = Hull.h square_two_clusters /\
    Hull.n g' = Hull.n square_two_clusters /\
    Hull.clusters g' = Hull.clusters square_two_clusters.
Proof.
  apply (cluster_peel_terminates indet0 square_two_clusters).
  - simpl. lia.
  - repeat (apply NoDup_cons;
            [cbn; intros H;
             repeat (destruct H as [H | H]; [discriminate H|]); exact H|]).
    apply NoDup_nil.
  - range_of_list.
  - apply safe_ends_window; [range_of_list|].
    intros p Hp. simpl in Hp.
    repeat (destruct Hp as [<- | Hp]; [simpl; lia|]). destruct Hp.
  - vm_compute. lia.
Defined.

(** ** What [trisect] stores *)

Lemma splits_frame (g g0 : Tri.glob) (t : tri) (p : point) :
  same_frame g g0 -> Tri.splits g0 t p = Tri.splits g t p.
Proof.
  intros F. unfold Tri.splits. now rewrite (in_extents_frame g g0 t p F).
Qed.

Lemma leaf_of_sub (g g0 : Tri.glob) (t sub t' : tri) :
  same_frame g g0 ->
  (forall v, In v (vertices_of sub) ->
             In v (vertices_of t) \/ In v (Tri.points g)) ->
  leaf_of g0 sub t' -> leaf_of g t t'.
Proof.
  intros F Hsub [L1 L2]. pose proof F as (_ & _ & Ep & _). split.
  - intros v Hv. destruct (L1 v Hv) as [H | H]; [now apply Hsub|].
    right. now rewrite <- Ep.
  - intros p Hp. rewrite <- (splits_frame g g0 t' p F). apply L2.
    now rewrite Ep.
Qed.

(** Every call of [trisect] that returns has pushed at least one triangle
    behind those that were there, and only triangles in the sense of
    [leaf_of]. *)
Lemma trisect_grows (fuel : nat) :
  forall g t g',
    Tri.trisect fuel g t = Some g' ->
    same_frame g g' /\
    exists new,
      Tri.tris g' = Tri.tris g ++ new /\ new <> [] /\
      Forall (leaf_of g t) new.
Proof.
  induction fuel as [|fuel IH]; intros g t g' H; [discriminate|].
  split; [exact (trisect_frame _ _ _ _ H)|].
  simpl Tri.trisect in H.
  rewrite (scan_as_filter fuel t g (Tri.points g) false g (same_frame_refl g))
    in H.
  destruct (filter (Tri.splits g t) (Tri.points g)) as [|c cands] eqn:E.
  - rewrite (filter_nil_existsb _ _ E) in H. simpl in H.
    inversion H; subst g'. clear H. exists [t]. simpl.
    split; [reflexivity|]. split; [discriminate|].
    constructor; [|constructor]. split; [auto|].
    intros p Hp. destruct (Tri.splits g t p) eqn:S; [|reflexivity].
    assert (Hin : In p (filter (Tri.splits g t) (Tri.points g)))
      by (apply filter_In; auto).
    rewrite E in Hin. destruct Hin.
  - assert (Hc : forall p, In p (c :: cands) -> In p (Tri.points g)).
    { intros p Hp. rewrite <- E in Hp. apply filter_In in Hp. tauto. }
    rewrite (filter_cons_existsb _ _ _ _ E) in H.
    assert (H' : subdivide_all fuel t g (c :: cands) = Some g').
    { destruct (subdivide_all fuel t g (c :: cands)); [|discriminate].
      simpl in H. now inversion H. }
    clear H E.
    assert (Gen : forall l g0 g1,
              (forall p, In p l -> In p (Tri.points g)) ->
              same_frame g g0 ->
              subdivide_all fuel t g0 l = Some g1 ->
              same_frame g g1 /\
              exists new,
                Tri.tris g1 = Tri.tris g0 ++ new /\
                (l <> [] -> new <> []) /\ Forall (leaf_of g t) new).
    { induction l as [|p l IHl]; intros g0 g1 Hl F0 Hs.
      - inversion Hs; subst. split; [assumption|]. exists [].
        rewrite app_nil_r. split; [reflexivity|]. split; [tauto | constructor].
      - unfold subdivide_all in Hs. cbn [fold_left] in Hs.
        destruct (subdivide_at fuel t g0 p) as [g3|] eqn:S3;
          [|rewrite subdivide_all_none in Hs; discriminate].
        fold (subdivide_all fuel t g3 l) in Hs.
        unfold subdivide_at in S3.
        destruct (Tri.trisect fuel g0 _) as [ga|] eqn:Ea; [|discriminate].
        destruct (Tri.trisect fuel ga _) as [gb|] eqn:Eb; [|discriminate].
        destruct (IH _ _ _ Ea) as (Fa & na & Ta & Na & La).
        destruct (IH _ _ _ Eb) as (Fb & nb & Tb & Nb & Lb).
        destruct (IH _ _ _ S3) as (Fc & nc & Tc & Nc & Lc).
        assert (Fga : same_frame g ga) by exact (same_frame_trans _ _ _ F0 Fa).
        assert (Fgb : same_frame g gb) by exact (same_frame_trans _ _ _ Fga Fb).
        assert (Fg3 : same_frame g g3) by exact (same_frame_trans _ _ _ Fgb Fc).
        assert (Pin : In p (Tri.points g)) by (apply Hl; now left).
        destruct (IHl g3 g1 (fun q Hq => Hl q (or_intror Hq)) Fg3 Hs)
          as (F1 & nl & Tl & _ & Ll).
        split; [assumption|].
        exists (na ++ nb ++ nc ++ nl). split.
        { now rewrite Tl, Tc, Tb, Ta, <- !app_assoc. }
        split.
        { intros _ Hnil. apply app_eq_nil in Hnil. destruct Hnil. contradiction. }
        rewrite !Forall_app. repeat split.
        + eapply Forall_impl; [|exact La]. intros t'.
          apply (leaf_of_sub g g0); [assumption|].
          unfold vertices_of. simpl. intuition (subst; auto).
        + eapply Forall_impl; [|exact Lb]. intros t'.
          apply (leaf_of_sub g ga); [assumption|].
          unfold vertices_of. simpl. intuition (subst; auto).
        + eapply Forall_impl; [|exact Lc]. intros t'.
          apply (leaf_of_sub g gb); [assumption|].
          unfold vertices_of. simpl. intuition (subst; auto).
        + assumption. }
    destruct (Gen _ _ _ Hc (same_frame_refl g) H') as (_ & new & T & N & L).
    exists new. split; [assumption|]. split; [apply N; discriminate | assumption].
Qed.

(** X9. A call of [trisect] that returns has written [global.tris] only;
    it has removed or changed no triangle, and pushed at least one behind
    those that were there.  The vertices of every triangle it pushed are
    vertices of the triangle of the call or points of [global.points], and
    no point of [global.points] passes the three tests of the scan against
    a triangle it pushed. *)
Theorem trisect_pushes_leaves (fuel : nat) (g : Tri.glob) (t : tri)
  (g' : Tri.glob) (Returns : Tri.trisect fuel g t = Some g') :
  same_frame g g' /\
  exists new,
    Tri.tris g' = Tri.tris g ++ new /\ new <> [] /\
    forall t', In t' new -> leaf_of g t t'.
Proof.
  destruct (trisect_grows fuel g t g' Returns) as (F & new & T & N & L).
  split; [exact F|]. exists new. rewrite Forall_forall in L. auto.
Qed.

Lemma trisect_pushes_leaves_witness :
  exists g',
    Tri.trisect 10 two_inside two_inside_t = Some g' /\
    same_frame two_inside g' /\
    exists new,
      Tri.tris g' = Tri.tris two_inside ++ new /\ new <> [] /\
      forall t', In t' new -> leaf_of two_inside two_inside_t t'.
Proof.
  destruct (Tri.trisect 10 two_inside two_inside_t) as [g'|] eqn:E;
    [|vm_compute in E; discriminate].
  exists g'. split; [reflexivity|].
  exact (trisect_pushes_leaves 10 two_inside two_inside_t g' E).
Defined.

(** ** Points on the first side of a triangle *)

Section ScanHit.

Variable rec : Tri.glob -> tri -> option Tri.glob.
Hypothesis rec_frame : forall g t g', rec g t = Some g' -> same_frame g g'.
Variable g : Tri.glob.
Variable t : tri.
Variable r : point.
Hypothesis r_no_vertex : Tri.is_vertex r t = false.
Hypothesis r_in_extents : forall g0, Tri.in_extents g0 t r = true.
Hypothesis r_passes : Tri.point_in_triangle r t = true.
Hypothesis r_never :
  forall g0, same_frame g g0 -> rec g0 (mkTri (t_p1 t) (t_p2 t) r) = None.

(** A scan that reaches [r] makes the call for the first triangle on [r],
    which does not return. *)
Lemma scan_hit (l : list point) :
  In r l ->
  forall st,
    (forall b g0, st = Some (b, g0) -> same_frame g g0) ->
    fold_left (Tri.trisect_body rec t) l st = None.
Proof.
  induction l as [|p l IH]; intros Hin st Hst; [destruct Hin|].
  cbn [fold_left].
  destruct st as [[b g0]|]; [|apply scan_none].
  specialize (Hst b g0 eq_refl).
  destruct (point_eq_dec p r) as [-> | Np].
  - unfold Tri.trisect_body.
    rewrite r_no_vertex, r_in_extents, r_passes, (r_never g0 Hst).
    apply scan_none.
  - destruct Hin as [E | Hin]; [contradiction|].
    apply IH; [assumption|].
    intros b1 g1 E1.
    apply (same_frame_trans _ _ _ Hst).
    apply (body_frame rec rec_frame t b b1 g0 g1 p E1).
Qed.

End ScanHit.

Lemma segment_in_extents (g0 : Tri.glob) (a b s r : point) :
  on_segment a b r -> Tri.in_extents g0 (mkTri a b s) r = true.
Proof.
  intros (_ & Hx & Hy).
  cbv [Tri.in_extents Tri.extents t_p1 t_p2 t_p3].
  rewrite !andb_true_iff, !Z.geb_le, !Z.leb_le.
  repeat split; [clear Hy | clear Hy | clear Hx | clear Hx]; lia.
Qed.

(** A triangle whose first side carries two further points of
    [global.points]: [trisect] calls itself on the first side and the one
    point, then on the first side and the other, and so on without end. *)
Lemma trisect_side_loops (a b p q : point) (fuel : nat) :
  forall g s,
    In p (Tri.points g) -> In q (Tri.points g) -> p <> q ->
    p <> a -> p <> b -> q <> a -> q <> b ->
    on_segment a b p -> on_segment a b q ->
    Tri.trisect fuel g (mkTri a b s) = None.
Proof.
  induction fuel as [|fuel IH];
    intros g s Hp Hq Npq Npa Npb Nqa Nqb Sp Sq; [reflexivity|].
  assert (Pick : exists r, In r (Tri.points g) /\ r <> a /\ r <> b /\ r <> s /\
                           on_segment a b r).
  { destruct (point_eq_dec p s) as [E | N].
    - exists q. subst s. repeat split; auto; apply Sq.
    - exists p. repeat split; auto; apply Sp. }
  destruct Pick as (r & Hr & Nra & Nrb & Nrs & Sr).
  cbn [Tri.trisect].
  rewrite (scan_hit (Tri.trisect fuel) (trisect_frame fuel) g (mkTri a b s) r);
    [reflexivity | | | | | assumption |].
  - unfold Tri.is_vertex. cbn [t_p1 t_p2 t_p3].
    now rewrite !same_point_neq.
  - intros g0. now apply segment_in_extents.
  - apply point_in_triangle_on_first_line, score_zero_dist. apply Sr.
  - intros g0 (_ & _ & Ep & _). cbn [t_p1 t_p2].
    apply IH; try assumption; now rewrite Ep.
  - intros b0 g0 E. inversion E. apply same_frame_refl.
Qed.

(** X10. [trisect] does not return on a triangle whose first side carries
    two further points of [global.points] (on the segment, ends excluded):
    [point_in_triangle] accepts every point on the line of the first side,
    so the call on the side and one of the points recurses on the side and
    the other, which recurses on the side and the first again. *)
Theorem trisect_collinear_side_diverges (g : Tri.glob) (a b s p q : point)
  (Hp : In p (Tri.points g)) (Hq : In q (Tri.points g)) (Npq : p <> q)
  (Npa : p <> a) (Npb : p <> b) (Nqa : q <> a) (Nqb : q <> b)
  (Sp : on_segment a b p) (Sq : on_segment a b q) :
  forall fuel, Tri.trisect fuel g (mkTri a b s) = None.
Proof.
  intros fuel. now apply (trisect_side_loops a b p q).
Qed.

Lemma trisect_collinear_side_diverges_witness :
  Tri.trisect 100 side_points
    (mkTri (mkPoint 0 0) (mkPoint 0 15) (mkPoint 9 9)) = None.
Proof.
  refine (trisect_collinear_side_diverges side_points
            (mkPoint 0 0) (mkPoint 0 15) (mkPoint 9 9)
            (mkPoint 0 5) (mkPoint 0 10) _ _ _ _ _ _ _ _ _ 100%nat);
    try discriminate;
    try (simpl; tauto);
    (unfold on_segment, score; cbn; lia).
Defined.

(** ** Loops over index ranges *)

Lemma int_range_In (lo hi k : Z) : In k (int_range lo hi) <-> lo <= k < hi.
Proof.
  unfold int_range. rewrite in_map_iff. split.
  - intros (i & <- & Hi). apply in_seq in Hi. lia.
  - intros H. exists (Z.to_nat (k - lo)). split; [lia|].
    apply in_seq. lia.
Qed.

Lemma int_range_length (lo hi : Z) :
  length (int_range lo hi) = Z.to_nat (hi - lo).
Proof. unfold int_range. now rewrite length_map, length_seq. Qed.

Lemma int_range_cons (lo hi : Z) :
  lo < hi -> int_range lo hi = lo :: int_range (lo + 1) hi.
Proof.
  intros H. unfold int_range.
  replace (Z.to_nat (hi - lo)) with (S (Z.to_nat (hi - (lo + 1)))) by lia.
  cbn [seq map]. f_equal; [lia|].
  rewrite <- seq_shift, map_map. apply map_ext. intros k. lia.
Qed.

Lemma int_range_snoc (lo hi : Z) :
  lo < hi -> int_range lo hi = int_range lo (hi - 1) ++ [hi - 1].
Proof.
  intros H. unfold int_range.
  replace (Z.to_nat (hi - lo)) with (Z.to_nat (hi - 1 - lo) + 1)%nat by lia.
  rewrite seq_app, map_app. cbn [seq map]. do 2 f_equal. lia.
Qed.

Lemma int_range_NoDup (lo hi : Z) : NoDup (int_range lo hi).
Proof.
  unfold int_range. apply Finite.Injective_map_NoDup; [|apply seq_NoDup].
  intros a b. lia.
Qed.

(** The nested loops push the rows one after the other. *)
Lemma push_grid_rows (f : Z -> Z -> point) (ys : list Z) (xs : list Z) :
  forall acc,
    push_grid f xs ys acc = acc ++ flat_map (fun x => map (f x) ys) xs.
Proof.
  assert (Row : forall x l acc,
            fold_left (fun a y => a ++ [f x y]) l acc = acc ++ map (f x) l).
  { intros x l. induction l as [|y l IH]; intros acc; simpl.
    - now rewrite app_nil_r.
    - rewrite IH, <- app_assoc. reflexivity. }
  unfold push_grid. induction xs as [|x xs IH]; intros acc; simpl.
  - now rewrite app_nil_r.
  - rewrite IH, Row, <- app_assoc. reflexivity.
Qed.

Lemma push_grid_In (f : Z -> Z -> point) (xs ys : list Z) (acc : list point)
  (p : point) :
  In p (push_grid f xs ys acc)
  <-> In p acc \/ exists x y, In x xs /\ In y ys /\ p = f x y.
Proof.
  rewrite push_grid_rows, in_app_iff, in_flat_map. split.
  - intros [H | (x & Hx & H)]; [now left | right].
    apply in_map_iff in H. destruct H as (y & <- & Hy). eauto.
  - intros [H | (x & y & Hx & Hy & ->)]; [now left | right].
    exists x. split; [assumption|]. now apply in_map.
Qed.

Lemma push_grid_length (f : Z -> Z -> point) (xs ys : list Z)
  (acc : list point) :
  length (push_grid f xs ys acc) = (length acc + length xs * length ys)%nat.
Proof.
  rewrite push_grid_rows, length_app. f_equal.
  induction xs as [|x xs IH]; [reflexivity|].
  cbn [flat_map length]. rewrite length_app, length_map, IH. lia.
Qed.

(** ** Which point a scan keeps among equals *)

Lemma hull_scan_stable (p1 p2 : point) (l : list point) :
  forall pMax maxD,
    (forall r, In r l -> dist p1 p2 r <= maxD) ->
    fold_left (hull_scan_step p1 p2) l (pMax, maxD) = (pMax, maxD).
Proof.
  induction l as [|p l IH]; intros pMax maxD H; [reflexivity|].
  cbn [fold_left hull_scan_step].
  destruct (negb (same_point p p1 || same_point p p2)).
  - destruct (Z.gtb_spec (dist p1 p2 p) maxD) as [G | G].
    + specialize (H p (or_introl eq_refl)). lia.
    + apply IH. intros r Hr. apply H. now right.
  - apply IH. intros r Hr. apply H. now right.
Qed.

(** The scan of [quick_hull] keeps the first point with the greatest
    score. *)
Lemma hull_scan_first (p1 p2 m : point) (l1 l2 : list point) :
  m <> p1 -> m <> p2 -> 0 < dist p1 p2 m ->
  (forall r, In r l1 -> dist p1 p2 r < dist p1 p2 m) ->
  (forall r, In r l2 -> dist p1 p2 r <= dist p1 p2 m) ->
  hull_scan (l1 ++ m :: l2) p1 p2 = (m, dist p1 p2 m).
Proof.
  intros N1 N2 Pos H1 H2. unfold hull_scan. rewrite fold_left_app.
  destruct (hull_scan_inv p1 p2 l1 [] (mkPoint 0 0) 0)
    as (I1 & I2 & _); [lia | now left | intros r [] |].
  destruct (fold_left (hull_scan_step p1 p2) l1 (mkPoint 0 0, 0))
    as [pm md]. cbn [fst snd app] in I1, I2.
  assert (Lt : md < dist p1 p2 m).
  { destruct I2 as [-> | [Hin <-]]; [assumption | now apply H1]. }
  cbn [fold_left hull_scan_step].
  rewrite (same_point_neq m p1 N1), (same_point_neq m p2 N2). cbn [orb negb].
  destruct (Z.gtb_spec (dist p1 p2 m) md); [|lia].
  now apply hull_scan_stable.
Qed.

Lemma minmax_split (l : list point) :
  forall A0 B0,
    fold_left minmax_step l (A0, B0)
    = (fold_left (fun m p => if px p <? px m then p else m) l A0,
       fold_left (fun m p => if px p >? px m then p else m) l B0).
Proof.
  induction l as [|p l IH]; intros A0 B0; [reflexivity|].
  cbn [fold_left minmax_step]. apply IH.
Qed.

Lemma min_scan_stable (l : list point) (m : point) :
  (forall r, In r l -> px m <= px r) ->
  fold_left (fun m p => if px p <? px m then p else m) l m = m.
Proof.
  revert m. induction l as [|p l IH]; intros m H; [reflexivity|].
  cbn [fold_left]. destruct (Z.ltb_spec (px p) (px m)) as [L | L].
  - specialize (H p (or_introl eq_refl)). lia.
  - apply IH. intros r Hr. apply H. now right.
Qed.

Lemma max_scan_stable (l : list point) (m : point) :
  (forall r, In r l -> px r <= px m) ->
  fold_left (fun m p => if px p >? px m then p else m) l m = m.
Proof.
  revert m. induction l as [|p l IH]; intros m H; [reflexivity|].
  cbn [fold_left]. destruct (Z.gtb_spec (px p) (px m)) as [L | L].
  - specialize (H p (or_introl eq_refl)). lia.
  - apply IH. intros r Hr. apply H. now right.
Qed.

Lemma max_scan_below (c : Z) (l : list point) :
  forall m,
    px m < c -> (forall r, In r l -> px r < c) ->
    px (fold_left (fun m p => if px p >? px m then p else m) l m) < c.
Proof.
  induction l as [|p l IH]; intros m Hm H; [assumption|].
  cbn [fold_left]. apply IH.
  - destruct (px p >? px m); [apply H; now left | assumption].
  - intros r Hr. apply H. now right.
Qed.

Lemma min_scan_above (c : Z) (l : list point) :
  forall m,
    c < px m -> (forall r, In r l -> c < px r) ->
    c < px (fold_left (fun m p => if px p <? px m then p else m) l m).
Proof.
  induction l as [|p l IH]; intros m Hm H; [assumption|].
  cbn [fold_left]. apply IH.
  - destruct (px p <? px m); [apply H; now left | assumption].
  - intros r Hr. apply H. now right.
Qed.

(** [minPoint] is the first point with the least x-coordinate, when that
    is below the window width; [maxPoint] is the first point with the
    greatest x-coordinate, when that is above -1. *)
Lemma minmax_first (w : Z) (indet : list point -> Z * Z) (pts : list point)
  (A B : point) (la1 la2 lb1 lb2 : list point) :
  pts = la1 ++ A :: la2 -> pts = lb1 ++ B :: lb2 ->
  px A < w -> -1 < px B ->
  (forall r, In r la1 -> px A < px r) -> (forall r, In r la2 -> px A <= px r) ->
  (forall r, In r lb1 -> px r < px B) -> (forall r, In r lb2 -> px r <= px B) ->
  minmax w indet pts = (A, B).
Proof.
  intros Ea Eb Aw Bw A1 A2 B1 B2. unfold minmax. rewrite minmax_split.
  f_equal.
  - rewrite Ea at 1. rewrite fold_left_app. cbn [fold_left].
    pose proof (min_scan_above (px A) la1 (mkPoint w (fst (indet pts))) Aw A1)
      as Hm.
    destruct (Z.ltb_spec (px A)
                (px (fold_left (fun m p => if px p <? px m then p else m) la1
                       (mkPoint w (fst (indet pts)))))); [|lia].
    now apply min_scan_stable.
  - rewrite Eb at 1. rewrite fold_left_app. cbn [fold_left].
    pose proof (max_scan_below (px B) lb1 (mkPoint (-1) (snd (indet pts))) Bw B1)
      as Hm.
    destruct (Z.gtb_spec (px B)
                (px (fold_left (fun m p => if px p >? px m then p else m) lb1
                       (mkPoint (-1) (snd (indet pts)))))); [|lia].
    now apply max_scan_stable.
Qed.

(** The first edge that a call of [quick_hull] pushes when the point it
    splits at gives a base case with its first point. *)
Lemma chain_first (pts : list point) (p q m : point) (d : Z) (c : list edge) :
  hull_chain pts p q c ->
  hull_scan pts p q = (m, d) -> d <> 0 ->
  snd (hull_scan pts p m) = 0 ->
  exists rest, c = mkEdge p m :: rest.
Proof.
  intros C S N Z0. inversion C as [? ? E | ? ? c1 c2 _ C1 _]; subst.
  - rewrite S in E. contradiction.
  - rewrite S in C1. cbn [fst] in C1.
    inversion C1 as [? ? _ | ? ? c11 c12 N1 _ _]; subst.
    + exists c2. reflexivity.
    + contradiction.
Qed.

(** ** The lattice of the triangulation program *)

(** The points of the lattice: [n] columns of [n] points. *)
Lemma lattice_points (g : TriApp.glob) :
  Tri.points (TriApp.core (TriApp.lattice g))
  = flat_map (fun i => map (fun j => mkPoint (i * 5) (j * 5))
                         (int_range 0 (Tri.n (TriApp.core g))))
      (int_range 0 (Tri.n (TriApp.core g))).
Proof.
  cbn [TriApp.lattice TriApp.core TriApp.set_core TriApp.fresh_points Tri.points].
  now rewrite push_grid_rows.
Qed.

Lemma lattice_In (g : TriApp.glob) (p : point) :
  In p (Tri.points (TriApp.core (TriApp.lattice g)))
  <-> exists i j, 0 <= i < Tri.n (TriApp.core g) /\
                  0 <= j < Tri.n (TriApp.core g) /\ p = mkPoint (i * 5) (j * 5).
Proof.
  cbn [TriApp.lattice TriApp.core TriApp.set_core TriApp.fresh_points Tri.points].
  rewrite push_grid_In. split.
  - intros [[] | (i & j & Hi & Hj & ->)].
    apply int_range_In in Hi, Hj. eauto.
  - intros (i & j & Hi & Hj & ->). right. exists i, j.
    rewrite !int_range_In. auto.
Qed.

Lemma lattice_length (g : TriApp.glob) :
  length (Tri.points (TriApp.core (TriApp.lattice g)))
  = (Z.to_nat (Tri.n (TriApp.core g)) * Z.to_nat (Tri.n (TriApp.core g)))%nat.
Proof.
  cbn [TriApp.lattice TriApp.core TriApp.set_core TriApp.fresh_points Tri.points].
  rewrite push_grid_length, !int_range_length, Z.sub_0_r. reflexivity.
Qed.

(** The hull of the lattice starts with the edge from [(0,0)] up the first
    column to [(0, 5(n-1))]. *)
Lemma lattice_first_edge (g : TriApp.glob) (fuel : nat)
  (indet : list point -> Z * Z) (es : list edge) :
  2 <= Tri.n (TriApp.core g) <= 9269 -> 0 < Tri.w (TriApp.core g) ->
  hull_edges fuel (Tri.w (TriApp.core g)) indet
    (Tri.points (TriApp.core (TriApp.lattice g))) [] = Some es ->
  exists rest,
    es = mkEdge (mkPoint 0 0) (mkPoint 0 ((Tri.n (TriApp.core g) - 1) * 5))
         :: rest.
Proof.
  intros Hn Hw.
  set (n := Tri.n (TriApp.core g)) in *.
  set (pts := Tri.points (TriApp.core (TriApp.lattice g))).
  set (L := (n - 1) * 5).
  set (col := fun i => map (fun j => mkPoint (i * 5) (j * 5)) (int_range 0 n)).
  assert (Epts : pts = flat_map col (int_range 0 n)) by apply lattice_points.
  assert (Hin : forall p, In p pts ->
                exists i j, 0 <= i < n /\ 0 <= j < n /\ p = mkPoint (i * 5) (j * 5))
    by (intros p Hp; now apply lattice_In).
  (* the first column, and the columns after it *)
  assert (Ecol0 : col 0 = mkPoint 0 0
                          :: map (fun j => mkPoint (0 * 5) (j * 5))
                               (int_range 1 (n - 1))
                          ++ [mkPoint 0 L]).
  { unfold col. rewrite (int_range_snoc 0 n) by lia.
    rewrite (int_range_cons 0 (n - 1)) by lia.
    cbn [map app]. rewrite map_app. reflexivity. }
  assert (E1 : pts = [] ++ mkPoint 0 0
                     :: (map (fun j => mkPoint (0 * 5) (j * 5))
                           (int_range 1 (n - 1))
                         ++ [mkPoint 0 L])
                        ++ flat_map col (int_range 1 n)).
  { rewrite Epts, (int_range_cons 0 n) by lia. cbn [flat_map].
    rewrite Ecol0. reflexivity. }
  assert (E2 : pts = flat_map col (int_range 0 (n - 1))
                     ++ mkPoint L 0
                        :: map (fun j => mkPoint ((n - 1) * 5) (j * 5))
                             (int_range 1 n)).
  { rewrite Epts, (int_range_snoc 0 n) by lia.
    rewrite flat_map_app. cbn [flat_map]. rewrite app_nil_r. f_equal.
    unfold col. rewrite (int_range_cons 0 n) by lia. reflexivity. }
  assert (E3 : pts = (mkPoint 0 0
                      :: map (fun j => mkPoint (0 * 5) (j * 5))
                           (int_range 1 (n - 1)))
                     ++ mkPoint 0 L :: flat_map col (int_range 1 n)).
  { rewrite E1. cbn [app]. rewrite <- app_assoc. reflexivity. }
  assert (MM : minmax (Tri.w (TriApp.core g)) indet pts
               = (mkPoint 0 0, mkPoint L 0)).
  { apply (minmax_first _ _ _ _ _ _ _ _ _ E1 E2); cbn [px].
    - exact Hw.
    - unfold L. lia.
    - intros r [].
    - intros r Hr.
      assert (Hr' : In r pts) by (rewrite E1; right; exact Hr).
      destruct (Hin r Hr') as (i & j & Hi & Hj & ->). cbn [px]. lia.
    - intros r Hr. apply in_flat_map in Hr. destruct Hr as (i & Hi & Hr).
      apply int_range_In in Hi. unfold col in Hr. apply in_map_iff in Hr.
      destruct Hr as (j & <- & _). cbn [px]. unfold L. lia.
    - intros r Hr. apply in_map_iff in Hr. destruct Hr as (j & <- & _).
      cbn [px]. unfold L. lia. }
  assert (Lpos : 5 <= L) by (unfold L; lia).
  assert (LL : L * L < 2 ^ 31) by (unfold L; int_bounds; nia).
  assert (D1 : forall x y,
            0 <= y <= L ->
            dist (mkPoint 0 0) (mkPoint L 0) (mkPoint x y) = L * y).
  { intros x y Hy. rewrite dist_wrap.
    replace (score (mkPoint 0 0) (mkPoint L 0) (mkPoint x y)) with (L * y)
      by (unfold score; cbn [px py]; ring).
    apply wrap_small. int_bounds. nia. }
  assert (D2 : forall x y,
            0 <= x <= L ->
            dist (mkPoint 0 0) (mkPoint 0 L) (mkPoint x y) = - L * x).
  { intros x y Hx. rewrite dist_wrap.
    replace (score (mkPoint 0 0) (mkPoint 0 L) (mkPoint x y)) with (- L * x)
      by (unfold score; cbn [px py]; ring).
    apply wrap_small. int_bounds. nia. }
  assert (S1 : hull_scan pts (mkPoint 0 0) (mkPoint L 0)
               = (mkPoint 0 L, L * L)).
  { rewrite <- (D1 0 L) by lia. rewrite E3. apply hull_scan_first.
    - intros E. inversion E. lia.
    - intros E. inversion E. lia.
    - rewrite D1 by lia. nia.
    - intros r [<- | Hr].
      + rewrite !D1 by lia. nia.
      + apply in_map_iff in Hr. destruct Hr as (j & <- & Hj).
        apply int_range_In in Hj. rewrite !D1 by (unfold L; lia).
        unfold L in *. nia.
    - intros r Hr.
      assert (Hr' : In r pts).
      { rewrite E3. apply in_or_app. right. right. exact Hr. }
      destruct (Hin r Hr') as (i & j & Hi & Hj & ->).
      rewrite !D1 by (unfold L; lia). unfold L in *. nia. }
  assert (S2 : snd (hull_scan pts (mkPoint 0 0) (mkPoint 0 L)) = 0).
  { destruct (hull_scan_spec pts (mkPoint 0 0) (mkPoint 0 L))
      as (H0 & [Hz | [Hi Hd]] & _); [assumption|].
    destruct (Hin _ Hi) as (i & j & Hi' & Hj' & E).
    rewrite E, D2 in Hd by (unfold L; lia). nia. }
  unfold hull_edges. fold pts. rewrite MM.
  destruct (length pts <? 3)%nat eqn:Len.
  { apply Nat.ltb_lt in Len. unfold pts in Len.
    rewrite lattice_length in Len. fold n in Len. nia. }
  destruct (quick_hull fuel pts (mkPoint 0 0) (mkPoint L 0) [])
    as [es1|] eqn:Q1; [|discriminate].
  intros Q2.
  apply quick_hull_chain in Q1, Q2.
  destruct Q1 as (c1 & -> & C1), Q2 as (c2 & -> & _).
  destruct (chain_first pts _ _ _ _ _ C1 S1) as (rest & ->).
  - nia.
  - exact S2.
  - exists (rest ++ c2). reflexivity.
Qed.

(** X11. [lattice] followed by [triangulation] does not return, for every
    [n] from 4 to 9269 (beyond which the scores of the lattice points no
    longer fit an [int]) and every window of positive width: the hull of the
    lattice starts with the edge from [(0,0)] to [(0, 5(n-1))] up the first
    column, which carries the lattice points [(0,5)] and [(0,10)], and
    [trisect] does not return on a triangle with that side.  This is so
    for the key [L] followed by the key [T] as well. *)
Theorem lattice_triangulation_never_returns (g : TriApp.glob)
  (H4 : 4 <= Tri.n (TriApp.core g) <= 9269)
  (Hw : 0 < Tri.w (TriApp.core g)) :
  forall fuel indet,
    Tri.triangulation fuel indet (TriApp.core (TriApp.lattice g)) = None /\
    forall shuffle x y,
      TriApp.keyboard fuel indet shuffle "L" x y g
      = Some (Running (TriApp.lattice g)) /\
      TriApp.keyboard fuel indet shuffle "T" x y (TriApp.lattice g) = None.
Proof.
  intros fuel indet.
  assert (T : Tri.triangulation fuel indet (TriApp.core (TriApp.lattice g))
              = None).
  { set (n := Tri.n (TriApp.core g)) in *.
    set (c := TriApp.core (TriApp.lattice g)).
    assert (Ha : In (mkPoint 0 5) (Tri.points c)).
    { apply lattice_In. exists 0, 1. fold n. repeat split; lia. }
    assert (Hb : In (mkPoint 0 10) (Tri.points c)).
    { apply lattice_In. exists 0, 2. fold n. repeat split; lia. }
    unfold Tri.triangulation.
    destruct (length (Tri.points c) <? 3)%nat eqn:Len.
    { exfalso. apply Nat.ltb_lt in Len. unfold c in Len.
      rewrite lattice_length in Len. fold n in Len. nia. }
    unfold Tri.convex_hull.
    cbn [Tri.w Tri.points Tri.edges Tri.set_tris].
    destruct (hull_edges fuel (Tri.w c) indet (Tri.points c) (Tri.edges c))
      as [es|] eqn:Hull; [|reflexivity].
    assert (Ee : Tri.edges c = []) by reflexivity.
    assert (Ew : Tri.w c = Tri.w (TriApp.core g)) by reflexivity.
    rewrite Ee, Ew in Hull.
    destruct (lattice_first_edge g fuel indet es) as (rest & ->);
      [lia | assumption | exact Hull |].
    destruct (Tri.find_mid _) as [pMid0 minD].
    cbn [Tri.edges Tri.set_edges e_p1].
    assert (Loop : forall pMid gx,
              Tri.points gx = Tri.points c ->
              Tri.trisect_edges fuel gx pMid
                (mkEdge (mkPoint 0 0) (mkPoint 0 ((n - 1) * 5)) :: rest) = None).
    { intros pMid gx Ex. cbn [Tri.trisect_edges e_p1 e_p2].
      rewrite (trisect_side_loops (mkPoint 0 0) (mkPoint 0 ((n - 1) * 5))
                 (mkPoint 0 5) (mkPoint 0 10) fuel gx pMid);
        try reflexivity; try (rewrite Ex; assumption);
        try (intros E; inversion E; lia);
        (unfold on_segment, score; cbn [px py]; lia). }
    destruct (minD =? Tri.INT_MAX); rewrite Loop; reflexivity. }
  split; [exact T|].
  intros shuffle x y. split; [reflexivity|].
  unfold TriApp.keyboard.
  change (Ascii.eqb "T" "027") with false.
  change (Ascii.eqb "T" "q") with false. change (Ascii.eqb "T" "Q") with false.
  change (Ascii.eqb "T" "r") with false. change (Ascii.eqb "T" "R") with false.
  change (Ascii.eqb "T" "m") with false. change (Ascii.eqb "T" "M") with false.
  change (Ascii.eqb "T" "t") with false. change (Ascii.eqb "T" "T") with true.
  cbn [orb]. rewrite T. reflexivity.
Qed.

Lemma lattice_triangulation_never_returns_witness :
  Tri.triangulation 100 indet0
    (TriApp.core (TriApp.lattice default_triangulation)) = None.
Proof.
  refine (proj1 (lattice_triangulation_never_returns default_triangulation
                   _ _ 100%nat indet0)).
  - simpl. lia.
  - simpl. lia.
Defined.

(** ** What [triangulation] leaves behind *)

Lemma trisect_edges_grows (fuel : nat) (pMid : point) (es : list edge) :
  forall g g',
    Tri.trisect_edges fuel g pMid es = Some g' ->
    same_frame g g' /\
    (length (Tri.tris g) + length es <= length (Tri.tris g'))%nat.
Proof.
  induction es as [|e es IH]; intros g g' H; cbn [Tri.trisect_edges] in H.
  - inversion H; subst. split; [apply same_frame_refl | simpl; lia].
  - destruct (Tri.trisect fuel g _) as [g1|] eqn:E; [|discriminate].
    destruct (trisect_grows _ _ _ _ E) as (F1 & new & T & N & _).
    destruct (IH _ _ H) as (F2 & L).
    split; [exact (same_frame_trans _ _ _ F1 F2)|].
    rewrite T, length_app in L. cbn [length].
    destruct new; [contradiction | simpl in L; lia].
Qed.

Lemma try_flip_count (t1 t2 : tri) (s1 s2 a b : point) (d1 : Z) :
  fst (fst (Tri.try_flip t1 t2 s1 s2 a b d1)) = false ->
  Tri.try_flip t1 t2 s1 s2 a b d1 = (false, t1, t2).
Proof.
  unfold Tri.try_flip. destruct (Tri.same_sign _ _); [reflexivity|].
  destruct (int_abs _ <? int_abs d1); [discriminate | reflexivity].
Qed.

Lemma cleanup_inner_count (ts : list tri) :
  forall t1 cnt,
    cnt <= snd (Tri.cleanup_inner ts t1 cnt) <= cnt + Z.of_nat (length ts).
Proof.
  unfold Tri.cleanup_inner.
  induction ts as [|t2 ts IH]; intros t1 cnt; cbn [fold_left length snd].
  - lia.
  - destruct (Tri.check_shared_edge t1 t2) as [[flipped t1'] t2'].
    destruct flipped.
    + specialize (IH t1' (cnt + 1)). lia.
    + specialize (IH t1' cnt). lia.
Qed.

Lemma tri_cleanup_count (g : Tri.glob) :
  0 <= snd (Tri.tri_cleanup g)
  <= Z.of_nat (length (Tri.tris g)) * Z.of_nat (length (Tri.tris g)).
Proof.
  unfold Tri.tri_cleanup. cbn [snd].
  assert (G : forall l cnt,
            cnt <= fold_left (fun c t1 => snd (Tri.cleanup_inner (Tri.tris g) t1 c))
                     l cnt
            <= cnt + Z.of_nat (length l) * Z.of_nat (length (Tri.tris g))).
  { induction l as [|t1 l IH]; intros cnt; cbn [fold_left length].
    - lia.
    - pose proof (cleanup_inner_count (Tri.tris g) t1 cnt) as C.
      specialize (IH (snd (Tri.cleanup_inner (Tri.tris g) t1 cnt))). nia. }
  specialize (G (Tri.tris g) 0). lia.
Qed.

(** X12. A run of [triangulation] that returns: with fewer than three
    points it changes and prints nothing; otherwise [global.points] and
    [global.edges] are empty at the end, so that the line "Number of
    points" always shows 0, the number of triangles printed is the size of
    [global.tris], which holds at least two triangles (one or more for
    each hull edge, none from before the call), and the number of cleaned
    triangles printed lies between 0 and the square of that size. *)
Theorem triangulation_leaves (fuel : nat) (indet : list point -> Z * Z)
  (g g' : Tri.glob) (out : option Tri.summary)
  (Returns : Tri.triangulation fuel indet g = Some (g', out)) :
  ((length (Tri.points g) < 3)%nat -> g' = g /\ out = None) /\
  ((3 <= length (Tri.points g))%nat ->
   exists s,
     out = Some s /\
     Tri.points g' = [] /\ Tri.edges g' = [] /\
     Tri.w g' = Tri.w g /\ Tri.h g' = Tri.h g /\
     Tri.sum_points s = 0%nat /\
     Tri.sum_tris s = length (Tri.tris g') /\
     (2 <= length (Tri.tris g'))%nat /\
     0 <= Tri.sum_cleaned s
     <= Z.of_nat (length (Tri.tris g')) * Z.of_nat (length (Tri.tris g'))).
Proof.
  unfold Tri.triangulation in Returns.
  destruct (Nat.ltb_spec (length (Tri.points g)) 3) as [Small | Big].
  { inversion Returns; subst. split; [auto | lia]. }
  split; [lia|]. intros _.
  unfold Tri.convex_hull in Returns.
  cbn [Tri.w Tri.points Tri.edges Tri.set_tris] in Returns.
  destruct (hull_edges fuel (Tri.w g) indet (Tri.points g) (Tri.edges g))
    as [es|] eqn:Hull; [|discriminate].
  assert (Les : (2 <= length es)%nat).
  { unfold hull_edges in Hull.
    destruct (Nat.ltb_spec (length (Tri.points g)) 3); [lia|].
    destruct (minmax _ _ _) as [A B].
    destruct (quick_hull fuel _ A B _) as [es1|] eqn:Q1; [|discriminate].
    apply quick_hull_chain in Q1, Hull.
    destruct Q1 as (c1 & -> & C1), Hull as (c2 & -> & C2).
    apply chain_linked in C1, C2. rewrite !length_app.
    destruct c1; [tauto|]. destruct c2; [tauto|]. simpl. lia. }
  destruct (Tri.find_mid _) as [pMid0 minD].
  cbn [Tri.edges Tri.set_edges] in Returns.
  destruct (if minD =? Tri.INT_MAX
            then match es with [] => None | e :: _ => Some (e_p1 e) end
            else Some pMid0) as [pMid|]; [|discriminate].
  destruct (Tri.trisect_edges fuel _ pMid es) as [g2|] eqn:TE; [|discriminate].
  destruct (trisect_edges_grows _ _ _ _ _ TE) as ((Fw & Fh & _ & _) & Lt).
  cbn [Tri.tris Tri.w Tri.h Tri.set_edges Tri.set_tris length] in Fw, Fh, Lt.
  set (g3 := Tri.set_edges (Tri.set_points g2 []) []) in *.
  pose proof (tri_cleanup_count g3) as Cnt.
  destruct (Tri.tri_cleanup g3) as [g4 cleaned] eqn:TC.
  assert (E4 : g4 = g3) by (unfold Tri.tri_cleanup in TC; now inversion TC).
  subst g4. inversion Returns; subst g' out. clear Returns.
  eexists. split; [reflexivity|].
  cbn [Tri.sum_points Tri.sum_tris Tri.sum_cleaned snd] in *.
  unfold g3. cbn [Tri.points Tri.edges Tri.tris Tri.w Tri.h Tri.set_edges
                  Tri.set_points length] in *.
  repeat split; try assumption; try lia.
  change (Tri.tris g3) with (Tri.tris g2) in Cnt. lia.
Qed.

Lemma triangulation_leaves_witness :
  exists g' out,
    Tri.triangulation 10 indet0 cleanup_input = Some (g', out) /\
    ((length (Tri.points cleanup_input) < 3)%nat ->
     g' = cleanup_input /\ out = None) /\
    ((3 <= length (Tri.points cleanup_input))%nat ->
     exists s,
       out = Some s /\
       Tri.points g' = [] /\ Tri.edges g' = [] /\
       Tri.w g' = Tri.w cleanup_input /\ Tri.h g' = Tri.h cleanup_input /\
       Tri.sum_points s = 0%nat /\
       Tri.sum_tris s = length (Tri.tris g') /\
       (2 <= length (Tri.tris g'))%nat /\
       0 <= Tri.sum_cleaned s
       <= Z.of_nat (length (Tri.tris g')) * Z.of_nat (length (Tri.tris g'))).
Proof.
  destruct (Tri.triangulation 10 indet0 cleanup_input) as [[g' out]|] eqn:E;
    [|vm_compute in E; discriminate].
  exists g', out. split; [reflexivity|].
  exact (triangulation_leaves 10 indet0 cleanup_input g' out E).
Defined.

(** ** The seed search *)

Lemma mid_scan_inv (g : Tri.glob) (l : list point) :
  forall (seen : list point) (pMid : point) (minD : Z),
    minD <= Tri.INT_MAX ->
    (minD = Tri.INT_MAX \/
     (In pMid seen /\ Tri.on_edge g pMid = false /\
      minD = pythagorean pMid (centre g))) ->
    (forall p, In p seen -> Tri.on_edge g p = false ->
               minD <= pythagorean p (centre g)) ->
    let st := fold_left (Tri.mid_step g) l (pMid, minD) in
    snd st <= Tri.INT_MAX /\
    (snd st = Tri.INT_MAX \/
     (In (fst st) (seen ++ l) /\ Tri.on_edge g (fst st) = false /\
      snd st = pythagorean (fst st) (centre g))) /\
    (forall p, In p (seen ++ l) -> Tri.on_edge g p = false ->
               snd st <= pythagorean p (centre g)).
Proof.
  induction l as [|q l IH]; intros seen pMid minD H0 H1 H2;
    cbn [fold_left].
  - rewrite app_nil_r. auto.
  - assert (E : seen ++ q :: l = (seen ++ [q]) ++ l)
      by (rewrite <- app_assoc; reflexivity).
    rewrite E.
    assert (Step : Tri.mid_step g (pMid, minD) q
                   = if negb (Tri.on_edge g q)
                     then if pythagorean q (centre g) <? minD
                          then (q, pythagorean q (centre g))
                          else (pMid, minD)
                     else (pMid, minD)) by reflexivity.
    rewrite Step. clear Step.
    destruct (Tri.on_edge g q) eqn:On; cbn [negb].
    + apply IH; [assumption | |].
      * destruct H1 as [H1 | (H1 & H1' & H1'')]; [now left|].
        right. split; [apply in_or_app; now left | auto].
      * intros p Hp Np. apply in_app_or in Hp.
        destruct Hp as [Hp | [<- | []]]; [auto | congruence].
    + destruct (Z.ltb_spec (pythagorean q (centre g)) minD) as [Lt | Ge].
      * apply IH; [lia | |].
        -- right. split; [apply in_or_app; right; now left | auto].
        -- intros p Hp Np. apply in_app_or in Hp.
           destruct Hp as [Hp | [<- | []]]; [|lia].
           specialize (H2 p Hp Np). lia.
      * apply IH; [assumption | |].
        -- destruct H1 as [H1 | (H1 & H1' & H1'')]; [now left|].
           right. split; [apply in_or_app; now left | auto].
        -- intros p Hp Np. apply in_app_or in Hp.
           destruct Hp as [Hp | [<- | []]]; [auto | lia].
Qed.

(** X13. The seed search of [triangulation] returns a point of
    [global.points] that is not the end of a hull edge and whose distance
    to the centre [(w/2, h/2)] of the window, as [pythagorean] computes
    it, is the least among such points, together with that distance; it
    returns the distance [INT_MAX] when there is no such point nearer than
    [INT_MAX] (as when every point is the end of a hull edge), and
    [triangulation] then takes the first end of the first hull edge.  For
    points and a centre in range (coordinates of absolute value at most
    16383) the distance that [pythagorean] computes is the truncated
    distance. *)
Theorem find_mid_nearest (g : Tri.glob) :
  snd (Tri.find_mid g) <= Tri.INT_MAX /\
  (snd (Tri.find_mid g) = Tri.INT_MAX \/
   (In (fst (Tri.find_mid g)) (Tri.points g) /\
    ~ In (fst (Tri.find_mid g)) (edge_points (Tri.edges g)) /\
    snd (Tri.find_mid g) = pythagorean (fst (Tri.find_mid g)) (centre g))) /\
  (forall p, In p (Tri.points g) -> ~ In p (edge_points (Tri.edges g)) ->
             snd (Tri.find_mid g) <= pythagorean p (centre g)) /\
  (in_range (centre g) -> all_in_range (Tri.points g) ->
   forall p, In p (Tri.points g) ->
             pythagorean p (centre g) = Z.sqrt (sq_len p (centre g))).
Proof.
  assert (Off : forall p, Tri.on_edge g p = false
                          <-> ~ In p (edge_points (Tri.edges g))).
  { intros p. rewrite <- on_edge_endpoints.
    destruct (Tri.on_edge g p); split; congruence. }
  unfold Tri.find_mid.
  destruct (mid_scan_inv g (Tri.points g) [] (mkPoint 0 0) Tri.INT_MAX)
    as (I1 & I2 & I3); [lia | now left | intros p [] |].
  cbn [app] in I2, I3. split; [exact I1|]. split; [|split].
  - destruct I2 as [I2 | (A & B & C)]; [now left|].
    right. split; [exact A|]. split; [now apply Off | exact C].
  - intros p Hp Np. apply I3; [exact Hp | now apply Off].
  - intros Rc Rp p Hp. apply pythagorean_exact; [now apply Rp | exact Rc].
Qed.

(** Beyond the range the squared distance wraps to a negative number and
    the distance is [INT_MIN]: the far point is taken for the nearest. *)
Example find_mid_wrapped_distance :
  let g := Tri.mkGlob 1000 800 10 [mkPoint 500 50400; mkPoint 500 410] [] [] in
  Tri.find_mid g = (mkPoint 500 50400, INT_MIN) /\
  Z.sqrt (sq_len (mkPoint 500 50400) (centre g)) = 50000 /\
  Z.sqrt (sq_len (mkPoint 500 410) (centre g)) = 10.
Proof. vm_compute. repeat split; reflexivity. Qed.

(** ** When [check_shared_edge] does not flip *)

Lemma try_flip_degenerate (t1 t2 : tri) (s1 s2 a b : point) (d1 : Z) :
  b = s1 \/ b = s2 \/ b = a ->
  Tri.try_flip t1 t2 s1 s2 a b d1 = (false, t1, t2).
Proof.
  intros H. unfold Tri.try_flip.
  assert (S : Tri.same_sign (dist a b s1) (dist a b s2) = true).
  { unfold Tri.same_sign.
    destruct H as [-> | [-> | ->]].
    - rewrite dist_end.
      destruct (Z.geb_spec (dist a s1 s2) 0); destruct (Z.leb_spec (dist a s1 s2) 0);
        simpl; try reflexivity; lia.
    - rewrite dist_end.
      destruct (Z.geb_spec (dist a s2 s1) 0); destruct (Z.leb_spec (dist a s2 s1) 0);
        simpl; try reflexivity; lia.
    - assert (Z0 : forall r, dist a a r = 0)
        by (intros r; rewrite dist_wrap;
            replace (score a a r) with 0 by (unfold score; ring);
            reflexivity).
      rewrite !Z0. reflexivity. }
  now rewrite S.
Qed.

Lemma mark_t2_count (q : point) (t2 : tri) (s : Tri.shares) :
  Tri.pointCount (Tri.mark_t2 q t2 s) = Tri.pointCount s.
Proof.
  unfold Tri.mark_t2.
  destruct ((px q =? px (t_p1 t2)) && (px q =? py (t_p1 t2)));
    [reflexivity|].
  destruct ((px q =? px (t_p2 t2)) && (px q =? py (t_p2 t2))); reflexivity.
Qed.

(** The count of shared points stops at 2: the third vertex of [t1] is
    looked at only when exactly one of the first two is shared. *)
Lemma point_count (t1 t2 : tri) :
  (Tri.pointCount (Tri.shared_flags t1 t2) =? 2)
  = (2 <=? common_vertices t1 t2)%nat.
Proof.
  unfold Tri.shared_flags, common_vertices, vertices_of.
  cbn [filter].
  destruct (Tri.is_vertex (t_p1 t1) t2); destruct (Tri.is_vertex (t_p2 t1) t2);
    destruct (Tri.is_vertex (t_p3 t1) t2);
    rewrite ?mark_t2_count; cbn [Tri.pointCount];
    rewrite ?mark_t2_count; cbn [Tri.pointCount];
    cbn [Z.add Z.eqb Pos.add Pos.eqb andb Pos.succ];
    rewrite ?mark_t2_count; cbn [Tri.pointCount]; reflexivity.
Qed.

(** X14. [check_shared_edge] either flips or leaves both triangles as
    they are.  It does not flip two triangles with fewer than two common
    vertices, and it does not flip a triangle against itself (the loops of
    [tri_cleanup] compare every triangle with itself too). *)
Theorem check_shared_edge_no_flip (t1 t2 : tri) :
  (fst (fst (Tri.check_shared_edge t1 t2)) = false ->
   Tri.check_shared_edge t1 t2 = (false, t1, t2)) /\
  ((common_vertices t1 t2 < 2)%nat ->
   Tri.check_shared_edge t1 t2 = (false, t1, t2)) /\
  Tri.check_shared_edge t1 t1 = (false, t1, t1).
Proof.
  split; [|split].
  - unfold Tri.check_shared_edge.
    repeat match goal with
           | |- context [if ?c then _ else _] => destruct c
           end; try (apply try_flip_count); reflexivity.
  - intros H. unfold Tri.check_shared_edge. rewrite point_count.
    destruct (Nat.leb_spec 2 (common_vertices t1 t2)); [lia | reflexivity].
  - unfold Tri.check_shared_edge.
    repeat match goal with
           | |- context [if ?c then _ else _] => destruct c
           end; try reflexivity;
      apply try_flip_degenerate; tauto.
Qed.

(** X15. The tests "determine which point t1.pi shares with t2" compare
    an x-coordinate with a y-coordinate.  When the first two vertices of
    [t2] do not have equal coordinates ([x <> y]), the branch taken is
    always the last one, which takes the first vertex of [t2] for the
    vertex that is not shared: two triangles whose common vertices include
    the first vertex of [t2] are never flipped, whatever the lengths of
    the two diagonals. *)
Theorem check_shared_edge_first_vertex (t1 t2 : tri)
  (Off1 : px (t_p1 t2) <> py (t_p1 t2))
  (Off2 : px (t_p2 t2) <> py (t_p2 t2))
  (Shared : In (t_p1 t2) (vertices_of t1)) :
  Tri.check_shared_edge t1 t2 = (false, t1, t2).
Proof.
  assert (M : forall q s,
            Tri.t2p1Share s = false -> Tri.t2p2Share s = false ->
            Tri.t2p1Share (Tri.mark_t2 q t2 s) = false /\
            Tri.t2p2Share (Tri.mark_t2 q t2 s) = false).
  { intros q s H1 H2. unfold Tri.mark_t2.
    destruct (Z.eqb_spec (px q) (px (t_p1 t2)));
      destruct (Z.eqb_spec (px q) (py (t_p1 t2))); cbn [andb];
      try lia;
      destruct (Z.eqb_spec (px q) (px (t_p2 t2)));
      destruct (Z.eqb_spec (px q) (py (t_p2 t2))); cbn [andb];
      try lia; auto. }
  assert (F : Tri.t2p1Share (Tri.shared_flags t1 t2) = false /\
              Tri.t2p2Share (Tri.shared_flags t1 t2) = false).
  { unfold Tri.shared_flags.
    repeat match goal with
           | |- context [if ?c then _ else _] => destruct c
           end; repeat apply M; auto. }
  destruct F as [F1 F2].
  unfold Tri.check_shared_edge. rewrite F1, F2. cbn [andb].
  unfold vertices_of in Shared.
  repeat match goal with
         | |- context [if ?c then _ else _] => destruct c
         end; try reflexivity;
    apply try_flip_degenerate; simpl in Shared; intuition congruence.
Qed.

Lemma check_shared_edge_first_vertex_witness :
  Tri.check_shared_edge flip_t1 (mkTri flipP flipB flipQ)
  = (false, flip_t1, mkTri flipP flipB flipQ).
Proof.
  apply (check_shared_edge_first_vertex flip_t1 (mkTri flipP flipB flipQ)).
  - simpl. lia.
  - simpl. lia.
  - simpl. auto.
Defined.

(** The same two triangles, with the vertices of the second one in the
    order in which its first vertex is the one that is not shared: they
    are flipped. *)
Example check_shared_edge_vertex_order :
  fst (fst (Tri.check_shared_edge flip_t1 (mkTri flipB flipP flipQ))) = true /\
  fst (fst (Tri.check_shared_edge flip_t1 (mkTri flipP flipB flipQ))) = false.
Proof. vm_compute. split; reflexivity. Qed.

(** ** The coordinate grid and the random points *)

Lemma grid_NoDup (f : Z -> Z -> point) (xs ys : list Z) :
  (forall x y x' y', f x y = f x' y' -> x = x' /\ y = y') ->
  NoDup xs -> NoDup ys ->
  NoDup (flat_map (fun x => map (f x) ys) xs).
Proof.
  intros Inj Nx Ny. induction Nx as [|x xs Hx Nx IH]; cbn [flat_map].
  - constructor.
  - apply NoDup_app; [|exact IH|].
    + apply Finite.Injective_map_NoDup; [|exact Ny].
      intros y y' E. now apply Inj in E.
    + intros p H1 H2. apply in_map_iff in H1. destruct H1 as (y & <- & _).
      apply in_flat_map in H2. destruct H2 as (x' & Hx' & H2).
      apply in_map_iff in H2. destruct H2 as (y' & E & _).
      apply Inj in E. destruct E as [-> _]. contradiction.
Qed.

Lemma point_eta (c : point) : mkPoint (px c) (py c) = c.
Proof. destruct c. reflexivity. Qed.

Lemma skipn_nth {A : Type} (l : list A) :
  forall n c, nth_error l n = Some c -> skipn n l = c :: skipn (S n) l.
Proof.
  induction l as [|a l IH]; intros [|n] c H; simpl in *; try discriminate.
  - now inversion H.
  - now apply IH.
Qed.

(** The push loop copies the slice [coords[lo .. lo+k-1]] when it lies
    within the vector, and has no result when it reaches beyond. *)
Lemma push_coords_ok (coords : list point) (k : nat) :
  forall lo acc,
    0 <= lo -> (Z.to_nat lo + k <= length coords)%nat ->
    push_coords coords (int_range lo (lo + Z.of_nat k)) acc
    = Some (acc ++ firstn k (skipn (Z.to_nat lo) coords)).
Proof.
  induction k as [|k IH]; intros lo acc Hlo Hk.
  - replace (lo + Z.of_nat 0) with lo by lia.
    unfold int_range. rewrite Z.sub_diag. cbn [Z.to_nat seq map push_coords].
    now rewrite app_nil_r.
  - rewrite int_range_cons by lia. cbn [push_coords].
    destruct (Z.ltb_spec lo 0); [lia|].
    destruct (nth_error coords (Z.to_nat lo)) as [c|] eqn:E.
    + replace (lo + Z.of_nat (S k)) with (lo + 1 + Z.of_nat k) by lia.
      rewrite IH by lia. rewrite point_eta, (skipn_nth _ _ _ E).
      cbn [firstn]. rewrite <- app_assoc.
      replace (Z.to_nat (lo + 1)) with (S (Z.to_nat lo)) by lia.
      reflexivity.
    + apply nth_error_None in E. lia.
Qed.

Lemma push_coords_out (coords : list point) (k : nat) :
  forall lo acc,
    0 <= lo -> (0 < k)%nat -> (length coords < Z.to_nat lo + k)%nat ->
    push_coords coords (int_range lo (lo + Z.of_nat k)) acc = None.
Proof.
  induction k as [|k IH]; intros lo acc Hlo Hpos Hk; [lia|].
  rewrite int_range_cons by lia. cbn [push_coords].
  destruct (Z.ltb_spec lo 0); [lia|].
  destruct (nth_error coords (Z.to_nat lo)) as [c|] eqn:E; [|reflexivity].
  replace (lo + Z.of_nat (S k)) with (lo + 1 + Z.of_nat k) by lia.
  assert (Hs : nth_error coords (Z.to_nat lo) <> None) by congruence.
  apply nth_error_Some in Hs.
  apply IH; lia.
Qed.

Lemma int_range_to (lo hi : Z) :
  int_range lo hi = int_range lo (lo + Z.of_nat (Z.to_nat (hi - lo))).
Proof.
  unfold int_range. f_equal. f_equal. lia.
Qed.

Lemma firstn_skipn_incl {A : Type} (k n : nat) (l : list A) :
  incl (firstn k (skipn n l)) l.
Proof.
  intros x Hx. apply firstn_In in Hx.
  rewrite <- (firstn_skipn n l). apply in_or_app. now right.
Qed.

Lemma firstn_skipn_NoDup {A : Type} (k n : nat) (l : list A) :
  NoDup l -> NoDup (firstn k (skipn n l)).
Proof.
  intros H. apply firstn_NoDup.
  rewrite <- (firstn_skipn n l) in H. now apply NoDup_app_remove_l in H.
Qed.

Lemma grid_spec (w h : Z) (acc : list point) :
  exists grid,
    push_grid (fun x y => mkPoint x y) (int_range 1 (w - 9))
      (int_range 1 (h - 9)) acc = acc ++ grid /\
    (forall p, In p grid <-> 1 <= px p <= w - 10 /\ 1 <= py p <= h - 10) /\
    NoDup grid /\
    Z.of_nat (length grid) = Z.max 0 (w - 10) * Z.max 0 (h - 10).
Proof.
  exists (flat_map (fun x => map (fun y => mkPoint x y) (int_range 1 (h - 9)))
            (int_range 1 (w - 9))).
  split; [apply push_grid_rows|]. split; [|split].
  - intros p. rewrite in_flat_map. split.
    + intros (x & Hx & Hp). apply in_map_iff in Hp.
      destruct Hp as (y & <- & Hy). apply int_range_In in Hx, Hy.
      cbn [px py]. lia.
    + intros [Hx Hy]. exists (px p). rewrite int_range_In.
      split; [lia|]. apply in_map_iff. exists (py p).
      rewrite int_range_In. split; [apply point_eta | lia].
  - apply grid_NoDup; try apply int_range_NoDup.
    intros x y x' y' E. inversion E. auto.
  - pose proof (push_grid_length (fun x y => mkPoint x y)
                  (int_range 1 (w - 9)) (int_range 1 (h - 9)) []) as L.
    rewrite push_grid_rows in L. cbn [app length] in L.
    rewrite L, !int_range_length. nia.
Qed.

(** X16. [initializeVector] pushes behind [global.coords] the points
    [(x, y)] with [1 <= x <= w - 10] and [1 <= y <= h - 10], each once: a
    grid of [(w - 10) * (h - 10)] points when the window is larger than 10
    by 10, and nothing otherwise.  The coordinate vector with which [main]
    enters the event loop holds 782100 points in both programs. *)
Theorem initializeVector_grid :
  (forall g : HullApp.glob,
     exists grid,
       HullApp.initializeVector g
       = HullApp.mkGlob (HullApp.core g) (HullApp.coords g ++ grid)
           (HullApp.mouseDraw g) (HullApp.shuffled g) /\
       (forall p, In p grid <->
                  1 <= px p <= Hull.w (HullApp.core g) - 10 /\
                  1 <= py p <= Hull.h (HullApp.core g) - 10) /\
       NoDup grid /\
       Z.of_nat (length grid)
       = Z.max 0 (Hull.w (HullApp.core g) - 10)
         * Z.max 0 (Hull.h (HullApp.core g) - 10)) /\
  (forall g : TriApp.glob,
     exists grid,
       TriApp.initializeVector g
       = TriApp.mkGlob (TriApp.core g) (TriApp.coords g ++ grid)
           (TriApp.mouseDraw g) (TriApp.shuffled g) /\
       (forall p, In p grid <->
                  1 <= px p <= Tri.w (TriApp.core g) - 10 /\
                  1 <= py p <= Tri.h (TriApp.core g) - 10) /\
       NoDup grid /\
       Z.of_nat (length grid)
       = Z.max 0 (Tri.w (TriApp.core g) - 10)
         * Z.max 0 (Tri.h (TriApp.core g) - 10)) /\
  Z.of_nat (length (HullApp.coords HullApp.main_state)) = 782100 /\
  Z.of_nat (length (TriApp.coords TriApp.main_state)) = 782100 /\
  NoDup (HullApp.coords HullApp.main_state) /\
  NoDup (TriApp.coords TriApp.main_state).
Proof.
  assert (H : forall g : HullApp.glob,
     exists grid,
       HullApp.initializeVector g
       = HullApp.mkGlob (HullApp.core g) (HullApp.coords g ++ grid)
           (HullApp.mouseDraw g) (HullApp.shuffled g) /\
       (forall p, In p grid <->
                  1 <= px p <= Hull.w (HullApp.core g) - 10 /\
                  1 <= py p <= Hull.h (HullApp.core g) - 10) /\
       NoDup grid /\
       Z.of_nat (length grid)
       = Z.max 0 (Hull.w (HullApp.core g) - 10)
         * Z.max 0 (Hull.h (HullApp.core g) - 10)).
  { intros g.
    destruct (grid_spec (Hull.w (HullApp.core g)) (Hull.h (HullApp.core g))
                (HullApp.coords g)) as (grid & E & R).
    exists grid. split; [|exact R].
    unfold HullApp.initializeVector. now rewrite E. }
  assert (T : forall g : TriApp.glob,
     exists grid,
       TriApp.initializeVector g
       = TriApp.mkGlob (TriApp.core g) (TriApp.coords g ++ grid)
           (TriApp.mouseDraw g) (TriApp.shuffled g) /\
       (forall p, In p grid <->
                  1 <= px p <= Tri.w (TriApp.core g) - 10 /\
                  1 <= py p <= Tri.h (TriApp.core g) - 10) /\
       NoDup grid /\
       Z.of_nat (length grid)
       = Z.max 0 (Tri.w (TriApp.core g) - 10)
         * Z.max 0 (Tri.h (TriApp.core g) - 10)).
  { intros g.
    destruct (grid_spec (Tri.w (TriApp.core g)) (Tri.h (TriApp.core g))
                (TriApp.coords g)) as (grid & E & R).
    exists grid. split; [|exact R].
    unfold TriApp.initializeVector. now rewrite E. }
  split; [exact H|]. split; [exact T|].
  unfold HullApp.main_state, TriApp.main_state.
  destruct (H (HullApp.mkGlob (Hull.mkGlob 1000 800 100 [] [] 5 false)
                 [] false false)) as (gh & -> & _ & Nh & Lh).
  destruct (T (TriApp.mkGlob (Tri.mkGlob 1000 800 10 [] [] []) [] false false))
    as (gt & -> & _ & Nt & Lt).
  cbn [HullApp.coords TriApp.coords HullApp.core TriApp.core Hull.w Hull.h
       Tri.w Tri.h app] in *.
  repeat split; try assumption; lia.
Qed.

Lemma random_slice (shuffle : list point -> list point) (n : Z)
  (coords : list point) :
  (forall l, Permutation l (shuffle l)) ->
  (n <= Z.of_nat (length coords) ->
   exists pts,
     push_coords (shuffle coords) (int_range 0 n) [] = Some pts /\
     random_outcome n coords pts (shuffle coords)) /\
  (Z.of_nat (length coords) < n ->
   push_coords (shuffle coords) (int_range 0 n) [] = None).
Proof.
  intros Hperm.
  pose proof (Hperm coords) as P.
  pose proof (Permutation_length P) as PL.
  rewrite (int_range_to 0 n). rewrite Z.sub_0_r. split.
  - intros Hn. eexists. split.
    + apply push_coords_ok; lia.
    + cbn [app Z.to_nat skipn].
      split; [exact P|]. split; [reflexivity|]. split.
      { rewrite length_firstn. lia. }
      split.
      { intros x Hx. apply firstn_In in Hx.
        apply (Permutation_in _ (Permutation_sym P) Hx). }
      intros Hnd. apply firstn_NoDup.
      apply (Permutation_NoDup P Hnd).
  - intros Hn. apply push_coords_out; lia.
Qed.

(** X17. [random] is given a permutation by [random_shuffle].  When [n] is
    at most the size of the coordinate vector, it leaves in
    [global.points] the first [n] points of the shuffled vector (none when
    [n] is negative): [n] points of the grid, pairwise distinct when the
    grid points are; the edges (and the triangles) are cleared and the
    vector is marked as shuffled.  When [n] is larger, it reads
    [global.coords] past its end. *)
Theorem random_draws_from_grid (shuffle : list point -> list point)
  (Hperm : forall l, Permutation l (shuffle l)) :
  (forall g : HullApp.glob,
     let c := HullApp.core g in
     (Hull.n c <= Z.of_nat (length (HullApp.coords g)) ->
      exists pts,
        HullApp.random shuffle g
        = Some (HullApp.mkGlob
                  (Hull.mkGlob (Hull.w c) (Hull.h c) (Hull.n c) pts []
                     (Hull.clusters c) (Hull.clustering c))
                  (shuffle (HullApp.coords g)) (HullApp.mouseDraw g) true) /\
        random_outcome (Hull.n c) (HullApp.coords g) pts
          (shuffle (HullApp.coords g))) /\
     (Z.of_nat (length (HullApp.coords g)) < Hull.n c ->
      HullApp.random shuffle g = None)) /\
  (forall g : TriApp.glob,
     let c := TriApp.core g in
     (Tri.n c <= Z.of_nat (length (TriApp.coords g)) ->
      exists pts,
        TriApp.random shuffle g
        = Some (TriApp.mkGlob
                  (Tri.mkGlob (Tri.w c) (Tri.h c) (Tri.n c) pts [] [])
                  (shuffle (TriApp.coords g)) (TriApp.mouseDraw g) true) /\
        random_outcome (Tri.n c) (TriApp.coords g) pts
          (shuffle (TriApp.coords g))) /\
     (Z.of_nat (length (TriApp.coords g)) < Tri.n c ->
      TriApp.random shuffle g = None)).
Proof.
  split; intros g c.
  - destruct (random_slice shuffle (Hull.n c) (HullApp.coords g) Hperm)
      as [Ok Out].
    split.
    + intros Hn. destruct (Ok Hn) as (pts & E & R). exists pts.
      split; [|exact R]. unfold HullApp.random. fold c. now rewrite E.
    + intros Hn. unfold HullApp.random. fold c. now rewrite (Out Hn).
  - destruct (random_slice shuffle (Tri.n c) (TriApp.coords g) Hperm)
      as [Ok Out].
    split.
    + intros Hn. destruct (Ok Hn) as (pts & E & R). exists pts.
      split; [|exact R]. unfold TriApp.random. fold c. now rewrite E.
    + intros Hn. unfold TriApp.random. fold c. now rewrite (Out Hn).
Qed.

Lemma random_draws_from_grid_witness :
  exists pts,
    HullApp.random (@rev point) small_hull_app
    = Some (HullApp.mkGlob (Hull.mkGlob 13 12 4 pts [] 5 false)
              (rev small_grid) false true) /\
    random_outcome 4 small_grid pts (rev small_grid).
Proof.
  refine (proj1 (proj1 (random_draws_from_grid (@rev point) _)
                   small_hull_app) _).
  - intros l. apply Permutation_rev.
  - simpl. lia.
Defined.

Lemma int_range_empty (lo hi : Z) : hi <= lo -> int_range lo hi = [].
Proof.
  intros H. unfold int_range.
  replace (Z.to_nat (hi - lo)) with 0%nat by lia. reflexivity.
Qed.

Lemma increment_slice (coords points : list point) (n' : Z) :
  n' <= Z.of_nat (length coords) ->
  exists pts,
    push_coords coords (int_range (Z.of_nat (length points)) n') points
    = Some pts /\
    increment_outcome n' points coords pts.
Proof.
  intros Hn. unfold increment_outcome.
  destruct (Z.le_gt_cases n' (Z.of_nat (length points))) as [Le | Gt].
  - rewrite int_range_empty by assumption. eexists. split; [reflexivity|].
    replace (Z.to_nat (n' - Z.of_nat (length points))) with 0%nat by lia.
    now rewrite app_nil_r.
  - rewrite int_range_to. eexists. split.
    + apply push_coords_ok; lia.
    + rewrite Nat2Z.id. reflexivity.
Qed.

Lemma next_multiple (step n len : Z) :
  0 < step -> (step | n) -> (step | len) -> n <= len -> n <> len ->
  n + step <= len /\ (step | n + step).
Proof.
  intros Hs [a Ha] [b Hb] Le Ne. split.
  - subst. assert (a < b) by nia. nia.
  - exists (a + 1). lia.
Qed.

(** X18. [increment_n] keeps [n] within the coordinate vector, provided
    [n] and the size of that vector are multiples of its step (100 in the
    hull program, 10 in the triangulation program, as they are from
    [main] on): it is refused when [n] is the size of the vector, and
    otherwise it raises [n] by the step (not on the first call before any
    shuffle, which shuffles and leaves [n] as it is), pushes the
    coordinates from the old number of points up to the new [n] behind
    the points, and clears the edges (and the triangles).  It never reads
    past the end of the coordinate vector. *)
Theorem increment_n_stays_in_grid (shuffle : list point -> list point)
  (Hperm : forall l, Permutation l (shuffle l)) :
  (forall g : HullApp.glob,
     let c := HullApp.core g in
     n_invariant 100 (Hull.n c) (HullApp.coords g) ->
     exists g' msg,
       HullApp.increment_n shuffle g = Some (g', msg) /\
       n_invariant 100 (Hull.n (HullApp.core g')) (HullApp.coords g') /\
       Permutation (HullApp.coords g) (HullApp.coords g') /\
       (Hull.n c = Z.of_nat (length (HullApp.coords g)) ->
        g' = g /\ msg = Some (Hull.n c)) /\
       (Hull.n c <> Z.of_nat (length (HullApp.coords g)) ->
        msg = None /\
        Hull.n (HullApp.core g')
        = (if HullApp.shuffled g then Hull.n c + 100 else Hull.n c) /\
        HullApp.shuffled g' = true /\
        Hull.edges (HullApp.core g') = [] /\
        increment_outcome (Hull.n (HullApp.core g')) (Hull.points c)
          (HullApp.coords g') (Hull.points (HullApp.core g')))) /\
  (forall g : TriApp.glob,
     let c := TriApp.core g in
     n_invariant 10 (Tri.n c) (TriApp.coords g) ->
     exists g' msg,
       TriApp.increment_n shuffle g = Some (g', msg) /\
       n_invariant 10 (Tri.n (TriApp.core g')) (TriApp.coords g') /\
       Permutation (TriApp.coords g) (TriApp.coords g') /\
       (Tri.n c = Z.of_nat (length (TriApp.coords g)) ->
        g' = g /\ msg = Some (Tri.n c)) /\
       (Tri.n c <> Z.of_nat (length (TriApp.coords g)) ->
        msg = None /\
        Tri.n (TriApp.core g')
        = (if TriApp.shuffled g then Tri.n c + 10 else Tri.n c) /\
        TriApp.shuffled g' = true /\
        Tri.edges (TriApp.core g') = [] /\ Tri.tris (TriApp.core g') = [] /\
        increment_outcome (Tri.n (TriApp.core g')) (Tri.points c)
          (TriApp.coords g') (Tri.points (TriApp.core g')))).
Proof.
  split; intros g c (Hn & D1 & D2 & Hsz).
  - unfold HullApp.increment_n. fold c.
    assert (Es : Hull.to_size_t (Hull.n c) = Hull.n c)
      by (unfold Hull.to_size_t; apply Z.mod_small; lia).
    rewrite Es.
    destruct (Z.eqb_spec (Hull.n c) (Z.of_nat (length (HullApp.coords g))))
      as [E | N].
    { exists g, (Some (Hull.n c)). split; [reflexivity|].
      split; [unfold n_invariant; auto|].
      split; [apply Permutation_refl|].
      split; [auto | intros X; contradiction]. }
    set (coords1 := if negb (HullApp.shuffled g)
                    then shuffle (HullApp.coords g) else HullApp.coords g).
    set (n2 := (if negb (HullApp.shuffled g) then Hull.n c - 100
                else Hull.n c) + 100).
    assert (P : Permutation (HullApp.coords g) coords1).
    { unfold coords1. destruct (HullApp.shuffled g); cbn [negb];
        [apply Permutation_refl | apply Hperm]. }
    pose proof (Permutation_length P) as PL.
    destruct (next_multiple 100 (Hull.n c) _ ltac:(lia) D1 D2 (proj2 Hn) N)
      as [Nx Dx].
    assert (E2 : n2 = if HullApp.shuffled g then Hull.n c + 100 else Hull.n c).
    { unfold n2. destruct (HullApp.shuffled g); cbn [negb]; lia. }
    assert (I2 : n_invariant 100 n2 coords1).
    { unfold n_invariant. rewrite <- PL, E2.
      destruct (HullApp.shuffled g); repeat split; auto; lia. }
    destruct (increment_slice coords1 (Hull.points c) n2) as (pts & Ep & Op).
    { destruct I2 as [I2 _]. lia. }
    rewrite Ep. eexists. eexists. split; [reflexivity|].
    cbn [HullApp.core HullApp.coords HullApp.shuffled Hull.n Hull.edges
         Hull.points].
    split; [exact I2|]. split; [exact P|]. split; [contradiction|].
    intros _. repeat split; assumption.
  - unfold TriApp.increment_n. fold c.
    assert (Es : Hull.to_size_t (Tri.n c) = Tri.n c)
      by (unfold Hull.to_size_t; apply Z.mod_small; lia).
    rewrite Es.
    destruct (Z.eqb_spec (Tri.n c) (Z.of_nat (length (TriApp.coords g))))
      as [E | N].
    { exists g, (Some (Tri.n c)). split; [reflexivity|].
      split; [unfold n_invariant; auto|].
      split; [apply Permutation_refl|].
      split; [auto | intros X; contradiction]. }
    set (coords1 := if negb (TriApp.shuffled g)
                    then shuffle (TriApp.coords g) else TriApp.coords g).
    set (n2 := (if negb (TriApp.shuffled g) then Tri.n c - 10
                else Tri.n c) + 10).
    assert (P : Permutation (TriApp.coords g) coords1).
    { unfold coords1. destruct (TriApp.shuffled g); cbn [negb];
        [apply Permutation_refl | apply Hperm]. }
    pose proof (Permutation_length P) as PL.
    destruct (next_multiple 10 (Tri.n c) _ ltac:(lia) D1 D2 (proj2 Hn) N)
      as [Nx Dx].
    assert (E2 : n2 = if TriApp.shuffled g then Tri.n c + 10 else Tri.n c).
    { unfold n2. destruct (TriApp.shuffled g); cbn [negb]; lia. }
    assert (I2 : n_invariant 10 n2 coords1).
    { unfold n_invariant. rewrite <- PL, E2.
      destruct (TriApp.shuffled g); repeat split; auto; lia. }
    destruct (increment_slice coords1 (Tri.points c) n2) as (pts & Ep & Op).
    { destruct I2 as [I2 _]. lia. }
    rewrite Ep. eexists. eexists. split; [reflexivity|].
    cbn [TriApp.core TriApp.coords TriApp.shuffled Tri.n Tri.edges Tri.tris
         Tri.points].
    split; [exact I2|]. split; [exact P|]. split; [contradiction|].
    intros _. repeat split; assumption.
Qed.

Lemma increment_n_stays_in_grid_witness :
  exists g' msg,
    TriApp.increment_n (@rev point) ten_of_twenty = Some (g', msg) /\
    n_invariant 10 (Tri.n (TriApp.core g')) (TriApp.coords g').
Proof.
  destruct (proj2 (increment_n_stays_in_grid (@rev point)
                     (fun l => Permutation_rev l)) ten_of_twenty)
    as (g' & msg & E & I & _).
  - assert (L : length twenty_coords = 20%nat) by reflexivity.
    unfold n_invariant.
    cbn [ten_of_twenty TriApp.core TriApp.coords Tri.n]. rewrite L.
    split; [lia|]. split; [exists 1; reflexivity|].
    split; [exists 2; reflexivity | lia].
  - exists g', msg. split; assumption.
Defined.

(** ** Points drawn with the mouse *)

Lemma click_found (x y1 : Z) (points : list point) :
  existsb (fun p => (px p =? x) && (py p =? y1)) points = true
  <-> In (mkPoint x y1) points.
Proof.
  rewrite existsb_exists. split.
  - intros (p & Hp & E). apply andb_true_iff in E. destruct E as [E1 E2].
    apply Z.eqb_eq in E1, E2. subst. now rewrite point_eta.
  - intros H. exists (mkPoint x y1). split; [assumption|].
    cbn [px py]. now rewrite !Z.eqb_refl.
Qed.

Lemma click_spec (h x y : Z) (points : list point) :
  let y1 := h - 10 - y in
  click_outcome h x y points
    (if existsb (fun p => (px p =? x) && (py p =? y1)) points
     then points else points ++ [mkPoint x y1]).
Proof.
  intros y1. unfold click_outcome. fold y1.
  destruct (existsb _ points) eqn:E.
  - apply click_found in E. repeat split; auto; [apply incl_refl | lia].
  - repeat split.
    + apply in_or_app. right. now left.
    + apply incl_appl, incl_refl.
    + rewrite length_app. simpl. lia.
    + intros Hnd. apply NoDup_app; [assumption | repeat constructor; auto |].
      intros p Hp [<- | []].
      apply click_found in Hp. congruence.
Qed.

(** X19. [draw_mouse_point] turns the y-coordinate of the click over
    ([h - 10 - y]) and pushes the point unless a point with these
    coordinates is there already: the points stay pairwise distinct, none
    is removed, and a second click at the same place changes nothing.
    [mouse] passes a click on only in mouse mode, for the left button going
    down. *)
Theorem draw_mouse_point_distinct (x y : Z) :
  (forall g : HullApp.glob,
     click_outcome (Hull.h (HullApp.core g)) x y
       (Hull.points (HullApp.core g))
       (Hull.points (HullApp.core (HullApp.draw_mouse_point x y g))) /\
     HullApp.draw_mouse_point x y (HullApp.draw_mouse_point x y g)
     = HullApp.draw_mouse_point x y g /\
     (HullApp.mouseDraw g = false ->
      forall bin state, HullApp.mouse bin state x y g = g) /\
     (HullApp.mouseDraw g = true ->
      forall bin state,
        HullApp.mouse bin state x y g
        = if (bin =? GLUT_LEFT_BUTTON) && (state =? GLUT_DOWN)
          then HullApp.draw_mouse_point x y g else g)) /\
  (forall g : TriApp.glob,
     click_outcome (Tri.h (TriApp.core g)) x y
       (Tri.points (TriApp.core g))
       (Tri.points (TriApp.core (TriApp.draw_mouse_point x y g))) /\
     TriApp.draw_mouse_point x y (TriApp.draw_mouse_point x y g)
     = TriApp.draw_mouse_point x y g /\
     (TriApp.mouseDraw g = false ->
      forall bin state, TriApp.mouse bin state x y g = g) /\
     (TriApp.mouseDraw g = true ->
      forall bin state,
        TriApp.mouse bin state x y g
        = if (bin =? GLUT_LEFT_BUTTON) && (state =? GLUT_DOWN)
          then TriApp.draw_mouse_point x y g else g)).
Proof.
  split; intros g.
  - pose proof (click_spec (Hull.h (HullApp.core g)) x y
                  (Hull.points (HullApp.core g))) as C.
    cbv zeta in C.
    assert (E : Hull.points (HullApp.core (HullApp.draw_mouse_point x y g))
                = if existsb (fun p => (px p =? x)
                                && (py p =? Hull.h (HullApp.core g) - 10 - y))
                       (Hull.points (HullApp.core g))
                  then Hull.points (HullApp.core g)
                  else Hull.points (HullApp.core g)
                       ++ [mkPoint x (Hull.h (HullApp.core g) - 10 - y)]).
    { unfold HullApp.draw_mouse_point.
      destruct (existsb _ (Hull.points (HullApp.core g))); reflexivity. }
    split; [rewrite E; exact C|]. split.
    + destruct C as (Hin & _). rewrite <- E in Hin.
      unfold HullApp.draw_mouse_point at 1.
      assert (Eh : Hull.h (HullApp.core (HullApp.draw_mouse_point x y g))
                   = Hull.h (HullApp.core g)).
      { unfold HullApp.draw_mouse_point.
        destruct (existsb _ (Hull.points (HullApp.core g))); reflexivity. }
      rewrite Eh. apply click_found in Hin. now rewrite Hin.
    + unfold HullApp.mouse. split; intros ->; reflexivity.
  - pose proof (click_spec (Tri.h (TriApp.core g)) x y
                  (Tri.points (TriApp.core g))) as C.
    cbv zeta in C.
    assert (E : Tri.points (TriApp.core (TriApp.draw_mouse_point x y g))
                = if existsb (fun p => (px p =? x)
                                && (py p =? Tri.h (TriApp.core g) - 10 - y))
                       (Tri.points (TriApp.core g))
                  then Tri.points (TriApp.core g)
                  else Tri.points (TriApp.core g)
                       ++ [mkPoint x (Tri.h (TriApp.core g) - 10 - y)]).
    { unfold TriApp.draw_mouse_point.
      destruct (existsb _ (Tri.points (TriApp.core g))); reflexivity. }
    split; [rewrite E; exact C|]. split.
    + destruct C as (Hin & _). rewrite <- E in Hin.
      unfold TriApp.draw_mouse_point at 1.
      assert (Eh : Tri.h (TriApp.core (TriApp.draw_mouse_point x y g))
                   = Tri.h (TriApp.core g)).
      { unfold TriApp.draw_mouse_point.
        destruct (existsb _ (Tri.points (TriApp.core g))); reflexivity. }
      rewrite Eh. apply click_found in Hin. now rewrite Hin.
    + unfold TriApp.mouse. split; intros ->; reflexivity.
Qed.

(** ** The lattices *)

(** X20. [lattice] of the triangulation program leaves the [n * n]
    points [(5i, 5j)] with [0 <= i, j < n], pairwise distinct, column by
    column, and no edge and no triangle; [lattice] of the hull program
    leaves the 100 points [(100 + 10i, 100 + 10j)] with [0 <= i, j < 10],
    pairwise distinct, and no edge. *)
Theorem lattice_points_distinct :
  (forall g : TriApp.glob,
     let c := TriApp.core (TriApp.lattice g) in
     (forall p, In p (Tri.points c) <->
                exists i j, 0 <= i < Tri.n (TriApp.core g) /\
                            0 <= j < Tri.n (TriApp.core g) /\
                            p = mkPoint (i * 5) (j * 5)) /\
     NoDup (Tri.points c) /\
     Z.of_nat (length (Tri.points c))
     = Z.max 0 (Tri.n (TriApp.core g)) * Z.max 0 (Tri.n (TriApp.core g)) /\
     Tri.edges c = [] /\ Tri.tris c = []) /\
  (forall g : HullApp.glob,
     let c := HullApp.core (HullApp.lattice g) in
     (forall p, In p (Hull.points c) <->
                exists i j, 0 <= i < 10 /\ 0 <= j < 10 /\
                            p = mkPoint (100 + i * 10) (100 + j * 10)) /\
     NoDup (Hull.points c) /\
     length (Hull.points c) = 100%nat /\
     Hull.edges c = []).
Proof.
  split; intros g c.
  - split; [apply lattice_In|]. split; [|split; [|split; reflexivity]].
    + unfold c. rewrite lattice_points.
      apply grid_NoDup; try apply int_range_NoDup.
      intros x y x' y' E. inversion E. lia.
    + unfold c. rewrite lattice_length. nia.
  - assert (E : Hull.points c
                = flat_map (fun i => map (fun j => mkPoint (100 + i * 10)
                                                     (100 + j * 10))
                                       (int_range 0 10)) (int_range 0 10)).
    { unfold c.
      cbn [HullApp.lattice HullApp.core HullApp.set_core Hull.points
           Hull.set_points].
      now rewrite push_grid_rows. }
    split; [|split; [|split; [|reflexivity]]].
    + intros p. unfold c.
      cbn [HullApp.lattice HullApp.core HullApp.set_core Hull.points
           Hull.set_points].
      rewrite push_grid_In. split.
      * intros [[] | (i & j & Hi & Hj & ->)].
        apply int_range_In in Hi, Hj. eauto.
      * intros (i & j & Hi & Hj & ->). right. exists i, j.
        rewrite !int_range_In. auto.
    + rewrite E. apply grid_NoDup; try apply int_range_NoDup.
      intros x y x' y' H.
      pose proof (f_equal px H) as Hx. pose proof (f_equal py H) as Hy.
      cbn [px py] in Hx, Hy. lia.
    + unfold c.
      cbn [HullApp.lattice HullApp.core HullApp.set_core Hull.points
           Hull.set_points].
      rewrite push_grid_length, !int_range_length. reflexivity.
Qed.

(** ** More clusters than points *)

(** X21. [increment_clusters] is refused only when [n] is half the number
    of points: with [n] points in [global.points] ([n > 0], as [random]
    leaves them) it always adds 5 to the number of clusters, with no bound.
    Once the number of clusters is above the number of points,
    [cluster_peel] has no result: it reads [global.points[0]] on an empty
    vector. *)
Theorem increment_clusters_unbounded (g : HullApp.glob)
  (Hn : 0 < Hull.n (HullApp.core g) < 2 ^ 64)
  (Hp : Z.of_nat (length (Hull.points (HullApp.core g)))
        = Hull.n (HullApp.core g)) :
  let c := HullApp.core g in
  HullApp.increment_clusters g
  = (HullApp.set_core g
       (Hull.mkGlob (Hull.w c) (Hull.h c) (Hull.n c) (Hull.points c)
          (Hull.edges c) (Hull.clusters c + 5) (Hull.clustering c)),
     None) /\
  (Hull.n c < Hull.clusters c + 5 ->
   forall fuel indet,
     Hull.cluster_peel fuel indet
       (HullApp.core (fst (HullApp.increment_clusters g))) = None).
Proof.
  intros c.
  assert (E : HullApp.increment_clusters g
              = (HullApp.set_core g
                   (Hull.mkGlob (Hull.w c) (Hull.h c) (Hull.n c) (Hull.points c)
                      (Hull.edges c) (Hull.clusters c + 5) (Hull.clustering c)),
                 None)).
  { unfold HullApp.increment_clusters. fold c.
    assert (Es : Hull.to_size_t (Hull.n c) = Hull.n c)
      by (unfold Hull.to_size_t; apply Z.mod_small; unfold c; lia).
    rewrite Es.
    destruct (Z.eqb_spec (Hull.n c)
                (Z.of_nat (length (Hull.points c)) / 2)) as [Eq | Ne];
      [|reflexivity].
    exfalso. fold c in Hp, Hn. rewrite Hp in Eq.
    pose proof (Z.div_lt (Hull.n c) 2). lia. }
  split; [exact E|].
  intros Many fuel indet. rewrite E. cbn [fst HullApp.core HullApp.set_core].
  unfold Hull.cluster_peel.
  rewrite cluster_loop_needs_points; [reflexivity|].
  cbn [Hull.points Hull.clusters Hull.set_clustering]. fold c in Hp. lia.
Qed.

Lemma increment_clusters_unbounded_witness :
  HullApp.increment_clusters
    (HullApp.mkGlob four_points_five_clusters [] false false)
  = (HullApp.mkGlob
       (Hull.mkGlob 1000 800 4
          [mkPoint 10 10; mkPoint 20 10; mkPoint 20 20; mkPoint 10 20] [] 10
          false) [] false false, None).
Proof.
  refine (proj1 (increment_clusters_unbounded
                   (HullApp.mkGlob four_points_five_clusters [] false false)
                   _ _)).
  - cbn. lia.
  - reflexivity.
Defined.

(** ** What the handlers keep *)

Lemma cluster_iter_frame (fuel : nat) (indet : list point -> Z * Z)
  (g g' : Hull.glob) (r : Hull.report) :
  Hull.cluster_iter fuel indet g = Some (g', r) ->
  Hull.w g' = Hull.w g /\ Hull.h g' = Hull.h g /\ Hull.n g' = Hull.n g /\
  Hull.clusters g' = Hull.clusters g /\
  Hull.clustering g' = Hull.clustering g.
Proof.
  unfold Hull.cluster_iter.
  destruct (Hull.points g) as [|seed rest]; [discriminate|].
  destruct (Hull.grow _ _ _ _ _ _) as [cl|]; [|discriminate].
  destruct (Hull.peel fuel indet g cl) as [[[g1 rest1] r1]|] eqn:Pe;
    [|discriminate].
  intros H. inversion H; subst g' r. clear H.
  apply peel_frame in Pe. destruct Pe as [-> _]. cbn. auto.
Qed.

Lemma cluster_loop_frame (fuel : nat) (indet : list point -> Z * Z) :
  forall i g out g' out',
    Hull.cluster_loop fuel indet i g out = Some (g', out') ->
    Hull.w g' = Hull.w g /\ Hull.h g' = Hull.h g /\ Hull.n g' = Hull.n g /\
    Hull.clusters g' = Hull.clusters g /\
    Hull.clustering g' = Hull.clustering g.
Proof.
  induction i as [|i IH]; intros g out g' out' H; cbn [Hull.cluster_loop] in H.
  - inversion H; subst. auto.
  - destruct (Hull.cluster_iter fuel indet g) as [[g1 r]|] eqn:E;
      [|discriminate].
    apply cluster_iter_frame in E. apply IH in H.
    destruct E as (E1 & E2 & E3 & E4 & E5), H as (H1 & H2 & H3 & H4 & H5).
    repeat split; congruence.
Qed.

Lemma hull_random_keeps (shuffle : list point -> list point)
  (g g' : HullApp.glob) :
  (forall l, Permutation l (shuffle l)) ->
  HullApp.random shuffle g = Some g' -> hull_handler_keeps g g'.
Proof.
  intros Hperm. unfold HullApp.random.
  destruct (push_coords _ _ _) as [pts|]; [|discriminate].
  intros H. inversion H; subst g'. unfold hull_handler_keeps. cbn.
  repeat split; auto; try lia.
Qed.

Lemma hull_increment_keeps (shuffle : list point -> list point)
  (g g' : HullApp.glob) (msg : option Z) :
  (forall l, Permutation l (shuffle l)) ->
  HullApp.increment_n shuffle g = Some (g', msg) -> hull_handler_keeps g g'.
Proof.
  intros Hperm. unfold HullApp.increment_n.
  destruct (_ =? _).
  - intros H. inversion H; subst. unfold hull_handler_keeps.
    repeat split; auto; try lia.
  - destruct (push_coords _ _ _) as [pts|]; [|discriminate].
    intros H. inversion H; subst g' msg. unfold hull_handler_keeps. cbn.
    destruct (HullApp.shuffled g); cbn; repeat split; auto; try lia.
Qed.

(** X22. No key of the hull program changes the window size or loses a
    coordinate of the grid (the coordinate vector is only permuted); [n]
    and the number of clusters never go down; a shuffled coordinate vector
    stays marked as shuffled; and when the clustering flag is off before a
    key it is off after it.  Every entry of the menu does what one of the
    keys does. *)
Theorem hull_keyboard_keeps (fuel : nat) (indet : list point -> Z * Z)
  (shuffle : list point -> list point)
  (Hperm : forall l, Permutation l (shuffle l)) :
  (forall key x y g g',
     HullApp.keyboard fuel indet shuffle key x y g = Some (Running g') ->
     hull_handler_keeps g g') /\
  (forall value x y g,
     HullApp.menuFunc fuel indet shuffle value g
     = HullApp.keyboard fuel indet shuffle (hull_menu_key value) x y g).
Proof.
  split.
  - intros key x y g g'. unfold HullApp.keyboard. cbv zeta.
    assert (Refl : hull_handler_keeps g g)
      by (unfold hull_handler_keeps; repeat split; auto; lia).
    destruct (Ascii.eqb key "027" || _); [discriminate|].
    destruct (Ascii.eqb key "r" || _).
    { destruct (HullApp.random shuffle g) as [g1|] eqn:E; [|discriminate].
      intros H. inversion H; subst. now apply (hull_random_keeps shuffle). }
    destruct (Ascii.eqb key "m" || _).
    { intros H. inversion H; subst. unfold hull_handler_keeps.
      unfold HullApp.set_mouse_draw. cbn.
      destruct (negb (HullApp.mouseDraw g)); cbn; repeat split; auto; lia. }
    destruct (Ascii.eqb key "c" || _).
    { unfold Hull.convex_hull.
      destruct (hull_edges _ _ _ _ _) as [es|]; [|discriminate].
      intros H. inversion H; subst. unfold hull_handler_keeps. cbn.
      repeat split; auto; lia. }
    destruct (Ascii.eqb key "p" || _).
    { destruct (Hull.peel _ _ _ _) as [[[g1 rest] r]|] eqn:E; [|discriminate].
      intros H. inversion H; subst. apply peel_frame in E.
      destruct E as [-> _]. unfold hull_handler_keeps. cbn.
      repeat split; auto; lia. }
    destruct (Ascii.eqb key "l" || _).
    { intros H. inversion H; subst. unfold hull_handler_keeps. cbn.
      repeat split; auto; lia. }
    destruct (Ascii.eqb key "a" || _).
    { destruct (HullApp.increment_n shuffle g) as [[g1 msg]|] eqn:E;
        [|discriminate].
      intros H. inversion H; subst.
      now apply (hull_increment_keeps shuffle _ _ msg). }
    destruct (Ascii.eqb key "u" || _).
    { unfold Hull.cluster_peel.
      destruct (Hull.cluster_loop _ _ _ _ _) as [[g1 out]|] eqn:E;
        [|discriminate].
      intros H. inversion H; subst. apply cluster_loop_frame in E.
      destruct E as (E1 & E2 & E3 & E4 & E5).
      unfold hull_handler_keeps. cbn in *.
      repeat split; auto; lia. }
    destruct (Ascii.eqb key "y" || _).
    { intros H. inversion H; subst. unfold HullApp.increment_clusters.
      destruct (_ =? _); [exact Refl|].
      unfold hull_handler_keeps. cbn. repeat split; auto; lia. }
    intros H. inversion H; subst. exact Refl.
  - intros value x y g. destruct value; reflexivity.
Qed.

Lemma hull_keyboard_keeps_witness :
  hull_handler_keeps small_hull_app
    (HullApp.mkGlob (Hull.mkGlob 13 12 4 [] [] 10 false) small_grid false false).
Proof.
  refine (proj1 (hull_keyboard_keeps 10 indet0 (@rev point) _)
            "y"%char 0 0 small_hull_app _ _).
  - intros l. apply Permutation_rev.
  - reflexivity.
Defined.

Section ScanKeepsN.

Variable rec : Tri.glob -> tri -> option Tri.glob.
Hypothesis rec_n : forall g t g', rec g t = Some g' -> Tri.n g' = Tri.n g.
Variable t : tri.

Lemma scan_keeps_n (l : list point) :
  forall b g0 b' g',
    fold_left (Tri.trisect_body rec t) l (Some (b, g0)) = Some (b', g') ->
    Tri.n g' = Tri.n g0.
Proof.
  induction l as [|p l IH]; intros b g0 b' g' H; cbn [fold_left] in H.
  - now inversion H.
  - destruct (Tri.trisect_body rec t (Some (b, g0)) p) as [[b1 g1]|] eqn:E;
      [|rewrite scan_none in H; discriminate].
    apply IH in H. rewrite H. clear H.
    unfold Tri.trisect_body in E.
    destruct (negb (Tri.is_vertex p t));
      [destruct (Tri.in_extents g0 t p);
       [destruct (Tri.point_in_triangle p t)|]|];
      try (now inversion E).
    destruct (rec g0 _) as [ga|] eqn:Ea; [|discriminate].
    destruct (rec ga _) as [gb|] eqn:Eb; [|discriminate].
    destruct (rec gb _) as [gc|] eqn:Ec; [|discriminate].
    inversion E; subst. apply rec_n in Ea, Eb, Ec. congruence.
Qed.

End ScanKeepsN.

Lemma trisect_keeps_n (fuel : nat) :
  forall g t g', Tri.trisect fuel g t = Some g' -> Tri.n g' = Tri.n g.
Proof.
  induction fuel as [|fuel IH]; intros g t g' H; [discriminate|].
  cbn [Tri.trisect] in H.
  destruct (fold_left _ _ _) as [[b g1]|] eqn:E; [|discriminate].
  apply (scan_keeps_n _ IH) in E.
  destruct (negb b); inversion H; subst; cbn; assumption.
Qed.

Lemma triangulation_frame (fuel : nat) (indet : list point -> Z * Z)
  (g g' : Tri.glob) (out : option Tri.summary) :
  Tri.triangulation fuel indet g = Some (g', out) ->
  Tri.w g' = Tri.w g /\ Tri.h g' = Tri.h g /\ Tri.n g' = Tri.n g.
Proof.
  unfold Tri.triangulation.
  destruct (length (Tri.points g) <? 3)%nat.
  { intros H. inversion H; subst. auto. }
  unfold Tri.convex_hull.
  destruct (hull_edges _ _ _ _ _) as [es|]; [|discriminate].
  destruct (Tri.find_mid _) as [pMid0 minD].
  destruct (if minD =? Tri.INT_MAX then _ else _) as [pMid|]; [|discriminate].
  destruct (Tri.trisect_edges fuel _ pMid _) as [g2|] eqn:TE; [|discriminate].
  assert (N : forall l gx gy, Tri.trisect_edges fuel gx pMid l = Some gy ->
                              Tri.n gy = Tri.n gx).
  { induction l as [|e l IHl]; intros gx gy H; cbn [Tri.trisect_edges] in H.
    - now inversion H.
    - destruct (Tri.trisect fuel gx _) as [g1|] eqn:E; [|discriminate].
      apply trisect_keeps_n in E. apply IHl in H. congruence. }
  pose proof (N _ _ _ TE) as En.
  destruct (trisect_edges_grows _ _ _ _ _ TE) as ((Fw & Fh & _) & _).
  cbn in En, Fw, Fh.
  intros H. cbn in H. inversion H; subst. cbn. auto.
Qed.

(** X23. No key of the triangulation program changes the window size or
    loses a coordinate of the grid; [n] never goes down; a shuffled
    coordinate vector stays marked as shuffled.  Every entry of the menu
    does what one of the keys does; the key [C], which runs [tri_cleanup]
    alone, has no menu entry and leaves the state as it is. *)
Theorem tri_keyboard_keeps (fuel : nat) (indet : list point -> Z * Z)
  (shuffle : list point -> list point)
  (Hperm : forall l, Permutation l (shuffle l)) :
  (forall key x y g g',
     TriApp.keyboard fuel indet shuffle key x y g = Some (Running g') ->
     tri_handler_keeps g g') /\
  (forall value x y g,
     TriApp.menuFunc fuel indet shuffle value g
     = TriApp.keyboard fuel indet shuffle (tri_menu_key value) x y g) /\
  (forall x y g,
     TriApp.keyboard fuel indet shuffle "c" x y g = Some (Running g)).
Proof.
  split; [|split].
  - intros key x y g g'. unfold TriApp.keyboard. cbv zeta.
    assert (Refl : tri_handler_keeps g g)
      by (unfold tri_handler_keeps; repeat split; auto; lia).
    destruct (Ascii.eqb key "027" || _); [discriminate|].
    destruct (Ascii.eqb key "r" || _).
    { unfold TriApp.random.
      destruct (push_coords _ _ _) as [pts|]; [|discriminate].
      intros H. inversion H; subst g'. unfold tri_handler_keeps. cbn.
      repeat split; auto; lia. }
    destruct (Ascii.eqb key "m" || _).
    { intros H. inversion H; subst. unfold tri_handler_keeps.
      unfold TriApp.set_mouse_draw. cbn.
      destruct (negb (TriApp.mouseDraw g)); cbn; repeat split; auto; lia. }
    destruct (Ascii.eqb key "t" || _).
    { destruct (Tri.triangulation _ _ _) as [[g1 out]|] eqn:E; [|discriminate].
      intros H. inversion H; subst. apply triangulation_frame in E.
      destruct E as (E1 & E2 & E3). unfold tri_handler_keeps. cbn.
      repeat split; auto; lia. }
    destruct (Ascii.eqb key "l" || _).
    { intros H. inversion H; subst. unfold tri_handler_keeps. cbn.
      repeat split; auto; lia. }
    destruct (Ascii.eqb key "a" || _).
    { unfold TriApp.increment_n.
      destruct (_ =? _).
      - intros H. inversion H; subst. exact Refl.
      - destruct (push_coords _ _ _) as [pts|]; [|discriminate].
        intros H. inversion H; subst g'. unfold tri_handler_keeps. cbn.
        destruct (TriApp.shuffled g); cbn; repeat split; auto; lia. }
    destruct (Ascii.eqb key "c" || _).
    { intros H. inversion H; subst. unfold tri_handler_keeps. cbn.
      repeat split; auto; lia. }
    intros H. inversion H; subst. exact Refl.
  - intros value x y g. destruct value; reflexivity.
  - intros x y g. unfold TriApp.keyboard. cbn. destruct g. reflexivity.
Qed.

Lemma tri_keyboard_keeps_witness :
  tri_handler_keeps small_tri_app
    (TriApp.mkGlob (Tri.mkGlob 13 12 4 [] [] []) small_grid true false).
Proof.
  refine (proj1 (tri_keyboard_keeps 10 indet0 (@rev point) _)
            "m"%char 0 0 small_tri_app _ _).
  - intros l. apply Permutation_rev.
  - reflexivity.
Defined.

(** ** The recursion of [trisect] on points in general position *)

Lemma area_sum (a b c q : point) :
  score a b q + score b c q + score c a q = score a b c.
Proof. unfold score. ring. Qed.

Lemma score_rotate (a b c : point) : score b c a = score a b c.
Proof. unfold score. ring. Qed.

(** The score against a line is an affine function of the point: its value
    at [q], weighted by the area of the triangle [a b c], is the sum of its
    values at the vertices weighted by the three scores of [q]. *)
Lemma barycentric (a b c q A B : point) :
  score a b c * score A B q
  = score b c q * score A B a + score c a q * score A B b
    + score a b q * score A B c.
Proof. unfold score. ring. Qed.

Lemma strictly_in_spec (t : tri) (q : point) :
  strictly_in t q = true <->
  (0 < score (t_p1 t) (t_p2 t) q /\ 0 < score (t_p2 t) (t_p3 t) q /\
   0 < score (t_p3 t) (t_p1 t) q) \/
  (score (t_p1 t) (t_p2 t) q < 0 /\ score (t_p2 t) (t_p3 t) q < 0 /\
   score (t_p3 t) (t_p1 t) q < 0).
Proof.
  unfold strictly_in.
  rewrite orb_true_iff, !andb_true_iff, !Z.ltb_lt. tauto.
Qed.

(** A function that is nonnegative at the three vertices of a triangle,
    and positive at one of them, is positive strictly inside. *)
Lemma inside_affine_pos (a b c q A B : point) :
  strictly_in (mkTri a b c) q = true ->
  0 <= score A B a -> 0 <= score A B b -> 0 <= score A B c ->
  0 < score A B a + score A B b + score A B c ->
  0 < score A B q.
Proof.
  intros In Ha Hb Hc Hs. apply strictly_in_spec in In. cbn [t_p1 t_p2 t_p3] in In.
  pose proof (area_sum a b c q) as S.
  pose proof (barycentric a b c q A B) as Bq.
  set (e1 := score a b q) in *. set (e2 := score b c q) in *.
  set (e3 := score c a q) in *. set (fa := score A B a) in *.
  set (fb := score A B b) in *. set (fc := score A B c) in *.
  set (fq := score A B q) in *. set (D := score a b c) in *.
  destruct In as [(P1 & P2 & P3) | (N1 & N2 & N3)].
  - assert (0 < D * fq) by nia. nia.
  - assert (D * fq < 0) by nia. nia.
Qed.

Lemma inside_affine_neg (a b c q A B : point) :
  strictly_in (mkTri a b c) q = true ->
  score A B a <= 0 -> score A B b <= 0 -> score A B c <= 0 ->
  score A B a + score A B b + score A B c < 0 ->
  score A B q < 0.
Proof.
  intros In Ha Hb Hc Hs.
  pose proof (inside_affine_pos a b c q B A In) as P.
  rewrite !(score_swap A B) in P. lia.
Qed.

(** A point strictly inside one of the three triangles that join a point
    [p] strictly inside [t] to the sides of [t] is strictly inside [t]. *)
Lemma sub_inside (t : tri) (p q : point) :
  strictly_in t p = true ->
  strictly_in (mkTri (t_p1 t) (t_p2 t) p) q = true \/
  strictly_in (mkTri (t_p2 t) (t_p3 t) p) q = true \/
  strictly_in (mkTri (t_p3 t) (t_p1 t) p) q = true ->
  strictly_in t q = true.
Proof.
  destruct t as [p1 p2 p3]. cbn [t_p1 t_p2 t_p3].
  intros Hp Hq. apply strictly_in_spec in Hp. cbn [t_p1 t_p2 t_p3] in Hp.
  apply strictly_in_spec. cbn [t_p1 t_p2 t_p3].
  pose proof (area_sum p1 p2 p3 p) as S.
  pose proof (score_start p1 p2) as Z1. pose proof (score_end p1 p2) as Z2.
  pose proof (score_start p2 p3) as Z3. pose proof (score_end p2 p3) as Z4.
  pose proof (score_start p3 p1) as Z5. pose proof (score_end p3 p1) as Z6.
  pose proof (score_rotate p1 p2 p3) as R1.
  pose proof (score_rotate p3 p1 p2) as R2.
  assert (R3 : score p3 p1 p2 = score p1 p2 p3) by (unfold score; ring).
  destruct Hp as [(P1 & P2 & P3) | (N1 & N2 & N3)]; [left | right];
    destruct Hq as [Hq | [Hq | Hq]];
    repeat split;
    first [ apply (inside_affine_pos _ _ _ _ _ _ Hq); lia
          | apply (inside_affine_neg _ _ _ _ _ _ Hq); lia ].
Qed.

Lemma vertex_not_inside (t : tri) (q : point) :
  Tri.is_vertex q t = true -> strictly_in t q = false.
Proof.
  unfold Tri.is_vertex. rewrite !orb_true_iff.
  intros H. destruct (strictly_in t q) eqn:E; [|reflexivity].
  apply strictly_in_spec in E.
  destruct H as [[H | H] | H]; apply same_point_eq in H; subst q.
  - rewrite score_start in E. lia.
  - rewrite score_end in E. lia.
  - rewrite (score_start (t_p3 t)) in E. lia.
Qed.

(** Among points no three of which are on a line, a point that passes the
    tests of the scan of [trisect] is strictly inside the triangle. *)
Lemma candidate_strict (g : Tri.glob) (t : tri) (q : point) :
  all_in_range (Tri.points g) ->
  no_three_collinear (Tri.points g) ->
  (forall v, In v (vertices_of t) -> In v (Tri.points g)) ->
  t_p1 t <> t_p2 t ->
  In q (Tri.points g) -> Tri.splits g t q = true ->
  strictly_in t q = true.
Proof.
  intros Hr GP Hv N12 Hq S. unfold Tri.splits in S.
  apply andb_true_iff in S. destruct S as [S Pit].
  apply andb_true_iff in S. destruct S as [Nv _].
  apply negb_true_iff in Nv. unfold Tri.is_vertex in Nv.
  apply orb_false_iff in Nv. destruct Nv as [Nv N3].
  apply orb_false_iff in Nv. destruct Nv as [N1 N2].
  assert (Q1 : q <> t_p1 t)
    by (intros ->; rewrite same_point_refl in N1; discriminate).
  assert (Q2 : q <> t_p2 t)
    by (intros ->; rewrite same_point_refl in N2; discriminate).
  assert (Q3 : q <> t_p3 t)
    by (intros ->; rewrite same_point_refl in N3; discriminate).
  assert (V1 : In (t_p1 t) (Tri.points g)) by (apply Hv; simpl; auto).
  assert (V2 : In (t_p2 t) (Tri.points g)) by (apply Hv; simpl; auto).
  assert (V3 : In (t_p3 t) (Tri.points g)) by (apply Hv; simpl; auto).
  pose proof (GP _ _ _ V1 V2 Hq N12 (not_eq_sym Q1) (not_eq_sym Q2)) as D1.
  apply point_in_triangle_signs in Pit;
    [| apply Hr; assumption | intros v Hv'; apply Hr, Hv, Hv'].
  pose proof (score_swap (t_p1 t) (t_p2 t) q) as Sw.
  apply strictly_in_spec.
  destruct (point_eq_dec (t_p3 t) (t_p1 t)) as [E31 | N31].
  { exfalso. rewrite E31 in Pit. nia. }
  destruct (point_eq_dec (t_p2 t) (t_p3 t)) as [E23 | N23].
  { exfalso. rewrite <- E23 in Pit. nia. }
  pose proof (GP _ _ _ V2 V3 Hq N23 (not_eq_sym Q2) (not_eq_sym Q3)) as D2.
  pose proof (GP _ _ _ V3 V1 Hq N31 (not_eq_sym Q3) (not_eq_sym Q1)) as D3.
  destruct (Z.lt_trichotomy (score (t_p1 t) (t_p2 t) q) 0) as [Lt | [E | Gt]];
    [right | contradiction | left]; repeat split; nia.
Qed.

Lemma strictly_in_distinct (t : tri) (p : point) :
  strictly_in t p = true ->
  t_p1 t <> t_p2 t /\ t_p2 t <> t_p3 t /\ t_p3 t <> t_p1 t.
Proof.
  intros H. apply strictly_in_spec in H.
  assert (Z0 : forall a r, score a a r = 0) by (intros; unfold score; ring).
  repeat split; intros E; rewrite E in H; rewrite Z0 in H; lia.
Qed.

Lemma inner_count_sub (g : Tri.glob) (t sub : tri) (p : point) :
  In p (Tri.points g) -> strictly_in t p = true ->
  sub = mkTri (t_p1 t) (t_p2 t) p \/ sub = mkTri (t_p2 t) (t_p3 t) p \/
  sub = mkTri (t_p3 t) (t_p1 t) p ->
  (inner_count g sub < inner_count g t)%nat.
Proof.
  intros Hp Hin Hsub. unfold inner_count.
  apply (filter_length_lt _ _ _ p); [| assumption | | assumption].
  - intros q _ Hq. apply (sub_inside t p q Hin).
    destruct Hsub as [-> | [-> | ->]]; auto.
  - apply vertex_not_inside. unfold Tri.is_vertex.
    destruct Hsub as [-> | [-> | ->]]; cbn [t_p3];
      rewrite same_point_refl; apply orb_true_r.
Qed.

(** [trisect] returns on every triangle between points no three of which
    are on a line, within a recursion depth of one more than the number of
    points strictly inside the triangle. *)
Lemma trisect_total (n : nat) :
  forall g t,
    all_in_range (Tri.points g) ->
    no_three_collinear (Tri.points g) ->
    (forall v, In v (vertices_of t) -> In v (Tri.points g)) ->
    t_p1 t <> t_p2 t ->
    (inner_count g t <= n)%nat ->
    exists g',
      same_frame g g' /\
      forall fuel, (n < fuel)%nat -> Tri.trisect fuel g t = Some g'.
Proof.
  induction n as [|n IH]; intros g t Hr GP Hv N12 Hn.
  - assert (E : filter (Tri.splits g t) (Tri.points g) = []).
    { apply filter_all_false. intros q Hq.
      destruct (Tri.splits g t q) eqn:S; [|reflexivity].
      pose proof (candidate_strict g t q Hr GP Hv N12 Hq S) as Sq.
      unfold inner_count in Hn.
      assert (Hin : In q (filter (strictly_in t) (Tri.points g)))
        by (apply filter_In; auto).
      destruct (filter (strictly_in t) (Tri.points g)); [destruct Hin|].
      simpl in Hn. lia. }
    exists (Tri.set_tris g (Tri.tris g ++ [t])).
    split; [unfold same_frame; simpl; auto|].
    intros [|fuel] Lf; [lia|]. now apply trisect_leaf.
  - destruct (filter (Tri.splits g t) (Tri.points g)) as [|c cands] eqn:E.
    { exists (Tri.set_tris g (Tri.tris g ++ [t])).
      split; [unfold same_frame; simpl; auto|].
      intros [|fuel] Lf; [lia|]. now apply trisect_leaf. }
    assert (Hc : forall p, In p (c :: cands) ->
                           In p (Tri.points g) /\ strictly_in t p = true).
    { intros p Hp. rewrite <- E in Hp. apply filter_In in Hp.
      destruct Hp as [Hp S]. split; [assumption|].
      now apply (candidate_strict g t p). }
    assert (Gen : forall l g0,
              (forall p, In p l ->
                         In p (Tri.points g) /\ strictly_in t p = true) ->
              same_frame g g0 ->
              exists g1,
                same_frame g g1 /\
                forall fuel, (n < fuel)%nat ->
                             subdivide_all fuel t g0 l = Some g1).
    { induction l as [|p l IHl]; intros g0 Hl F0.
      - exists g0. split; [assumption | reflexivity].
      - destruct (Hl p (or_introl eq_refl)) as [Hp Hin].
        destruct (strictly_in_distinct t p Hin) as (_ & N23 & N31).
        assert (Sub : forall gx sub,
                  same_frame g gx ->
                  sub = mkTri (t_p1 t) (t_p2 t) p \/
                  sub = mkTri (t_p2 t) (t_p3 t) p \/
                  sub = mkTri (t_p3 t) (t_p1 t) p ->
                  exists gy,
                    same_frame g gy /\
                    forall fuel, (n < fuel)%nat ->
                                 Tri.trisect fuel gx sub = Some gy).
        { intros gx sub Fx Hsub.
          pose proof Fx as (_ & _ & Ep & _).
          destruct (IH gx sub) as (gy & Fy & Ry).
          - now rewrite Ep.
          - now rewrite Ep.
          - rewrite Ep. intros v Hv'.
            destruct Hsub as [-> | [-> | ->]];
              simpl in Hv'; destruct Hv' as [<- | [<- | [<- | []]]];
              try assumption; apply Hv; simpl; auto.
          - destruct Hsub as [-> | [-> | ->]]; cbn [t_p1 t_p2]; assumption.
          - pose proof (inner_count_sub g t sub p Hp Hin Hsub) as Lt.
            unfold inner_count in *. rewrite Ep. lia.
          - exists gy. split; [|assumption].
            exact (same_frame_trans _ _ _ Fx Fy). }
        destruct (Sub g0 _ F0 (or_introl eq_refl)) as (ga & Fa & Ra).
        destruct (Sub ga _ Fa (or_intror (or_introl eq_refl)))
          as (gb & Fb & Rb).
        destruct (Sub gb _ Fb (or_intror (or_intror eq_refl)))
          as (gc & Fc & Rc).
        destruct (IHl gc (fun q Hq => Hl q (or_intror Hq)) Fc)
          as (g1 & F1 & R1).
        exists g1. split; [assumption|].
        intros fuel Lf. unfold subdivide_all. cbn [fold_left].
        unfold subdivide_at at 2.
        rewrite (Ra fuel Lf), (Rb fuel Lf), (Rc fuel Lf).
        apply (R1 fuel Lf). }
    destruct (Gen (c :: cands) g Hc (same_frame_refl g)) as (g1 & F1 & R1).
    exists g1. split; [assumption|].
    intros [|fuel] Lf; [lia|]. simpl Tri.trisect.
    rewrite (scan_as_filter fuel t g (Tri.points g) false g
               (same_frame_refl g)).
    rewrite E, (filter_cons_existsb _ _ _ _ E), R1 by lia. reflexivity.
Qed.

(** A function that is nonnegative at the three vertices of a triangle is
    nonnegative strictly inside. *)
Lemma inside_affine_nonneg (a b c q A B : point) :
  strictly_in (mkTri a b c) q = true ->
  0 <= score A B a -> 0 <= score A B b -> 0 <= score A B c ->
  0 <= score A B q.
Proof.
  intros Sq Ha Hb Hc. apply strictly_in_spec in Sq.
  cbn [t_p1 t_p2 t_p3] in Sq.
  pose proof (area_sum a b c q) as S.
  pose proof (barycentric a b c q A B) as Bq.
  set (e1 := score a b q) in *. set (e2 := score b c q) in *.
  set (e3 := score c a q) in *. set (fa := score A B a) in *.
  set (fb := score A B b) in *. set (fc := score A B c) in *.
  set (fq := score A B q) in *. set (D := score a b c) in *.
  destruct Sq as [(P1 & P2 & P3) | (N1 & N2 & N3)].
  - assert (0 <= D * fq) by nia. nia.
  - assert (D * fq <= 0) by nia. nia.
Qed.

(** A point strictly inside a triangle passes the tests of the scan. *)
Lemma strict_is_candidate (g : Tri.glob) (t : tri) (q : point) :
  in_range q -> all_in_range (vertices_of t) ->
  strictly_in t q = true -> Tri.splits g t q = true.
Proof.
  intros Rq Rt Sq.
  unfold Tri.splits. rewrite !andb_true_iff. repeat split.
  - destruct (Tri.is_vertex q t) eqn:V; [|reflexivity].
    apply vertex_not_inside in V. congruence.
  - destruct t as [a b c].
    set (xM := Z.max (px a) (Z.max (px b) (px c))).
    set (xm := Z.min (px a) (Z.min (px b) (px c))).
    set (yM := Z.max (py a) (Z.max (py b) (py c))).
    set (ym := Z.min (py a) (Z.min (py b) (py c))).
    assert (X1 : 0 <= xM - px q).
    { pose proof (inside_affine_nonneg a b c q (mkPoint xM 0) (mkPoint xM 1) Sq)
        as H. unfold score in H. cbn [px py] in H. unfold xM in *. lia. }
    assert (X2 : 0 <= px q - xm).
    { pose proof (inside_affine_nonneg a b c q (mkPoint xm 1) (mkPoint xm 0) Sq)
        as H. unfold score in H. cbn [px py] in H. unfold xm in *. lia. }
    assert (Y1 : 0 <= yM - py q).
    { pose proof (inside_affine_nonneg a b c q (mkPoint 1 yM) (mkPoint 0 yM) Sq)
        as H. unfold score in H. cbn [px py] in H. unfold yM in *. lia. }
    assert (Y2 : 0 <= py q - ym).
    { pose proof (inside_affine_nonneg a b c q (mkPoint 0 ym) (mkPoint 1 ym) Sq)
        as H. unfold score in H. cbn [px py] in H. unfold ym in *. lia. }
    cbv [Tri.in_extents Tri.extents t_p1 t_p2 t_p3].
    rewrite !andb_true_iff, !Z.geb_le, !Z.leb_le.
    unfold xM, xm, yM, ym in *.
    repeat split; [clear X1 Y1 Y2 | clear X2 Y1 Y2 | clear X1 X2 Y1
                  | clear X1 X2 Y2]; lia.
  - apply strictly_in_spec in Sq.
    apply point_in_triangle_signs; [assumption | assumption |]. nia.
Qed.

Lemma leaf_is_empty (g : Tri.glob) (t t' : tri) :
  all_in_range (Tri.points g) ->
  (forall v, In v (vertices_of t) -> In v (Tri.points g)) ->
  leaf_of g t t' -> empty_triangle (Tri.points g) t'.
Proof.
  intros Hr Hv [L1 L2].
  assert (V : forall v, In v (vertices_of t') -> In v (Tri.points g))
    by (intros v Hv'; destruct (L1 v Hv'); auto).
  split; [exact V|].
  intros q Hq. destruct (strictly_in t' q) eqn:E; [|reflexivity].
  apply (strict_is_candidate g) in E;
    [| apply Hr; assumption | intros v Hv'; apply Hr, V, Hv'].
  rewrite (L2 q Hq) in E. discriminate.
Qed.

(** The loop over the hull edges. *)
Lemma trisect_edges_total (pMid : point) (es : list edge) :
  forall g,
    all_in_range (Tri.points g) ->
    no_three_collinear (Tri.points g) ->
    In pMid (Tri.points g) ->
    (forall e, In e es ->
               In (e_p1 e) (Tri.points g) /\ In (e_p2 e) (Tri.points g) /\
               e_p1 e <> e_p2 e) ->
    exists g',
      same_frame g g' /\
      (forall fuel, (length (Tri.points g) < fuel)%nat ->
                    Tri.trisect_edges fuel g pMid es = Some g') /\
      exists new,
        Tri.tris g' = Tri.tris g ++ new /\
        Forall (empty_triangle (Tri.points g)) new.
Proof.
  induction es as [|e es IH]; intros g Hr GP Hm He.
  - exists g. split; [apply same_frame_refl|]. split; [reflexivity|].
    exists []. now rewrite app_nil_r.
  - destruct (He e (or_introl eq_refl)) as (H1 & H2 & N12).
    assert (Hv : forall v, In v (vertices_of (mkTri (e_p1 e) (e_p2 e) pMid)) ->
                           In v (Tri.points g)).
    { intros v Hv. simpl in Hv. destruct Hv as [<- | [<- | [<- | []]]]; auto. }
    destruct (trisect_total (length (Tri.points g)) g
                (mkTri (e_p1 e) (e_p2 e) pMid) Hr GP Hv N12)
      as (g1 & F1 & R1).
    { unfold inner_count. apply List.filter_length_le. }
    pose proof (R1 (S (length (Tri.points g))) (Nat.lt_succ_diag_r _)) as T1.
    destruct (trisect_grows _ _ _ _ T1) as (_ & new1 & E1 & _ & L1).
    pose proof F1 as (_ & _ & Ep & _).
    destruct (IH g1) as (g2 & F2 & R2 & new2 & E2 & L2).
    { now rewrite Ep. }
    { now rewrite Ep. }
    { now rewrite Ep. }
    { intros e' He'. rewrite Ep. apply He. now right. }
    exists g2. split; [exact (same_frame_trans _ _ _ F1 F2)|]. split.
    + intros fuel Lf. cbn [Tri.trisect_edges]. rewrite (R1 fuel Lf).
      apply R2. now rewrite Ep.
    + exists (new1 ++ new2). split.
      * rewrite E2, E1, app_assoc. reflexivity.
      * apply Forall_app. split.
        -- eapply Forall_impl; [|exact L1]. intros t'.
           now apply leaf_is_empty.
        -- rewrite Ep in L2. exact L2.
Qed.

(** X24. On at least three pairwise distinct points, no three of them on
    a line, with x-coordinates in the window, coordinates of absolute value
    at most 16383 (so that no score leaves the range of [int]) and an
    empty edge vector,
    [triangulation] returns, within a recursion depth of one more than the
    number of points.  Every triangle it leaves has its three vertices
    among the input points and no input point strictly inside it. *)
Theorem triangulation_returns (indet : list point -> Z * Z) (g : Tri.glob)
  (H3 : (3 <= length (Tri.points g))%nat)
  (Hnd : NoDup (Tri.points g))
  (Hgen : no_three_collinear (Tri.points g))
  (Hrange : all_in_range (Tri.points g))
  (Hwin : forall r, In r (Tri.points g) -> 0 <= px r < Tri.w g)
  (He : Tri.edges g = []) :
  exists g' s,
    (forall fuel, (length (Tri.points g) < fuel)%nat ->
                  Tri.triangulation fuel indet g = Some (g', Some s)) /\
    forall t, In t (Tri.tris g') -> empty_triangle (Tri.points g) t.
Proof.
  set (pts := Tri.points g) in *.
  assert (Hne : pts <> [])
    by (destruct pts; [simpl in H3; lia | discriminate]).
  assert (Hab : ranged pts (fst (minmax (Tri.w g) indet pts))
                  (snd (minmax (Tri.w g) indet pts))).
  { apply safe_ends_ranged; [assumption | | assumption].
    now apply safe_ends_window. }
  destruct (hull_edges_total (Tri.w g) indet pts Hab H3)
    as (c1 & c2 & C1 & C2 & Q).
  destruct (minmax_in_window (Tri.w g) indet pts Hne Hwin) as [HA HB].
  pose proof (minmax_distinct (Tri.w g) indet pts H3 Hnd Hgen HA) as NAB.
  set (A := fst (minmax (Tri.w g) indet pts)) in *.
  set (B := snd (minmax (Tri.w g) indet pts)) in *.
  set (es := c1 ++ c2).
  assert (Hes : forall e, In e es ->
                  In (e_p1 e) pts /\ In (e_p2 e) pts /\ e_p1 e <> e_p2 e).
  { intros e Hin. unfold es in Hin. apply in_app_or in Hin.
    destruct Hin as [Hin | Hin].
    - repeat split.
      + destruct (chain_points_in _ _ _ _ C1 (e_p1 e)) as [-> | [-> | H]];
          auto. apply edge_points_in. exists e. auto.
      + destruct (chain_points_in _ _ _ _ C1 (e_p2 e)) as [-> | [-> | H]];
          auto. apply edge_points_in. exists e. auto.
      + apply (chain_nondegenerate _ _ _ _ C1 NAB e Hin).
    - repeat split.
      + destruct (chain_points_in _ _ _ _ C2 (e_p1 e)) as [-> | [-> | H]];
          auto. apply edge_points_in. exists e. auto.
      + destruct (chain_points_in _ _ _ _ C2 (e_p2 e)) as [-> | [-> | H]];
          auto. apply edge_points_in. exists e. auto.
      + apply (chain_nondegenerate _ _ _ _ C2 (not_eq_sym NAB) e Hin). }
  set (g1 := Tri.set_edges (Tri.set_tris g []) es).
  assert (Ep1 : Tri.points g1 = pts) by reflexivity.
  destruct (Tri.find_mid g1) as [pMid0 minD] eqn:FM.
  assert (Hmid : exists pMid,
            (if minD =? Tri.INT_MAX
             then match Tri.edges g1 with
                  | [] => None
                  | e :: _ => Some (e_p1 e)
                  end
             else Some pMid0) = Some pMid /\ In pMid pts).
  { destruct (Z.eqb_spec minD Tri.INT_MAX) as [E | N].
    - cbn [Tri.edges g1 Tri.set_edges].
      destruct (chain_linked _ _ _ _ C1) as [_ N1].
      unfold es. destruct c1 as [|e c1']; [contradiction|].
      exists (e_p1 e). split; [reflexivity|].
      apply (Hes e). unfold es. now left.
    - exists pMid0. split; [reflexivity|].
      destruct (mid_scan_inv g1 (Tri.points g1) [] (mkPoint 0 0) Tri.INT_MAX)
        as (_ & I2 & _); [lia | now left | intros p [] |].
      fold (Tri.find_mid g1) in I2. rewrite FM in I2. cbn [fst snd app] in I2.
      destruct I2 as [I2 | (I2 & _)]; [contradiction | exact I2]. }
  destruct Hmid as (pMid & Emid & Hmid).
  destruct (trisect_edges_total pMid es g1) as (g2 & F2 & R2 & new & E2 & L2);
    try assumption.
  set (g3 := Tri.set_edges (Tri.set_points g2 []) []).
  exists g3, (Tri.mkSummary (snd (Tri.tri_cleanup g3)) 0 (length (Tri.tris g3))).
  split.
  - intros fuel Lf. unfold Tri.triangulation. fold pts.
    destruct (Nat.ltb_spec (length pts) 3); [lia|].
    unfold Tri.convex_hull.
    cbn [Tri.w Tri.points Tri.edges Tri.set_tris]. fold pts.
    rewrite He, (Q fuel [] Lf). cbn [app]. fold es. fold g1.
    rewrite FM, Emid. change (Tri.edges g1) with es.
    rewrite (R2 fuel Lf). reflexivity.
  - intros t Ht. cbn [g3 Tri.tris Tri.set_edges Tri.set_points] in Ht.
    rewrite E2 in Ht. cbn [g1 Tri.tris Tri.set_edges Tri.set_tris app] in Ht.
    rewrite Forall_forall in L2. now apply L2.
Qed.

Lemma triangulation_returns_witness :
  exists g' s,
    (forall fuel, (length (Tri.points six_points) < fuel)%nat ->
                  Tri.triangulation fuel indet0 six_points
                  = Some (g', Some s)) /\
    forall t, In t (Tri.tris g') -> empty_triangle (Tri.points six_points) t.
Proof.
  apply (triangulation_returns indet0 six_points).
  - simpl. lia.
  - repeat (apply NoDup_cons;
            [cbn; intros H;
             repeat (destruct H as [H | H]; [discriminate H|]); exact H|]).
    apply NoDup_nil.
  - intros a b c Ha Hb Hc Nab Nac Nbc. cbn in Ha, Hb, Hc.
    repeat (destruct Ha as [<- | Ha]; [|]); try contradiction;
      repeat (destruct Hb as [<- | Hb]; [|]); try contradiction;
      repeat (destruct Hc as [<- | Hc]; [|]); try contradiction;
      try (exfalso; apply Nab; reflexivity);
      try (exfalso; apply Nac; reflexivity);
      try (exfalso; apply Nbc; reflexivity);
      vm_compute; discriminate.
  - range_of_list.
  - intros r Hr. cbn in Hr.
    repeat (destruct Hr as [<- | Hr]; [cbn; lia|]). contradiction.
  - reflexivity.
Defined.

(** ** A session of the hull program *)

Lemma hull_random_state (shuffle : list point -> list point)
  (g : HullApp.glob) :
  (forall l, Permutation l (shuffle l)) ->
  Hull.n (HullApp.core g) <= Z.of_nat (length (HullApp.coords g)) ->
  exists pts,
    HullApp.random shuffle g
    = Some (HullApp.mkGlob
              (Hull.mkGlob (Hull.w (HullApp.core g)) (Hull.h (HullApp.core g))
                 (Hull.n (HullApp.core g)) pts []
                 (Hull.clusters (HullApp.core g))
                 (Hull.clustering (HullApp.core g)))
              (shuffle (HullApp.coords g)) (HullApp.mouseDraw g) true) /\
    random_outcome (Hull.n (HullApp.core g)) (HullApp.coords g) pts
      (shuffle (HullApp.coords g)).
Proof.
  intros Hperm Hn.
  destruct (proj1 (random_slice shuffle (Hull.n (HullApp.core g))
                     (HullApp.coords g) Hperm) Hn) as (pts & E & R).
  exists pts. split; [|exact R].
  unfold HullApp.random. rewrite E. reflexivity.
Qed.

(** X25. After [random], each of the three algorithms of the hull program
    returns, whatever the permutation that [random_shuffle] applied:
    provided the coordinate vector holds pairwise distinct points with
    x-coordinates in the window and coordinates of absolute value at most
    16383 (as [initializeVector] leaves it in the window of [main]), [n] is
    at least 3 and at most the size of that vector, and the number of
    clusters is between 1 and [n].  The keys [R] then [C], [R] then [P]
    and [R] then [U] all leave the program running. *)
Theorem hull_session_returns (shuffle : list point -> list point)
  (Hperm : forall l, Permutation l (shuffle l))
  (indet : list point -> Z * Z) (g : HullApp.glob)
  (Hnd : NoDup (HullApp.coords g))
  (Hwin : forall p, In p (HullApp.coords g) ->
                    0 <= px p < Hull.w (HullApp.core g))
  (Hrange : all_in_range (HullApp.coords g))
  (Hn : 3 <= Hull.n (HullApp.core g) <= Z.of_nat (length (HullApp.coords g)))
  (Hint : Hull.n (HullApp.core g) < 2 ^ 31)
  (Hc : 0 < Hull.clusters (HullApp.core g) <= Hull.n (HullApp.core g)) :
  exists g1,
    (forall fuel x y,
       HullApp.keyboard fuel indet shuffle "r" x y g = Some (Running g1)) /\
    Z.of_nat (length (Hull.points (HullApp.core g1)))
    = Hull.n (HullApp.core g) /\
    NoDup (Hull.points (HullApp.core g1)) /\
    incl (Hull.points (HullApp.core g1)) (HullApp.coords g) /\
    exists fuel0,
      forall fuel x y,
        (fuel0 <= fuel)%nat ->
        (exists g2, HullApp.keyboard fuel indet shuffle "c" x y g1
                    = Some (Running g2)) /\
        (exists g2, HullApp.keyboard fuel indet shuffle "p" x y g1
                    = Some (Running g2)) /\
        (exists g2, HullApp.keyboard fuel indet shuffle "u" x y g1
                    = Some (Running g2)).
Proof.
  destruct (hull_random_state shuffle g Hperm (proj2 Hn))
    as (pts & Erand & (_ & _ & Len & Inc & Nd)).
  specialize (Nd Hnd).
  set (c := HullApp.core g) in *.
  set (c1 := Hull.mkGlob (Hull.w c) (Hull.h c) (Hull.n c) pts []
               (Hull.clusters c) (Hull.clustering c)) in *.
  set (g1 := HullApp.mkGlob c1 (shuffle (HullApp.coords g))
               (HullApp.mouseDraw g) true) in *.
  assert (L3 : (3 <= length pts)%nat) by lia.
  assert (Hw : 0 <= Hull.w c).
  { destruct pts as [|p pts']; [simpl in L3; lia|].
    pose proof (Hwin p (Inc p (or_introl eq_refl))). lia. }
  assert (Rp : all_in_range pts) by exact (all_in_range_incl _ _ Inc Hrange).
  assert (Se : safe_ends (Hull.w c) indet pts).
  { apply safe_ends_window; [exact Rp|]. intros p Hp. apply Hwin, Inc, Hp. }
  assert (Hne : pts <> [])
    by (destruct pts; [simpl in L3; lia | discriminate]).
  destruct (hull_edges_total (Hull.w c) indet pts
              (safe_ends_ranged _ _ _ Rp Se Hne) L3)
    as (h1 & h2 & _ & _ & Q).
  destruct (peel_total indet c1 pts Hw Rp Se)
    as (gp & rest & layers & P & _).
  assert (Tgt : Hull.cluster_target (Hull.set_clustering c1 true)
                = Hull.n c / Hull.clusters c).
  { unfold Hull.cluster_target, Hull.to_size_t.
    cbn [Hull.n Hull.clusters Hull.set_clustering c1].
    rewrite Z.quot_div_nonneg by lia.
    apply Z.mod_small. split.
    - apply Z.div_pos; lia.
    - assert (Hull.n c / Hull.clusters c <= Hull.n c)
        by (apply Z.div_le_upper_bound; nia).
      assert (2 ^ 31 < 2 ^ 64) by (apply Z.pow_lt_mono_r; lia). lia. }
  destruct (cluster_loop_runs indet (Z.to_nat (Hull.clusters c))
              (Hull.set_clustering c1 true) [] eq_refl Hw Nd Rp Se)
    as (f & gu & out & U & _).
  { rewrite Tgt. cbn [Hull.points Hull.set_clustering c1].
    pose proof (Z.mul_div_le (Hull.n c) (Hull.clusters c) (proj1 Hc)) as M.
    assert (1 <= Hull.n c / Hull.clusters c)
      by (apply Z.div_le_lower_bound; lia).
    rewrite Z.max_r by lia.
    apply Nat2Z.inj_le. rewrite Nat2Z.inj_mul, !Z2Nat.id by lia. lia. }
  exists g1. split; [|split; [|split; [|split]]].
  - intros fuel x y.
    change (HullApp.keyboard fuel indet shuffle "r" x y g)
      with (option_map Running (HullApp.random shuffle g)).
    rewrite Erand. reflexivity.
  - cbn [g1 c1 HullApp.core Hull.points]. lia.
  - exact Nd.
  - exact Inc.
  - exists (Nat.max (length pts + 2) f). intros fuel x y Lf.
    split; [|split].
    + change (HullApp.keyboard fuel indet shuffle "c" x y g1)
        with (option_map (fun c0 => Running (HullApp.set_core g1 c0))
                (Hull.convex_hull fuel indet c1 pts)).
      unfold Hull.convex_hull. cbn [Hull.w Hull.edges c1].
      rewrite (Q fuel [] ltac:(lia)). eexists. reflexivity.
    + change (HullApp.keyboard fuel indet shuffle "p" x y g1)
        with (option_map (fun r => Running (HullApp.set_core g1 (fst (fst r))))
                (Hull.peel fuel indet c1 pts)).
      destruct (P fuel ltac:(lia)) as [-> _]. eexists. reflexivity.
    + change (HullApp.keyboard fuel indet shuffle "u" x y g1)
        with (option_map (fun r => Running (HullApp.set_core g1 (fst r)))
                (Hull.cluster_peel fuel indet c1)).
      unfold Hull.cluster_peel.
      change (Hull.clusters c1) with (Hull.clusters c).
      rewrite (U fuel ltac:(lia)). eexists. reflexivity.
Qed.

Lemma hull_session_returns_witness :
  exists g1,
    (forall fuel x y,
       HullApp.keyboard fuel indet0 (@rev point) "r" x y HullApp.main_state
       = Some (Running g1)) /\
    Z.of_nat (length (Hull.points (HullApp.core g1)))
    = Hull.n (HullApp.core HullApp.main_state) /\
    NoDup (Hull.points (HullApp.core g1)) /\
    incl (Hull.points (HullApp.core g1)) (HullApp.coords HullApp.main_state) /\
    exists fuel0,
      forall fuel x y,
        (fuel0 <= fuel)%nat ->
        (exists g2, HullApp.keyboard fuel indet0 (@rev point) "c" x y g1
                    = Some (Running g2)) /\
        (exists g2, HullApp.keyboard fuel indet0 (@rev point) "p" x y g1
                    = Some (Running g2)) /\
        (exists g2, HullApp.keyboard fuel indet0 (@rev point) "u" x y g1
                    = Some (Running g2)).
Proof.
  destruct (grid_spec 1000 800 []) as (grid & E & I & N & L).
  assert (Ec : HullApp.coords HullApp.main_state = grid).
  { unfold HullApp.main_state, HullApp.initializeVector.
    cbn [HullApp.coords HullApp.core Hull.w Hull.h]. exact E. }
  assert (En : Hull.n (HullApp.core HullApp.main_state) = 100) by reflexivity.
  assert (Ew : Hull.w (HullApp.core HullApp.main_state) = 1000) by reflexivity.
  assert (Ek : Hull.clusters (HullApp.core HullApp.main_state) = 5)
    by reflexivity.
  apply (hull_session_returns (@rev point) (@Permutation_rev point) indet0
           HullApp.main_state).
  - rewrite Ec. exact N.
  - intros p Hp. rewrite Ec in Hp. apply I in Hp. rewrite Ew. lia.
  - intros p Hp. rewrite Ec in Hp. apply I in Hp.
    unfold in_range, COORD_MAX. lia.
  - rewrite En, Ec. lia.
  - rewrite En. lia.
  - rewrite Ek, En. lia.
Defined.
